(** * iTowns vector features: data model and tessellation

    A shallow embedding of [src/Core/Feature.js] (the feature data model),
    of the GeoJSON population pipeline and of the Feature2Mesh tessellation
    engine.

    JavaScript objects that are shared or mutated in place (features, number
    arrays, geometry lists, extents, styles) live in a heap indexed by
    locations; plain numbers that serve as array positions, offsets and counts
    are integers; the numbers stored in vertex buffers are kept abstract
    ([JsNumber]) so that nothing below depends on floating-point arithmetic. *)

From stdpp Require Import base option list gmap strings.
From Stdlib Require Import ZArith Lia.

Set Default Proof Using "Type*".

(** ** JavaScript numbers and external collaborators *)

(** Vertex coordinates, altitudes and colour channels are IEEE doubles in the
    source.  The development is parametric in their arithmetic. *)
Class JsNumber := {
  num : Type;
  of_Z : Z → num;
  Infinity : num;
  NaN : num;
  num_neg : num → num;
  num_add : num → num → num;
  num_sub : num → num → num;
  num_mul : num → num → num;
  Math_min : num → num → num;
  Math_max : num → num → num;
  (** [a < b] *)
  num_lt : num → num → bool;
  (** [a == b] on numbers *)
  num_eqb : num → num → bool;
  (** truthiness of a number: neither [0] nor [NaN] *)
  num_truthy : num → bool;
  (** conversion on a store into a [Float32Array] *)
  fround : num → num;
  (** conversion on a store into a [Uint8Array] *)
  to_uint8 : num → Z;
  (** conversion on a store into a [Uint32Array] *)
  to_uint32 : num → Z;
  (** the value [Math.random()] returns in a given generator state *)
  Math_random : nat → num;
}.

Abbreviation loc := nat.

(** [Coordinates] of Core/Geographic/Coordinates, reduced to the fields the
    feature model reads. *)
Record Coordinates `{JsNumber} := mkCoordinates {
  coord_crs : string;
  coord_x : num;
  coord_y : num;
  coord_z : num;
  geodesicNormal : num * num * num;
}.
Arguments mkCoordinates {_} _ _ _ _ _.

(** What Core/Style and the projection code provide to Feature.js. *)
Class FeatureEnv `{JsNumber} := {
  (** the GeoJSON [properties] objects *)
  Properties : Type;
  (** [{}] *)
  empty_properties : Properties;
  (** own parameters of a [Style] *)
  StyleParams : Type;
  (** the parameters of [new Style({}, parent)] *)
  empty_style : StyleParams;
  (** [style.fill.base_altitude], when it is set *)
  fill_base_altitude : StyleParams → option (Properties → Coordinates → num);
  (** [style.stroke.base_altitude], when it is set *)
  stroke_base_altitude : StyleParams → option (Properties → Coordinates → num);
  (** [coordIn.as(feature.crs, coordOut)] followed by
      [feature.setLocalCoordinates(coordOut)]: the projection and the local
      frame are collaborators of the feature model *)
  to_local : string → Coordinates → Coordinates;
  (** [CRS.formatToEPSG] *)
  formatToEPSG : string → string;
  (** [coord.crs = crs; coord.setFromValues(pair[0], pair[1], pair[2])] for a
      GeoJSON position [pair] *)
  setFromValues : string → list num → Coordinates;
  (** the [properties] once [properties.style] has been set to
      [new Style({}, feature.style).setFromGeojsonProperties(properties, type)] *)
  setFromGeojsonProperties : Properties → Z → Properties;
}.

(** ** JavaScript arrays *)

Section JsArray.
Context {A : Type}.

(** A JavaScript [Array]: [None] is a hole (an index below [length] which
    was never written). *)
Definition js_array := list (option A).

(** [a.length = n] *)
Definition set_length (n : nat) (a : js_array) : js_array := resize n None a.

(** [a[i] = v]: the array grows when [i] is past its end. *)
Definition js_set (i : nat) (v : A) (a : js_array) : js_array :=
  if decide (i < length a) then <[i := Some v]> a
  else a ++ replicate (i - length a) None ++ [Some v].

End JsArray.

Arguments js_array : clear implicits.

(** ** The data model of Core/Feature.js *)

(** [FEATURE_TYPES] *)
Definition POINT : Z := 0.
Definition LINE : Z := 1.
Definition POLYGON : Z := 2.

(** [Object.keys(FEATURE_TYPES).find(t => FEATURE_TYPES[t] === type)] finds a
    (truthy) key exactly for these values. *)
Definition is_feature_type (type : Z) : bool :=
  bool_decide (type = POINT ∨ type = LINE ∨ type = POLYGON).

Section Model.
Context `{FeatureEnv}.

(** Modelled from the spec: the [Extent] class (Core/Geographic/Extent is
    not part of the sources): an axis-aligned box in a reference frame. *)
Record Extent := mkExtent {
  extent_crs : string;
  west : num;
  east : num;
  south : num;
  north : num;
}.

Definition defaultExtent (crs : string) : Extent :=
  mkExtent crs Infinity (num_neg Infinity) Infinity (num_neg Infinity).

(** Modelled from the spec: [Extent.union], which only ever grows the box. *)
Definition Extent_union (e other : Extent) : Extent :=
  mkExtent (extent_crs e)
    (Math_min (west e) (west other)) (Math_max (east e) (east other))
    (Math_min (south e) (south other)) (Math_max (north e) (north other)).

(** Modelled from the spec: [Extent.expandByValuesCoordinates]. *)
Definition Extent_expandByValuesCoordinates (e : Extent) (long lat : num) : Extent :=
  mkExtent (extent_crs e)
    (Math_min (west e) long) (Math_max (east e) long)
    (Math_min (south e) lat) (Math_max (north e) lat).

(** Modelled from the spec: [Extent.expandByCoordinates]. *)
Definition Extent_expandByCoordinates (e : Extent) (c : Coordinates) : Extent :=
  Extent_expandByValuesCoordinates e (coord_x c) (coord_y c).

(** One entry of [FeatureGeometry.indices]: [{ offset, count, extent }]. *)
Record SubGeometryIndex := mkSubGeometryIndex {
  offset : Z;
  count : Z;
  sub_extent : option loc;
}.

Record FeatureGeometry := mkFeatureGeometry {
  indices : list SubGeometryIndex;
  properties : Properties;
  geometry_size : Z;
  geometry_extent : option loc;
  _currentExtent : option loc;
  geometry_altitude_min : num;
  geometry_altitude_max : num;
}.

(** The function bound to [feature._pushValues] by the constructor. *)
Inductive PushValues := push2DValues | push3DValues.

(** A [Feature] object.  Its arrays, its extent and its style are
    references: several features may hold the same one.  [feature_id] is
    the property [id], which the constructor leaves [undefined]. *)
Record Feature := mkFeature {
  type : Z;
  geometries : loc;
  vertices : loc;
  feature_crs : string;
  size : Z;
  normals : option loc;
  feature_extent : option loc;
  useCrsOut : bool;
  _pos : nat;
  _pushValues : PushValues;
  style : loc;
  altitude_min : num;
  altitude_max : num;
  feature_id : option string;
}.

Record Style := mkStyle {
  style_parent : option loc;
  style_params : StyleParams;
}.

Inductive Obj :=
| ONumbers (a : js_array num)
| OGeometries (gs : list FeatureGeometry)
| OExtent (e : Extent)
| OStyle (s : Style)
| OFeature (f : Feature).

(** The fields of a [FeatureCollection] that Feature.js reads or writes. *)
Record FeatureCollection := mkFeatureCollection {
  collection_crs : string;
  features : list loc;
  mergeFeatures : bool;
  collection_extent : option loc;
  collection_size : Z;
  collection_style : option loc;
  forceExtentCrs : bool;
  collection_altitude_min : num;
  collection_altitude_max : num;
}.

Record State := mkState {
  heap : gmap nat Obj;
  collection : FeatureCollection;
}.

(** A [FeatureGeometry] is created by [bindNewGeometry] only, which appends
    it to a geometry list that is never reordered: it is named by that list
    and its position in it. *)
Record GeometryRef := mkGeometryRef {
  geometry_list : loc;
  geometry_index : nat;
}.

(** *** Stateful code: a state monad in which an uncaught exception is [None] *)

Definition M (A : Type) : Type := State → option (A * State).

#[export] Instance M_ret : MRet M := λ A a σ, Some (a, σ).
#[export] Instance M_bind : MBind M := λ A B f m σ,
  match m σ with
  | Some (a, σ') => f a σ'
  | None => None
  end.

Definition throw {A} : M A := λ _, None.
Definition get_collection : M FeatureCollection := λ σ, Some (collection σ, σ).
Definition set_collection (c : FeatureCollection) : M unit :=
  λ σ, Some ((), mkState (heap σ) c).

(** [new]: the object is placed at a location that is not in use. *)
Definition alloc (o : Obj) : M loc :=
  λ σ, let l := fresh (dom (heap σ)) in
       Some (l, mkState (<[l := o]> (heap σ)) (collection σ)).

Definition load (l : loc) : M Obj :=
  λ σ, match heap σ !! l with Some o => Some (o, σ) | None => None end.

(** The class of an object; it never changes. *)
Inductive Kind := KNumbers | KGeometries | KExtent | KStyle | KFeature.

Definition kind (o : Obj) : Kind :=
  match o with
  | ONumbers _ => KNumbers
  | OGeometries _ => KGeometries
  | OExtent _ => KExtent
  | OStyle _ => KStyle
  | OFeature _ => KFeature
  end.

#[export] Instance Kind_eq_dec : EqDecision Kind.
Proof. solve_decision. Defined.

(** An assignment to fields or elements of the object at [l]: the object
    exists and keeps its class. *)
Definition store (l : loc) (o : Obj) : M unit :=
  λ σ, match heap σ !! l with
       | Some o' =>
           if decide (kind o' = kind o)
           then Some ((), mkState (<[l := o]> (heap σ)) (collection σ))
           else None
       | None => None
       end.

Definition load_numbers (l : loc) : M (js_array num) :=
  o ← load l; match o with ONumbers a => mret a | _ => throw end.
Definition load_geometries (l : loc) : M (list FeatureGeometry) :=
  o ← load l; match o with OGeometries gs => mret gs | _ => throw end.
Definition load_extent (l : loc) : M Extent :=
  o ← load l; match o with OExtent e => mret e | _ => throw end.
Definition load_style (l : loc) : M Style :=
  o ← load l; match o with OStyle s => mret s | _ => throw end.
Definition load_feature (l : loc) : M Feature :=
  o ← load l; match o with OFeature f => mret f | _ => throw end.

Definition load_geometry (g : GeometryRef) : M FeatureGeometry :=
  gs ← load_geometries (geometry_list g);
  match gs !! geometry_index g with Some x => mret x | None => throw end.

Definition store_geometry (g : GeometryRef) (x : FeatureGeometry) : M unit :=
  gs ← load_geometries (geometry_list g);
  store (geometry_list g) (OGeometries (<[geometry_index g := x]> gs)).

(** [for (const x of xs) body(x)] *)
Fixpoint for_of {A} (xs : list A) (body : A → M unit) : M unit :=
  match xs with
  | [] => mret ()
  | x :: xs' => _ ← body x; for_of xs' body
  end.

(** [if (o) body(o)] for an optional reference *)
Definition when_some {A} (o : option A) (body : A → M unit) : M unit :=
  match o with Some a => body a | None => mret () end.
End Model.

(** ** Core/Feature.js *)

Section FeatureJs.
Context `{FeatureEnv}.

Definition with_indices (g : FeatureGeometry) (v : list SubGeometryIndex) : FeatureGeometry :=
  mkFeatureGeometry v (properties g) (geometry_size g) (geometry_extent g)
    (_currentExtent g) (geometry_altitude_min g) (geometry_altitude_max g).

Definition with_properties (g : FeatureGeometry) (v : Properties) : FeatureGeometry :=
  mkFeatureGeometry (indices g) v (geometry_size g) (geometry_extent g)
    (_currentExtent g) (geometry_altitude_min g) (geometry_altitude_max g).

Definition with_currentExtent (g : FeatureGeometry) (v : option loc) : FeatureGeometry :=
  mkFeatureGeometry (indices g) (properties g) (geometry_size g) (geometry_extent g)
    v (geometry_altitude_min g) (geometry_altitude_max g).

Definition with_geometry_altitude (g : FeatureGeometry) (lo hi : num) : FeatureGeometry :=
  mkFeatureGeometry (indices g) (properties g) (geometry_size g) (geometry_extent g)
    (_currentExtent g) lo hi.

Definition with_pos (f : Feature) (v : nat) : Feature :=
  mkFeature (type f) (geometries f) (vertices f) (feature_crs f) (size f) (normals f)
    (feature_extent f) (useCrsOut f) v (_pushValues f) (style f)
    (altitude_min f) (altitude_max f) (feature_id f).

Definition with_altitude (f : Feature) (lo hi : num) : Feature :=
  mkFeature (type f) (geometries f) (vertices f) (feature_crs f) (size f) (normals f)
    (feature_extent f) (useCrsOut f) (_pos f) (_pushValues f) (style f)
    lo hi (feature_id f).

Definition with_features (c : FeatureCollection) (v : list loc) : FeatureCollection :=
  mkFeatureCollection (collection_crs c) v (mergeFeatures c) (collection_extent c)
    (collection_size c) (collection_style c) (forceExtentCrs c)
    (collection_altitude_min c) (collection_altitude_max c).

Definition with_collection_altitude (c : FeatureCollection) (lo hi : num) : FeatureCollection :=
  mkFeatureCollection (collection_crs c) (features c) (mergeFeatures c) (collection_extent c)
    (collection_size c) (collection_style c) (forceExtentCrs c) lo hi.

(** [new Extent(crs, Infinity, -Infinity, Infinity, -Infinity)] with the
    [crs] of an existing extent *)
Definition new_defaultExtent_like (e : loc) : M loc :=
  ex ← load_extent e;
  alloc (OExtent (defaultExtent (extent_crs ex))).

(** [target.union(other)]: the target extent is updated in place. *)
Definition union_into (target other : loc) : M unit :=
  te ← load_extent target;
  oe ← load_extent other;
  store target (OExtent (Extent_union te oe)).

(** [function _extendBuffer(feature, size)].  Holes fill the new slots. *)
Definition _extendBuffer (feature : loc) (n : nat) : M unit :=
  f ← load_feature feature;
  vs ← load_numbers (vertices f);
  let len := (Z.of_nat (length vs) + Z.of_nat n * size f)%Z in
  if decide (0 ≤ len)%Z then
    _ ← store (vertices f) (ONumbers (set_length (Z.to_nat len) vs));
    match normals f with
    | Some nl =>
        ns ← load_numbers nl;
        store nl (ONumbers (set_length (Z.to_nat len) ns))
    | None => mret ()
    end
  else throw.

(** *** class FeatureGeometry *)

(** [constructor(feature)] *)
Definition FeatureGeometry_new (feature : loc) : M FeatureGeometry :=
  f ← load_feature feature;
  match feature_extent f with
  | Some e =>
      extent ← new_defaultExtent_like e;
      current ← new_defaultExtent_like e;
      mret (mkFeatureGeometry [] empty_properties (size f) (Some extent) (Some current)
              Infinity (num_neg Infinity))
  | None =>
      mret (mkFeatureGeometry [] empty_properties (size f) None None
              Infinity (num_neg Infinity))
  end.

(** The offset that follows the last recorded sub geometry, if any:
    [this.indices[last].offset + this.indices[last].count]. *)
Definition next_offset (g : FeatureGeometry) : option Z :=
  (λ l, offset l + count l)%Z <$> last (indices g).

(** [startSubGeometry(count, feature)].  [count] is a count of vertices;
    [feature.vertices.length / this.size] is the integer quotient, which is
    the JavaScript one whenever [size] divides the length. *)
Definition startSubGeometry (this : GeometryRef) (n : nat) (feature : loc) : M unit :=
  g ← load_geometry this;
  extent ← match geometry_extent g with
           | Some e => l ← new_defaultExtent_like e; mret (Some l)
           | None => mret None
           end;
  f ← load_feature feature;
  vs ← load_numbers (vertices f);
  let offset := default (Z.of_nat (length vs) `div` geometry_size g)%Z (next_offset g) in
  _ ← store_geometry this
        (with_currentExtent
           (with_indices g (indices g ++ [mkSubGeometryIndex offset (Z.of_nat n) extent]))
           extent);
  _extendBuffer feature n.

(** [closeSubGeometry(count, feature)] *)
Definition closeSubGeometry (this : GeometryRef) (n : nat) (feature : loc) : M unit :=
  g ← load_geometry this;
  f ← load_feature feature;
  vs ← load_numbers (vertices f);
  let offset := default (Z.of_nat (length vs) `div` geometry_size g - Z.of_nat n)%Z
                  (next_offset g) in
  let g := with_indices g
             (indices g ++ [mkSubGeometryIndex offset (Z.of_nat n) (_currentExtent g)]) in
  _ ← store_geometry this g;
  match geometry_extent g with
  | Some e =>
      match _currentExtent g with
      | Some c =>
          _ ← union_into e c;
          fresh_extent ← new_defaultExtent_like e;
          store_geometry this (with_currentExtent g (Some fresh_extent))
      | None => throw
      end
  | None => mret ()
  end.

(** [getLastSubGeometry()] *)
Definition getLastSubGeometry (this : GeometryRef) : M (option SubGeometryIndex) :=
  g ← load_geometry this;
  mret (last (indices g)).

(** [feature._pushValues(value0, value1, value2)]: the bound
    [push2DValues] or [push3DValues]. *)
Definition call_pushValues (feature : loc) (value0 value1 value2 : num) : M unit :=
  f ← load_feature feature;
  vs ← load_numbers (vertices f);
  let p := _pos f in
  match _pushValues f with
  | push2DValues =>
      _ ← store (vertices f) (ONumbers (js_set (p + 1) value1 (js_set p value0 vs)));
      store feature (OFeature (with_pos f (p + 2)))
  | push3DValues =>
      _ ← store (vertices f)
            (ONumbers (js_set (p + 2) value2 (js_set (p + 1) value1 (js_set p value0 vs))));
      store feature (OFeature (with_pos f (p + 3)))
  end.

(** [normal.toArray(feature.normals, feature._pos)] under
    [if (feature.normals)] *)
Definition write_normal (feature : loc) (normal : num * num * num) : M unit :=
  f ← load_feature feature;
  match normals f with
  | Some nl =>
      ns ← load_numbers nl;
      let p := _pos f in
      let '(n0, n1, n2) := normal in
      store nl (ONumbers (js_set (p + 2) n2 (js_set (p + 1) n1 (js_set p n0 ns))))
  | None => mret ()
  end.

(** [if (this.size == 3)]: widen the altitude range of the geometry. *)
Definition expand_geometry_altitude (this : GeometryRef) (alt : num) : M unit :=
  g ← load_geometry this;
  if decide (geometry_size g = 3%Z) then
    store_geometry this
      (with_geometry_altitude g (Math_min (geometry_altitude_min g) alt)
         (Math_max (geometry_altitude_max g) alt))
  else mret ().

Definition with_z (c : Coordinates) (v : num) : Coordinates :=
  mkCoordinates (coord_crs c) (coord_x c) (coord_y c) v (geodesicNormal c).

(** [pushCoordinates(coordIn, feature)] *)
Definition pushCoordinates (this : GeometryRef) (coordIn : Coordinates) (feature : loc)
    : M unit :=
  f ← load_feature feature;
  g ← load_geometry this;
  st ← load_style (style f);
  let coordIn :=
    match (if decide (type f = POLYGON) then fill_base_altitude (style_params st)
           else None) with
    | Some hook => with_z coordIn (hook (properties g) coordIn)
    | None =>
        match (if decide (type f = LINE) then stroke_base_altitude (style_params st)
               else None) with
        | Some hook => with_z coordIn (hook (properties g) coordIn)
        | None => coordIn
        end
    end in
  let coordOut := to_local (feature_crs f) coordIn in
  _ ← write_normal feature (geodesicNormal coordOut);
  _ ← call_pushValues feature (coord_x coordOut) (coord_y coordOut) (coord_z coordOut);
  _ ← when_some (_currentExtent g) (λ c,
        e ← load_extent c;
        store c (OExtent (Extent_expandByCoordinates e
                            (if useCrsOut f then coordOut else coordIn))));
  expand_geometry_altitude this (coord_z coordIn).

(** [const defaultNormal = new THREE.Vector3(0, 0, 1)] *)
Definition defaultNormal : num * num * num := (of_Z 0, of_Z 0, of_Z 1).

(** [pushCoordinatesValues(feature, long, lat, alt = 0, normal = defaultNormal)] *)
Definition pushCoordinatesValues (this : GeometryRef) (feature : loc) (long lat : num)
    (alt : option num) (normal : option (num * num * num)) : M unit :=
  let alt := default (of_Z 0) alt in
  let normal := default defaultNormal normal in
  g ← load_geometry this;
  _ ← write_normal feature normal;
  _ ← call_pushValues feature long lat alt;
  _ ← when_some (_currentExtent g) (λ c,
        e ← load_extent c;
        store c (OExtent (Extent_expandByValuesCoordinates e long lat)));
  expand_geometry_altitude this alt.

(** [FeatureGeometry.updateExtent()] *)
Definition FeatureGeometry_updateExtent (this : GeometryRef) : M unit :=
  g ← load_geometry this;
  when_some (geometry_extent g) (λ e,
    when_some (last (indices g)) (λ l,
      match sub_extent l with
      | Some le => union_into e le
      | None => throw
      end)).
End FeatureJs.

Section FeatureClasses.
Context `{FeatureEnv}.

(** *** class Feature *)

(** [constructor(type, collection)].  An unsupported type throws before
    anything is allocated.  [collection.altitude.get] and the bound
    [setLocalCoordinates] are not represented: the latter is part of
    [to_local]. *)
Definition Feature_new (type : Z) : M loc :=
  c ← get_collection;
  if is_feature_type type then
    geometries ← alloc (OGeometries []);
    vertices ← alloc (ONumbers []);
    normals ← (if decide (collection_size c = 3%Z)
               then l ← alloc (ONumbers []); mret (Some l)
               else mret None);
    extent ← match collection_extent c with
             | Some e => l ← new_defaultExtent_like e; mret (Some l)
             | None => mret None
             end;
    style ← alloc (OStyle (mkStyle (collection_style c) empty_style));
    alloc (OFeature
             (mkFeature type geometries vertices (collection_crs c) (collection_size c)
                normals extent
                (match extent with Some _ => negb (forceExtentCrs c) | None => false end)
                0
                (if decide (collection_size c = 3%Z) then push3DValues else push2DValues)
                style Infinity (num_neg Infinity) None))
  else throw.

(** [bindNewGeometry()] *)
Definition bindNewGeometry (this : loc) : M GeometryRef :=
  geometry ← FeatureGeometry_new this;
  f ← load_feature this;
  gs ← load_geometries (geometries f);
  _ ← store (geometries f) (OGeometries (gs ++ [geometry]));
  mret (mkGeometryRef (geometries f) (length gs)).

(** [Feature.updateExtent(geometry)] *)
Definition Feature_updateExtent (this : loc) (geometry : GeometryRef) : M unit :=
  f ← load_feature this;
  g ← load_geometry geometry;
  _ ← when_some (feature_extent f) (λ e,
        match geometry_extent g with
        | Some ge => union_into e ge
        | None => throw
        end);
  if decide (size f = 3%Z) then
    store this
      (OFeature (with_altitude f (Math_min (altitude_min f) (geometry_altitude_min g))
                   (Math_max (altitude_max f) (geometry_altitude_max g))))
  else mret ().

(** [get geometryCount()] *)
Definition geometryCount (this : loc) : M nat :=
  f ← load_feature this;
  gs ← load_geometries (geometries f);
  mret (length gs).

(** *** class FeatureCollection *)

Record FeatureBuildingOptions := mkFeatureBuildingOptions {
  opt_crs : string;
  opt_mergeFeatures : option bool;
  opt_buildExtent : bool;
  opt_forcedExtentCrs : option string;
  opt_structure : string;
  opt_style : option StyleParams;
}.

(** [constructor(options)]: the state in which the collection has just been
    created.  The style object of the options, when there is one, is the
    only other object in the heap. *)
Definition FeatureCollection_new (options : FeatureBuildingOptions) : State :=
  let crs := formatToEPSG (opt_crs options) in
  let h0 : gmap nat Obj :=
    match opt_style options with
    | Some p => {[ 0 := OStyle (mkStyle None p) ]}
    | None => ∅
    end in
  let extent_crs :=
    match opt_forcedExtentCrs options with
    | Some c => if decide (c = "") then crs else c
    | None => crs
    end in
  let l := fresh (dom h0) in
  mkState
    (if opt_buildExtent options then <[l := OExtent (defaultExtent extent_crs)]> h0 else h0)
    (mkFeatureCollection crs []
       (default true (opt_mergeFeatures options))
       (if opt_buildExtent options then Some l else None)
       (if decide (opt_structure options = "3d") then 3%Z else 2%Z)
       (match opt_style options with Some _ => Some 0 | None => None end)
       false
       Infinity (num_neg Infinity)).

(** [FeatureCollection.updateExtent(extent)] *)
Definition FeatureCollection_updateExtent (extent : option loc) : M unit :=
  c ← get_collection;
  _ ← when_some (collection_extent c) (λ ce,
        match extent with
        | Some e => union_into ce e
        | None =>
            for_of (features c) (λ fl,
              f ← load_feature fl;
              match feature_extent f with
              | Some fe => union_into ce fe
              | None => throw
              end)
        end);
  if decide (collection_size c = 3%Z) then
    for_of (features c) (λ fl,
      f ← load_feature fl;
      c ← get_collection;
      set_collection
        (with_collection_altitude c
           (Math_min (collection_altitude_min c) (altitude_min f))
           (Math_max (collection_altitude_max c) (altitude_max f))))
  else mret ().

(** [this.features.filter(feature => feature.geometries.length)] *)
Fixpoint non_empty_features (ls : list loc) : M (list loc) :=
  match ls with
  | [] => mret []
  | fl :: ls' =>
      f ← load_feature fl;
      gs ← load_geometries (geometries f);
      rest ← non_empty_features ls';
      mret (if decide (length gs = 0) then rest else fl :: rest)
  end.

(** [removeEmptyFeature()] *)
Definition removeEmptyFeature : M unit :=
  c ← get_collection;
  kept ← non_empty_features (features c);
  set_collection (with_features c kept).

(** [this.features.push(feature)] *)
Definition push_feature_ref (feature : loc) : M unit :=
  c ← get_collection;
  set_collection (with_features c (features c ++ [feature])).

(** [pushFeature(feature)] *)
Definition pushFeature (feature : loc) : M unit :=
  _ ← push_feature_ref feature;
  f ← load_feature feature;
  FeatureCollection_updateExtent (feature_extent f).

(** [this.features.find(callback)] *)
Fixpoint find_feature (callback : Feature → bool) (ls : list loc) : M (option loc) :=
  match ls with
  | [] => mret None
  | fl :: ls' =>
      f ← load_feature fl;
      if callback f then mret (Some fl) else find_feature callback ls'
  end.

(** [requestFeature(type, callback)] *)
Definition requestFeature (type : Z) (callback : Feature → bool) : M loc :=
  c ← get_collection;
  feature ← find_feature callback (features c);
  match feature, mergeFeatures c with
  | Some fl, true => mret fl
  | _, _ =>
      newFeature ← Feature_new type;
      _ ← push_feature_ref newFeature;
      mret newFeature
  end.

(** [requestFeatureByType(type)] *)
Definition requestFeatureByType (ty : Z) : M loc :=
  requestFeature ty (λ feature, bool_decide (type feature = ty)).

(** [requestFeatureById(id, type)]; [None] is the id [undefined]. *)
Definition requestFeatureById (id : option string) (ty : Z) : M loc :=
  requestFeature ty (λ feature, bool_decide (feature_id feature = id)).

(** [newFeatureByReference(feature)] *)
Definition newFeatureByReference (feature : loc) : M loc :=
  src ← load_feature feature;
  ref ← Feature_new (type src);
  r ← load_feature ref;
  _ ← store ref
        (OFeature
           (mkFeature (type r) (geometries src) (vertices src) (feature_crs r) (size src)
              (normals src) (feature_extent src) (useCrsOut r) (_pos src) (_pushValues r)
              (style r) (altitude_min r) (altitude_max r) (feature_id r)));
  _ ← push_feature_ref ref;
  mret ref.

(** [setParentStyle(style)] *)
Definition setParentStyle (style_ref : option loc) : M unit :=
  when_some style_ref (λ s,
    c ← get_collection;
    for_of (features c) (λ fl,
      f ← load_feature fl;
      st ← load_style (style f);
      store (style f) (OStyle (mkStyle (Some s) (style_params st))))).
End FeatureClasses.

(** ** The GeoJSON population pipeline (GeoJsonParser) *)

Section GeoJsonParser.
Context `{FeatureEnv}.

(** A GeoJSON position: [[x, y]] or [[x, y, z]]. *)
Definition Position := list num.

(** [json.geometry]: its (lower-cased) [type] and its [coordinates]. *)
Inductive GeoJsonGeometry :=
| Point (coordinates : Position)
| LineString (coordinates : list Position)
| MultiPoint (coordinates : list Position)
| MultiLineString (coordinates : list (list Position))
| Polygon (coordinates : list (list Position))
| MultiPolygon (coordinates : list (list (list Position)))
| GeometryCollection.

Record JsonFeature := mkJsonFeature {
  json_geometry : GeoJsonGeometry;
  json_properties : Properties;
}.

(** [collection.filterExtent && firstPtIsOut(collection.filterExtent, aCoords, crs)],
    given as the test on the first position that the filter extent of the
    options defines ([None]: no filter extent).  Reading the first position
    of an empty list throws. *)
Definition firstPtIsOut (filterExtent : option (Coordinates → bool)) (aCoords : list Position)
    (crs : string) : M bool :=
  match filterExtent with
  | None => mret false
  | Some isPointInside =>
      match aCoords with
      | [] => throw
      | first :: _ => mret (negb (isPointInside (setFromValues crs first)))
      end
  end.

(** [geometry.properties = properties; geometry.properties.style = ...] *)
Definition set_properties (geometry : GeometryRef) (p : Properties) (feature : loc) : M unit :=
  f ← load_feature feature;
  g ← load_geometry geometry;
  store_geometry geometry (with_properties g (setFromGeojsonProperties p (type f))).

Section toFeature.
Variable filterExtent : option (Coordinates → bool).

(** [toFeature.populateGeometry(crsIn, coordinates, geometry, collection, feature)] *)
Definition populateGeometry (crsIn : string) (coordinates : list Position)
    (geometry : GeometryRef) (feature : loc) : M unit :=
  _ ← startSubGeometry geometry (length coordinates) feature;
  _ ← for_of coordinates (λ pair,
        pushCoordinates geometry (setFromValues crsIn pair) feature);
  FeatureGeometry_updateExtent geometry.

(** [toFeature.default(feature, crsIn, coordsIn, collection, properties)] *)
Definition toFeature_default (feature : loc) (crsIn : string) (coordsIn : list Position)
    (p : Properties) : M unit :=
  out ← firstPtIsOut filterExtent coordsIn crsIn;
  if out : bool then mret ()
  else
    geometry ← bindNewGeometry feature;
    _ ← set_properties geometry p feature;
    _ ← populateGeometry crsIn coordsIn geometry feature;
    Feature_updateExtent feature geometry.

(** [toFeature.point(feature, crsIn, coordsIn, collection, properties)] *)
Definition toFeature_point (feature : loc) (crsIn : string) (coordsIn : Position)
    (p : Properties) : M unit :=
  toFeature_default feature crsIn [coordsIn] p.

(** [toFeature.polygon(feature, crsIn, coordsIn, collection, properties)] *)
Definition toFeature_polygon (feature : loc) (crsIn : string)
    (coordsIn : list (list Position)) (p : Properties) : M unit :=
  out ← match filterExtent, coordsIn with
        | Some _, [] => throw
        | _, _ => firstPtIsOut filterExtent (default [] (head coordsIn)) crsIn
        end;
  if out : bool then mret ()
  else
    geometry ← bindNewGeometry feature;
    _ ← set_properties geometry p feature;
    _ ← for_of coordsIn (λ ring, populateGeometry crsIn ring geometry feature);
    Feature_updateExtent feature geometry.

(** [toFeature.multi(type, feature, crsIn, coordsIn, collection, properties)],
    the method [this[type]] being passed as a function *)
Definition toFeature_multi {A} (method : loc → string → A → Properties → M unit)
    (feature : loc) (crsIn : string) (coordsIn : list A) (p : Properties) : M unit :=
  for_of coordsIn (λ coords, method feature crsIn coords p).

(** [coordinatesToFeature(type, feature, crsIn, coordinates, collection, properties)];
    a [Point] arrives here with its position wrapped in a list. *)
Definition coordinatesToFeature (geometry : GeoJsonGeometry) (feature : loc)
    (crsIn : string) (p : Properties) : M unit :=
  match geometry with
  | Point c => toFeature_default feature crsIn [c] p
  | LineString [] | MultiPoint [] | MultiLineString [] | Polygon [] | MultiPolygon [] =>
      mret ()
  | LineString cs => toFeature_default feature crsIn cs p
  | MultiPoint cs => toFeature_multi toFeature_point feature crsIn cs p
  | MultiLineString cs => toFeature_multi toFeature_default feature crsIn cs p
  | Polygon cs => toFeature_polygon feature crsIn cs p
  | MultiPolygon cs => toFeature_multi toFeature_polygon feature crsIn cs p
  | GeometryCollection => throw
  end.

(** [toFeatureType(jsonType)] *)
Definition toFeatureType (geometry : GeoJsonGeometry) : option Z :=
  match geometry with
  | Point _ | MultiPoint _ => Some POINT
  | LineString _ | MultiLineString _ => Some LINE
  | Polygon _ | MultiPolygon _ => Some POLYGON
  | GeometryCollection => None
  end.

(** [jsonFeatureToFeature(crsIn, json, collection)].  The copy of the
    other keys of [json] into [properties.geojson] is part of
    [json_properties]. *)
Definition jsonFeatureToFeature (crsIn : string) (json : JsonFeature) : M loc :=
  match toFeatureType (json_geometry json) with
  | None => throw
  | Some featureType =>
      feature ← requestFeatureByType featureType;
      _ ← coordinatesToFeature (json_geometry json) feature crsIn (json_properties json);
      mret feature
  end.

(** The loop and the two final calls of
    [jsonFeaturesToFeatures(crsIn, jsonFeatures, options)], run on the
    collection that [new FeatureCollection(options)] created. *)
Definition populate_collection (crsIn : string) (jsonFeatures : list JsonFeature)
    (filter : JsonFeature → bool) : M unit :=
  _ ← for_of jsonFeatures (λ jsonFeature,
        if filter jsonFeature then _ ← jsonFeatureToFeature crsIn jsonFeature; mret ()
        else mret ());
  _ ← removeEmptyFeature;
  FeatureCollection_updateExtent None.
End toFeature.

(** [jsonFeaturesToFeatures(crsIn, jsonFeatures, options)]: the state that
    holds the returned collection, or [None] when an exception was thrown. *)
Definition jsonFeaturesToFeatures (crsIn : string) (jsonFeatures : list JsonFeature)
    (options : FeatureBuildingOptions) (filterExtent : option (Coordinates → bool))
    (filter : JsonFeature → bool) : option State :=
  snd <$> populate_collection filterExtent crsIn jsonFeatures filter
            (FeatureCollection_new options).
End GeoJsonParser.

(** ** The tessellation engine (Feature2Mesh) *)

(** [contextStyle.stroke] and [contextStyle.fill], as far as the engine
    reads them; [C] is the type of colour values. *)
Record Stroke `{JsNumber} (C : Type) := mkStroke {
  stroke_width : num;
  stroke_color : C;
}.
Arguments mkStroke {_ _} _ _.
Arguments stroke_width {_ _} _.
Arguments stroke_color {_ _} _.

Record ContextStyle `{JsNumber} (C : Type) := mkContextStyle {
  (** [contextStyle.stroke], when it is defined *)
  context_stroke : option (Stroke C);
  (** [contextStyle.fill.color], when [contextStyle.fill] is truthy *)
  context_fill : option C;
}.
Arguments mkContextStyle {_ _} _ _.
Arguments context_stroke {_ _} _.
Arguments context_fill {_ _} _.

(** [feature.style.fill.extrusion_height]: a number or a function of the
    properties of a geometry. *)
Inductive StyleValue `{FeatureEnv} :=
| StyleNumber (v : num)
| StyleFunction (f : Properties → num).

(** What THREE, Earcut and Core/Style provide to the tessellation.  A style
    is read through its own parameters: the values that it takes from a
    parent style are those that [drawingStylefromContext], [fill_color] and
    [fill_extrusion_height] give for it. *)
Class MeshEnv `{FeatureEnv} := {
  (** a colour: a [THREE.Color], or a value that [new THREE.Color] accepts *)
  ColorValue : Type;
  (** [undefined], as a colour value *)
  color_undefined : ColorValue;
  (** a number, as a colour value *)
  color_of_number : num → ColorValue;
  (** [new THREE.Color(value)] *)
  THREE_Color : ColorValue → ColorValue;
  (** the properties [r], [g] and [b] of a colour value, as numbers *)
  color_r : ColorValue → num;
  color_g : ColorValue → num;
  color_b : ColorValue → num;
  (** [color.copy(c); color.multiplyScalar(s)]: the value of [color] *)
  multiplyScalar : ColorValue → num → ColorValue;
  (** the number [0.5] *)
  one_half : num;
  (** [geometry.properties.style], when it is truthy *)
  properties_style : Properties → option StyleParams;
  (** [style.drawingStylefromContext(ctx)] for the zoom level and the
      properties of [ctx]; [None] is a falsy result *)
  drawingStylefromContext : StyleParams → num → Properties → option (ContextStyle ColorValue);
  (** [style.fill.extrusion_height], when it is defined *)
  fill_extrusion_height : StyleParams → option StyleValue;
  (** [style.fill.color], when it is a function *)
  fill_color : StyleParams → option (Properties → ColorValue);
  (** [Earcut(vertices, holes, 3)] *)
  Earcut : list num → list Z → list Z;
}.

(** *** Typed arrays *)

Section TypedArrays.
Context {A : Type}.

(** [a[i] = v] on a typed array: a write outside of the array is ignored. *)
Definition ta_set (i : Z) (v : A) (a : list A) : list A :=
  if decide (0 ≤ i < Z.of_nat (length a))%Z then <[Z.to_nat i := v]> a else a.

(** An index argument of [slice], relative to the end when negative. *)
Definition relative_index (k len : Z) : Z :=
  if decide (k < 0)%Z then Z.max (len + k) 0 else Z.min k len.

(** [a.slice(from, to)] *)
Definition slice (from to : Z) (a : list A) : list A :=
  let len := Z.of_nat (length a) in
  let from := relative_index from len in
  let to := relative_index to len in
  take (Z.to_nat (to - from)) (drop (Z.to_nat from) a).
End TypedArrays.

(** The value that a store into a [Uint16Array] keeps of an integer. *)
Definition Uint16 (v : Z) : Z := (v mod 65536)%Z.

Section Feature2Mesh.
Context `{MeshEnv}.

(** [a[i]] where a number is expected: [undefined] (a hole, or an index
    outside of the array) counts as [NaN]. *)
Definition js_get (a : js_array num) (i : Z) : num :=
  if decide (0 ≤ i)%Z then
    match a !! Z.to_nat i with
    | Some (Some v) => v
    | _ => NaN
    end
  else NaN.

(** [new Float32Array(a)] for an array [a] *)
Definition Float32Array_from (a : js_array num) : list num :=
  map (λ x, match x with Some v => fround v | None => NaN end) a.

(** What the engine reads of a feature: the arrays and the style object are
    read through the references of the feature, and are not written.  The
    engine is that of features in three dimensions: [ptsIn.length / 3] is
    the integer quotient below, which is the JavaScript value when the
    vertices are triples. *)
Record FeatureView := mkFeatureView {
  view_type : Z;
  view_vertices : js_array num;
  view_normals : option (js_array num);
  view_geometries : list FeatureGeometry;
  view_style : StyleParams;
  view_altitude_min : num;
}.

(** The view of the feature at [feature] in the state [σ]. *)
Definition view (σ : State) (feature : loc) : option FeatureView :=
  match heap σ !! feature with
  | Some (OFeature f) =>
      match heap σ !! vertices f, heap σ !! geometries f, heap σ !! style f with
      | Some (ONumbers vs), Some (OGeometries gs), Some (OStyle st) =>
          match normals f with
          | Some nl =>
              match heap σ !! nl with
              | Some (ONumbers ns) =>
                  Some (mkFeatureView (type f) vs (Some ns) gs (style_params st) (altitude_min f))
              | _ => None
              end
          | None => Some (mkFeatureView (type f) vs None gs (style_params st) (altitude_min f))
          end
      | _, _, _ => None
      end
  | _ => None
  end.

(** [options.color] *)
Inductive ColorOption :=
| ColorUnset
| ColorConstant (c : ColorValue)
| ColorFunction (f : Properties → option ColorValue).

(** The [options] of the conversion. *)
Record ConvertOptions := mkConvertOptions {
  (** [options.batchId], when it is defined *)
  options_batchId : option (Properties → Z → num);
  options_color : ColorOption;
  (** [options.altitude], when it is defined *)
  options_altitude : option num;
  (** [options.fnAltitude], a number, when it is defined *)
  options_fnAltitude : option num;
}.

(** [THREE.BufferGeometry]: the attributes and the index that were set.
    Positions are the elements of a [Float32Array], colours those of a
    [Uint8Array], batch ids those of a [Uint32Array], indices those of a
    [Uint16Array]. *)
Record BufferGeometry := mkBufferGeometry {
  attributes_position : option (list num);
  attributes_color : option (list Z);
  attributes_batchId : option (list Z);
  geom_index : option (list Z);
}.

Inductive Primitive := Points | Line | LineSegments | Mesh.

(** A [THREE.Object3D] that the engine returns. *)
Record Object3D := mkObject3D {
  primitive : Primitive;
  geometry : BufferGeometry;
  (** [material.linewidth], when the engine has set it *)
  linewidth : option num;
  (** [material.vertexColors] and [material.color], when the engine has set
      them *)
  vertexColors : bool;
  material_color : option Z;
  (** [mesh.feature] *)
  mesh_feature : option FeatureView;
}.

(** [new THREE.BufferGeometry()] *)
Definition BufferGeometry_new : BufferGeometry := mkBufferGeometry None None None None.

(** [function randomColor()], in a given state of the random generator *)
Definition randomColor (random_state : nat) : ColorValue * nat :=
  (THREE_Color (color_of_number (num_mul (Math_random random_state) (of_Z 16777215))),
   S random_state).

(** [getProperty('color', options, randomColor, properties)] *)
Definition getProperty_color (options : ConvertOptions) (p : Properties) (random_state : nat)
    : ColorValue * nat :=
  match options_color options with
  | ColorFunction f =>
      match f p with
      | Some c => (c, random_state)
      | None => randomColor random_state
      end
  | ColorConstant c => (c, random_state)
  | ColorUnset => randomColor random_state
  end.

Fixpoint fillColorArray_loop (n : nat) (i : Z) (c : ColorValue) (colors : list Z) : list Z :=
  match n with
  | 0 => colors
  | S n' =>
      let colors := ta_set i (to_uint8 (num_mul (color_r c) (of_Z 255))) colors in
      let colors := ta_set (i + 1) (to_uint8 (num_mul (color_g c) (of_Z 255))) colors in
      let colors := ta_set (i + 2) (to_uint8 (num_mul (color_b c) (of_Z 255))) colors in
      fillColorArray_loop n' (i + 3) c colors
  end.

(** [fillColorArray(colors, length, color, offset)]: the loop runs [length]
    times, from [i = offset * 3]. *)
Definition fillColorArray (colors : list Z) (length : Z) (c : ColorValue) (offset : Z)
    : list Z :=
  fillColorArray_loop (Z.to_nat length) (offset * 3) c colors.

Fixpoint fillBatchIdArray_loop (n : nat) (i : Z) (batchId : num) (batchIdArray : list Z)
    : list Z :=
  match n with
  | 0 => batchIdArray
  | S n' => fillBatchIdArray_loop n' (i + 1) batchId (ta_set i (to_uint32 batchId) batchIdArray)
  end.

(** [fillBatchIdArray(batchId, batchIdArray, start, end)] *)
Definition fillBatchIdArray (batchId : num) (batchIdArray : list Z) (start end_ : Z)
    : list Z :=
  fillBatchIdArray_loop (Z.to_nat (end_ - start)) start batchId batchIdArray.

Fixpoint coordinatesToVertices_loop (n : nat) (i j : Z) (ptsIn normals : js_array num)
    (d : num) (target : list num) : list num :=
  match n with
  | 0 => target
  | S n' =>
      let at_ k := fround (num_add (js_get ptsIn (i + k)) (num_mul (js_get normals (i + k)) d)) in
      let target := ta_set j (at_ 0%Z) target in
      let target := ta_set (j + 1) (at_ 1%Z) target in
      let target := ta_set (j + 2) (at_ 2%Z) target in
      coordinatesToVertices_loop n' (i + 3) (j + 3) ptsIn normals d target
  end.

(** [coordinatesToVertices(ptsIn, normals, target, altitude, extrude,
    offsetOut, countIn, startIn)]: the loop runs [countIn] times; reading
    [normals[i]] throws when [normals] is undefined. *)
Definition coordinatesToVertices (ptsIn : js_array num) (normals : option (js_array num))
    (target : list num) (altitude extrude : num) (offsetOut countIn startIn : Z)
    : option (list num) :=
  if decide (countIn ≤ 0)%Z then Some target
  else
    ns ← normals;
    Some (coordinatesToVertices_loop (Z.to_nat countIn) (startIn * 3) (offsetOut * 3)
            ptsIn ns (num_sub extrude altitude) target).

Fixpoint addExtrudedPolygonSideFaces_loop (n : nat) (i : Z) (j : nat) (length : Z)
    (isClockWise : bool) (indices : js_array Z) : js_array Z :=
  match n with
  | 0 => indices
  | S n' =>
      let indices :=
        if isClockWise then
          let indices := js_set j i indices in
          let indices := js_set (j + 1) (i + length)%Z indices in
          let indices := js_set (j + 2) (i + 1)%Z indices in
          let indices := js_set (j + 3) (i + 1)%Z indices in
          let indices := js_set (j + 4) (i + length)%Z indices in
          js_set (j + 5) (i + length + 1)%Z indices
        else
          let indices := js_set j (i + length)%Z indices in
          let indices := js_set (j + 1) i indices in
          let indices := js_set (j + 2) (i + length + 1)%Z indices in
          let indices := js_set (j + 3) (i + length + 1)%Z indices in
          let indices := js_set (j + 4) i indices in
          js_set (j + 5) (i + 1)%Z indices in
      addExtrudedPolygonSideFaces_loop n' (i + 1) (j + 6) length isClockWise indices
  end.

(** [addExtrudedPolygonSideFaces(indices, length, offset, count, isClockWise)]:
    the array that [indices] is afterwards.  [indices.length += (count - 1) * 6]
    throws when the new length is negative. *)
Definition addExtrudedPolygonSideFaces (indices : js_array Z) (length offset count : Z)
    (isClockWise : bool) : option (js_array Z) :=
  let startIndice := List.length indices in
  let new_length := (Z.of_nat startIndice + (count - 1) * 6)%Z in
  if decide (new_length < 0)%Z then None
  else
    Some (addExtrudedPolygonSideFaces_loop (Z.to_nat (count - 1)) offset startIndice length
            isClockWise (set_length (Z.to_nat new_length) indices)).

(** [(geometry.properties.style || feature.style).drawingStylefromContext(ctx)] *)
Definition contextStyle_of (feature : FeatureView) (zoom : num) (g : FeatureGeometry)
    : option (ContextStyle ColorValue) :=
  drawingStylefromContext (default (view_style feature) (properties_style (properties g)))
    zoom (properties g).

(** The batch ids of one geometry, under [if (batchIds)]: the array and
    [featureId] afterwards. *)
Definition fill_batchIds (options : ConvertOptions) (g : FeatureGeometry)
    (batchIds : option (list Z)) (featureId : Z) (ranges : list (Z * Z))
    : option (list Z) * Z :=
  match batchIds, options_batchId options with
  | Some b, Some fn =>
      let id := fn (properties g) featureId in
      (Some (foldl (λ b r, fillBatchIdArray id b r.1 r.2) b ranges), (featureId + 1)%Z)
  | _, _ => (batchIds, featureId)
  end.

(** [options.batchId ? new Uint32Array(n) : undefined] *)
Definition new_batchIds (options : ConvertOptions) (n : Z) : option (list Z) :=
  match options_batchId options with
  | Some _ => Some (replicate (Z.to_nat n) 0%Z)
  | None => None
  end.

Fixpoint featureToPoint_loop (gs : list FeatureGeometry) (options : ConvertOptions)
    (colors : list Z) (batchIds : option (list Z)) (featureId : Z) (random_state : nat)
    : option (list Z * option (list Z) * nat) :=
  match gs with
  | [] => Some (colors, batchIds, random_state)
  | g :: gs' =>
      let '(c, random_state) := getProperty_color options (properties g) random_state in
      first ← head (indices g);
      let start := offset first in
      let colors := fillColorArray colors (count first) c start in
      let '(batchIds, featureId) :=
        fill_batchIds options g batchIds featureId [(start, start + count first)%Z] in
      featureToPoint_loop gs' options colors batchIds featureId random_state
  end.

(** [function featureToPoint(feature, options)] *)
Definition featureToPoint (feature : FeatureView) (options : ConvertOptions)
    (random_state : nat) : option (Object3D * nat) :=
  let ptsIn := view_vertices feature in
  let len := Z.of_nat (length ptsIn) in
  let colors := replicate (length ptsIn) 0%Z in
  let batchIds := new_batchIds options (len / 3) in
  vertices ←
    (if match options_altitude options with
        | Some a => negb (num_eqb a (of_Z 0))
        | None => true
        end
     then coordinatesToVertices ptsIn (view_normals feature)
            (replicate (length ptsIn) (of_Z 0))
            (default (of_Z 0) (options_fnAltitude options)) (of_Z 0) 0 (len / 3) 0
     else Some (Float32Array_from ptsIn));
  '(colors, batchIds, random_state) ←
    featureToPoint_loop (view_geometries feature) options colors batchIds 0 random_state;
  Some (mkObject3D Points (mkBufferGeometry (Some vertices) (Some colors) batchIds None)
          None false None None,
        random_state).

(** The inner loop of [featureToLine]: [n] is the number of values of [j]
    from [start] up to [end - 1]. *)
Fixpoint featureToLine_edges (n : nat) (j : Z) (indices : list Z) (i : Z) : list Z * Z :=
  match n with
  | 0 => (indices, i)
  | S n' =>
      if decide (j < 65535)%Z then
        featureToLine_edges n' (j + 1)
          (ta_set (i + 1) (Uint16 (j + 1)) (ta_set i (Uint16 j) indices)) (i + 2)
      else (indices, i)
  end.

(** The variables that the loop of [featureToLine] over the geometries
    updates. *)
Record LineLoop := mkLineLoop {
  loop_colors : list Z;
  loop_indices : list Z;
  loop_i : Z;
  loop_batchIds : option (list Z);
  loop_featureId : Z;
  loop_linewidth : option num;
}.

Definition line_warning : string :=
  "Feature to Line: integer overflow, too many points in lines".

(** The loop of [featureToLine] over the geometries: the variables
    afterwards, and what was logged. *)
Fixpoint featureToLine_loop (gs : list FeatureGeometry) (feature : FeatureView)
    (options : ConvertOptions) (zoom : num) (st : LineLoop)
    : option (LineLoop * list string) :=
  match gs with
  | [] => Some (st, [])
  | g :: gs' =>
      match contextStyle_of feature zoom g with
      | None => featureToLine_loop gs' feature options zoom st
      | Some contextStyle =>
          stroke ← context_stroke contextStyle;
          let c := THREE_Color (stroke_color stroke) in
          first ← head (indices g);
          let start := offset first in
          if decide (start > 65535)%Z then
            Some (mkLineLoop (loop_colors st) (loop_indices st) (loop_i st) (loop_batchIds st)
                    (loop_featureId st) (Some (stroke_width stroke)),
                  [line_warning])
          else
            let end_ := (start + count first)%Z in
            let colors := fillColorArray (loop_colors st) (count first) c start in
            let '(indices, i) :=
              featureToLine_edges (Z.to_nat (end_ - 1 - start)) start (loop_indices st)
                (loop_i st) in
            let '(batchIds, featureId) :=
              fill_batchIds options g (loop_batchIds st) (loop_featureId st) [(start, end_)] in
            featureToLine_loop gs' feature options zoom
              (mkLineLoop colors indices i batchIds featureId (Some (stroke_width stroke)))
      end
  end.

(** [function featureToLine(feature, options, context)]: the returned value
    ([None] is [undefined]) and what was logged. *)
Definition featureToLine (feature : FeatureView) (options : ConvertOptions) (zoom : num)
    : option (option Object3D * list string) :=
  let ptsIn := view_vertices feature in
  let len := Z.of_nat (length ptsIn) in
  let colors := replicate (length ptsIn) 0%Z in
  let count := (len / 3)%Z in
  let batchIds := new_batchIds options count in
  vertices ←
    (if negb (num_eqb (view_altitude_min feature) Infinity)
     then coordinatesToVertices ptsIn (view_normals feature)
            (replicate (length ptsIn) (of_Z 0))
            (view_altitude_min feature) (of_Z 0) 0 count 0
     else Some (Float32Array_from ptsIn));
  if decide (1 < length (view_geometries feature)) then
    let countIndices := ((count - Z.of_nat (length (view_geometries feature))) * 2)%Z in
    if decide (countIndices < 0)%Z then None
    else
      '(st, warnings) ←
        featureToLine_loop (view_geometries feature) feature options zoom
          (mkLineLoop colors (replicate (Z.to_nat countIndices) 0%Z) 0 batchIds 0 None);
      Some (Some (mkObject3D LineSegments
                    (mkBufferGeometry (Some vertices) (Some (loop_colors st))
                       (loop_batchIds st) (Some (loop_indices st)))
                    (loop_linewidth st) false None None),
            warnings)
  else
    g ← head (view_geometries feature);
    match contextStyle_of feature zoom g with
    | Some contextStyle =>
        stroke ← context_stroke contextStyle;
        let colors := fillColorArray colors count (stroke_color stroke) 0 in
        let batchIds := (fill_batchIds options g batchIds 0 [(0, count)%Z]).1 in
        Some (Some (mkObject3D Line
                      (mkBufferGeometry (Some vertices) (Some colors) batchIds None)
                      None false None None),
              [])
    | None => Some (None, [])
    end.

Definition polygon_warning : string :=
  "Feature to Polygon: integer overflow, too many points in polygons".

(** [new Uint16Array(indices)] for an array [indices] *)
Definition Uint16Array_from (indices : js_array Z) : list Z :=
  map (λ x, match x with Some v => Uint16 v | None => 0%Z end) indices.

(** [geometry.indices.map(i => i.offset - start).slice(1)] *)
Definition holesOffsets (g : FeatureGeometry) (start : Z) : list Z :=
  drop 1 (map (λ i, (offset i - start)%Z) (indices g)).

(** The variables that the loops of [featureToPolygon] and
    [featureToExtrudedPolygon] update. *)
Record PolygonLoop := mkPolygonLoop {
  polygon_vertices : list num;
  polygon_colors : list Z;
  polygon_indices : js_array Z;
  polygon_batchIds : option (list Z);
  polygon_featureId : Z;
}.

(** The loop of [featureToPolygon] over the geometries.  The triangles are
    appended to [indices], each index moved by [start]. *)
Fixpoint featureToPolygon_loop (gs : list FeatureGeometry) (feature : FeatureView)
    (options : ConvertOptions) (zoom : num) (st : PolygonLoop)
    : option (PolygonLoop * list string) :=
  match gs with
  | [] => Some (st, [])
  | g :: gs' =>
      first ← head (indices g);
      let start := offset first in
      if decide (start > 65535)%Z then Some (st, [polygon_warning])
      else
        contextStyle ← contextStyle_of feature zoom g;
        let c := THREE_Color (default color_undefined (context_fill contextStyle)) in
        lastIndice ← last (indices g);
        let end_ := (offset lastIndice + count lastIndice)%Z in
        let count := (end_ - start)%Z in
        let colors := fillColorArray (polygon_colors st) count c start in
        let geomVertices := slice (start * 3) (end_ * 3) (polygon_vertices st) in
        let triangles := Earcut geomVertices (holesOffsets g start) in
        let indices := polygon_indices st ++ map (λ t, Some (t + start)%Z) triangles in
        let '(batchIds, featureId) :=
          fill_batchIds options g (polygon_batchIds st) (polygon_featureId st)
            [(start, end_)] in
        featureToPolygon_loop gs' feature options zoom
          (mkPolygonLoop (polygon_vertices st) colors indices batchIds featureId)
  end.

(** [function featureToPolygon(feature, options, context)] *)
Definition featureToPolygon (feature : FeatureView) (options : ConvertOptions) (zoom : num)
    : option (Object3D * list string) :=
  let ptsIn := view_vertices feature in
  let vertices := Float32Array_from ptsIn in
  let colors := replicate (length ptsIn) 0%Z in
  let batchIds := new_batchIds options (Z.of_nat (length vertices) / 3) in
  '(st, warnings) ←
    featureToPolygon_loop (view_geometries feature) feature options zoom
      (mkPolygonLoop vertices colors [] batchIds 0);
  Some (mkObject3D Mesh
          (mkBufferGeometry (Some (polygon_vertices st)) (Some (polygon_colors st))
             (polygon_batchIds st) (Some (Uint16Array_from (polygon_indices st))))
          None false None None,
        warnings).

Fixpoint area_loop (n : nat) (p q : Z) (contour : js_array num) (a : num) : num :=
  match n with
  | 0 => a
  | S n' =>
      area_loop n' q (q + 3) contour
        (num_add a
           (num_sub (num_mul (js_get contour p) (js_get contour (q + 1)))
              (num_mul (js_get contour q) (js_get contour (p + 1)))))
  end.

(** [function area(contour, offset, count)]: [q] runs from [offset * 3] up to
    [count * 3] by steps of [3]. *)
Definition area (contour : js_array num) (offset count : Z) : num :=
  num_mul
    (area_loop (Z.to_nat (count - offset)) (count * 3 + offset * 3 - 3) (offset * 3)
       contour (of_Z 0))
    one_half.

(** [for (const indice of geometry.indices) addExtrudedPolygonSideFaces(...)] *)
Fixpoint side_faces_of_rings (rings : list SubGeometryIndex) (totalVertices : Z)
    (isClockWise : bool) (indices : js_array Z) : option (js_array Z) :=
  match rings with
  | [] => Some indices
  | indice :: rings' =>
      indices ← addExtrudedPolygonSideFaces indices totalVertices (offset indice)
                  (count indice) isClockWise;
      side_faces_of_rings rings' totalVertices isClockWise indices
  end.

(** The loop of [featureToExtrudedPolygon] over the geometries. *)
Fixpoint featureToExtrudedPolygon_loop (gs : list FeatureGeometry) (feature : FeatureView)
    (options : ConvertOptions) (totalVertices : Z) (delta : num) (isClockWise : bool)
    (st : PolygonLoop) : option PolygonLoop :=
  match gs with
  | [] => Some st
  | g :: gs' =>
      extrusion_height ← fill_extrusion_height (view_style feature);
      extrude ← match extrusion_height with
                | StyleFunction f => Some (f (properties g))
                | StyleNumber _ => None
                end;
      fill_color_fn ← fill_color (view_style feature);
      let colorTop := fill_color_fn (properties g) in
      let c := multiplyScalar colorTop one_half in
      first ← head (indices g);
      let start := offset first in
      lastIndice ← last (indices g);
      let end_ := (offset lastIndice + count lastIndice)%Z in
      let count := (end_ - start)%Z in
      vertices ← coordinatesToVertices (view_vertices feature) (view_normals feature)
                   (polygon_vertices st) delta (of_Z 0) start count start;
      let colors := fillColorArray (polygon_colors st) count c start in
      let startTop := (start + totalVertices)%Z in
      let endTop := (end_ + totalVertices)%Z in
      vertices ← coordinatesToVertices (view_vertices feature) (view_normals feature)
                   vertices delta extrude startTop count start;
      let colors := fillColorArray colors count colorTop startTop in
      let geomVertices := slice (startTop * 3) (endTop * 3) vertices in
      let triangles := Earcut geomVertices (holesOffsets g start) in
      let roof := polygon_indices st ++ map (λ t, Some (t + startTop)%Z) triangles in
      roof_and_sides ← side_faces_of_rings (indices g) totalVertices isClockWise roof;
      let '(batchIds, featureId) :=
        fill_batchIds options g (polygon_batchIds st) (polygon_featureId st)
          [(start, end_); (startTop, endTop)] in
      featureToExtrudedPolygon_loop gs' feature options totalVertices delta isClockWise
        (mkPolygonLoop vertices colors roof_and_sides batchIds featureId)
  end.

(** [function featureToExtrudedPolygon(feature, options)] *)
Definition featureToExtrudedPolygon (feature : FeatureView) (options : ConvertOptions)
    : option Object3D :=
  let ptsIn := view_vertices feature in
  g0 ← head (view_geometries feature);
  first ← head (indices g0);
  let isClockWise := num_lt (area ptsIn (offset first) (count first)) (of_Z 0) in
  let vertices := replicate (length ptsIn * 2) (of_Z 0) in
  let colors := replicate (length ptsIn * 2) 0%Z in
  let totalVertices := (Z.of_nat (length ptsIn) / 3)%Z in
  let batchIds := new_batchIds options (Z.of_nat (length vertices) / 3) in
  let delta :=
    if num_eqb (view_altitude_min feature) Infinity then of_Z 0
    else view_altitude_min feature in
  st ← featureToExtrudedPolygon_loop (view_geometries feature) feature options totalVertices
         delta isClockWise (mkPolygonLoop vertices colors [] batchIds 0);
  Some (mkObject3D Mesh
          (mkBufferGeometry (Some (polygon_vertices st)) (Some (polygon_colors st))
             (polygon_batchIds st) (Some (Uint16Array_from (polygon_indices st))))
          None false None None).

(** [feature.style.fill.extrusion_height], as a condition *)
Definition has_extrusion_height (feature : FeatureView) : bool :=
  match fill_extrusion_height (view_style feature) with
  | Some (StyleNumber v) => num_truthy v
  | Some (StyleFunction _) => true
  | None => false
  end.

(** [new THREE.Mesh()] *)
Definition Mesh_new : Object3D := mkObject3D Mesh BufferGeometry_new None false None None.

(** [function featureToMesh(feature, options, context)], in a given state of
    the random generator: the mesh, the state of the generator afterwards
    and what was logged.  [feature.vertices] is an array, hence truthy. *)
Definition featureToMesh (feature : FeatureView) (options : ConvertOptions) (zoom : num)
    (random_state : nat) : option (Object3D * nat * list string) :=
  '(mesh, warnings) ←
    (if decide (view_type feature = POINT) then Some (None, [])
     else if decide (view_type feature = LINE) then featureToLine feature options zoom
     else if decide (view_type feature = POLYGON) then
       if has_extrusion_height feature then
         mesh ← featureToExtrudedPolygon feature options; Some (Some mesh, [])
       else
         '(mesh, warnings) ← featureToPolygon feature options zoom;
         Some (Some mesh, warnings)
     else Some (None, []));
  let mesh := default Mesh_new mesh in
  Some (mkObject3D (primitive mesh) (geometry mesh) (linewidth mesh) true (Some 16777215%Z)
          (Some feature),
        random_state, warnings).
End Feature2Mesh.

Section Convert.
Context `{MeshEnv}.

(** The calls of [featureToMesh] that [featuresToThree(features, options,
    context)] makes, one for each feature in turn: the meshes, the state of
    the random generator afterwards and what was logged.  The position, the
    rotation and the scale that [featuresToThree] then gives to the meshes,
    or to the group that holds them, are not represented. *)
Fixpoint featuresToThree (features : list FeatureView) (options : ConvertOptions) (zoom : num)
    (random_state : nat) : option (list Object3D * nat * list string) :=
  match features with
  | [] => Some ([], random_state, [])
  | feature :: features' =>
      '(mesh, random_state, warnings) ← featureToMesh feature options zoom random_state;
      '(meshes, random_state, warnings') ←
        featuresToThree features' options zoom random_state;
      Some (mesh :: meshes, random_state, warnings ++ warnings')
  end.

(** [convert(options)(collection, context)] on the collection of a state *)
Definition convert (options : ConvertOptions) (σ : State) (zoom : num) (random_state : nat)
    : option (list Object3D * nat * list string) :=
  features ← mapM (view σ) (features (collection σ));
  featuresToThree features options zoom random_state.

(** The population of a collection from GeoJSON features, followed by the
    tessellation of the collection. *)
Definition parse_and_convert (crsIn : string) (jsonFeatures : list JsonFeature)
    (buildOptions : FeatureBuildingOptions) (filterExtent : option (Coordinates → bool))
    (filter : JsonFeature → bool) (options : ConvertOptions) (zoom : num)
    (random_state : nat) : option (list Object3D * nat * list string) :=
  σ ← jsonFeaturesToFeatures crsIn jsonFeatures buildOptions filterExtent filter;
  convert options σ zoom random_state.

(** The meshes, with their buffers, and the log of a conversion. *)
Definition outputs (r : option (list Object3D * nat * list string))
    : option (list Object3D * list string) :=
  (λ r, (r.1.1, r.2)) <$> r.

(** What [featureToMesh] sets on the mesh that it returns. *)
Definition finish_mesh (mesh : Object3D) (feature : FeatureView) : Object3D :=
  mkObject3D (primitive mesh) (geometry mesh) (linewidth mesh) true (Some 16777215%Z)
    (Some feature).
End Convert.

(** ** Programs over the feature model *)

Section Programs.
Context `{FeatureEnv}.

(** One call of a method of Core/Feature.js by client code. *)
Inductive Call :=
| call_new_Feature (type : Z)
| call_bindNewGeometry (feature : loc)
| call_Feature_updateExtent (feature : loc) (geometry : GeometryRef)
| call_startSubGeometry (geometry : GeometryRef) (n : nat) (feature : loc)
| call_closeSubGeometry (geometry : GeometryRef) (n : nat) (feature : loc)
| call_pushCoordinates (geometry : GeometryRef) (coordIn : Coordinates) (feature : loc)
| call_pushCoordinatesValues (geometry : GeometryRef) (feature : loc) (long lat : num)
    (alt : option num) (normal : option (num * num * num))
| call_FeatureGeometry_updateExtent (geometry : GeometryRef)
| call_set_properties (geometry : GeometryRef) (p : Properties) (feature : loc)
| call_FeatureCollection_updateExtent (extent : option loc)
| call_removeEmptyFeature
| call_pushFeature (feature : loc)
| call_requestFeatureByType (type : Z)
| call_requestFeatureById (id : option string) (type : Z)
| call_newFeatureByReference (feature : loc)
| call_setParentStyle (style_ref : option loc)
| call_jsonFeatureToFeature (filterExtent : option (Coordinates → bool)) (crsIn : string)
    (json : JsonFeature).

Definition ignore {A} (m : M A) : M unit := _ ← m; mret ().

Definition exec (c : Call) : M unit :=
  match c with
  | call_new_Feature type => ignore (Feature_new type)
  | call_bindNewGeometry feature => ignore (bindNewGeometry feature)
  | call_Feature_updateExtent feature geometry => Feature_updateExtent feature geometry
  | call_startSubGeometry geometry n feature => startSubGeometry geometry n feature
  | call_closeSubGeometry geometry n feature => closeSubGeometry geometry n feature
  | call_pushCoordinates geometry coordIn feature => pushCoordinates geometry coordIn feature
  | call_pushCoordinatesValues geometry feature long lat alt normal =>
      pushCoordinatesValues geometry feature long lat alt normal
  | call_FeatureGeometry_updateExtent geometry => FeatureGeometry_updateExtent geometry
  | call_set_properties geometry p feature => set_properties geometry p feature
  | call_FeatureCollection_updateExtent extent => FeatureCollection_updateExtent extent
  | call_removeEmptyFeature => removeEmptyFeature
  | call_pushFeature feature => pushFeature feature
  | call_requestFeatureByType type => ignore (requestFeatureByType type)
  | call_requestFeatureById id type => ignore (requestFeatureById id type)
  | call_newFeatureByReference feature => ignore (newFeatureByReference feature)
  | call_setParentStyle style_ref => setParentStyle style_ref
  | call_jsonFeatureToFeature filterExtent crsIn json =>
      ignore (jsonFeatureToFeature filterExtent crsIn json)
  end.

(** A client program: a sequence of calls on a collection; it stops at the
    first exception. *)
Definition run (calls : list Call) : M unit := for_of calls exec.

(** The states a client program can reach from a new collection. *)
Definition reachable (σ : State) : Prop :=
  ∃ options calls, run calls (FeatureCollection_new options) = Some ((), σ).

(** The sub geometries recorded in a geometry follow each other:
    [indices[i].offset + indices[i].count == indices[i+1].offset]. *)
Definition contiguous (ixs : list SubGeometryIndex) : Prop :=
  ∀ i a b, ixs !! i = Some a → ixs !! S i = Some b → (offset a + count a = offset b)%Z.

(** What holds of each object of the heap by itself, whatever the calls. *)
Definition obj_ok (o : Obj) : Prop :=
  match o with
  | OGeometries gs => Forall (λ g, contiguous (indices g)) gs
  | OFeature f => feature_id f = None ∧ is_feature_type (type f) = true
  | _ => True
  end.

Definition heap_ok (σ : State) : Prop := map_Forall (λ _, obj_ok) (heap σ).

Definition kind_at (σ : State) (l : loc) : option Kind := kind <$> heap σ !! l.

(** No object disappears or changes its class. *)
Definition extends (σ σ' : State) : Prop :=
  ∀ l k, kind_at σ l = Some k → kind_at σ' l = Some k.

(** [m] keeps the objects and what holds of each of them, and returns a value
    that satisfies [R]. *)
Definition pres {A} (m : M A) (R : A → Prop) : Prop :=
  ∀ σ a σ', heap_ok σ → m σ = Some (a, σ') → extends σ σ' ∧ heap_ok σ' ∧ R a.

(** The collection refers to objects of the heap. *)
Definition collection_ok (σ : State) : Prop :=
  (∀ fl, fl ∈ features (collection σ) → kind_at σ fl = Some KFeature) ∧
  (∀ e, collection_extent (collection σ) = Some e → kind_at σ e = Some KExtent).
End Programs.

(** ** Invariants of the feature model *)

Section Invariants.
Context `{FeatureEnv}.

(** The objects a feature refers to, with their classes. *)
Definition refs_list (f : Feature) : list (loc * Kind) :=
  [(vertices f, KNumbers); (geometries f, KGeometries); (style f, KStyle)]
  ++ match normals f with Some l => [(l, KNumbers)] | None => [] end
  ++ match feature_extent f with Some l => [(l, KExtent)] | None => [] end.

(** Every reference of a feature is to an object of the class it expects. *)
Definition refs_ok (σ : State) : Prop :=
  ∀ fl f l k, heap σ !! fl = Some (OFeature f) → (l, k) ∈ refs_list f →
    kind_at σ l = Some k.

(** A transition after which every reference of a feature is valid or was
    the reference of a feature before, and every feature of the collection
    was one before or is a feature of the heap. *)
Definition good_step (σ σ' : State) : Prop :=
  extends σ σ' ∧
  (∀ fl f l k, heap σ' !! fl = Some (OFeature f) → (l, k) ∈ refs_list f →
     kind_at σ' l = Some k ∨
     ∃ fl0 f0, heap σ !! fl0 = Some (OFeature f0) ∧ (l, k) ∈ refs_list f0) ∧
  collection_extent (collection σ') = collection_extent (collection σ) ∧
  (∀ fl, fl ∈ features (collection σ') →
     fl ∈ features (collection σ) ∨ kind_at σ' fl = Some KFeature).

(** Every run of [m] is such a transition. *)
Definition gstep {A} (m : M A) : Prop :=
  ∀ σ a σ', m σ = Some (a, σ') → good_step σ σ'.

(** The invariant of the reachable states. *)
Definition inv (σ : State) : Prop := heap_ok σ ∧ refs_ok σ ∧ collection_ok σ.

(** [m] runs to completion from [σ], and its result satisfies [Q]. *)
Definition wpt {A} (m : M A) (σ : State) (Q : A → State → Prop) : Prop :=
  ∃ a σ', m σ = Some (a, σ') ∧ Q a σ'.

(** What [new Feature(type, collection)] returns, for a supported type. *)
Definition new_feature_post (ty : Z) (σ : State) (fl : loc) (σ' : State) : Prop :=
  ∃ f, heap σ !! fl = None ∧ heap σ' !! fl = Some (OFeature f) ∧
       type f = ty ∧ feature_id f = None ∧ size f = collection_size (collection σ) ∧
       heap σ ⊆ heap σ' ∧
       heap σ !! style f = None ∧ is_Some (heap σ' !! style f) ∧
       heap σ !! vertices f = None ∧ heap σ !! geometries f = None ∧
       (∀ l, normals f = Some l → heap σ !! l = None) ∧
       (∀ l, feature_extent f = Some l → heap σ !! l = None).

(** The feature [this.features.find(callback)] returns when the list holds
    features of the heap [h]. *)
Fixpoint find_in (h : gmap nat Obj) (callback : Feature → bool) (ls : list loc) : option loc :=
  match ls with
  | [] => None
  | fl :: ls' =>
      match h !! fl with
      | Some (OFeature f) => if callback f then Some fl else find_in h callback ls'
      | _ => None
      end
  end.

(** The sum of the counts of the sub geometries of a geometry. *)
Definition geometry_count (g : FeatureGeometry) : Z :=
  foldr (λ ix acc, (count ix + acc)%Z) 0%Z (indices g).

(** [sum(geometry.indices[*].count)] over the geometries of a feature. *)
Definition total_count (gs : list FeatureGeometry) : Z :=
  foldr (λ g acc, (geometry_count g + acc)%Z) 0%Z gs.

(** The number of values that [_pushValues] writes. *)
Definition stride (p : PushValues) : Z :=
  match p with push2DValues => 2 | push3DValues => 3 end.

(** What the bookkeeping of the buffers depends on: the length of an array,
    the length and the total count of a list of geometries, the references
    and the position of a feature. *)
Inductive Shape :=
| SNumbers (len : nat)
| SGeometries (n : nat) (total : Z)
| SFeature (v g : loc) (n : option loc) (s : Z) (p : PushValues) (pos : nat)
| SOther.

(** The shape of an object, and of the object at a location. *)
Definition shape_of (o : Obj) : Shape :=
  match o with
  | ONumbers a => SNumbers (length a)
  | OGeometries gs => SGeometries (length gs) (total_count gs)
  | OFeature f =>
      SFeature (vertices f) (geometries f) (normals f) (size f) (_pushValues f) (_pos f)
  | OExtent _ | OStyle _ => SOther
  end.

Definition sh (σ : State) (l : loc) : option Shape := shape_of <$> heap σ !! l.

(** The bookkeeping of one feature: [vertices.length = size * total count],
    the position is within the vertices, and [normals] is defined exactly
    in three dimensions, with [normals.length = vertices.length]. *)
Definition feature_ok (σ : State) (v g : loc) (n : option loc) (s : Z) (p : PushValues)
    (pos : nat) : Prop :=
  s = collection_size (collection σ) ∧ stride p = s ∧
  ∃ len k tot,
    sh σ v = Some (SNumbers len) ∧ sh σ g = Some (SGeometries k tot) ∧
    Z.of_nat len = (s * tot)%Z ∧ pos ≤ len ∧
    match n with
    | None => s = 2%Z
    | Some nl => s = 3%Z ∧ sh σ nl = Some (SNumbers len) ∧ nl ≠ v
    end.

(** Two features share all their buffers or none. *)
Definition apart (v g : loc) (n : option loc) (v' g' : loc) (n' : option loc) : Prop :=
  (g = g' → v = v' ∧ n = n') ∧
  (g ≠ g' → v ≠ v' ∧ n' ≠ Some v ∧ ∀ nl, n = Some nl → n' ≠ Some nl).

(** The bookkeeping of the buffers: the one of each feature, and no buffer
    shared by features that do not share all of them. *)
Definition buffers_ok (σ : State) : Prop :=
  (collection_size (collection σ) = 2%Z ∨ collection_size (collection σ) = 3%Z) ∧
  ∀ fl v g n s p pos, sh σ fl = Some (SFeature v g n s p pos) →
    feature_ok σ v g n s p pos ∧
    ∀ fl' v' g' n' s' p' pos', sh σ fl' = Some (SFeature v' g' n' s' p' pos') →
      apart v g n v' g' n'.

Definition is_feature_shape (s : option Shape) : Prop :=
  match s with Some (SFeature _ _ _ _ _ _) => True | _ => False end.

(** The shape at [l] is that of before, or that of a new object that is no
    feature, or that of a list that received geometries without sub
    geometry. *)
Definition shape_kept (σ σ' : State) (l : loc) : Prop :=
  sh σ' l = sh σ l ∨
  (sh σ l = None ∧ ¬ is_feature_shape (sh σ' l)) ∨
  (∃ k k' tot, sh σ l = Some (SGeometries k tot) ∧ sh σ' l = Some (SGeometries k' tot) ∧
               k ≤ k').

(** A transition that keeps the shapes, and runs that are such
    transitions. *)
Definition same_shape (σ σ' : State) : Prop :=
  collection_size (collection σ') = collection_size (collection σ) ∧
  ∀ l, shape_kept σ σ' l.

Definition sstep {A} (m : M A) : Prop :=
  ∀ σ a σ', m σ = Some (a, σ') → same_shape σ σ'.

(** [g] is a geometry of the feature at [feature]. *)
Definition owns (σ : State) (g : GeometryRef) (feature : loc) : Prop :=
  ∃ v n s p pos k tot,
    sh σ feature = Some (SFeature v (geometry_list g) n s p pos) ∧
    sh σ (geometry_list g) = Some (SGeometries k tot) ∧ geometry_index g < k.

(** The vertices of the feature at [feature] have room for [k] more
    positions. *)
Definition room (σ : State) (feature : loc) (k : nat) : Prop :=
  ∃ v g n s p pos len,
    sh σ feature = Some (SFeature v g n s p pos) ∧ sh σ v = Some (SNumbers len) ∧
    (Z.of_nat pos + Z.of_nat k * s ≤ Z.of_nat len)%Z.

(** What [new Feature] does to the shapes. *)
Definition new_feature_step (σ : State) (fl : loc) (σ' : State) : Prop :=
  sh σ fl = None ∧ is_feature_shape (sh σ' fl) ∧ ∀ l, l ≠ fl → shape_kept σ σ' l.

(** [m] keeps the bookkeeping of the buffers. *)
Definition bstep {A} (m : M A) : Prop :=
  ∀ σ a σ', buffers_ok σ → m σ = Some (a, σ') → buffers_ok σ'.

(** The calls that populate a collection with whole geometries: all calls
    but those that a parser uses to build one sub geometry piece by piece,
    which keep the bookkeeping only when they are used together. *)
Definition populating (c : Call) : bool :=
  match c with
  | call_startSubGeometry _ _ _ | call_closeSubGeometry _ _ _
  | call_pushCoordinates _ _ _ | call_pushCoordinatesValues _ _ _ _ _ _ => false
  | _ => true
  end.

(** The states that populating a new collection reaches. *)
Definition populated (σ : State) : Prop :=
  ∃ options calls,
    forallb populating calls = true ∧
    run calls (FeatureCollection_new options) = Some ((), σ).

End Invariants.

(** ** What the tessellation emits *)

Section Emitted.
Context `{MeshEnv}.

(** The vertices of the feature are triples. *)
Definition vertices_are_triples (feature : FeatureView) : Prop :=
  (Z.of_nat (length (view_vertices feature)) mod 3 = 0)%Z.

(** The edges of one range [[start, end_)], up to the index limit: [(j, j + 1)]
    for [j] from [start], below [end_ - 1] and below [0xffff]. *)
Definition line_edges (start end_ : Z) : list Z :=
  flat_map (λ j, [j; j + 1]%Z) (seqZ start (Z.min (end_ - 1) 65535 - start)).

(** The first range of a geometry, [geometry.indices[0]]. *)
Definition first_offset (g : FeatureGeometry) : Z := default 0%Z (offset <$> head (indices g)).

Definition first_count (g : FeatureGeometry) : Z := default 0%Z (count <$> head (indices g)).

(** The geometries that precede the first one that starts above [0xffff]. *)
Fixpoint before_overflow (gs : list FeatureGeometry) : list FeatureGeometry :=
  match gs with
  | [] => []
  | g :: gs' => if decide (first_offset g > 65535)%Z then [] else g :: before_overflow gs'
  end.

(** The geometries for which the style gives a drawing style in the
    context. *)
Definition styled (feature : FeatureView) (zoom : num) (gs : list FeatureGeometry)
    : list FeatureGeometry :=
  filter (λ g, is_Some (contextStyle_of feature zoom g)) gs.

(** The index values that [featureToLine] emits for a list of geometries. *)
Definition emitted_edges (feature : FeatureView) (zoom : num) (gs : list FeatureGeometry)
    : list Z :=
  flat_map (λ g, line_edges (first_offset g) (first_offset g + first_count g))
    (before_overflow (styled feature zoom gs)).

(** Some geometry with a drawing style starts above [0xffff]. *)
Definition overflows (feature : FeatureView) (zoom : num) (gs : list FeatureGeometry) : bool :=
  existsb (λ g, bool_decide (first_offset g > 65535)%Z) (styled feature zoom gs).

(** The geometries have a first range, which starts at a vertex, and their
    drawing styles have a stroke: [featureToLine] meets no undefined
    value. *)
Definition line_ready (feature : FeatureView) (zoom : num) (g : FeatureGeometry) : Prop :=
  is_Some (head (indices g)) ∧ (0 ≤ first_offset g)%Z ∧
  ∀ cs, contextStyle_of feature zoom g = Some cs → is_Some (context_stroke cs).

(** The positions can be computed: the altitude of the feature is not set,
    or the feature has normals. *)
Definition positions_ready (feature : FeatureView) : Prop :=
  num_eqb (view_altitude_min feature) Infinity = true ∨ is_Some (view_normals feature).

(** The edges of the first range of a geometry: [(i, i + 1)] for [i] from
    [start], below [start + count - 1]. *)
Definition range_edges (g : FeatureGeometry) : list Z :=
  flat_map (λ i, [i; i + 1]%Z) (seqZ (first_offset g) (first_count g - 1)).

(** The sum of the counts of the first ranges. *)
Definition total_first_count (gs : list FeatureGeometry) : Z :=
  foldr (λ g acc, (first_count g + acc)%Z) 0%Z gs.

(** The first range of the geometry is not empty and ends at a vertex that
    a 16-bit index can name, and the geometry has a drawing style. *)
Definition line_drawn (feature : FeatureView) (zoom : num) (g : FeatureGeometry) : Prop :=
  line_ready feature zoom g ∧ is_Some (contextStyle_of feature zoom g) ∧
  (1 ≤ first_count g)%Z ∧ (first_offset g + first_count g ≤ 65536)%Z.

(** The two triangles of the side face between the vertices [i] and [i + 1]
    of a ring and the vertices [i + length] and [i + length + 1] above
    them. *)
Definition side_face (isClockWise : bool) (length i : Z) : list Z :=
  if isClockWise then [i; i + length; i + 1; i + 1; i + length; i + length + 1]%Z
  else [i + length; i; i + length + 1; i + length + 1; i; i + 1]%Z.

(** The side faces of a ring of [count] vertices from [offset]. *)
Definition ring_side_faces (isClockWise : bool) (length : Z) (ring : SubGeometryIndex)
    : list Z :=
  flat_map (side_face isClockWise length) (seqZ (offset ring) (count ring - 1)).

(** The indices of an extruded mesh: for each geometry, the triangles of
    its roof, then the side faces of each of its rings. *)
Definition extruded_indices (isClockWise : bool) (totalVertices : Z)
    (l : list (FeatureGeometry * list Z)) : list Z :=
  flat_map (λ gr, gr.2 ++ flat_map (ring_side_faces isClockWise totalVertices)
                            (indices gr.1)) l.

(** The style of the feature gives an extrusion height and a fill colour as
    functions of the properties, and the feature has normals. *)
Definition extrusion_ready (feature : FeatureView) : Prop :=
  is_Some (view_normals feature) ∧
  (∃ f, fill_extrusion_height (view_style feature) = Some (StyleFunction f)) ∧
  is_Some (fill_color (view_style feature)).

(** The geometry has rings, of at least one vertex each. *)
Definition rings_ready (g : FeatureGeometry) : Prop :=
  indices g ≠ [] ∧ Forall (λ ring, 1 ≤ count ring)%Z (indices g).

End Emitted.

(** ** Notions for the further properties *)

(** *** The values that the tessellation writes *)

Section Filled.
Context `{MeshEnv}.

(** The value that [colors[i + k] = color.r * 255] (or [g], or [b]) stores
    into the [Uint8Array], for the channel [k] of the colour. *)
Definition channel (c : ColorValue) (k : Z) : Z :=
  if decide (k = 0)%Z then to_uint8 (num_mul (color_r c) (of_Z 255))
  else if decide (k = 1)%Z then to_uint8 (num_mul (color_g c) (of_Z 255))
  else to_uint8 (num_mul (color_b c) (of_Z 255)).

(** The value that [coordinatesToVertices] stores for the coordinate [i] of
    the input. *)
Definition moved (ptsIn normals : js_array num) (altitude extrude : num) (i : Z) : num :=
  fround (num_add (js_get ptsIn i) (num_mul (js_get normals i) (num_sub extrude altitude))).
End Filled.

Section Tessellated.
Context `{MeshEnv}.

(** The end of the last range of a geometry,
    [lastIndice.offset + lastIndice.count]. *)
Definition last_end (g : FeatureGeometry) : Z := default 0%Z (next_offset g).

(** The triangles that [Earcut] makes of the vertices of a geometry, as
    indices into the vertices of the feature. *)
Definition polygon_triangles (vertices : list num) (g : FeatureGeometry) : list Z :=
  let start := first_offset g in
  map (λ t, (t + start)%Z)
    (Earcut (slice (start * 3) (last_end g * 3) vertices) (holesOffsets g start)).

(** Some geometry starts above [0xffff]. *)
Definition polygon_overflows (gs : list FeatureGeometry) : bool :=
  existsb (λ g, bool_decide (first_offset g > 65535)%Z) gs.

(** The geometry has a range and a drawing style. *)
Definition polygon_ready (feature : FeatureView) (zoom : num) (g : FeatureGeometry) : Prop :=
  indices g ≠ [] ∧ is_Some (contextStyle_of feature zoom g).

(** The coordinate [j] belongs to a vertex of the first range of the
    geometry. *)
Definition in_first_range (g : FeatureGeometry) (j : Z) : bool :=
  bool_decide (first_offset g * 3 ≤ j < (first_offset g + first_count g) * 3)%Z.

(** [featureToPoint] can compute the positions: [options.altitude] is [0],
    or the feature has normals. *)
Definition point_positions_ready (feature : FeatureView) (options : ConvertOptions) : Prop :=
  (∃ a, options_altitude options = Some a ∧ num_eqb a (of_Z 0) = true) ∨
  is_Some (view_normals feature).
End Tessellated.

(** *** Observations of a collection *)

Section Observations.
Context `{FeatureEnv}.

(** [feature.geometries.length], as a condition, for the feature at [fl]. *)
Definition has_geometries (σ : State) (fl : loc) : bool :=
  match heap σ !! fl with
  | Some (OFeature f) =>
      match heap σ !! geometries f with
      | Some (OGeometries (_ :: _)) => true
      | _ => false
      end
  | _ => false
  end.

(** The collection once the features without geometry are removed. *)
Definition without_empty_features (σ : State) : State :=
  mkState (heap σ)
    (with_features (collection σ)
       (filter (λ fl, has_geometries σ fl = true) (features (collection σ)))).
End Observations.

(** *** The layout of the geometries *)

Section Frames.
Context `{FeatureEnv}.

(** The ranges of a geometry: the offset and the count of each of its sub
    geometries. *)
Definition ranges (g : FeatureGeometry) : list (Z * Z) :=
  map (λ ix, (offset ix, count ix)) (indices g).

(** The layout of a list of geometries: the size and the ranges of each. *)
Definition layout (gs : list FeatureGeometry) : list (Z * list (Z * Z)) :=
  map (λ g, (geometry_size g, ranges g)) gs.

(** What the structure of a collection consists of: the layout of a list of
    geometries, and the type, the buffers and the size of a feature. *)
Inductive Frame :=
| FGeometries (lay : list (Z * list (Z * Z)))
| FFeature (ty : Z) (v g : loc) (n : option loc) (s : Z).

Definition frame_of (o : Obj) : option Frame :=
  match o with
  | OGeometries gs => Some (FGeometries (layout gs))
  | OFeature f =>
      Some (FFeature (type f) (vertices f) (geometries f) (normals f) (size f))
  | _ => None
  end.

Definition frame (σ : State) (l : loc) : option Frame := heap σ !! l ≫= frame_of.

(** A transition that keeps the structure: the layouts, the features and
    the list of the features of the collection. *)
Definition same_frame (σ σ' : State) : Prop :=
  (∀ l, frame σ' l = frame σ l) ∧
  features (collection σ') = features (collection σ) ∧
  mergeFeatures (collection σ') = mergeFeatures (collection σ) ∧
  collection_size (collection σ') = collection_size (collection σ).

Definition fstep {A} (m : M A) : Prop :=
  ∀ σ a σ', m σ = Some (a, σ') → same_frame σ σ'.
End Frames.

Section Packing.
Context `{FeatureEnv}.

(** The sum of the counts of a list of ranges. *)
Definition range_sum (rs : list (Z * Z)) : Z := foldr (λ r acc, (r.2 + acc)%Z) 0%Z rs.

(** The ranges follow each other from [start]: each one starts where the one
    before it ends. *)
Fixpoint packed_from (start : Z) (rs : list (Z * Z)) : Prop :=
  match rs with
  | [] => True
  | r :: rs' => r.1 = start ∧ packed_from (start + r.2) rs'
  end.

(** The ranges of all the geometries of a list, in the order of the list. *)
Definition all_ranges (lay : list (Z * list (Z * Z))) : list (Z * Z) := flat_map snd lay.

(** The ranges of every list of geometries follow each other from [0], and
    every geometry has the size of the collection. *)
Definition packed_ok (σ : State) : Prop :=
  ∀ l lay, frame σ l = Some (FGeometries lay) →
    packed_from 0 (all_ranges lay) ∧
    Forall (λ x, x.1 = collection_size (collection σ)) lay.

Definition well_packed (σ : State) : Prop := buffers_ok σ ∧ packed_ok σ.

(** [m] keeps the buffers and the ranges in order. *)
Definition pstep {A} (m : M A) : Prop :=
  ∀ σ a σ', well_packed σ → m σ = Some (a, σ') → well_packed σ'.

(** The frames of the heap are those of before. *)
Definition frames_kept (σ σ' : State) : Prop := ∀ l, frame σ' l = frame σ l.
End Packing.

Section Added.
Context `{FeatureEnv}.

(** The ranges of rings that follow each other from [start]. *)
Fixpoint rings_from (start : Z) (counts : list Z) : list (Z * Z) :=
  match counts with
  | [] => []
  | n :: counts' => (start, n) :: rings_from (start + n) counts'
  end.

(** The feature received one geometry, made of the given rings, after its
    other geometries; nothing else changed in the structure. *)
Definition added (σ σ' : State) (feature : loc) (rings : list (list Position)) : Prop :=
  ∃ f lay,
    heap σ !! feature = Some (OFeature f) ∧
    frame σ (geometries f) = Some (FGeometries lay) ∧
    frame σ' (geometries f)
    = Some (FGeometries
              (lay ++ [(size f, rings_from (range_sum (all_ranges lay))
                                  (map (λ ring, Z.of_nat (length ring)) rings))])) ∧
    ∀ l, l ≠ geometries f → frame σ' l = frame σ l.

(** The collection has the features, the merge policy and the size of
    before. *)
Definition same_collection (σ σ' : State) : Prop :=
  features (collection σ') = features (collection σ) ∧
  mergeFeatures (collection σ') = mergeFeatures (collection σ) ∧
  collection_size (collection σ') = collection_size (collection σ).
End Added.

(** *** The states of the parser *)

Section Parsed.
Context `{FeatureEnv}.

(** The calls that [jsonFeaturesToFeatures] makes on the collection. *)
Definition parsing (c : Call) : bool :=
  match c with
  | call_jsonFeatureToFeature _ _ _ | call_removeEmptyFeature
  | call_FeatureCollection_updateExtent None => true
  | _ => false
  end.

(** The calls of [jsonFeaturesToFeatures] on the collection, in order. *)
Definition parser_calls (filterExtent : option (Coordinates → bool)) (crsIn : string)
    (jsonFeatures : list JsonFeature) (filter : JsonFeature → bool) : list Call :=
  map (call_jsonFeatureToFeature filterExtent crsIn) (List.filter filter jsonFeatures)
  ++ [call_removeEmptyFeature; call_FeatureCollection_updateExtent None].

(** The states that the parser reaches from a new collection. *)
Definition parsed (σ : State) : Prop :=
  ∃ options calls,
    forallb parsing calls = true ∧
    run calls (FeatureCollection_new options) = Some ((), σ).

(** No two features have the same list of geometries. *)
Definition unshared (σ : State) : Prop :=
  ∀ fl fl' ty v g n s ty' v' n' s',
    frame σ fl = Some (FFeature ty v g n s) →
    frame σ fl' = Some (FFeature ty' v' g n' s') → fl = fl'.

(** Every geometry of a feature that is no polygon has exactly one range. *)
Definition single_ranges (σ : State) : Prop :=
  ∀ fl ty v g n s lay,
    frame σ fl = Some (FFeature ty v g n s) → ty ≠ POLYGON →
    frame σ g = Some (FGeometries lay) → Forall (λ x, length x.2 = 1) lay.

(** When features are merged, the collection has no two features of the
    same type. *)
Definition typed_once (σ : State) : Prop :=
  mergeFeatures (collection σ) = true →
  NoDup (features (collection σ)) ∧
  ∀ fl fl' ty v g n s v' g' n' s',
    fl ∈ features (collection σ) → fl' ∈ features (collection σ) →
    frame σ fl = Some (FFeature ty v g n s) →
    frame σ fl' = Some (FFeature ty v' g' n' s') → fl = fl'.

Definition neat (σ : State) : Prop :=
  well_packed σ ∧ unshared σ ∧ single_ranges σ ∧ typed_once σ.
End Parsed.

(** *** Parent styles *)

Section Parents.
Context `{FeatureEnv}.

(** What [setParentStyle(style)] keeps of the heap: every object but the
    styles, the parameters of the styles, and the parents that are [style]
    already. *)
Definition parent_step (s : loc) (σ σ' : State) : Prop :=
  collection σ' = collection σ ∧
  ∀ l, match heap σ !! l with
       | Some (OStyle st) =>
           ∃ st', heap σ' !! l = Some (OStyle st') ∧ style_params st' = style_params st ∧
                  (style_parent st = Some s → style_parent st' = Some s)
       | o => heap σ' !! l = o
       end.

(** The features at [ls] have the parent style [s]. *)
Definition parent_set (s : loc) (σ : State) (ls : list loc) : Prop :=
  ∀ fl, fl ∈ ls →
    ∃ f st, heap σ !! fl = Some (OFeature f) ∧ heap σ !! style f = Some (OStyle st) ∧
            style_parent st = Some s.
End Parents.

(** ** Concrete numbers, collaborators and features *)

(** Fixed-point numbers with three decimals, the infinities and NaN:
    [XFin z] is [z / 1000]. *)
Inductive xnum := XNaN | XNegInf | XFin (z : Z) | XPosInf.

Definition xnum_neg (a : xnum) : xnum :=
  match a with
  | XNaN => XNaN
  | XNegInf => XPosInf
  | XFin z => XFin (- z)
  | XPosInf => XNegInf
  end.

Definition xnum_add (a b : xnum) : xnum :=
  match a, b with
  | XNaN, _ | _, XNaN => XNaN
  | XPosInf, XNegInf | XNegInf, XPosInf => XNaN
  | XPosInf, _ | _, XPosInf => XPosInf
  | XNegInf, _ | _, XNegInf => XNegInf
  | XFin x, XFin y => XFin (x + y)
  end.

Definition xnum_sgn (a : xnum) : Z :=
  match a with
  | XNaN => 0
  | XNegInf => -1
  | XFin z => Z.sgn z
  | XPosInf => 1
  end.

Definition xnum_mul (a b : xnum) : xnum :=
  match a, b with
  | XNaN, _ | _, XNaN => XNaN
  | XFin x, XFin y => XFin (Z.quot (x * y) 1000)
  | _, _ =>
      match (xnum_sgn a * xnum_sgn b)%Z with
      | Z0 => XNaN
      | Zpos _ => XPosInf
      | Zneg _ => XNegInf
      end
  end.

Definition xnum_ltb (a b : xnum) : bool :=
  match a, b with
  | XNaN, _ | _, XNaN => false
  | _, XNegInf | XPosInf, _ => false
  | XNegInf, _ | _, XPosInf => true
  | XFin x, XFin y => (x <? y)%Z
  end.

Definition xnum_eqb (a b : xnum) : bool :=
  match a, b with
  | XNegInf, XNegInf | XPosInf, XPosInf => true
  | XFin x, XFin y => (x =? y)%Z
  | _, _ => false
  end.

Definition xnum_min (a b : xnum) : xnum :=
  match a, b with
  | XNaN, _ | _, XNaN => XNaN
  | _, _ => if xnum_ltb b a then b else a
  end.

Definition xnum_max (a b : xnum) : xnum :=
  match a, b with
  | XNaN, _ | _, XNaN => XNaN
  | _, _ => if xnum_ltb a b then b else a
  end.

(** The integer part, for the conversions to integer arrays. *)
Definition xnum_trunc (a : xnum) : Z :=
  match a with
  | XFin z => Z.quot z 1000
  | _ => 0
  end.

Definition demo_number : JsNumber := {|
  num := xnum;
  of_Z z := XFin (1000 * z);
  Infinity := XPosInf;
  NaN := XNaN;
  num_neg := xnum_neg;
  num_add := xnum_add;
  num_sub a b := xnum_add a (xnum_neg b);
  num_mul := xnum_mul;
  Math_min := xnum_min;
  Math_max := xnum_max;
  num_lt := xnum_ltb;
  num_eqb := xnum_eqb;
  num_truthy a := match a with XNaN | XFin 0 => false | _ => true end;
  fround a := a;
  to_uint8 a := (xnum_trunc a mod 256)%Z;
  to_uint32 a := (xnum_trunc a mod 4294967296)%Z;
  Math_random n := XFin ((Z.of_nat n * 7919 + 123) mod 1000);
|}.

(** Properties are labels, the parameter of a style is the extrusion height
    of its fill, when it has one, coordinates are local already and their
    normal points up. *)
Definition demo_setFromValues (crs : string) (pair : list xnum) : @Coordinates demo_number :=
  @mkCoordinates demo_number crs (nth 0 pair XNaN) (nth 1 pair XNaN) (nth 2 pair (XFin 0))
    (XFin 0, XFin 0, XFin 1000).

Definition demo_env : @FeatureEnv demo_number :=
  @Build_FeatureEnv demo_number
    string "" (option xnum) None (λ _, None) (λ _, None) (λ _ c, c) (λ crs, crs)
    demo_setFromValues (λ p _, p).

Section Demo.
#[local] Existing Instance demo_number.
#[local] Existing Instance demo_env.

Definition demo_options : FeatureBuildingOptions :=
  mkFeatureBuildingOptions "EPSG:4326" None true None "3d" None.

Definition pt (x y z : Z) : Position := [XFin (1000 * x); XFin (1000 * y); XFin (1000 * z)].

(** A polygon with a hole, and two lines. *)
Definition demo_json : list JsonFeature :=
  [ mkJsonFeature
      (Polygon [ [pt 0 0 0; pt 4 0 0; pt 4 4 0; pt 0 4 0; pt 0 0 0];
                 [pt 1 1 0; pt 2 1 0; pt 2 2 0; pt 1 1 0] ]) "building";
    mkJsonFeature
      (MultiLineString [ [pt 0 0 0; pt 1 0 0; pt 2 0 0]; [pt 5 5 0; pt 6 5 0; pt 7 5 0] ])
      "roads" ].

Definition demo_calls : list Call :=
  map (call_jsonFeatureToFeature None "EPSG:4326") demo_json.

Definition demo_run : option (unit * State) := run demo_calls (FeatureCollection_new demo_options).

Definition completes {A} (r : option A) : bool := bool_decide (is_Some r).

Definition final_state (r : option (unit * State)) (σ0 : State) : State :=
  match r with
  | Some (_, σ) => σ
  | None => σ0
  end.

(** The state a client program reaches from a new collection (the new
    collection itself if it throws). *)
Definition state_after (options : FeatureBuildingOptions) (calls : list Call) : State :=
  final_state (run calls (FeatureCollection_new options)) (FeatureCollection_new options).

Definition demo_state : State := state_after demo_options demo_calls.

(** The polygon feature of [demo_state] is aliased ... *)
Definition alias_calls : list Call := demo_calls ++ [call_newFeatureByReference 6].

Definition alias_state : State := state_after demo_options alias_calls.

(** ... and then [alias.updateExtent(geometry)] is called on the alias, with
    the second line of the line feature. *)
Definition alias_mutated : State :=
  state_after demo_options
    (alias_calls ++ [call_Feature_updateExtent 28 (mkGeometryRef 11 1)]).

(** The value of [feature.extent]. *)
Definition extent_of (σ : State) (feature : loc) : option Extent :=
  match heap σ !! feature with
  | Some (OFeature f) =>
      match feature_extent f with
      | Some e => match heap σ !! e with Some (OExtent x) => Some x | _ => None end
      | None => None
      end
  | _ => None
  end.

(** The geometry of the polygon feature of [demo_state]. *)
Definition demo_polygon_geometry : FeatureGeometry :=
  Eval vm_compute in
    match heap demo_state !! 1 with
    | Some (OGeometries (g :: _)) => g
    | _ => mkFeatureGeometry [] "" 0 None None XNaN XNaN
    end.

(** The polygon feature of [demo_state]. *)
Definition demo_polygon_feature : Feature :=
  Eval vm_compute in
    match heap demo_state !! 6 with
    | Some (OFeature f) => f
    | _ => mkFeature 0 0 0 "" 0 None None false 0 push2DValues 0 XNaN XNaN None
    end.

End Demo.

(** A colour is its three channels; every geometry but those labelled
    "hidden" has a drawing style; [Earcut] makes a fan of the first ring. *)
Definition demo_color : Type := xnum * xnum * xnum.

Section MeshDemoEnv.
#[local] Existing Instance demo_number.
#[local] Existing Instance demo_env.

Definition demo_drawingStyle (params : option xnum) (zoom : xnum) (p : string)
    : option (ContextStyle demo_color) :=
  if String.eqb p "hidden" then None
  else Some (mkContextStyle (Some (mkStroke (XFin 2000) (XFin 1000, XFin 0, XFin 0)))
               (Some (XFin 0, XFin 1000, XFin 0))).

Definition demo_Earcut (vs : list xnum) (holes : list Z) : list Z :=
  flat_map (λ k, [0; k; k + 1]%Z) (seqZ 1 (Z.of_nat (length vs) / 3 - 3)).

Definition demo_mesh_env : MeshEnv :=
  @Build_MeshEnv demo_number demo_env demo_color
    (XNaN, XNaN, XNaN) (λ n, (n, n, n)) (λ c, c)
    (λ c, c.1.1) (λ c, c.1.2) (λ c, c.2)
    (λ c s, (xnum_mul c.1.1 s, xnum_mul c.1.2 s, xnum_mul c.2 s))
    (XFin 500) (λ _, None) demo_drawingStyle
    (λ p : option xnum,
       match p with Some h => Some (StyleFunction (λ _, h)) | None => None end)
    (λ _, Some (λ _, (XFin 0, XFin 0, XFin 1000)))
    demo_Earcut.

End MeshDemoEnv.

Section MeshDemo.
#[local] Existing Instance demo_number.
#[local] Existing Instance demo_env.
#[local] Existing Instance demo_mesh_env.

Definition demo_convert : ConvertOptions :=
  mkConvertOptions (Some (λ _ featureId, XFin (1000 * featureId))) ColorUnset None None.

Definition demo_zoom : xnum := XFin 14000.

Definition no_feature : FeatureView := mkFeatureView 0 [] None [] None XNaN.

(** The view of the first feature of the collection that the calls
    populate. *)
Definition first_view (calls : list Call) : FeatureView :=
  let σ := state_after demo_options calls in
  default no_feature (fl ← head (features (collection σ)); view σ fl).

Definition populate (jsonFeatures : list JsonFeature) : list Call :=
  map (call_jsonFeatureToFeature None "EPSG:4326") jsonFeatures.

(** Two lines of three points each. *)
Definition demo_line : FeatureView :=
  Eval vm_compute in
    first_view (populate
      [ mkJsonFeature (LineString [pt 0 0 0; pt 1 0 0; pt 2 0 0]) "road";
        mkJsonFeature (LineString [pt 5 5 0; pt 6 5 0; pt 7 5 0]) "path" ]).

(** The same lines, the first one without drawing style. *)
Definition hidden_line : FeatureView :=
  Eval vm_compute in
    first_view (populate
      [ mkJsonFeature (LineString [pt 0 0 0; pt 1 0 0; pt 2 0 0]) "hidden";
        mkJsonFeature (LineString [pt 5 5 0; pt 6 5 0; pt 7 5 0]) "path" ]).

(** A line of three points and a line without any point. *)
Definition short_line : FeatureView :=
  Eval vm_compute in
    first_view (populate
      [ mkJsonFeature (MultiLineString [[pt 0 0 0; pt 1 0 0; pt 2 0 0]; []]) "road" ]).

(** A point. *)
Definition demo_point : FeatureView :=
  Eval vm_compute in
    first_view (populate [ mkJsonFeature (Point (pt 1 2 0)) "poi" ]).

(** The unit square, with a style that extrudes it by 10. *)
Definition unit_square : FeatureView :=
  Eval vm_compute in
    let v := first_view (populate
               [ mkJsonFeature
                   (Polygon [[pt 0 0 0; pt 1 0 0; pt 1 1 0; pt 0 1 0; pt 0 0 0]]) "block" ]) in
    mkFeatureView (view_type v) (view_vertices v) (view_normals v) (view_geometries v)
      (Some (XFin 10000)) (view_altitude_min v).

(** The index of the line segments that [featureToLine] returns. *)
Definition line_index (feature : FeatureView) : option (list Z) :=
  '(lines, _) ← featureToLine feature demo_convert demo_zoom;
  mesh ← lines;
  geom_index (geometry mesh).

(** The index of the mesh that [featureToExtrudedPolygon] returns. *)
Definition extruded_index (feature : FeatureView) : option (list Z) :=
  mesh ← featureToExtrudedPolygon feature demo_convert;
  geom_index (geometry mesh).

(** The number of positions of the mesh that [featureToExtrudedPolygon]
    returns. *)
Definition extruded_positions (feature : FeatureView) : option nat :=
  mesh ← featureToExtrudedPolygon feature demo_convert;
  length <$> attributes_position (geometry mesh).

(** 70000 vertices: a line of 3 vertices, and a line of 69997. *)
Definition overflow_vertices : js_array xnum := replicate (Z.to_nat 210000) (Some (XFin 0)).

Definition overflow_geometry (start n : Z) : FeatureGeometry :=
  mkFeatureGeometry [mkSubGeometryIndex start n None] "road" 3 None None (XFin 0) (XFin 0).

Definition overflow_line : FeatureView :=
  mkFeatureView LINE overflow_vertices (Some overflow_vertices)
    [overflow_geometry 0 3; overflow_geometry 3 69997] None (XFin 0).

End MeshDemo.

(** ** More concrete features *)

Section ParserDemo.
#[local] Existing Instance demo_number.
#[local] Existing Instance demo_env.

(** The collection that the parser makes of GeoJSON features (a new
    collection if it throws). *)
Definition parsed_state (options : FeatureBuildingOptions) (jsonFeatures : list JsonFeature)
    : State :=
  default (FeatureCollection_new options)
    (jsonFeaturesToFeatures "EPSG:4326" jsonFeatures options None (λ _, true)).

Definition demo_parsed : State := parsed_state demo_options demo_json.

(** The feature of lines of [demo_state], and its vertices. *)
Definition demo_line_feature : Feature :=
  Eval vm_compute in
    match heap demo_state !! 16 with
    | Some (OFeature f) => f
    | _ => mkFeature 0 0 0 "" 0 None None false 0 push2DValues 0 XNaN XNaN None
    end.

Definition demo_line_vertices : js_array xnum :=
  Eval vm_compute in
    match heap demo_state !! 12 with
    | Some (ONumbers vs) => vs
    | _ => []
    end.

(** A feature whose geometry is a collection of geometries. *)
Definition group_json : JsonFeature := mkJsonFeature GeometryCollection "group".

(** A geometry is bound to the polygon feature of [demo_state]. *)
Definition demo_bound : GeometryRef * State :=
  default (mkGeometryRef 0 0, demo_state) (bindNewGeometry 6 demo_state).

(** A sub geometry of two vertices is started in the second line of
    [demo_state]. *)
Definition demo_started : State :=
  final_state (startSubGeometry (mkGeometryRef 11 1) 2 16 demo_state) demo_state.
End ParserDemo.

Section MeshDemo2.
#[local] Existing Instance demo_number.
#[local] Existing Instance demo_env.
#[local] Existing Instance demo_mesh_env.

(** One line of three points. *)
Definition single_line : FeatureView :=
  Eval vm_compute in
    first_view (populate [ mkJsonFeature (LineString [pt 0 0 0; pt 1 0 0; pt 2 0 0]) "road" ]).

(** A line of one point and a line without any point. *)
Definition crowded_line : FeatureView :=
  Eval vm_compute in
    first_view (populate [ mkJsonFeature (MultiLineString [[pt 0 0 0]; []]) "road" ]).

(** The unit square, without extrusion. *)
Definition flat_square : FeatureView :=
  Eval vm_compute in
    first_view (populate
      [ mkJsonFeature (Polygon [[pt 0 0 0; pt 1 0 0; pt 1 1 0; pt 0 1 0; pt 0 0 0]]) "block" ]).

(** The unit square, without drawing style. *)
Definition hidden_square : FeatureView :=
  Eval vm_compute in
    first_view (populate
      [ mkJsonFeature (Polygon [[pt 0 0 0; pt 1 0 0; pt 1 1 0; pt 0 1 0; pt 0 0 0]]) "hidden" ]).

(** A feature of polygons that was requested, and got no geometry. *)
Definition empty_polygon : FeatureView :=
  Eval vm_compute in first_view [call_requestFeatureByType POLYGON].

(** Options with a constant colour. *)
Definition blue_convert : ConvertOptions :=
  mkConvertOptions (Some (λ _ featureId, XFin (1000 * featureId)))
    (ColorConstant (XFin 0, XFin 0, XFin 1000)) None None.

(** The meshes of [demo_json]. *)
Definition demo_meshes : list Object3D * nat * list string :=
  default ([], 0, [])
    (parse_and_convert "EPSG:4326" demo_json demo_options None (λ _, true)
       demo_convert demo_zoom 0).
End MeshDemo2.

(** The collaborators of [demo_mesh_env], with styles whose extrusion height
    is a number. *)
Definition numeric_mesh_env : @MeshEnv demo_number demo_env :=
  @Build_MeshEnv demo_number demo_env demo_color
    (XNaN, XNaN, XNaN) (λ n, (n, n, n)) (λ c, c)
    (λ c, c.1.1) (λ c, c.1.2) (λ c, c.2)
    (λ c s, (xnum_mul c.1.1 s, xnum_mul c.1.2 s, xnum_mul c.2 s))
    (XFin 500) (λ _, None) demo_drawingStyle
    (λ p : option xnum, @StyleNumber demo_number demo_env <$> p)
    (λ _, Some (λ _, (XFin 0, XFin 0, XFin 1000)))
    demo_Earcut.

Definition numeric_convert : @ConvertOptions demo_number demo_env numeric_mesh_env :=
  @mkConvertOptions demo_number demo_env numeric_mesh_env None
    (@ColorUnset demo_number demo_env numeric_mesh_env) None None.

(** ** A polygon above the limit of the index, and a ring without vertex *)

Section LargeDemo.
#[local] Existing Instance demo_number.
#[local] Existing Instance demo_env.
#[local] Existing Instance demo_mesh_env.

(** 40000 vertices: one ring, with a style that extrudes it by 10. *)
Definition big_vertices : js_array xnum := replicate (Z.to_nat 120000) (Some (XFin 0)).

Definition big_ring : FeatureGeometry :=
  mkFeatureGeometry [mkSubGeometryIndex 0 40000 None] "block" 3 None None (XFin 0) (XFin 0).

Definition big_polygon : FeatureView :=
  mkFeatureView POLYGON big_vertices (Some big_vertices) [big_ring] (Some (XFin 10000))
    (XFin 0).

(** The unit square with a second ring that has no vertex, with a style
    that extrudes it by 10. *)
Definition hollow_square : FeatureView :=
  Eval vm_compute in
    let v := first_view (populate
               [ mkJsonFeature
                   (Polygon [[pt 0 0 0; pt 1 0 0; pt 1 1 0; pt 0 1 0; pt 0 0 0]; []])
                   "block" ]) in
    mkFeatureView (view_type v) (view_vertices v) (view_normals v) (view_geometries v)
      (Some (XFin 10000)) (view_altitude_min v).
End LargeDemo.

(** * Proofs *)

Section JsArrayFacts.
Context {A : Type}.

Lemma length_set_length n (a : js_array A) : length (set_length n a) = n.
Proof. apply length_resize. Qed.

Lemma length_js_set i (v : A) a : length (js_set i v a) = length a `max` S i.
Proof.
  unfold js_set, js_array in *. case_decide.
  - rewrite length_insert. lia.
  - rewrite !length_app, length_replicate. simpl. lia.
Qed.

Lemma length_js_set_lt i (v : A) a :
  i < length a → length (js_set i v a) = length a.
Proof. rewrite length_js_set. lia. Qed.
End JsArrayFacts.

(** ** What every call preserves *)

Section Preservation.
Context `{FeatureEnv}.

Lemma extends_refl σ : extends σ σ.
Proof. by intros l k. Qed.

Lemma extends_trans σ1 σ2 σ3 : extends σ1 σ2 → extends σ2 σ3 → extends σ1 σ3.
Proof. intros H12 H23 l k Hl. by apply H23, H12. Qed.

Lemma pres_ret {A} (a : A) (R : A → Prop) : R a → pres (mret a) R.
Proof.
  intros Ha σ a' σ' Hok Hrun. injection Hrun as <- <-.
  split; [apply extends_refl | done].
Qed.

Lemma pres_bind {A B} (m : M A) (k : A → M B) (R1 : A → Prop) (R2 : B → Prop) :
  pres m R1 → (∀ a, R1 a → pres (k a) R2) → pres (m ≫= k) R2.
Proof.
  intros Hm Hk σ b σ' Hok Hrun.
  unfold mbind, M_bind in Hrun.
  destruct (m σ) as [[a σ1]|] eqn:Hmσ; [|done].
  destruct (Hm _ _ _ Hok Hmσ) as (Hext1 & Hok1 & Ha).
  destruct (Hk a Ha _ _ _ Hok1 Hrun) as (Hext2 & Hok2 & Hb).
  split; [by eapply extends_trans | done].
Qed.

Lemma pres_weaken {A} (m : M A) (R R' : A → Prop) :
  pres m R → (∀ a, R a → R' a) → pres m R'.
Proof.
  intros Hm HR σ a σ' Hok Hrun.
  destruct (Hm _ _ _ Hok Hrun) as (? & ? & ?). auto.
Qed.

Lemma pres_throw {A} (R : A → Prop) : pres throw R.
Proof. by intros σ a σ' _ Hrun. Qed.

Lemma pres_get_collection : pres get_collection (λ _, True).
Proof.
  intros σ a σ' Hok Hrun. injection Hrun as <- <-.
  split; [apply extends_refl | done].
Qed.

Lemma pres_set_collection c : pres (set_collection c) (λ _, True).
Proof.
  intros σ a σ' Hok Hrun. injection Hrun as <- <-.
  split; [by intros l k | done].
Qed.

Lemma pres_alloc o : obj_ok o → pres (alloc o) (λ _, True).
Proof.
  intros Ho σ a σ' Hok Hrun. injection Hrun as <- <-.
  assert (heap σ !! fresh (dom (heap σ)) = None) as Hfresh
    by apply not_elem_of_dom, is_fresh.
  split_and!; [| |done].
  - intros l k. unfold kind_at. simpl. intros Hl.
    rewrite lookup_insert_ne; [done|]. intros <-. by rewrite Hfresh in Hl.
  - by apply map_Forall_insert_2.
Qed.

Lemma pres_load l : pres (load l) obj_ok.
Proof.
  intros σ a σ' Hok Hrun. unfold load in Hrun.
  destruct (heap σ !! l) as [o|] eqn:Hl; [|done]. injection Hrun as <- <-.
  split_and!; [apply extends_refl | done | by eapply (Hok l)].
Qed.

Lemma pres_store l o : obj_ok o → pres (store l o) (λ _, True).
Proof.
  intros Ho σ a σ' Hok Hrun. unfold store in Hrun.
  destruct (heap σ !! l) as [o'|] eqn:Hl; [|done].
  case_decide as Hk; [|done]. injection Hrun as <- <-.
  split_and!; [| |done].
  - intros l' k. unfold kind_at. simpl.
    destruct (decide (l = l')) as [<-|Hne].
    + rewrite lookup_insert_eq, Hl. simpl. congruence.
    + by rewrite lookup_insert_ne.
  - by apply map_Forall_insert_2.
Qed.

Lemma pres_load_numbers l : pres (load_numbers l) (λ _, True).
Proof.
  eapply pres_bind; [apply pres_load|]. intros [] Ho;
    first [by apply pres_ret | apply pres_throw].
Qed.

Lemma pres_load_geometries l :
  pres (load_geometries l) (Forall (λ g, contiguous (indices g))).
Proof.
  eapply pres_bind; [apply pres_load|]. intros [] Ho;
    first [by apply pres_ret | apply pres_throw].
Qed.

Lemma pres_load_extent l : pres (load_extent l) (λ _, True).
Proof.
  eapply pres_bind; [apply pres_load|]. intros [] Ho;
    first [by apply pres_ret | apply pres_throw].
Qed.

Lemma pres_load_style l : pres (load_style l) (λ _, True).
Proof.
  eapply pres_bind; [apply pres_load|]. intros [] Ho;
    first [by apply pres_ret | apply pres_throw].
Qed.

Lemma pres_load_feature l :
  pres (load_feature l) (λ f, feature_id f = None ∧ is_feature_type (type f) = true).
Proof.
  eapply pres_bind; [apply pres_load|]. intros [] Ho;
    first [by apply pres_ret | apply pres_throw].
Qed.

Lemma pres_load_geometry g : pres (load_geometry g) (λ x, contiguous (indices x)).
Proof.
  eapply pres_bind; [apply pres_load_geometries|]. intros gs Hgs. simpl in Hgs.
  destruct (gs !! geometry_index g) as [x|] eqn:Hx; [|apply pres_throw].
  apply pres_ret. by eapply (Forall_lookup_1 _ _ _ _ Hgs).
Qed.

Lemma pres_store_geometry g x :
  contiguous (indices x) → pres (store_geometry g x) (λ _, True).
Proof.
  intros Hx. eapply pres_bind; [apply pres_load_geometries|]. intros gs Hgs.
  apply pres_store. simpl. by apply Forall_insert.
Qed.

Lemma pres_for_of {A} (xs : list A) (body : A → M unit) :
  (∀ x, pres (body x) (λ _, True)) → pres (for_of xs body) (λ _, True).
Proof.
  intros Hbody. induction xs as [|x xs IH]; simpl.
  - by apply pres_ret.
  - eapply pres_bind; [apply Hbody | by intros].
Qed.

Lemma pres_when_some {A} (o : option A) (body : A → M unit) :
  (∀ a, pres (body a) (λ _, True)) → pres (when_some o body) (λ _, True).
Proof. intros Hbody. destruct o; simpl; [apply Hbody | by apply pres_ret]. Qed.
End Preservation.

Create HintDb pres discriminated.

#[export] Hint Resolve pres_get_collection pres_set_collection pres_load_numbers
  pres_load_geometries pres_load_extent pres_load_style pres_load_feature
  pres_load_geometry pres_throw : pres.
#[export] Hint Resolve pres_alloc pres_store pres_store_geometry pres_ret : pres.
#[export] Hint Extern 1 (obj_ok _) => progress simpl : pres.
#[export] Hint Extern 1 (contiguous (indices _)) => progress simpl : pres.
#[export] Hint Extern 1 (feature_id _ = None ∧ _) => progress simpl : pres.
#[export] Hint Extern 2 (Forall _ (_ ++ [_])) =>
  apply Forall_app_2; [ | apply Forall_singleton ] : pres.

(** One step through a monadic program: a bind whose first computation a
    known fact covers, or a case distinction of the program. *)
Ltac pres_step :=
  lazymatch goal with
  | |- pres (mret _) _ => apply pres_ret; simpl
  | |- pres throw _ => apply pres_throw
  | |- pres ((match ?x with _ => _ end) ≫= _) _ => destruct x eqn:?; simpl
  | |- pres (let _ := _ in _) _ => cbv zeta
  | |- pres (mret _ ≫= _) _ =>
      eapply (pres_bind _ _ (λ _, True)); [ by apply pres_ret | simpl; intros ]
  | |- pres ((_ ≫= _) ≫= _) _ => eapply (pres_bind _ _ (λ _, True)); [ | simpl; intros ]
  | |- pres (when_some _ _ ≫= _) _ =>
      eapply (pres_bind _ _ (λ _, True)); [ apply pres_when_some; intros | simpl; intros ]
  | |- pres (for_of _ _ ≫= _) _ =>
      eapply (pres_bind _ _ (λ _, True)); [ apply pres_for_of; intros | simpl; intros ]
  | |- pres (_ ≫= _) _ =>
      eapply pres_bind; [ solve [eauto 6 with pres] | simpl; intros ]
  | |- pres (match ?x with _ => _ end) _ => destruct x eqn:?; simpl
  | |- pres (for_of _ _) _ => apply pres_for_of; intros
  | |- pres (when_some _ _) _ => apply pres_when_some; intros
  | |- pres _ _ => eapply pres_weaken; [ solve [eauto 6 with pres] | simpl; intros ]
  end.

Ltac pres_go := repeat (pres_step; try done).

Section PreservationOfCalls.
Context `{FeatureEnv}.

Lemma contiguous_nil : contiguous [].
Proof. intros i a b Ha. by rewrite lookup_nil in Ha. Qed.

(** Appending an entry whose offset is the end of the last one keeps the
    entries contiguous, whatever the offset of a first entry. *)
Lemma contiguous_snoc (g : FeatureGeometry) (d n : Z) (e : option loc) :
  contiguous (indices g) →
  contiguous (indices g ++ [mkSubGeometryIndex (default d (next_offset g)) n e]).
Proof.
  unfold next_offset. intros Hc i a b Ha Hb.
  destruct (decide (S i < length (indices g))) as [Hlt|Hge].
  - rewrite lookup_app_l in Ha by lia. rewrite lookup_app_l in Hb by lia. eauto.
  - assert (S i = length (indices g)) as Hi.
    { apply lookup_lt_Some in Hb. rewrite length_app in Hb. simpl in Hb. lia. }
    rewrite lookup_app_l in Ha by lia.
    rewrite Hi, lookup_app_r, Nat.sub_diag in Hb by lia. injection Hb as <-. simpl.
    assert (last (indices g) = Some a) as ->; [|done].
    rewrite last_lookup. rewrite <- Hi. done.
Qed.

Lemma pres_new_defaultExtent_like e : pres (new_defaultExtent_like e) (λ _, True).
Proof. unfold new_defaultExtent_like. pres_go. Qed.

Lemma pres_union_into t o : pres (union_into t o) (λ _, True).
Proof. unfold union_into. pres_go. Qed.

Lemma pres_extendBuffer feature n : pres (_extendBuffer feature n) (λ _, True).
Proof. unfold _extendBuffer. pres_go. Qed.

#[local] Hint Resolve contiguous_nil contiguous_snoc pres_new_defaultExtent_like
  pres_union_into pres_extendBuffer : pres.

Lemma pres_FeatureGeometry_new feature :
  pres (FeatureGeometry_new feature) (λ g, contiguous (indices g)).
Proof. unfold FeatureGeometry_new. pres_go; apply contiguous_nil. Qed.

Lemma pres_startSubGeometry this n feature :
  pres (startSubGeometry this n feature) (λ _, True).
Proof. unfold startSubGeometry. pres_go. Qed.

Lemma pres_closeSubGeometry this n feature :
  pres (closeSubGeometry this n feature) (λ _, True).
Proof. unfold closeSubGeometry. pres_go. Qed.

Lemma pres_getLastSubGeometry this : pres (getLastSubGeometry this) (λ _, True).
Proof. unfold getLastSubGeometry. pres_go. Qed.

Lemma pres_call_pushValues feature v0 v1 v2 :
  pres (call_pushValues feature v0 v1 v2) (λ _, True).
Proof. unfold call_pushValues. pres_go. Qed.

Lemma pres_write_normal feature normal : pres (write_normal feature normal) (λ _, True).
Proof. unfold write_normal. pres_go. Qed.

Lemma pres_expand_geometry_altitude this alt :
  pres (expand_geometry_altitude this alt) (λ _, True).
Proof. unfold expand_geometry_altitude. pres_go. Qed.

#[local] Hint Resolve pres_FeatureGeometry_new pres_startSubGeometry pres_closeSubGeometry
  pres_call_pushValues pres_write_normal pres_expand_geometry_altitude : pres.

Lemma pres_pushCoordinates this coordIn feature :
  pres (pushCoordinates this coordIn feature) (λ _, True).
Proof. unfold pushCoordinates. pres_go. Qed.

Lemma pres_pushCoordinatesValues this feature long lat alt normal :
  pres (pushCoordinatesValues this feature long lat alt normal) (λ _, True).
Proof. unfold pushCoordinatesValues. pres_go. Qed.

Lemma pres_FeatureGeometry_updateExtent this :
  pres (FeatureGeometry_updateExtent this) (λ _, True).
Proof. unfold FeatureGeometry_updateExtent. pres_go. Qed.

Lemma pres_Feature_new type : pres (Feature_new type) (λ _, True).
Proof. unfold Feature_new. pres_go. Qed.

Lemma pres_bindNewGeometry this : pres (bindNewGeometry this) (λ _, True).
Proof. unfold bindNewGeometry. pres_go. Qed.

Lemma pres_Feature_updateExtent this geometry :
  pres (Feature_updateExtent this geometry) (λ _, True).
Proof. unfold Feature_updateExtent. pres_go. Qed.

Lemma pres_FeatureCollection_updateExtent extent :
  pres (FeatureCollection_updateExtent extent) (λ _, True).
Proof. unfold FeatureCollection_updateExtent. pres_go. Qed.

Lemma pres_non_empty_features ls : pres (non_empty_features ls) (λ _, True).
Proof. induction ls as [|fl ls IH]; simpl; pres_go. Qed.

#[local] Hint Resolve pres_pushCoordinates pres_pushCoordinatesValues
  pres_FeatureGeometry_updateExtent pres_Feature_new pres_bindNewGeometry
  pres_Feature_updateExtent pres_FeatureCollection_updateExtent
  pres_non_empty_features : pres.

Lemma pres_removeEmptyFeature : pres removeEmptyFeature (λ _, True).
Proof. unfold removeEmptyFeature. pres_go. Qed.

Lemma pres_push_feature_ref feature : pres (push_feature_ref feature) (λ _, True).
Proof. unfold push_feature_ref. pres_go. Qed.

#[local] Hint Resolve pres_removeEmptyFeature pres_push_feature_ref : pres.

Lemma pres_pushFeature feature : pres (pushFeature feature) (λ _, True).
Proof. unfold pushFeature. pres_go. Qed.

Lemma pres_find_feature callback ls : pres (find_feature callback ls) (λ _, True).
Proof. induction ls as [|fl ls IH]; simpl; pres_go. Qed.

#[local] Hint Resolve pres_pushFeature pres_find_feature : pres.

Lemma pres_requestFeature type callback : pres (requestFeature type callback) (λ _, True).
Proof. unfold requestFeature. pres_go. Qed.

#[local] Hint Resolve pres_requestFeature : pres.

Lemma pres_requestFeatureByType ty : pres (requestFeatureByType ty) (λ _, True).
Proof. unfold requestFeatureByType. pres_go. Qed.

Lemma pres_requestFeatureById id ty : pres (requestFeatureById id ty) (λ _, True).
Proof. unfold requestFeatureById. pres_go. Qed.

Lemma pres_newFeatureByReference feature :
  pres (newFeatureByReference feature) (λ _, True).
Proof. unfold newFeatureByReference. pres_go. Qed.

Lemma pres_setParentStyle style_ref : pres (setParentStyle style_ref) (λ _, True).
Proof. unfold setParentStyle. pres_go. Qed.

Lemma pres_set_properties geometry p feature :
  pres (set_properties geometry p feature) (λ _, True).
Proof. unfold set_properties. pres_go. Qed.

Lemma pres_firstPtIsOut filterExtent aCoords crs :
  pres (firstPtIsOut filterExtent aCoords crs) (λ _, True).
Proof. unfold firstPtIsOut. pres_go. Qed.

#[local] Hint Resolve pres_requestFeatureByType pres_requestFeatureById
  pres_newFeatureByReference pres_setParentStyle pres_set_properties
  pres_firstPtIsOut : pres.

Lemma pres_populateGeometry crsIn coordinates geometry feature :
  pres (populateGeometry crsIn coordinates geometry feature) (λ _, True).
Proof. unfold populateGeometry. pres_go. Qed.

#[local] Hint Resolve pres_populateGeometry : pres.

Lemma pres_toFeature_default filterExtent feature crsIn coordsIn p :
  pres (toFeature_default filterExtent feature crsIn coordsIn p) (λ _, True).
Proof. unfold toFeature_default. pres_go. Qed.

#[local] Hint Resolve pres_toFeature_default : pres.

Lemma pres_toFeature_point filterExtent feature crsIn coordsIn p :
  pres (toFeature_point filterExtent feature crsIn coordsIn p) (λ _, True).
Proof. unfold toFeature_point. pres_go. Qed.

Lemma pres_toFeature_polygon filterExtent feature crsIn coordsIn p :
  pres (toFeature_polygon filterExtent feature crsIn coordsIn p) (λ _, True).
Proof. unfold toFeature_polygon. pres_go. Qed.

#[local] Hint Resolve pres_toFeature_point pres_toFeature_polygon : pres.

Lemma pres_coordinatesToFeature filterExtent geometry feature crsIn p :
  pres (coordinatesToFeature filterExtent geometry feature crsIn p) (λ _, True).
Proof. unfold coordinatesToFeature, toFeature_multi. pres_go. Qed.

#[local] Hint Resolve pres_coordinatesToFeature : pres.

Lemma pres_jsonFeatureToFeature filterExtent crsIn json :
  pres (jsonFeatureToFeature filterExtent crsIn json) (λ _, True).
Proof. unfold jsonFeatureToFeature. pres_go. Qed.

#[local] Hint Resolve pres_jsonFeatureToFeature : pres.

Lemma pres_exec c : pres (exec c) (λ _, True).
Proof. destruct c; simpl; unfold ignore; pres_go. Qed.

Lemma pres_run calls : pres (run calls) (λ _, True).
Proof. apply pres_for_of, pres_exec. Qed.

Lemma heap_ok_new options : heap_ok (FeatureCollection_new options).
Proof.
  unfold heap_ok, FeatureCollection_new. simpl.
  destruct (opt_buildExtent options), (opt_style options);
    repeat first [apply map_Forall_insert_2 | apply map_Forall_singleton
                 | apply map_Forall_empty | done].
Qed.

(** In every reachable state each object is fine by itself. *)
Lemma reachable_heap_ok σ : reachable σ → heap_ok σ.
Proof.
  intros (options & calls & Hrun).
  by destruct (pres_run calls _ _ _ (heap_ok_new options) Hrun) as (_ & ? & _).
Qed.
End PreservationOfCalls.

(** ** References stay valid *)

Section Steps.
Context `{FeatureEnv}.

Lemma bind_Some {A B} (m : M A) (k : A → M B) σ r :
  (m ≫= k) σ = Some r ↔ ∃ a σ1, m σ = Some (a, σ1) ∧ k a σ1 = Some r.
Proof.
  unfold mbind, M_bind. split.
  - destruct (m σ) as [[a σ1]|]; [eauto | done].
  - by intros (a & σ1 & -> & ?).
Qed.

Lemma good_step_refl σ : good_step σ σ.
Proof. split_and!; [apply extends_refl | eauto | done | auto]. Qed.

Lemma good_step_trans σ1 σ2 σ3 : good_step σ1 σ2 → good_step σ2 σ3 → good_step σ1 σ3.
Proof.
  intros (He1 & Hr1 & Hc1 & Hf1) (He2 & Hr2 & Hc2 & Hf2). split_and!.
  - by eapply extends_trans.
  - intros fl f l k Hfl Hin.
    destruct (Hr2 _ _ _ _ Hfl Hin) as [?|(fl' & f' & Hfl' & Hin')]; [by left|].
    destruct (Hr1 _ _ _ _ Hfl' Hin') as [?|?]; [left; by apply He2 | by right].
  - congruence.
  - intros fl [Hfl|?]%Hf2; [|by right].
    destruct (Hf1 _ Hfl) as [?|?]; [by left | right; by apply He2].
Qed.

Lemma good_step_refs_ok σ σ' : good_step σ σ' → refs_ok σ → refs_ok σ'.
Proof.
  intros (He & Hr & _) Hok fl f l k Hfl Hin.
  destruct (Hr _ _ _ _ Hfl Hin) as [?|(fl0 & f0 & Hfl0 & Hin0)]; [done|].
  apply He. by eapply Hok.
Qed.

Lemma good_step_collection_ok σ σ' : good_step σ σ' → collection_ok σ → collection_ok σ'.
Proof.
  intros (He & _ & Hc & Hf) [Hfs Hext]. split.
  - intros fl [?|?]%Hf; [apply He; by apply Hfs | done].
  - intros e He'. rewrite Hc in He'. by apply He, Hext.
Qed.

Lemma gstep_ret {A} (a : A) : gstep (mret a).
Proof. intros σ a' σ' Hrun. injection Hrun as <- <-. apply good_step_refl. Qed.

Lemma gstep_bind {A B} (m : M A) (k : A → M B) :
  gstep m → (∀ a, gstep (k a)) → gstep (m ≫= k).
Proof.
  intros Hm Hk σ b σ' (a & σ1 & Hm1 & Hk1)%bind_Some.
  eapply good_step_trans; [by eapply Hm | by eapply Hk].
Qed.

Lemma gstep_throw {A} : gstep (@throw _ _ A).
Proof. by intros σ a σ' Hrun. Qed.

Lemma gstep_get_collection : gstep get_collection.
Proof. intros σ a σ' Hrun. injection Hrun as <- <-. apply good_step_refl. Qed.

Lemma gstep_set_altitude (lo hi : FeatureCollection → num) :
  gstep (c ← get_collection; set_collection (with_collection_altitude c (lo c) (hi c))).
Proof.
  intros σ a σ' Hrun. injection Hrun as <- <-.
  split_and!; [by intros l k | eauto | done | auto].
Qed.

Lemma gstep_load l : gstep (load l).
Proof.
  intros σ a σ' Hrun. unfold load in Hrun. destruct (heap σ !! l); [|done].
  injection Hrun as <- <-. apply good_step_refl.
Qed.

(** The heap after [l] received a (new or updated) object that is no feature. *)
Lemma good_step_insert σ l o :
  (∀ o', heap σ !! l = Some o' → kind o' = kind o) →
  kind o ≠ KFeature →
  good_step σ (mkState (<[l := o]> (heap σ)) (collection σ)).
Proof.
  intros Hk Ho. split_and!; simpl; [| |done|auto].
  - intros l' k. unfold kind_at. simpl.
    destruct (decide (l = l')) as [<-|Hne].
    + rewrite lookup_insert_eq. destruct (heap σ !! l) as [o'|]; [|done].
      simpl. rewrite (Hk o' eq_refl). done.
    + by rewrite lookup_insert_ne.
  - intros fl f l' k Hfl Hin. right. exists fl, f. split; [|done].
    destruct (decide (l = fl)) as [<-|Hne].
    + rewrite lookup_insert_eq in Hfl. injection Hfl as ->. done.
    + by rewrite lookup_insert_ne in Hfl.
Qed.

Lemma gstep_alloc o : kind o ≠ KFeature → gstep (alloc o).
Proof.
  intros Ho σ a σ' Hrun. injection Hrun as <- <-.
  apply good_step_insert; [|done].
  intros o' Hl. by rewrite (not_elem_of_dom_1 _ _ (is_fresh (dom (heap σ)))) in Hl.
Qed.

Lemma gstep_store l o : kind o ≠ KFeature → gstep (store l o).
Proof.
  intros Ho σ a σ' Hrun. unfold store in Hrun.
  destruct (heap σ !! l) as [o'|] eqn:Hl; [|done].
  case_decide; [|done]. injection Hrun as <- <-.
  apply good_step_insert; [|done]. intros o'' Hl'. congruence.
Qed.

Lemma gstep_for_of {A} (xs : list A) (body : A → M unit) :
  (∀ x, gstep (body x)) → gstep (for_of xs body).
Proof.
  intros Hbody. induction xs as [|x xs IH]; simpl; [apply gstep_ret|].
  by apply gstep_bind.
Qed.

Lemma gstep_when_some {A} (o : option A) (body : A → M unit) :
  (∀ a, gstep (body a)) → gstep (when_some o body).
Proof. intros Hbody. destruct o; simpl; [apply Hbody | apply gstep_ret]. Qed.
End Steps.

(** ** Reading a run backwards *)

Section Inversion.
Context `{FeatureEnv}.

Lemma ret_Some {A} (a : A) σ r : (mret a : M A) σ = Some r ↔ r = (a, σ).
Proof. unfold mret, M_ret. split; congruence. Qed.

Lemma throw_Some {A} σ (r : A * State) : (throw : M A) σ = Some r ↔ False.
Proof. done. Qed.

Lemma get_collection_Some σ r : get_collection σ = Some r ↔ r = (collection σ, σ).
Proof. unfold get_collection. split; congruence. Qed.

Lemma set_collection_Some c σ r :
  set_collection c σ = Some r ↔ r = ((), mkState (heap σ) c).
Proof. unfold set_collection. split; congruence. Qed.

Lemma alloc_Some o σ r :
  alloc o σ = Some r ↔
  ∃ l, heap σ !! l = None ∧ l = fresh (dom (heap σ)) ∧
       r = (l, mkState (<[l := o]> (heap σ)) (collection σ)).
Proof.
  unfold alloc. split.
  - intros [= <-]. eexists. split_and!; [|done..].
    apply not_elem_of_dom, is_fresh.
  - by intros (l & _ & -> & ->).
Qed.

Lemma load_Some l σ r : load l σ = Some r ↔ ∃ o, heap σ !! l = Some o ∧ r = (o, σ).
Proof.
  unfold load. destruct (heap σ !! l) as [o|]; split.
  - intros [= <-]. eauto.
  - by intros (o' & [= <-] & ->).
  - done.
  - by intros (o' & ? & _).
Qed.

Lemma store_Some l o σ r :
  store l o σ = Some r ↔
  ∃ o', heap σ !! l = Some o' ∧ kind o' = kind o ∧
        r = ((), mkState (<[l := o]> (heap σ)) (collection σ)).
Proof.
  unfold store. destruct (heap σ !! l) as [o'|]; [case_decide|]; split.
  - intros [= <-]. eauto.
  - by intros (? & _ & _ & ->).
  - done.
  - intros (? & [= <-] & ? & _). done.
  - done.
  - by intros (? & ? & _).
Qed.

Lemma load_numbers_Some l σ r :
  load_numbers l σ = Some r ↔ ∃ a, heap σ !! l = Some (ONumbers a) ∧ r = (a, σ).
Proof.
  unfold load_numbers. rewrite bind_Some. setoid_rewrite load_Some. split.
  - intros (o & σ1 & (o' & Hl & ?) & Hr). simplify_eq. destruct o'; try done.
    apply ret_Some in Hr. eauto.
  - intros (a & Hl & ->). eexists _, _. split; [eauto|]. done.
Qed.

Lemma load_geometries_Some l σ r :
  load_geometries l σ = Some r ↔ ∃ gs, heap σ !! l = Some (OGeometries gs) ∧ r = (gs, σ).
Proof.
  unfold load_geometries. rewrite bind_Some. setoid_rewrite load_Some. split.
  - intros (o & σ1 & (o' & Hl & ?) & Hr). simplify_eq. destruct o'; try done.
    apply ret_Some in Hr. eauto.
  - intros (a & Hl & ->). eexists _, _. split; [eauto|]. done.
Qed.

Lemma load_extent_Some l σ r :
  load_extent l σ = Some r ↔ ∃ e, heap σ !! l = Some (OExtent e) ∧ r = (e, σ).
Proof.
  unfold load_extent. rewrite bind_Some. setoid_rewrite load_Some. split.
  - intros (o & σ1 & (o' & Hl & ?) & Hr). simplify_eq. destruct o'; try done.
    apply ret_Some in Hr. eauto.
  - intros (a & Hl & ->). eexists _, _. split; [eauto|]. done.
Qed.

Lemma load_style_Some l σ r :
  load_style l σ = Some r ↔ ∃ s, heap σ !! l = Some (OStyle s) ∧ r = (s, σ).
Proof.
  unfold load_style. rewrite bind_Some. setoid_rewrite load_Some. split.
  - intros (o & σ1 & (o' & Hl & ?) & Hr). simplify_eq. destruct o'; try done.
    apply ret_Some in Hr. eauto.
  - intros (a & Hl & ->). eexists _, _. split; [eauto|]. done.
Qed.

Lemma load_feature_Some l σ r :
  load_feature l σ = Some r ↔ ∃ f, heap σ !! l = Some (OFeature f) ∧ r = (f, σ).
Proof.
  unfold load_feature. rewrite bind_Some. setoid_rewrite load_Some. split.
  - intros (o & σ1 & (o' & Hl & ?) & Hr). simplify_eq. destruct o'; try done.
    apply ret_Some in Hr. eauto.
  - intros (a & Hl & ->). eexists _, _. split; [eauto|]. done.
Qed.

Lemma load_geometry_Some g σ r :
  load_geometry g σ = Some r ↔
  ∃ gs x, heap σ !! geometry_list g = Some (OGeometries gs) ∧
          gs !! geometry_index g = Some x ∧ r = (x, σ).
Proof.
  unfold load_geometry. rewrite bind_Some. setoid_rewrite load_geometries_Some. split.
  - intros (gs & σ1 & (gs' & Hl & ?) & Hr). simplify_eq.
    destruct (gs' !! geometry_index g) eqn:Hx; [|done].
    apply ret_Some in Hr. eauto.
  - intros (gs & x & Hl & Hx & ->). eexists _, _. split; [eauto|]. by rewrite Hx.
Qed.

Lemma store_geometry_Some g x σ r :
  store_geometry g x σ = Some r ↔
  ∃ gs, heap σ !! geometry_list g = Some (OGeometries gs) ∧
        r = ((), mkState (<[geometry_list g := OGeometries (<[geometry_index g := x]> gs)]>
                            (heap σ)) (collection σ)).
Proof.
  unfold store_geometry. rewrite bind_Some. setoid_rewrite load_geometries_Some.
  setoid_rewrite store_Some. split.
  - intros (gs & σ1 & (gs' & Hl & ?) & (o' & Hl' & _ & ->)). simplify_eq. eauto.
  - intros (gs & Hl & ->). eexists _, _. split; [eauto|]. eexists. by rewrite Hl.
Qed.
End Inversion.

(** Decompose the hypothesis that a program ran to completion. *)
Ltac run_inv :=
  repeat match goal with
  | H : @mbind _ _ _ _ _ _ _ = Some _ |- _ => apply bind_Some in H as (? & ? & ? & H)
  | H : @mret _ _ _ _ _ = Some _ |- _ => apply ret_Some in H; simplify_eq
  | H : @throw _ _ _ _ = Some _ |- _ => by apply throw_Some in H
  | H : get_collection _ = Some _ |- _ => apply get_collection_Some in H; simplify_eq
  | H : set_collection _ _ = Some _ |- _ => apply set_collection_Some in H; simplify_eq
  | H : alloc _ _ = Some _ |- _ =>
      let Hl := fresh "Hfresh" in
      apply alloc_Some in H as (? & Hl & _ & ?); simplify_eq
  | H : store _ _ _ = Some _ |- _ =>
      let Hl := fresh "Hstore" in
      let Hk := fresh "Hkind" in
      apply store_Some in H as (? & Hl & Hk & ?); simplify_eq
  | H : load_numbers _ _ = Some _ |- _ =>
      let Hl := fresh "Hload" in
      apply load_numbers_Some in H as (? & Hl & ?); simplify_eq
  | H : load_geometries _ _ = Some _ |- _ =>
      let Hl := fresh "Hload" in
      apply load_geometries_Some in H as (? & Hl & ?); simplify_eq
  | H : load_extent _ _ = Some _ |- _ =>
      let Hl := fresh "Hload" in
      apply load_extent_Some in H as (? & Hl & ?); simplify_eq
  | H : load_style _ _ = Some _ |- _ =>
      let Hl := fresh "Hload" in
      apply load_style_Some in H as (? & Hl & ?); simplify_eq
  | H : load_feature _ _ = Some _ |- _ =>
      let Hl := fresh "Hload" in
      apply load_feature_Some in H as (? & Hl & ?); simplify_eq
  | H : load_geometry _ _ = Some _ |- _ =>
      let Hl := fresh "Hload" in
      let Hx := fresh "Hgeom" in
      apply load_geometry_Some in H as (? & ? & Hl & Hx & ?); simplify_eq
  | H : store_geometry _ _ _ = Some _ |- _ =>
      let Hl := fresh "Hload" in
      apply store_geometry_Some in H as (? & Hl & ?); simplify_eq
  | H : (match ?x with _ => _ end) _ = Some _ |- _ => destruct x eqn:?
  | H : (let _ := _ in _) _ = Some _ |- _ => cbv zeta in H
  end.

Section StepsOfCalls.
Context `{FeatureEnv}.

Lemma kind_at_insert σ l o l' :
  kind_at (mkState (<[l := o]> (heap σ)) (collection σ)) l'
  = if decide (l = l') then Some (kind o) else kind_at σ l'.
Proof.
  unfold kind_at. simpl. case_decide as Heq.
  - subst. by rewrite lookup_insert_eq.
  - by rewrite lookup_insert_ne.
Qed.

(** A feature object is replaced by one with the same references. *)
Lemma good_step_update_feature σ l f f' :
  heap σ !! l = Some (OFeature f) → refs_list f' = refs_list f →
  good_step σ (mkState (<[l := OFeature f']> (heap σ)) (collection σ)).
Proof.
  intros Hl Hrefs. split_and!; simpl; [| |done|auto].
  - intros l' k. rewrite kind_at_insert. case_decide; [|done].
    subst. unfold kind_at. by rewrite Hl.
  - intros fl g l' k Hfl Hin. right.
    destruct (decide (l = fl)) as [<-|Hne].
    + rewrite lookup_insert_eq in Hfl. injection Hfl as <-.
      exists l, f. by rewrite <- Hrefs.
    + rewrite lookup_insert_ne in Hfl by done. eauto.
Qed.

(** A new feature object whose references are valid. *)
Lemma good_step_new_feature σ l f :
  heap σ !! l = None →
  (∀ r k, (r, k) ∈ refs_list f → kind_at σ r = Some k) →
  good_step σ (mkState (<[l := OFeature f]> (heap σ)) (collection σ)).
Proof.
  intros Hl Hrefs.
  assert (extends σ (mkState (<[l := OFeature f]> (heap σ)) (collection σ))) as Hext.
  { intros l' k. rewrite kind_at_insert. case_decide; [|done].
    subst. unfold kind_at. by rewrite Hl. }
  split_and!; simpl; [done| |done|auto].
  intros fl g l' k Hfl Hin.
  destruct (decide (l = fl)) as [<-|Hne].
  - rewrite lookup_insert_eq in Hfl. injection Hfl as <-. left. by apply Hext, Hrefs.
  - rewrite lookup_insert_ne in Hfl by done. eauto.
Qed.

Lemma good_step_set_features σ fs :
  (∀ fl, fl ∈ fs → fl ∈ features (collection σ) ∨ kind_at σ fl = Some KFeature) →
  good_step σ (mkState (heap σ) (with_features (collection σ) fs)).
Proof. intros Hfs. split_and!; simpl; [by intros l k | eauto | done | done]. Qed.

(** An object found after an update at [l], of a class other than that of
    the object at [l], was there before. *)
Lemma lookup_insert_other_kind (h : gmap nat Obj) l o l' o' :
  <[l := o]> h !! l' = Some o' → kind o' ≠ kind o → h !! l' = Some o'.
Proof.
  intros Hl Hk. destruct (decide (l = l')) as [<-|Hne].
  - rewrite lookup_insert_eq in Hl. by simplify_eq.
  - by rewrite lookup_insert_ne in Hl.
Qed.

(** The last update of the heap is one of a feature [f'] over a feature
    with the same references. *)
Lemma good_step_update_last σ h c l x f' :
  good_step σ (mkState h c) →
  h !! l = Some x → kind x = KFeature →
  (∀ f, x = OFeature f → refs_list f' = refs_list f) →
  good_step σ (mkState (<[l := OFeature f']> h) c).
Proof.
  intros Hstep Hl Hk Hrefs. destruct x as [| | | |f]; try done.
  eapply good_step_trans; [done|].
  by apply (good_step_update_feature (mkState h c) l f f'), Hrefs.
Qed.

(** The last update of the heap is one of an object that is no feature. *)
Lemma good_step_insert_last σ h c l o :
  good_step σ (mkState h c) →
  (∀ o', h !! l = Some o' → kind o' = kind o) → kind o ≠ KFeature →
  good_step σ (mkState (<[l := o]> h) c).
Proof.
  intros Hstep Hk Ho. eapply good_step_trans; [done|].
  by apply (good_step_insert (mkState h c)).
Qed.

Lemma good_step_new_last σ h c l f :
  good_step σ (mkState h c) →
  h !! l = None → (∀ r k, (r, k) ∈ refs_list f → kind <$> h !! r = Some k) →
  good_step σ (mkState (<[l := OFeature f]> h) c).
Proof.
  intros Hstep Hl Hrefs. eapply good_step_trans; [done|].
  by apply (good_step_new_feature (mkState h c)).
Qed.

Lemma good_step_features_last σ h c fs :
  good_step σ (mkState h c) →
  (∀ fl, fl ∈ fs → fl ∈ features c ∨ kind <$> h !! fl = Some KFeature) →
  good_step σ (mkState h (with_features c fs)).
Proof.
  intros Hstep Hfs. eapply good_step_trans; [done|].
  by apply (good_step_set_features (mkState h c)).
Qed.
End StepsOfCalls.

(** Peel the state reached by a run, one update after the other, down to the
    state it started from. *)
Ltac kind_eq :=
  let o := fresh "o" in
  let Ho := fresh "Ho" in
  intros o Ho; simpl in *;
  first
    [ congruence
    | match goal with
      | H : ?h !! ?l = Some _ |- _ =>
          lazymatch type of Ho with h !! l = Some _ => idtac end;
          rewrite H in Ho; injection Ho as <-; simpl in *; congruence
      end ].

Ltac gs_peel :=
  simpl in *;
  repeat match goal with
  | |- good_step ?s ?s => apply good_step_refl
  | |- good_step _ (mkState (<[_ := ?o]> _) _) =>
      apply good_step_insert_last; [ | kind_eq | done ]
  end.

Section StepsOfCalls2.
Context `{FeatureEnv}.

Lemma gstep_call_pushValues feature v0 v1 v2 : gstep (call_pushValues feature v0 v1 v2).
Proof.
  intros [h c] a σ' Hrun. unfold call_pushValues in Hrun. run_inv.
  all: simpl in *; eapply good_step_update_last; [gs_peel | eassumption | done |].
  all: intros f ->; simpl in *; apply lookup_insert_other_kind in Hstore; [|done].
  all: by simplify_eq.
Qed.
End StepsOfCalls2.

(** From the freshness of allocated locations to their distinctness. *)
Ltac fresh_neq :=
  simpl in *;
  repeat match goal with
  | H : <[_ := _]> _ !! _ = None |- _ => apply lookup_insert_None in H as [H ?]
  end.

Ltac lookup_solve :=
  repeat first
    [ rewrite lookup_insert_eq
    | rewrite lookup_insert_ne by congruence ];
  simpl; try done; try congruence.

Section StepsOfCalls3.
Context `{FeatureEnv}.

Lemma elem_of_refs_list (f : Feature) l k :
  (l, k) ∈ refs_list f ↔
  (l = vertices f ∧ k = KNumbers) ∨ (l = geometries f ∧ k = KGeometries) ∨
  (l = style f ∧ k = KStyle) ∨ (normals f = Some l ∧ k = KNumbers) ∨
  (feature_extent f = Some l ∧ k = KExtent).
Proof.
  unfold refs_list. rewrite !elem_of_app, !elem_of_cons, elem_of_nil.
  destruct (normals f), (feature_extent f);
    rewrite ?elem_of_cons, ?elem_of_nil; naive_solver.
Qed.

(** [new Feature(type, collection)] creates a feature object with valid
    references and leaves the collection as it is. *)
Lemma Feature_new_step ty σ fl σ' :
  Feature_new ty σ = Some (fl, σ') →
  good_step σ σ' ∧ kind_at σ' fl = Some KFeature ∧ collection σ' = collection σ.
Proof.
  destruct σ as [h c]. intros Hrun.
  unfold Feature_new, new_defaultExtent_like in Hrun. run_inv.
  all: simpl in *; split_and!;
    [ | unfold kind_at; simpl; by rewrite lookup_insert_eq | done ].
  all: apply good_step_new_last; [gs_peel | done | ].
  all: intros r k; rewrite elem_of_refs_list; simpl; fresh_neq.
  all: intros Hr; repeat destruct Hr as [Hr|Hr]; destruct Hr as [Hr ->];
    simplify_eq; lookup_solve.
Qed.

Lemma gstep_Feature_new ty : gstep (Feature_new ty).
Proof. intros σ a σ' Hrun. by apply Feature_new_step in Hrun as (? & _). Qed.

Lemma gstep_union_into t o : gstep (union_into t o).
Proof.
  intros [h c] a σ' Hrun. unfold union_into in Hrun. run_inv. gs_peel.
Qed.

Lemma gstep_Feature_updateExtent this geometry :
  gstep (Feature_updateExtent this geometry).
Proof.
  intros [h c] a σ' Hrun. unfold Feature_updateExtent in Hrun.
  apply bind_Some in Hrun as (f0 & σ1 & Hf & Hrun).
  apply load_feature_Some in Hf as (f & Hf & [= -> ->]).
  apply bind_Some in Hrun as (g0 & σ2 & Hg & Hrun).
  apply load_geometry_Some in Hg as (gs & g & Hgs & Hg & [= -> ->]).
  apply bind_Some in Hrun as (u & σ3 & Hu & Hrun).
  assert (good_step (mkState h c) σ3 ∧ heap σ3 !! this = Some (OFeature f))
    as [Hstep Hthis].
  { clear Hrun. destruct (feature_extent f); simpl in Hu.
    - destruct (geometry_extent g); [|done]. unfold union_into in Hu. run_inv.
      split; [gs_peel|]. simpl in *. rewrite lookup_insert_ne; [done|].
      intros <-. rewrite Hf in Hload0. done.
    - apply ret_Some in Hu. simplify_eq. split; [apply good_step_refl | done]. }
  case_decide.
  - apply store_Some in Hrun as (o' & Hl & Hk & ?). simplify_eq. destruct σ3 as [h3 c3].
    eapply good_step_update_last; [done | eassumption | done |].
    by intros ? [= <-].
  - apply ret_Some in Hrun. by simplify_eq.
Qed.
End StepsOfCalls3.

Create HintDb gstep discriminated.
#[export] Hint Resolve gstep_call_pushValues gstep_Feature_new gstep_union_into
  gstep_Feature_updateExtent : gstep.

Ltac gstep_step :=
  first
  [ solve [auto with gstep]
  | lazymatch goal with
    | |- gstep (mret _) => apply gstep_ret
    | |- gstep throw => apply gstep_throw
    | |- gstep get_collection => apply gstep_get_collection
    | |- gstep (get_collection ≫= λ c, set_collection (with_collection_altitude c _ _)) =>
        apply gstep_set_altitude
    | |- gstep (alloc _) => apply gstep_alloc; done
    | |- gstep (load _) => apply gstep_load
    | |- gstep (store _ _) => apply gstep_store; done
    | |- gstep (let _ := _ in _) => cbv zeta
    | |- gstep (for_of _ _) => apply gstep_for_of; intros
    | |- gstep (when_some _ _) => apply gstep_when_some; intros
    | |- gstep (_ ≫= _) => apply gstep_bind; [ | intros ]
    | |- gstep (match ?x with _ => _ end) => destruct x
    end ].

Ltac gstep_go := repeat gstep_step.

Section StepsOfCalls4.
Context `{FeatureEnv}.

Ltac unfold_calls :=
  unfold ignore, coordinatesToFeature, toFeature_multi,
    toFeature_polygon, toFeature_point, toFeature_default, populateGeometry,
    set_properties, firstPtIsOut, setParentStyle, FeatureCollection_updateExtent,
    bindNewGeometry, FeatureGeometry_updateExtent,
    pushCoordinatesValues, pushCoordinates, expand_geometry_altitude, write_normal,
    getLastSubGeometry, closeSubGeometry, startSubGeometry,
    FeatureGeometry_new, _extendBuffer, new_defaultExtent_like,
    store_geometry, load_geometry, load_feature, load_style, load_extent,
    load_geometries, load_numbers.

Lemma gstep_non_empty_features ls : gstep (non_empty_features ls).
Proof.
  induction ls as [|fl ls IH]; simpl; [apply gstep_ret|].
  unfold_calls. gstep_go; done.
Qed.

Lemma gstep_find_feature callback ls : gstep (find_feature callback ls).
Proof.
  induction ls as [|fl ls IH]; simpl; [apply gstep_ret|].
  unfold_calls. gstep_go; done.
Qed.

Lemma gstep_coordinatesToFeature filterExtent geometry feature crsIn p :
  gstep (coordinatesToFeature filterExtent geometry feature crsIn p).
Proof. unfold_calls. gstep_go. Qed.

Lemma non_empty_features_sub ls σ kept σ' :
  non_empty_features ls σ = Some (kept, σ') → σ' = σ ∧ kept ⊆ ls.
Proof.
  revert kept σ'. induction ls as [|fl ls IH]; simpl; intros kept σ' Hrun.
  - run_inv. by split.
  - apply bind_Some in Hrun as (f0 & σ1 & Hf & Hrun).
    apply load_feature_Some in Hf as (f & Hf & [= -> ->]).
    apply bind_Some in Hrun as (gs0 & σ1 & Hgs & Hrun).
    apply load_geometries_Some in Hgs as (gs & Hgs & [= -> ->]).
    apply bind_Some in Hrun as (rest & σ1 & Hrest & Hrun).
    apply IH in Hrest as [-> Hsub]. apply ret_Some in Hrun. simplify_eq.
    split; [done|]. case_decide; set_solver.
Qed.

Lemma gstep_removeEmptyFeature : gstep removeEmptyFeature.
Proof.
  intros [h c] a σ' Hrun. unfold removeEmptyFeature in Hrun.
  apply bind_Some in Hrun as (c0 & σ1 & Hc & Hrun).
  apply get_collection_Some in Hc. simplify_eq.
  apply bind_Some in Hrun as (kept & σ1 & Hkept & Hrun).
  apply non_empty_features_sub in Hkept as [-> Hsub].
  apply set_collection_Some in Hrun. simplify_eq. simpl.
  apply good_step_features_last; [apply good_step_refl|]. intros fl Hfl. left. by apply Hsub.
Qed.

(** Appending a feature of the heap to the collection. *)
Lemma push_feature_ref_step fl σ u σ' :
  push_feature_ref fl σ = Some (u, σ') → kind_at σ fl = Some KFeature →
  good_step σ σ' ∧ heap σ' = heap σ ∧
  features (collection σ') = features (collection σ) ++ [fl].
Proof.
  destruct σ as [h c]. unfold push_feature_ref. intros Hrun Hk. run_inv. simpl.
  split; [|done].
  apply good_step_features_last; [apply good_step_refl|].
  intros fl' [?|Hfl%list_elem_of_singleton]%elem_of_app; [by left | right; by subst].
Qed.

Lemma gstep_pushFeature feature : gstep (pushFeature feature).
Proof.
  intros σ a σ' Hrun. unfold pushFeature in Hrun.
  apply bind_Some in Hrun as (u & σ1 & Hpush & Hrun).
  apply bind_Some in Hrun as (f0 & σ2 & Hf & Hrun).
  apply load_feature_Some in Hf as (f & Hf & [= -> ->]).
  assert (kind_at σ feature = Some KFeature) as Hk.
  { unfold push_feature_ref in Hpush. run_inv. unfold kind_at. simpl in *. by rewrite Hf. }
  apply push_feature_ref_step in Hpush as (Hstep & _); [|done].
  eapply good_step_trans; [done|]. revert Hrun. generalize (feature_extent f). intros e.
  assert (gstep (FeatureCollection_updateExtent e)) as Hg
    by (unfold FeatureCollection_updateExtent, load_feature; gstep_go).
  apply Hg.
Qed.

Lemma gstep_requestFeature type callback : gstep (requestFeature type callback).
Proof.
  intros σ a σ' Hrun. unfold requestFeature in Hrun.
  apply bind_Some in Hrun as (c0 & σ1 & Hc & Hrun).
  apply get_collection_Some in Hc. simplify_eq.
  apply bind_Some in Hrun as (found & σ1 & Hfind & Hrun).
  apply gstep_find_feature in Hfind as Hstep1.
  eapply good_step_trans; [done|].
  assert (∀ r, (newFeature ← Feature_new type; _ ← push_feature_ref newFeature;
                mret newFeature) σ1 = Some r → good_step σ1 r.2) as Hnew.
  { intros [fl σ2] (fl' & σ3 & Hnew & Hrest)%bind_Some.
    apply Feature_new_step in Hnew as (Hstep & Hk & _).
    apply bind_Some in Hrest as (u & σ4 & Hpush & Hret).
    apply push_feature_ref_step in Hpush as (Hstep' & _); [|done].
    apply ret_Some in Hret. simplify_eq. simpl. by eapply good_step_trans. }
  destruct found as [fl|], (mergeFeatures (collection σ)).
  - apply ret_Some in Hrun. simplify_eq. apply good_step_refl.
  - by apply Hnew in Hrun.
  - by apply Hnew in Hrun.
  - by apply Hnew in Hrun.
Qed.

Lemma gstep_newFeatureByReference feature : gstep (newFeatureByReference feature).
Proof.
  intros σ a σ' Hrun. unfold newFeatureByReference in Hrun.
  apply bind_Some in Hrun as (src0 & σ1 & Hsrc & Hrun).
  apply load_feature_Some in Hsrc as (src & Hsrc & [= -> ->]).
  apply bind_Some in Hrun as (ref & σ1 & Hnew & Hrun).
  pose proof Hnew as Hnew'.
  apply Feature_new_step in Hnew as (Hstep & Hk & _).
  apply bind_Some in Hrun as (r0 & σ2 & Hr & Hrun).
  apply load_feature_Some in Hr as (r & Hr & [= -> ->]).
  apply bind_Some in Hrun as (u & σ2 & Hstore & Hrun).
  apply store_Some in Hstore as (o' & Hl & Hkind & ?). simplify_eq.
  apply bind_Some in Hrun as (u' & σ3 & Hpush & Hrun).
  apply ret_Some in Hrun. simplify_eq.
  apply push_feature_ref_step in Hpush as (Hstep' & _);
    [|unfold kind_at; simpl; by rewrite lookup_insert_eq].
  match goal with Hx : heap σ1 !! ?x = Some (OFeature r) |- _ =>
    rename x into nl; rename Hx into Hnl end.
  eapply good_step_trans; [|done].
  assert (extends σ1 (mkState (<[nl := OFeature
      (mkFeature (type r) (geometries src) (vertices src) (feature_crs r) (size src)
         (normals src) (feature_extent src) (useCrsOut r) (_pos src) (_pushValues r)
         (style r) (altitude_min r) (altitude_max r) (feature_id r))]> (heap σ1))
      (collection σ1))) as Hext'.
  { intros l' k'. rewrite kind_at_insert. case_decide; [|done].
    subst. unfold kind_at. by rewrite Hnl. }
  destruct Hstep as (Hext & Hrefs & Hcoll & Hfs). split_and!; simpl; [| |done|].
  - by eapply extends_trans.
  - intros fl f l k Hfl Hin.
    destruct (decide (nl = fl)) as [<-|Hne].
    + rewrite lookup_insert_eq in Hfl. injection Hfl as <-.
      apply elem_of_refs_list in Hin. simpl in Hin.
      destruct Hin as [[-> ->]|[[-> ->]|[[-> ->]|[[? ->]|[? ->]]]]].
      * right. exists feature, src. split; [done|]. apply elem_of_refs_list. tauto.
      * right. exists feature, src. split; [done|]. apply elem_of_refs_list. tauto.
      * destruct (Hrefs nl r (style r) KStyle Hnl) as [?|?]; [| |by right].
        { apply elem_of_refs_list. tauto. }
        left. by apply Hext'.
      * right. exists feature, src. split; [done|]. apply elem_of_refs_list. tauto.
      * right. exists feature, src. split; [done|]. apply elem_of_refs_list. tauto.
    + rewrite lookup_insert_ne in Hfl by done.
      destruct (Hrefs _ _ _ _ Hfl Hin) as [?|?]; [left; by apply Hext' | by right].
  - intros fl [?|?]%Hfs; [by left | right; by apply Hext'].
Qed.
End StepsOfCalls4.

#[export] Hint Resolve gstep_non_empty_features gstep_find_feature
  gstep_coordinatesToFeature gstep_removeEmptyFeature gstep_pushFeature
  gstep_requestFeature gstep_newFeatureByReference : gstep.

Section ReachableStates.
Context `{FeatureEnv}.

Lemma gstep_exec c : gstep (exec c).
Proof.
  destruct c; simpl;
    unfold ignore, jsonFeatureToFeature, requestFeatureByType, requestFeatureById,
      set_properties, setParentStyle, FeatureCollection_updateExtent,
      bindNewGeometry, FeatureGeometry_updateExtent,
      pushCoordinatesValues, pushCoordinates, expand_geometry_altitude, write_normal,
      closeSubGeometry, startSubGeometry,
      FeatureGeometry_new, _extendBuffer, new_defaultExtent_like,
      store_geometry, load_geometry, load_feature, load_style, load_extent,
      load_geometries, load_numbers;
    gstep_go.
Qed.

Lemma gstep_run calls : gstep (run calls).
Proof. apply gstep_for_of, gstep_exec. Qed.

Lemma inv_new options : inv (FeatureCollection_new options).
Proof.
  split_and!; [apply heap_ok_new | |].
  - intros fl f l k Hfl. exfalso. revert Hfl. unfold FeatureCollection_new. simpl.
    destruct (opt_buildExtent options), (opt_style options);
      rewrite ?lookup_insert, ?lookup_singleton, ?lookup_empty;
      repeat case_decide; done.
  - split; simpl; [by intros fl ?%elem_of_nil|].
    intros e. unfold kind_at. simpl.
    destruct (opt_buildExtent options); [|done]. intros [= <-].
    by rewrite lookup_insert_eq.
Qed.

(** In every reachable state each object is fine by itself, the references
    of the features are valid and so are those of the collection. *)
Lemma reachable_inv σ : reachable σ → inv σ.
Proof.
  intros (options & calls & Hrun).
  destruct (inv_new options) as (Hh & Hr & Hc).
  destruct (pres_run calls _ _ _ Hh Hrun) as (_ & ? & _).
  pose proof (gstep_run calls _ _ _ Hrun) as Hstep.
  split_and!; [done | by eapply good_step_refs_ok | by eapply good_step_collection_ok].
Qed.
End ReachableStates.

(** ** Requests for features *)

Section Requests.
Context `{FeatureEnv}.

Lemma wpt_ret {A} (a : A) σ (Q : A → State → Prop) : Q a σ → wpt (mret a) σ Q.
Proof. intros HQ. by exists a, σ. Qed.

Lemma wpt_bind {A B} (m : M A) (k : A → M B) σ (Q : B → State → Prop) :
  wpt m σ (λ a σ1, wpt (k a) σ1 Q) → wpt (m ≫= k) σ Q.
Proof.
  intros (a & σ1 & Hm & b & σ2 & Hk & HQ). exists b, σ2. split; [|done].
  apply bind_Some. eauto.
Qed.

Lemma wpt_get_collection σ (Q : FeatureCollection → State → Prop) :
  Q (collection σ) σ → wpt get_collection σ Q.
Proof. intros HQ. by eexists _, _. Qed.

Lemma wpt_set_collection c σ (Q : unit → State → Prop) :
  Q () (mkState (heap σ) c) → wpt (set_collection c) σ Q.
Proof. intros HQ. by eexists _, _. Qed.

Lemma wpt_alloc o σ (Q : loc → State → Prop) :
  (∀ l, heap σ !! l = None → Q l (mkState (<[l := o]> (heap σ)) (collection σ))) →
  wpt (alloc o) σ Q.
Proof.
  intros HQ. eexists _, _. split; [done|]. apply HQ, not_elem_of_dom, is_fresh.
Qed.

Lemma wpt_store l o o' σ (Q : unit → State → Prop) :
  heap σ !! l = Some o' → kind o' = kind o →
  Q () (mkState (<[l := o]> (heap σ)) (collection σ)) → wpt (store l o) σ Q.
Proof.
  intros Hl Hk HQ. eexists _, _. split; [|done]. apply store_Some. eauto.
Qed.

Lemma wpt_load_extent l e σ (Q : Extent → State → Prop) :
  heap σ !! l = Some (OExtent e) → Q e σ → wpt (load_extent l) σ Q.
Proof. intros Hl HQ. eexists _, _. split; [|done]. apply load_extent_Some. eauto. Qed.

Lemma wpt_load_feature l f σ (Q : Feature → State → Prop) :
  heap σ !! l = Some (OFeature f) → Q f σ → wpt (load_feature l) σ Q.
Proof. intros Hl HQ. eexists _, _. split; [|done]. apply load_feature_Some. eauto. Qed.

Lemma kind_at_extent σ l :
  kind_at σ l = Some KExtent → ∃ e, heap σ !! l = Some (OExtent e).
Proof. unfold kind_at. destruct (heap σ !! l) as [[]|]; naive_solver. Qed.

Lemma kind_at_feature σ l :
  kind_at σ l = Some KFeature → ∃ f, heap σ !! l = Some (OFeature f).
Proof. unfold kind_at. destruct (heap σ !! l) as [[]|]; naive_solver. Qed.

End Requests.

Ltac heap_lookup :=
  fresh_neq;
  repeat (rewrite lookup_insert_ne; [ | intros ->; congruence ]);
  first [ eassumption | by rewrite lookup_insert_eq ].

Ltac wpt_step :=
  idtac; lazymatch goal with
  | |- wpt (mret _) _ _ => apply wpt_ret
  | |- wpt (_ ≫= _) _ _ => apply wpt_bind
  | |- wpt get_collection _ _ => apply wpt_get_collection
  | |- wpt (set_collection _) _ _ => apply wpt_set_collection
  | |- wpt (alloc _) _ _ =>
      let l := fresh "l" in
      let Hl := fresh "Hfresh" in
      apply wpt_alloc; intros l Hl
  | |- wpt (load_extent _) _ _ => eapply wpt_load_extent; [ heap_lookup | ]
  | |- wpt (load_feature _) _ _ => eapply wpt_load_feature; [ heap_lookup | ]
  end; simpl.

Ltac wpt_go := repeat (first [wpt_step]).

Ltac lookup_done :=
  repeat first
    [ rewrite lookup_insert_eq
    | rewrite lookup_insert_ne by congruence ];
  simpl; first [ done | congruence | by eauto ].

Ltac sub_chain :=
  repeat (etrans; [ | apply insert_subseteq; lookup_done ]); reflexivity.

Ltac heap_facts :=
  fresh_neq;
  first
    [ done
    | lookup_done
    | sub_chain
    | intros ? [= <-]; lookup_done ].

Section Requests2.
Context `{FeatureEnv}.

Lemma Feature_new_total ty σ :
  is_feature_type ty = true → collection_ok σ →
  wpt (Feature_new ty) σ
    (λ fl σ', new_feature_post ty σ fl σ' ∧ collection σ' = collection σ).
Proof.
  destruct σ as [h c]. intros Hty [_ Hext]. simpl in Hext.
  unfold Feature_new, new_defaultExtent_like.
  wpt_step. wpt_step. rewrite Hty.
  destruct (decide (collection_size c = 3%Z)) as [Hs|Hs], (collection_extent c) as [e|] eqn:He.
  all: try (destruct (kind_at_extent _ e (Hext e eq_refl)) as [ex Hex]; simpl in Hex).
  all: wpt_go.
  all: split; [|done]; eexists; split_and!; simpl; try heap_facts.
Qed.
End Requests2.

Section Requests3.
Context `{FeatureEnv}.

Lemma find_feature_total callback ls σ :
  (∀ fl, fl ∈ ls → kind_at σ fl = Some KFeature) →
  find_feature callback ls σ = Some (find_in (heap σ) callback ls, σ).
Proof.
  induction ls as [|fl ls IH]; intros Hls; [done|]. simpl.
  destruct (kind_at_feature σ fl) as [f Hf]; [apply Hls; left|].
  apply bind_Some. exists f, σ. split; [apply load_feature_Some; eauto|].
  rewrite Hf. destruct (callback f); [done|]. apply IH. intros fl' ?. apply Hls. by right.
Qed.

Lemma find_in_all_false h callback ls :
  (∀ fl f, fl ∈ ls → h !! fl = Some (OFeature f) → callback f = false) →
  (∀ fl, fl ∈ ls → ∃ f, h !! fl = Some (OFeature f)) →
  ∀ fl f, h !! fl = Some (OFeature f) → callback f = true →
  find_in h callback (ls ++ [fl]) = Some fl.
Proof.
  intros Hfalse Hvalid fl f Hf Hcb. induction ls as [|fl' ls IH]; simpl.
  - by rewrite Hf, Hcb.
  - destruct (Hvalid fl') as [f' Hf']; [left|]. rewrite Hf'.
    rewrite (Hfalse fl' f'); [|left|done]. apply IH.
    + intros ????. eapply Hfalse; [right|]; done.
    + intros ??. apply Hvalid. by right.
Qed.

Lemma find_in_None h callback ls :
  (∀ fl, fl ∈ ls → ∃ f, h !! fl = Some (OFeature f)) →
  find_in h callback ls = None →
  ∀ fl f, fl ∈ ls → h !! fl = Some (OFeature f) → callback f = false.
Proof.
  induction ls as [|fl' ls IH]; intros Hvalid Hfind fl f Hin Hf.
  - by apply elem_of_nil in Hin.
  - simpl in Hfind. destruct (Hvalid fl') as [f' Hf']; [left|]. rewrite Hf' in Hfind.
    destruct (callback f') eqn:Hcb; [done|].
    apply elem_of_cons in Hin as [->|Hin].
    + rewrite Hf in Hf'. by injection Hf' as ->.
    + eapply IH; [|done..]. intros ??. apply Hvalid. by right.
Qed.

(** A request that finds no feature, or that may not merge, creates one. *)
Lemma requestFeature_new ty callback σ :
  is_feature_type ty = true → collection_ok σ →
  find_in (heap σ) callback (features (collection σ)) = None ∨
    mergeFeatures (collection σ) = false →
  wpt (requestFeature ty callback) σ
    (λ fl σ', new_feature_post ty σ fl σ' ∧
       collection σ' = with_features (collection σ) (features (collection σ) ++ [fl])).
Proof.
  intros Hty Hok Hcase. unfold requestFeature.
  apply wpt_bind, wpt_get_collection. apply wpt_bind.
  exists (find_in (heap σ) callback (features (collection σ))), σ.
  split; [apply find_feature_total, Hok|].
  assert (wpt (newFeature ← Feature_new ty; _ ← push_feature_ref newFeature; mret newFeature) σ
    (λ fl σ', new_feature_post ty σ fl σ' ∧
       collection σ' = with_features (collection σ) (features (collection σ) ++ [fl])))
    as Hnew.
  { apply wpt_bind. destruct (Feature_new_total ty σ Hty Hok) as (fl & σ1 & Hrun & Hpost & Hc).
    exists fl, σ1. split; [done|]. unfold push_feature_ref.
    repeat wpt_step. rewrite Hc. split; [|done].
    destruct Hpost as (f & Hpost). exists f. simpl. done. }
  destruct (find_in _ _ _), (mergeFeatures (collection σ)); try done.
  by destruct Hcase.
Qed.

(** A request that finds a feature and may merge returns it. *)
Lemma requestFeature_found ty callback σ fl :
  collection_ok σ →
  find_in (heap σ) callback (features (collection σ)) = Some fl →
  mergeFeatures (collection σ) = true →
  requestFeature ty callback σ = Some (fl, σ).
Proof.
  intros Hok Hfind Hmerge. unfold requestFeature.
  apply bind_Some. exists (collection σ), σ. split; [done|].
  apply bind_Some. exists (Some fl), σ. split.
  - rewrite <- Hfind. apply find_feature_total, Hok.
  - by rewrite Hmerge.
Qed.
End Requests3.

(** ** The packed buffers *)

Section Buffers.
Context `{FeatureEnv}.

Lemma shape_kept_refl σ l : shape_kept σ σ l.
Proof. by left. Qed.

Lemma shape_kept_trans σ1 σ2 σ3 l :
  shape_kept σ1 σ2 l → shape_kept σ2 σ3 l → shape_kept σ1 σ3 l.
Proof.
  unfold shape_kept.
  intros [He1|[[Hn1 Ho1]|(k1 & k1' & t1 & Ha1 & Hb1 & ?)]]
         [He2|[[Hn2 Ho2]|(k2 & k2' & t2 & Ha2 & Hb2 & ?)]].
  - left. congruence.
  - right. left. split; congruence.
  - right. right. exists k2, k2', t2. split_and!; [congruence | done | done].
  - right. left. split; [done|]. by rewrite He2.
  - right. left. by split.
  - right. left. split; [done|]. rewrite Hb2. by intros [].
  - right. right. exists k1, k1', t1. split_and!; [done | congruence | done].
  - congruence.
  - right. right. rewrite Hb1 in Ha2. simplify_eq.
    exists k1, k2', t2. split_and!; [done | done | lia].
Qed.

Lemma same_shape_refl σ : same_shape σ σ.
Proof. split; [done|]. intros l. apply shape_kept_refl. Qed.

Lemma same_shape_trans σ1 σ2 σ3 : same_shape σ1 σ2 → same_shape σ2 σ3 → same_shape σ1 σ3.
Proof.
  intros [Hs1 H12] [Hs2 H23]. split; [congruence|]. intros l.
  by eapply shape_kept_trans.
Qed.

Lemma shape_kept_numbers σ σ' l len :
  shape_kept σ σ' l → sh σ l = Some (SNumbers len) → sh σ' l = Some (SNumbers len).
Proof. intros [->|[[? _]|(? & ? & ? & ? & _)]] Hl; congruence. Qed.

Lemma shape_kept_geometries σ σ' l k tot :
  shape_kept σ σ' l → sh σ l = Some (SGeometries k tot) →
  ∃ k', sh σ' l = Some (SGeometries k' tot) ∧ k ≤ k'.
Proof.
  intros [->|[[? _]|(k1 & k2 & t & Ha & Hb & ?)]] Hl; [eauto | congruence |].
  rewrite Ha in Hl. simplify_eq. eauto.
Qed.

Lemma shape_kept_feature σ σ' l v g n s p pos :
  shape_kept σ σ' l → sh σ' l = Some (SFeature v g n s p pos) →
  sh σ l = Some (SFeature v g n s p pos).
Proof.
  intros [<-|[[_ Hn]|(? & ? & ? & _ & ? & _)]] Hl; [done| |congruence].
  by rewrite Hl in Hn.
Qed.

Lemma shape_kept_feature_1 σ σ' l v g n s p pos :
  shape_kept σ σ' l → sh σ l = Some (SFeature v g n s p pos) →
  sh σ' l = Some (SFeature v g n s p pos).
Proof. intros [->|[[? _]|(? & ? & ? & ? & _)]] Hl; congruence. Qed.

Lemma same_shape_buffers_ok σ σ' : same_shape σ σ' → buffers_ok σ → buffers_ok σ'.
Proof.
  intros Hs [Hsize Hok]. pose proof Hs as [Hsz _]. split; [by rewrite Hsz|].
  destruct Hs as [_ Hs].
  intros fl v g n s p pos Hfl%(shape_kept_feature _ _ _ _ _ _ _ _ _ (Hs fl)).
  destruct (Hok _ _ _ _ _ _ _ Hfl) as [(Hcs & Hst & len & k & tot & Hv & Hg & Hlen & Hpos & Hn) Hap].
  split.
  - split_and!; [by rewrite Hsz | done |].
    destruct (shape_kept_geometries _ _ _ _ _ (Hs g) Hg) as (k' & Hg' & _).
    exists len, k', tot.
    split_and!; try done; [by eapply shape_kept_numbers|].
    destruct n as [nl|]; [|done]. destruct Hn as (? & ? & ?).
    split_and!; [done | by eapply shape_kept_numbers | done].
  - intros fl' v' g' n' s' p' pos' Hfl'%(shape_kept_feature _ _ _ _ _ _ _ _ _ (Hs fl')).
    eauto.
Qed.

Lemma sstep_ret {A} (a : A) : sstep (mret a).
Proof. intros σ a' σ' Hrun. apply ret_Some in Hrun. simplify_eq. apply same_shape_refl. Qed.

Lemma sstep_bind {A B} (m : M A) (k : A → M B) :
  sstep m → (∀ a, sstep (k a)) → sstep (m ≫= k).
Proof.
  intros Hm Hk σ b σ' (a & σ1 & Hm1 & Hk1)%bind_Some.
  eapply same_shape_trans; [by eapply Hm | by eapply Hk].
Qed.

Lemma sstep_throw {A} : sstep (@throw _ _ A).
Proof. by intros σ a σ' Hrun. Qed.

Lemma sstep_get_collection : sstep get_collection.
Proof.
  intros σ a σ' Hrun. apply get_collection_Some in Hrun. simplify_eq.
  apply same_shape_refl.
Qed.

Lemma sstep_set_altitude (lo hi : FeatureCollection → num) :
  sstep (c ← get_collection; set_collection (with_collection_altitude c (lo c) (hi c))).
Proof. intros σ a σ' Hrun. run_inv. split; [done|]. intros l. by left. Qed.

Lemma sstep_set_features (fs : FeatureCollection → list loc) :
  sstep (c ← get_collection; set_collection (with_features c (fs c))).
Proof. intros σ a σ' Hrun. run_inv. split; [done|]. intros l. by left. Qed.

Lemma sstep_load l : sstep (load l).
Proof. intros σ a σ' (o & _ & ?)%load_Some. simplify_eq. apply same_shape_refl. Qed.

Lemma sh_insert σ l o l' :
  sh (mkState (<[l := o]> (heap σ)) (collection σ)) l'
  = if decide (l = l') then Some (shape_of o) else sh σ l'.
Proof.
  unfold sh. simpl. case_decide as Heq.
  - subst. by rewrite lookup_insert_eq.
  - by rewrite lookup_insert_ne.
Qed.

(** An update that keeps the shape of the object, or a new object without
    shape. *)
Lemma same_shape_insert σ l o :
  sh σ l = Some (shape_of o) ∨ (sh σ l = None ∧ kind o ≠ KFeature) →
  same_shape σ (mkState (<[l := o]> (heap σ)) (collection σ)).
Proof.
  intros Hl. split; [done|]. intros l'. unfold shape_kept. rewrite sh_insert.
  case_decide; [|by left].
  subst. destruct Hl as [->|[-> Ho]]; [by left | right; left].
  split; [done|]. destruct o; simpl in *; first [tauto | intros _; by apply Ho].
Qed.

Lemma sstep_alloc o : kind o ≠ KFeature → sstep (alloc o).
Proof.
  intros Ho σ a σ' (l & Hl & _ & ?)%alloc_Some. simplify_eq.
  apply same_shape_insert. right. unfold sh. by rewrite Hl.
Qed.

Lemma sstep_store l o : shape_of o = SOther → sstep (store l o).
Proof.
  intros Ho σ a σ' (o' & Hl & Hk & ?)%store_Some. simplify_eq.
  apply same_shape_insert. left. unfold sh. rewrite Hl. simpl. f_equal.
  rewrite Ho. destruct o, o'; done.
Qed.

Lemma sstep_for_of {A} (xs : list A) (body : A → M unit) :
  (∀ x, sstep (body x)) → sstep (for_of xs body).
Proof.
  intros Hbody. induction xs as [|x xs IH]; simpl; [apply sstep_ret|].
  by apply sstep_bind.
Qed.

Lemma sstep_when_some {A} (o : option A) (body : A → M unit) :
  (∀ a, sstep (body a)) → sstep (when_some o body).
Proof. intros Hbody. destruct o; simpl; [apply Hbody | apply sstep_ret]. Qed.

(** Replacing a geometry by one with the same count. *)
Lemma total_count_insert gs i g g' :
  gs !! i = Some g → geometry_count g' = geometry_count g →
  total_count (<[i := g']> gs) = total_count gs.
Proof.
  revert i. induction gs as [|x gs IH]; intros [|i] Hi Hc; simplify_eq/=; [lia|].
  by rewrite (IH i).
Qed.

Lemma sstep_update_geometry this (upd : FeatureGeometry → FeatureGeometry) :
  (∀ g, geometry_count (upd g) = geometry_count g) →
  sstep (g ← load_geometry this; store_geometry this (upd g)).
Proof.
  intros Hupd σ a σ' Hrun. run_inv. simpl in *. simplify_eq.
  apply same_shape_insert. left. unfold sh.
  match goal with Hl : heap _ !! geometry_list this = Some _ |- _ => rewrite Hl end.
  simpl. rewrite length_insert. by erewrite total_count_insert.
Qed.
End Buffers.

Create HintDb sstep discriminated.

Ltac sstep_step :=
  first
  [ solve [auto with sstep]
  | lazymatch goal with
    | |- sstep (mret _) => apply sstep_ret
    | |- sstep throw => apply sstep_throw
    | |- sstep get_collection => apply sstep_get_collection
    | |- sstep (get_collection ≫= λ c, set_collection (with_collection_altitude c _ _)) =>
        apply sstep_set_altitude
    | |- sstep (get_collection ≫= λ c, set_collection (with_features c _)) =>
        apply sstep_set_features
    | |- sstep (load_geometry ?g ≫= λ x, store_geometry ?g _) =>
        apply sstep_update_geometry; done
    | |- sstep (alloc _) => apply sstep_alloc; done
    | |- sstep (load _) => apply sstep_load
    | |- sstep (store _ _) => apply sstep_store; done
    | |- sstep (let _ := _ in _) => cbv zeta
    | |- sstep (for_of _ _) => apply sstep_for_of; intros
    | |- sstep (when_some _ _) => apply sstep_when_some; intros
    | |- sstep (_ ≫= _) => apply sstep_bind; [ | intros ]
    | |- sstep (match ?x with _ => _ end) => destruct x
    end ].

Ltac sstep_go := repeat sstep_step.

Section BuffersSteps.
Context `{FeatureEnv}.

Ltac unfold_loads :=
  unfold load_geometry, load_feature, load_style, load_extent, load_geometries,
    load_numbers.

Lemma sstep_load_feature l : sstep (load_feature l).
Proof. unfold_loads. sstep_go. Qed.
Lemma sstep_load_geometries l : sstep (load_geometries l).
Proof. unfold_loads. sstep_go. Qed.
Lemma sstep_load_numbers l : sstep (load_numbers l).
Proof. unfold_loads. sstep_go. Qed.
Lemma sstep_load_extent l : sstep (load_extent l).
Proof. unfold_loads. sstep_go. Qed.
Lemma sstep_load_style l : sstep (load_style l).
Proof. unfold_loads. sstep_go. Qed.
Lemma sstep_load_geometry g : sstep (load_geometry g).
Proof. unfold_loads. sstep_go. Qed.

#[local] Hint Resolve sstep_load_feature sstep_load_geometries sstep_load_numbers
  sstep_load_extent sstep_load_style sstep_load_geometry : sstep.

Lemma sstep_new_defaultExtent_like e : sstep (new_defaultExtent_like e).
Proof. unfold new_defaultExtent_like. sstep_go. Qed.

Lemma sstep_union_into t o : sstep (union_into t o).
Proof. unfold union_into. sstep_go. Qed.

#[local] Hint Resolve sstep_new_defaultExtent_like sstep_union_into : sstep.

Lemma sstep_set_properties geometry p feature : sstep (set_properties geometry p feature).
Proof. unfold set_properties. sstep_go. Qed.

Lemma sstep_expand_geometry_altitude this alt : sstep (expand_geometry_altitude this alt).
Proof.
  intros σ a σ' Hrun. unfold expand_geometry_altitude in Hrun.
  apply bind_Some in Hrun as (g & σ1 & Hg & Hrun). case_decide.
  - eapply (sstep_update_geometry this
              (λ g, with_geometry_altitude g (Math_min (geometry_altitude_min g) alt)
                      (Math_max (geometry_altitude_max g) alt))); [done|].
    apply bind_Some. eauto.
  - apply ret_Some in Hrun. simplify_eq. by eapply sstep_load_geometry.
Qed.

Lemma sstep_FeatureGeometry_updateExtent this : sstep (FeatureGeometry_updateExtent this).
Proof. unfold FeatureGeometry_updateExtent. sstep_go. Qed.

Lemma sstep_FeatureCollection_updateExtent e : sstep (FeatureCollection_updateExtent e).
Proof. unfold FeatureCollection_updateExtent. sstep_go. Qed.

Lemma sstep_non_empty_features ls : sstep (non_empty_features ls).
Proof. induction ls as [|fl ls IH]; simpl; sstep_go. Qed.

Lemma sstep_find_feature callback ls : sstep (find_feature callback ls).
Proof. induction ls as [|fl ls IH]; simpl; sstep_go. Qed.

#[local] Hint Resolve sstep_set_properties sstep_expand_geometry_altitude
  sstep_FeatureGeometry_updateExtent sstep_FeatureCollection_updateExtent
  sstep_non_empty_features sstep_find_feature : sstep.

Lemma sstep_removeEmptyFeature : sstep removeEmptyFeature.
Proof.
  intros σ a σ' Hrun. unfold removeEmptyFeature in Hrun.
  apply bind_Some in Hrun as (c & σ1 & Hc & Hrun).
  apply get_collection_Some in Hc. simplify_eq.
  apply bind_Some in Hrun as (kept & σ1 & Hkept & Hrun).
  apply non_empty_features_sub in Hkept as [-> _].
  apply set_collection_Some in Hrun. simplify_eq. split; [done|]. intros l. by left.
Qed.

Lemma sstep_push_feature_ref fl : sstep (push_feature_ref fl).
Proof. unfold push_feature_ref. sstep_go. Qed.

Lemma sstep_setParentStyle s : sstep (setParentStyle s).
Proof. unfold setParentStyle. sstep_go. Qed.

Lemma sstep_firstPtIsOut filterExtent aCoords crs :
  sstep (firstPtIsOut filterExtent aCoords crs).
Proof. unfold firstPtIsOut. sstep_go. Qed.

(** [Feature.updateExtent] changes the extent and the altitude range only. *)
Lemma sstep_Feature_updateExtent this geometry : sstep (Feature_updateExtent this geometry).
Proof.
  intros σ a σ' Hrun. unfold Feature_updateExtent in Hrun.
  apply bind_Some in Hrun as (f0 & σ1 & Hf & Hrun).
  apply load_feature_Some in Hf as (f & Hf & [= -> ->]).
  apply bind_Some in Hrun as (g0 & σ2 & Hg & Hrun).
  apply load_geometry_Some in Hg as (gs & g & Hgs & Hg & [= -> ->]).
  apply bind_Some in Hrun as (u & σ3 & Hu & Hrun).
  assert (same_shape σ σ3) as Hstep.
  { match type of Hu with ?m _ = _ => assert (sstep m) as Hs by sstep_go end.
    by eapply Hs. }
  case_decide; [|apply ret_Some in Hrun; by simplify_eq].
  apply store_Some in Hrun as (o' & Hl & Hk & ?). simplify_eq.
  eapply same_shape_trans; [done|]. apply same_shape_insert. left.
  unfold sh. rewrite Hl. simpl. f_equal.
  assert (sh σ3 this = Some (shape_of (OFeature f))) as Hsh.
  { eapply shape_kept_feature_1; [apply Hstep|]. unfold sh. by rewrite Hf. }
  unfold sh in Hsh. rewrite Hl in Hsh. by injection Hsh.
Qed.

Lemma sstep_pushFeature feature : sstep (pushFeature feature).
Proof. unfold pushFeature. sstep_go; apply sstep_push_feature_ref. Qed.
End BuffersSteps.

Section BuffersChange.
Context `{FeatureEnv}.

Lemma same_shape_owns σ σ' g f : same_shape σ σ' → owns σ g f → owns σ' g f.
Proof.
  intros [_ Hs] (v & n & s & p & pos & k & tot & Hf & Hg & Hk).
  destruct (shape_kept_geometries _ _ _ _ _ (Hs _) Hg) as (k' & Hg' & ?).
  exists v, n, s, p, pos, k', tot. split_and!; [|done|lia].
  by eapply shape_kept_feature_1.
Qed.

Lemma same_shape_room σ σ' f k : same_shape σ σ' → room σ f k → room σ' f k.
Proof.
  intros [_ Hs] (v & g & n & s & p & pos & len & Hf & Hv & Hk).
  exists v, g, n, s, p, pos, len. split_and!; [| |done].
  - by eapply shape_kept_feature_1.
  - by eapply shape_kept_numbers.
Qed.

Lemma sh_mk_insert h c l o l' :
  sh (mkState (<[l := o]> h) c) l'
  = if decide (l = l') then Some (shape_of o) else sh (mkState h c) l'.
Proof. apply (sh_insert (mkState h c)). Qed.

Lemma sh_None h c l : h !! l = None → sh (mkState h c) l = None.
Proof. unfold sh. simpl. by intros ->. Qed.

(** The buffers of a feature and its list of geometries grow together. *)
Lemma buffers_ok_extend σ σ' f0 v g nl s p pos len len' k tot (n : nat) :
  buffers_ok σ →
  sh σ f0 = Some (SFeature v g nl s p pos) →
  sh σ v = Some (SNumbers len) → sh σ g = Some (SGeometries k tot) →
  Z.of_nat len' = (Z.of_nat len + Z.of_nat n * s)%Z →
  collection_size (collection σ') = collection_size (collection σ) →
  sh σ' v = Some (SNumbers len') →
  sh σ' g = Some (SGeometries k (tot + Z.of_nat n)) →
  (∀ l, nl = Some l → sh σ' l = Some (SNumbers len')) →
  (∀ l, l ≠ v → l ≠ g → nl ≠ Some l → shape_kept σ σ' l) →
  buffers_ok σ'.
Proof.
  intros [Hsize Hok] Hf0 Hv Hg Hlen' Hsz Hv' Hg' Hn' Hkept.
  destruct (Hok _ _ _ _ _ _ _ Hf0)
    as [(Hs & Hst & len0 & k0 & tot0 & Hv0 & Hg0 & Hlen & Hpos & Hnl) Hap0].
  rewrite Hv in Hv0. rewrite Hg in Hg0. simplify_eq.
  assert (∀ l v1 g1 n1 s1 p1 pos1, sh σ' l = Some (SFeature v1 g1 n1 s1 p1 pos1) →
            sh σ l = Some (SFeature v1 g1 n1 s1 p1 pos1)) as Hfeat.
  { intros l v1 g1 n1 s1 p1 pos1 Hl.
    refine (shape_kept_feature _ _ _ _ _ _ _ _ _ (Hkept l _ _ _) Hl).
    - intros ->. congruence.
    - intros ->. congruence.
    - intros ->. specialize (Hn' _ eq_refl). congruence. }
  split; [by rewrite Hsz|].
  intros fl v1 g1 n1 s1 p1 pos1 Hfl%Hfeat.
  destruct (Hok _ _ _ _ _ _ _ Hfl)
    as [(Hs1 & Hst1 & len1 & k1 & tot1 & Hv1 & Hg1 & Hlen1 & Hpos1 & Hnl1) Hap1].
  split; [|intros fl' v' g' n' s' p' pos' Hfl'%Hfeat; eauto].
  destruct (Hap1 _ _ _ _ _ _ _ Hf0) as [Heq Hne].
  destruct (Hap0 _ _ _ _ _ _ _ Hfl) as [_ Hne0].
  split_and!; [by rewrite Hsz | done |].
  destruct (decide (g1 = g)) as [->|Hgne].
  - destruct (Heq eq_refl) as [-> ->]. rewrite Hv in Hv1. rewrite Hg in Hg1. simplify_eq.
    exists len', k1, (tot1 + Z.of_nat n)%Z. split_and!; [done | done | lia | lia |].
    destruct nl as [l|]; [|done]. destruct Hnl as (? & ? & ?). split_and!; eauto.
  - destruct (Hne Hgne) as (Hvne & Hnv & Hnn).
    destruct (Hne0 (not_eq_sym Hgne)) as (_ & Hnv0 & _).
    assert (shape_kept σ σ' v1) as Kv.
    { apply Hkept; [done | intros ->; congruence | done]. }
    assert (shape_kept σ σ' g1) as Kg.
    { apply Hkept; [intros ->; congruence | done |].
      intros ->. destruct Hnl as (_ & ? & _). congruence. }
    destruct (shape_kept_geometries _ _ _ _ _ Kg Hg1) as (k' & Hg1' & _).
    exists len1, k', tot1. split_and!; try done; [by eapply shape_kept_numbers|].
    destruct n1 as [l1|]; [|done]. destruct Hnl1 as (? & Hl1 & ?).
    split_and!; [done | | done].
    eapply shape_kept_numbers; [|done]. apply Hkept.
    + intros ->. done.
    + intros ->. congruence.
    + by apply Hnn.
Qed.

(** A feature takes the buffers of a feature [src], with a position of its
    own. *)
Lemma buffers_ok_retarget σ σ' fl src v g n s p pos p' pos' len :
  buffers_ok σ →
  sh σ src = Some (SFeature v g n s p pos) → sh σ v = Some (SNumbers len) →
  sh σ fl = None ∨ is_feature_shape (sh σ fl) →
  collection_size (collection σ') = collection_size (collection σ) →
  sh σ' fl = Some (SFeature v g n s p' pos') → stride p' = s → pos' ≤ len →
  (∀ l, l ≠ fl → shape_kept σ σ' l) →
  buffers_ok σ'.
Proof.
  intros [Hsize Hok] Hsrc Hv Hfl Hsz Hfl' Hst' Hpos' Hkept.
  assert (∀ l len, sh σ l = Some (SNumbers len) → sh σ' l = Some (SNumbers len)) as Knum.
  { intros l len0 Hl. eapply shape_kept_numbers; [|done]. apply Hkept.
    intros ->. rewrite Hl in Hfl. by destruct Hfl. }
  assert (∀ l k tot, sh σ l = Some (SGeometries k tot) →
            ∃ k', sh σ' l = Some (SGeometries k' tot) ∧ k ≤ k') as Kgeo.
  { intros l k tot Hl. eapply shape_kept_geometries; [|done]. apply Hkept.
    intros ->. rewrite Hl in Hfl. by destruct Hfl. }
  assert (∀ l v1 g1 n1 s1 p1 pos1, sh σ' l = Some (SFeature v1 g1 n1 s1 p1 pos1) →
            (∃ l0 p0 pos0, sh σ l0 = Some (SFeature v1 g1 n1 s1 p0 pos0)) ∧
            feature_ok σ v1 g1 n1 s1 p1 pos1) as Hfeat.
  { intros l v1 g1 n1 s1 p1 pos1 Hl. destruct (decide (l = fl)) as [->|Hne].
    - rewrite Hfl' in Hl. simplify_eq. split; [eauto|].
      destruct (Hok _ _ _ _ _ _ _ Hsrc)
        as [(Hs & Hst & len0 & k0 & tot0 & Hv0 & Hg0 & Hlen & Hpos & Hnl) _].
      rewrite Hv in Hv0. simplify_eq.
      split_and!; [done | done |]. exists len0, k0, tot0. by split_and!.
    - apply (shape_kept_feature _ _ _ _ _ _ _ _ _ (Hkept l Hne)) in Hl.
      split; [eauto|]. by apply (Hok _ _ _ _ _ _ _ Hl). }
  split; [by rewrite Hsz|].
  intros l v1 g1 n1 s1 p1 pos1 [(l0 & p0 & pos0 & Hl0) Hfok]%Hfeat.
  split.
  - destruct Hfok as (Hs & Hst & len0 & k0 & tot0 & Hv0 & Hg0 & Hlen & Hpos & Hnl).
    split_and!; [by rewrite Hsz | done |].
    destruct (Kgeo _ _ _ Hg0) as (k' & Hg0' & _).
    exists len0, k', tot0. split_and!; try done; [by apply Knum|].
    destruct n1 as [l1|]; [|done]. destruct Hnl as (? & ? & ?).
    split_and!; [done | by apply Knum | done].
  - intros l' v2 g2 n2 s2 p2 pos2 [(l2 & p3 & pos3 & Hl2) _]%Hfeat.
    by eapply (Hok _ _ _ _ _ _ _ Hl0).
Qed.

(** A new feature with new buffers. *)
Lemma buffers_ok_new σ σ' fl v g n s p :
  buffers_ok σ →
  collection_size (collection σ') = collection_size (collection σ) →
  sh σ' fl = Some (SFeature v g n s p 0) →
  s = collection_size (collection σ) → stride p = s →
  sh σ fl = None → sh σ v = None → sh σ g = None →
  sh σ' v = Some (SNumbers 0) → sh σ' g = Some (SGeometries 0 0) →
  match n with
  | None => s = 2%Z
  | Some nl => s = 3%Z ∧ sh σ nl = None ∧ sh σ' nl = Some (SNumbers 0) ∧ nl ≠ v
  end →
  (∀ l, l ≠ fl → shape_kept σ σ' l) →
  buffers_ok σ'.
Proof.
  intros [Hsize Hok] Hsz Hfl' Hs Hst Hfl Hv Hg Hv' Hg' Hn Hkept.
  assert (∀ l x, sh σ l = Some x → l ≠ fl) as Hold.
  { intros l x Hl ->. congruence. }
  assert (∀ l v1 g1 n1 s1 p1 pos1, l ≠ fl →
            sh σ' l = Some (SFeature v1 g1 n1 s1 p1 pos1) →
            sh σ l = Some (SFeature v1 g1 n1 s1 p1 pos1)) as Hfeat.
  { intros l v1 g1 n1 s1 p1 pos1 Hne Hl.
    by apply (shape_kept_feature _ _ _ _ _ _ _ _ _ (Hkept l Hne)) in Hl. }
  assert (∀ v1 g1 n1 s1 p1 pos1, feature_ok σ v1 g1 n1 s1 p1 pos1 →
            g ≠ g1 ∧ v ≠ v1 ∧ n1 ≠ Some v ∧ n ≠ Some v1 ∧
            ∀ nl, n = Some nl → n1 ≠ Some nl) as Hfresh.
  { intros v1 g1 n1 s1 p1 pos1 (_ & _ & len0 & k0 & tot0 & Hv0 & Hg0 & _ & _ & Hnl).
    split_and!.
    - intros ->. congruence.
    - intros ->. congruence.
    - intros ->. destruct Hnl as (_ & ? & _). congruence.
    - intros ->. destruct Hn as (_ & ? & _). congruence.
    - intros nl -> ->. destruct Hn as (_ & ? & _). destruct Hnl as (_ & ? & _).
      congruence. }
  split; [by rewrite Hsz|].
  intros l v1 g1 n1 s1 p1 pos1 Hl. destruct (decide (l = fl)) as [->|Hne].
  - rewrite Hfl' in Hl. simplify_eq. split.
    + split_and!; [by rewrite Hsz | done |]. exists 0, 0, 0%Z.
      split_and!; [done | done | lia | done |].
      destruct n1 as [nl|]; [|done]. destruct Hn as (? & ? & ? & ?). by split_and!.
    + intros l' v2 g2 n2 s2 p2 pos2 Hl'. destruct (decide (l' = fl)) as [->|Hne'].
      * rewrite Hfl' in Hl'. simplify_eq. by split.
      * apply Hfeat in Hl'; [|done]. destruct (Hok _ _ _ _ _ _ _ Hl') as [Hfok _].
        destruct (Hfresh _ _ _ _ _ _ Hfok) as (? & ? & ? & ? & ?). by split.
  - apply Hfeat in Hl; [|done]. destruct (Hok _ _ _ _ _ _ _ Hl) as [Hfok Hap].
    split.
    + destruct Hfok as (Hs1 & Hst1 & len0 & k0 & tot0 & Hv0 & Hg0 & Hlen & Hpos & Hnl).
      split_and!; [by rewrite Hsz | done |].
      destruct (shape_kept_geometries _ _ _ _ _ (Hkept _ (Hold _ _ Hg0)) Hg0)
        as (k' & Hg0' & _).
      exists len0, k', tot0. split_and!; try done.
      * eapply shape_kept_numbers; [|done]. eapply Hkept, Hold. done.
      * destruct n1 as [l1|]; [|done]. destruct Hnl as (? & ? & ?).
        split_and!; [done | | done].
        eapply shape_kept_numbers; [|done]. eapply Hkept, Hold. done.
    + intros l' v2 g2 n2 s2 p2 pos2 Hl'. destruct (decide (l' = fl)) as [->|Hne'].
      * rewrite Hfl' in Hl'. simplify_eq.
        destruct (Hfresh _ _ _ _ _ _ Hfok) as (? & ? & ? & ? & Hnn).
        split; [done|]. intros _. split_and!; [done | done |].
        intros nl -> ->. by eapply Hnn.
      * apply Hfeat in Hl'; [|done]. eauto.
Qed.
End BuffersChange.

Section BuffersOfCalls.
Context `{FeatureEnv}.

#[local] Hint Resolve sstep_load_feature sstep_load_geometries sstep_load_numbers
  sstep_load_extent sstep_load_style sstep_load_geometry sstep_new_defaultExtent_like
  sstep_union_into sstep_set_properties sstep_expand_geometry_altitude
  sstep_FeatureGeometry_updateExtent sstep_FeatureCollection_updateExtent
  sstep_non_empty_features sstep_find_feature : sstep.

Lemma total_count_snoc gs g :
  total_count (gs ++ [g]) = (total_count gs + geometry_count g)%Z.
Proof. induction gs as [|x gs IH]; simpl; [lia|]. rewrite IH. lia. Qed.

Lemma FeatureGeometry_new_spec feature σ g σ' :
  FeatureGeometry_new feature σ = Some (g, σ') → same_shape σ σ' ∧ indices g = [].
Proof.
  intros Hrun.
  assert (sstep (FeatureGeometry_new feature)) as Hs.
  { unfold FeatureGeometry_new. sstep_go. }
  split; [by eapply Hs|]. clear Hs.
  unfold FeatureGeometry_new, new_defaultExtent_like in Hrun. run_inv; done.
Qed.

(** [bindNewGeometry] adds a geometry without sub geometry to the feature. *)
Lemma bindNewGeometry_spec this σ g σ' :
  bindNewGeometry this σ = Some (g, σ') → same_shape σ σ' ∧ owns σ' g this.
Proof.
  intros Hrun. unfold bindNewGeometry in Hrun.
  apply bind_Some in Hrun as (geometry & [h1 c1] & Hg & Hrun).
  apply FeatureGeometry_new_spec in Hg as [Hs1 Hix].
  apply bind_Some in Hrun as (f0 & σ1 & Hf & Hrun).
  apply load_feature_Some in Hf as (f & Hf & ?). simplify_eq.
  apply bind_Some in Hrun as (gs0 & σ1 & Hgs & Hrun).
  apply load_geometries_Some in Hgs as (gs & Hgs & ?). simplify_eq.
  apply bind_Some in Hrun as (u & σ1 & Hst & Hrun).
  apply store_Some in Hst as (o & _ & _ & ?). simplify_eq.
  apply ret_Some in Hrun. simplify_eq. simpl in *.
  assert (this ≠ geometries f) as Hne by (intros ->; congruence).
  assert (total_count (gs ++ [geometry]) = total_count gs) as Htot.
  { rewrite total_count_snoc. unfold geometry_count. rewrite Hix. simpl. lia. }
  split.
  - eapply same_shape_trans; [done|]. split; [done|]. intros l.
    unfold shape_kept. rewrite sh_mk_insert. case_decide; [|by left]. subst l.
    right. right. exists (length gs), (length (gs ++ [geometry])), (total_count gs).
    split_and!.
    + unfold sh. simpl. by rewrite Hgs.
    + simpl. by rewrite Htot.
    + rewrite length_app. lia.
  - exists (vertices f), (normals f), (size f), (_pushValues f), (_pos f),
      (length (gs ++ [geometry])), (total_count gs).
    cbn [geometry_list geometry_index]. rewrite !sh_mk_insert.
    rewrite decide_False by done. rewrite decide_True by done. split_and!.
    + unfold sh. simpl. by rewrite Hf.
    + simpl. by rewrite Htot.
    + rewrite length_app. simpl. lia.
Qed.

Ltac sh_fresh :=
  repeat match goal with
  | H : ?h !! ?l = None |- context [sh (mkState ?h ?c) ?l] =>
      rewrite (sh_None h c l H)
  end.

Ltac sh_solve :=
  fresh_neq; rewrite ?sh_mk_insert;
  repeat (case_decide; try congruence);
  sh_fresh; simpl; try done.

Lemma Feature_new_buffers ty σ fl σ' :
  buffers_ok σ → Feature_new ty σ = Some (fl, σ') →
  buffers_ok σ' ∧ new_feature_step σ fl σ' ∧
  collection_size (collection σ') = collection_size (collection σ).
Proof.
  destruct σ as [h c]. intros Hok Hrun. pose proof Hok as [Hsize _].
  unfold Feature_new, new_defaultExtent_like in Hrun. run_inv.
  all: simpl in *.
  all: match goal with
       | |- buffers_ok ?s ∧ new_feature_step _ ?l _ ∧ _ =>
           assert (∀ l', l' ≠ l → shape_kept (mkState h c) s l') as Hkept
       end.
  all: try (intros l' Hl'; unfold shape_kept; fresh_neq; rewrite !sh_mk_insert;
            rewrite (decide_False (P := _ = l')) by done;
            repeat case_decide; subst; sh_fresh;
            first [ by left | right; left; split; [done | by intros []] ]).
  all: split_and!; [ | split_and!; [by sh_solve | by sh_solve | done] | done ].
  all: eapply buffers_ok_new;
         [ exact Hok | done | by sh_solve | reflexivity | simpl.. | exact Hkept ].
  all: try by sh_solve.
  all: try (repeat case_decide; simpl; first [done | lia]).
  all: try (split_and!; sh_solve; congruence).
Qed.

Lemma sh_feature σ l f :
  heap σ !! l = Some (OFeature f) →
  sh σ l = Some (SFeature (vertices f) (geometries f) (normals f) (size f)
                   (_pushValues f) (_pos f)).
Proof. unfold sh. by intros ->. Qed.

Lemma sh_numbers σ l a : heap σ !! l = Some (ONumbers a) → sh σ l = Some (SNumbers (length a)).
Proof. unfold sh. by intros ->. Qed.

Lemma sh_geometries σ l gs :
  heap σ !! l = Some (OGeometries gs) →
  sh σ l = Some (SGeometries (length gs) (total_count gs)).
Proof. unfold sh. by intros ->. Qed.

(** [newFeatureByReference] makes a feature on the buffers of its
    argument. *)
Lemma newFeatureByReference_buffers feature σ fl σ' :
  buffers_ok σ → newFeatureByReference feature σ = Some (fl, σ') → buffers_ok σ'.
Proof.
  intros Hok Hrun. unfold newFeatureByReference in Hrun.
  apply bind_Some in Hrun as (src0 & σ0 & Hsrc & Hrun).
  apply load_feature_Some in Hsrc as (src & Hsrc & ?). simplify_eq.
  apply bind_Some in Hrun as (ref & [h1 c1] & Hnew & Hrun).
  apply Feature_new_buffers in Hnew as (Hok1 & (Hfresh & _ & Hkept) & Hsz); [|done].
  apply bind_Some in Hrun as (r0 & σ0 & Hr & Hrun).
  apply load_feature_Some in Hr as (r & Hr & ?). simplify_eq.
  apply bind_Some in Hrun as (u & σ2 & Hst & Hrun).
  apply store_Some in Hst as (o & _ & _ & ?). simplify_eq.
  apply bind_Some in Hrun as (u' & σ3 & Hpush & Hrun).
  apply ret_Some in Hrun. injection Hrun as -> ->.
  eapply same_shape_buffers_ok; [by eapply sstep_push_feature_ref|]. clear Hpush.
  apply sh_feature in Hsrc, Hr.
  assert (feature ≠ ref) as Hne by (intros ->; congruence).
  apply (shape_kept_feature_1 _ _ _ _ _ _ _ _ _ (Hkept _ Hne)) in Hsrc.
  destruct Hok1 as [Hsize1 Hok1].
  destruct (Hok1 _ _ _ _ _ _ _ Hsrc)
    as [(Hs & _ & len & k & tot & Hv & _ & _ & Hpos & _) _].
  destruct (Hok1 _ _ _ _ _ _ _ Hr) as [(Hs' & Hstr & _) _].
  eapply buffers_ok_retarget; [by split | exact Hsrc | exact Hv | | done | | | exact Hpos |].
  - right. by rewrite Hr.
  - simpl. rewrite sh_mk_insert. rewrite decide_True by done. simpl. reflexivity.
  - congruence.
  - intros l Hl. left. rewrite sh_mk_insert. by rewrite decide_False.
Qed.

Lemma find_feature_Some callback ls σ fl σ' :
  find_feature callback ls σ = Some (Some fl, σ') →
  σ' = σ ∧ ∃ f, heap σ !! fl = Some (OFeature f).
Proof.
  induction ls as [|l ls IH]; simpl; intros Hrun.
  - apply ret_Some in Hrun. simplify_eq.
  - apply bind_Some in Hrun as (f0 & σ0 & Hf & Hrun).
    apply load_feature_Some in Hf as (f & Hf & ?). simplify_eq.
    destruct (callback f); [|by apply IH].
    apply ret_Some in Hrun. simplify_eq. eauto.
Qed.

(** [requestFeature] returns a feature, and keeps the bookkeeping. *)
Lemma requestFeature_buffers ty callback σ fl σ' :
  buffers_ok σ → requestFeature ty callback σ = Some (fl, σ') →
  buffers_ok σ' ∧ is_feature_shape (sh σ' fl).
Proof.
  intros Hok Hrun. unfold requestFeature in Hrun.
  apply bind_Some in Hrun as (c & σ0 & Hc & Hrun).
  apply get_collection_Some in Hc. simplify_eq.
  apply bind_Some in Hrun as (found & σ1 & Hfind & Hrun).
  assert (same_shape σ σ1) as Hs1 by (by eapply sstep_find_feature).
  assert (∀ r σ'',
            (newFeature ← Feature_new ty; _ ← push_feature_ref newFeature; mret newFeature) σ1
            = Some (r, σ'') →
            buffers_ok σ'' ∧ is_feature_shape (sh σ'' r)) as Hnew.
  { clear Hrun. intros r σ'' Hn. apply bind_Some in Hn as (l & σ2 & Hn & Hp).
    apply Feature_new_buffers in Hn as (Hok2 & (_ & Hfeat & _) & _);
      [|by eapply same_shape_buffers_ok].
    apply bind_Some in Hp as (u & σ3 & Hp & Hr). apply ret_Some in Hr.
    injection Hr as -> ->.
    pose proof (sstep_push_feature_ref _ _ _ _ Hp) as Hs3.
    split; [by eapply same_shape_buffers_ok|].
    destruct (sh σ2 l) as [[]|] eqn:Hnf; try done.
    by rewrite (shape_kept_feature_1 _ _ _ _ _ _ _ _ _ (proj2 Hs3 _) Hnf). }
  destruct found as [l|]; [destruct (mergeFeatures (collection σ))|]; [|by apply Hnew..].
  apply ret_Some in Hrun. injection Hrun as -> ->.
  apply find_feature_Some in Hfind as [-> (f & Hf)]. split; [done|].
  by rewrite (sh_feature _ _ _ Hf).
Qed.
End BuffersOfCalls.

Section BuffersOfPipeline.
Context `{FeatureEnv}.

#[local] Hint Resolve sstep_load_feature sstep_load_geometries sstep_load_numbers
  sstep_load_extent sstep_load_style sstep_load_geometry sstep_new_defaultExtent_like
  sstep_union_into sstep_set_properties sstep_expand_geometry_altitude
  sstep_FeatureGeometry_updateExtent sstep_FeatureCollection_updateExtent
  sstep_non_empty_features sstep_find_feature : sstep.

Lemma count_snoc (ixs : list SubGeometryIndex) ix :
  foldr (λ ix acc, (count ix + acc)%Z) 0%Z (ixs ++ [ix])
  = (foldr (λ ix acc, (count ix + acc)%Z) 0%Z ixs + count ix)%Z.
Proof. induction ixs as [|x xs IH]; simpl; [lia|]. rewrite IH. lia. Qed.

Lemma total_count_insert_add gs i g g' (n : Z) :
  gs !! i = Some g → geometry_count g' = (geometry_count g + n)%Z →
  total_count (<[i := g']> gs) = (total_count gs + n)%Z.
Proof.
  revert i. induction gs as [|x gs IH]; intros [|i] Hi Hc; simplify_eq/=; [lia|].
  rewrite (IH i); [lia|done..].
Qed.

Lemma sh_feature_inv σ l v g n s p pos :
  sh σ l = Some (SFeature v g n s p pos) →
  ∃ f, heap σ !! l = Some (OFeature f) ∧ vertices f = v ∧ geometries f = g ∧
       normals f = n ∧ size f = s ∧ _pushValues f = p ∧ _pos f = pos.
Proof.
  unfold sh. destruct (heap σ !! l) as [[]|]; simpl; intros ?; simplify_eq.
  eexists. by split_and!.
Qed.

Lemma sh_numbers_inv σ l len :
  sh σ l = Some (SNumbers len) → ∃ a, heap σ !! l = Some (ONumbers a) ∧ length a = len.
Proof.
  unfold sh. destruct (heap σ !! l) as [[]|]; simpl; intros ?; simplify_eq. eauto.
Qed.

Lemma sh_geometries_inv σ l k tot :
  sh σ l = Some (SGeometries k tot) →
  ∃ gs, heap σ !! l = Some (OGeometries gs) ∧ length gs = k ∧ total_count gs = tot.
Proof.
  unfold sh. destruct (heap σ !! l) as [[]|]; simpl; intros ?; simplify_eq. eauto.
Qed.

Ltac sh_norm :=
  rewrite ?sh_mk_insert; repeat (case_decide; try congruence); simpl;
  rewrite ?length_set_length, ?length_insert.

Lemma startSubGeometry_buffers this n feature σ u σ' :
  buffers_ok σ → owns σ this feature →
  startSubGeometry this n feature σ = Some (u, σ') →
  buffers_ok σ' ∧ owns σ' this feature ∧ room σ' feature n.
Proof.
  destruct σ as [h c]. intros Hok Hown Hrun.
  destruct Hown as (v & nl & s & p & pos & k & tot & Hf & Hg & Hk).
  pose proof Hok as [Hsize Hfok].
  destruct (Hfok _ _ _ _ _ _ _ Hf)
    as [(Hs & Hst & len & k0 & tot0 & Hv & Hg0 & Hlen & Hpos & Hnl) _].
  rewrite Hg in Hg0. symmetry in Hg0. simplify_eq.
  destruct (sh_feature_inv _ _ _ _ _ _ _ _ Hf) as (f0 & Hhf & ? & ? & ? & ? & ? & ?).
  destruct (sh_numbers_inv _ _ _ Hv) as (vs0 & Hhv & ?).
  destruct (sh_geometries_inv _ _ _ _ Hg) as (gs0 & Hhg & ? & ?).
  simpl in Hhf, Hhv, Hhg.
  unfold startSubGeometry, _extendBuffer, new_defaultExtent_like in Hrun. run_inv.
  all: simpl in *.
  all: repeat match goal with
       | H : <[_ := _]> _ !! _ = Some _ |- _ =>
           apply lookup_insert_Some in H as [[? ?]|[? H]]; simplify_eq
       end.
  all: try congruence.
  all: try (match goal with
            | Hn : normals _ = Some (vertices _) |- _ =>
                rewrite Hn in Hnl; by destruct Hnl as (_ & _ & ?)
            end).
  all: match goal with
       | Hx : ?gs !! ?i = Some ?x |- context [<[?i := ?x']> ?gs] =>
           assert (total_count (<[i := x']> gs) = (total_count gs + Z.of_nat n)%Z)
             as Htot
             by (apply (total_count_insert_add _ _ x); [done|];
                 unfold geometry_count; simpl; by rewrite count_snoc)
       end.
  all: match goal with
       | Hl : _ !! vertices ?f = Some (ONumbers ?vs) |- _ =>
           pose (len' := Z.to_nat (Z.of_nat (length vs) + Z.of_nat n * size f));
           assert (Z.of_nat len'
                   = (Z.of_nat (length vs) + Z.of_nat n * collection_size c)%Z) as Hlen'
             by (unfold len'; rewrite Z2Nat.id by done; congruence)
       end.
  all: split_and!.
  all: try (eapply (buffers_ok_extend (mkState h c) _ feature _ _ _ _ _ _ _ len' _ _ n
                      Hok Hf Hv Hg Hlen')).
  all: try done.
  all: try (by (sh_norm; rewrite ?Htot)).
  all: try (by (intros l0 Hl0; simplify_eq; sh_norm)).
  all: try (intros l0 ? ? ?; unfold shape_kept; rewrite !sh_mk_insert;
            repeat (case_decide; try congruence); subst;
            first [ by left | right; left; split; [by apply sh_None | by intros []] ]).
  all: try (eexists _, _, _, _, _, _, _; split_and!; [by sh_norm | by sh_norm | done]).
  all: eexists _, _, _, _, _, _, _;
         (split_and!; [by (sh_norm; apply Hf) | by sh_norm | ]); lia.
Qed.

(** The normal is written below the length of [normals]. *)
Lemma write_normal_shape feature normal k σ u σ' :
  buffers_ok σ → room σ feature (S k) →
  write_normal feature normal σ = Some (u, σ') → same_shape σ σ'.
Proof.
  destruct σ as [h c]. intros [Hsize Hfok] Hroom Hrun.
  destruct Hroom as (v & g & nl & s & p & pos & len & Hf & Hv & Hk).
  destruct (Hfok _ _ _ _ _ _ _ Hf)
    as [(Hs & Hst & len0 & k0 & tot0 & Hv0 & Hg0 & Hlen & Hpos & Hnl) _].
  rewrite Hv in Hv0. simplify_eq.
  destruct (sh_feature_inv _ _ _ _ _ _ _ _ Hf) as (f0 & Hhf & ? & ? & ? & ? & ? & ?).
  simpl in Hhf. unfold write_normal in Hrun.
  apply bind_Some in Hrun as (f1 & σ1 & Hf1 & Hrun).
  apply load_feature_Some in Hf1 as (f & Hf1 & ?). simplify_eq/=.
  destruct (normals f) as [nl|]; [|apply ret_Some in Hrun; simplify_eq; apply same_shape_refl].
  destruct Hnl as (Hs3 & Hnl & _).
  apply bind_Some in Hrun as (ns0 & σ1 & Hns & Hrun).
  apply load_numbers_Some in Hns as (ns & Hns & ?). simplify_eq/=.
  destruct normal as [[n0 n1] n2].
  apply store_Some in Hrun as (o & _ & _ & ?). simplify_eq/=.
  apply (same_shape_insert (mkState h c)). left.
  rewrite (sh_numbers (mkState h c) _ _ Hns) in Hnl |- *. simplify_eq. simpl. do 2 f_equal.
  rewrite Hs3 in Hk. rewrite !length_js_set. lia.
Qed.

(** [_pushValues] writes below the length of [vertices], and moves the
    position. *)
Lemma call_pushValues_buffers feature value0 value1 value2 k σ u σ' :
  buffers_ok σ → room σ feature (S k) →
  call_pushValues feature value0 value1 value2 σ = Some (u, σ') →
  buffers_ok σ' ∧ room σ' feature k ∧ ∀ g f, owns σ g f → owns σ' g f.
Proof.
  destruct σ as [h c]. intros Hok Hroom Hrun. pose proof Hok as [Hsize Hfok].
  destruct Hroom as (v & g & nl & s & p & pos & len & Hf & Hv & Hk).
  destruct (Hfok _ _ _ _ _ _ _ Hf)
    as [(Hs & Hst & len0 & k0 & tot0 & Hv0 & Hg0 & Hlen & Hpos & Hnl) _].
  rewrite Hv in Hv0. simplify_eq.
  destruct (sh_feature_inv _ _ _ _ _ _ _ _ Hf) as (f0 & Hhf & ? & ? & ? & ? & ? & ?).
  destruct (sh_numbers_inv _ _ _ Hv) as (vs0 & Hhv & ?).
  simpl in Hhf, Hhv. unfold call_pushValues in Hrun.
  apply bind_Some in Hrun as (f1 & σ1 & Hf1 & Hrun).
  apply load_feature_Some in Hf1 as (f & Hf1 & ?). simplify_eq/=.
  apply bind_Some in Hrun as (vs1 & σ1 & Hvs & Hrun).
  apply load_numbers_Some in Hvs as (vs & Hvs & ?). simplify_eq/=.
  assert (feature ≠ vertices f) as Hne by (intros Heq; rewrite Heq in Hf1; congruence).
  assert (∃ a, length a = length vs ∧
            σ' = mkState (<[feature := OFeature (with_pos f (_pos f + Z.to_nat (collection_size c)))]>
                            (<[vertices f := ONumbers a]> h)) c) as (a & Ha & ->).
  { destruct (_pushValues f); simpl in Hst.
    all: apply bind_Some in Hrun as (u1 & σ1 & Hst1 & Hrun).
    all: apply store_Some in Hst1 as (o1 & _ & _ & ?); simplify_eq/=.
    all: apply store_Some in Hrun as (o2 & _ & _ & ?); simplify_eq/=.
    all: rewrite <- Hst in Hk.
    all: rewrite <- Hst.
    all: eexists; split; [|reflexivity].
    all: rewrite !length_js_set; lia. }
  assert (∀ l, l ≠ feature →
            shape_kept (mkState h c)
              (mkState (<[feature := OFeature (with_pos f (_pos f + Z.to_nat (collection_size c)))]>
                          (<[vertices f := ONumbers a]> h)) c) l) as Hkept.
  { intros l Hl. left. rewrite !sh_mk_insert. rewrite decide_False by done.
    case_decide; [|done]. subst. rewrite (sh_numbers (mkState h c) _ _ Hvs). simpl. by rewrite Ha. }
  assert (sh (mkState (<[feature := OFeature (with_pos f (_pos f + Z.to_nat (collection_size c)))]>
                         (<[vertices f := ONumbers a]> h)) c) feature
          = Some (SFeature (vertices f) (geometries f) (normals f) (size f)
                    (_pushValues f) (_pos f + Z.to_nat (collection_size c)))) as Hf'.
  { rewrite sh_mk_insert. by rewrite decide_True. }
  match goal with Hx : size f = collection_size c |- _ => rewrite Hx in Hf' end.
  split_and!.
  - eapply (buffers_ok_retarget (mkState h c) _ feature feature);
      [exact Hok | exact Hf | exact Hv | | done | exact Hf' | done | | exact Hkept].
    + right. by rewrite Hf.
    + destruct Hsize as [Hs2|Hs2]; rewrite Hs2 in *; lia.
  - eexists _, _, _, _, _, _, _. split_and!; [exact Hf' | |].
    + rewrite !sh_mk_insert. rewrite decide_False by done. rewrite decide_True by done.
      simpl. reflexivity.
    + rewrite Ha. destruct Hsize as [Hs2|Hs2]; rewrite Hs2 in *; lia.
  - intros g0 fl (v1 & n1 & s1 & p1 & pos1 & k1 & tot1 & Hfl & Hg1 & Hk1).
    assert (geometry_list g0 ≠ feature) as Hgne by (intros Heq; rewrite Heq in Hg1; congruence).
    pose proof (Hkept _ Hgne) as Kg.
    destruct (shape_kept_geometries _ _ _ _ _ Kg Hg1) as (k' & Hg' & ?).
    destruct (decide (fl = feature)) as [->|Hfne].
    + rewrite Hf in Hfl. injection Hfl as <- Eg <- <- <- <-. rewrite Eg in Hf'.
      eexists _, _, _, _, _, _, _. split_and!; [exact Hf' | exact Hg' | lia].
    + eexists _, _, _, _, _, _, _. split_and!; [| exact Hg' | lia].
      eapply shape_kept_feature_1; [by apply Hkept | done].
Qed.

Lemma pushCoordinates_buffers this coordIn feature k σ u σ' :
  buffers_ok σ → room σ feature (S k) →
  pushCoordinates this coordIn feature σ = Some (u, σ') →
  buffers_ok σ' ∧ room σ' feature k ∧ ∀ g f, owns σ g f → owns σ' g f.
Proof.
  intros Hok Hroom Hrun. unfold pushCoordinates in Hrun.
  apply bind_Some in Hrun as (f0 & σ0 & Hf & Hrun).
  apply load_feature_Some in Hf as (f & Hf & ?). simplify_eq.
  apply bind_Some in Hrun as (g0 & σ0 & Hg & Hrun).
  apply load_geometry_Some in Hg as (gs & g & Hgs & Hg & ?). simplify_eq.
  apply bind_Some in Hrun as (st0 & σ0 & Hst & Hrun).
  apply load_style_Some in Hst as (st & Hst & ?). simplify_eq.
  cbv zeta in Hrun.
  apply bind_Some in Hrun as (u1 & σ1 & Hn & Hrun).
  apply bind_Some in Hrun as (u2 & σ2 & Hp & Hrun).
  apply bind_Some in Hrun as (u3 & σ3 & He & Hrun).
  pose proof (write_normal_shape _ _ _ _ _ _ Hok Hroom Hn) as S1.
  destruct (call_pushValues_buffers _ _ _ _ k _ _ _
              (same_shape_buffers_ok _ _ S1 Hok) (same_shape_room _ _ _ _ S1 Hroom) Hp)
    as (Hok2 & Hroom2 & Hown2).
  assert (same_shape σ2 σ3) as S3.
  { match type of He with ?m _ = _ => assert (sstep m) as Hs by sstep_go end.
    by eapply Hs. }
  assert (same_shape σ3 σ') as S4 by (by eapply sstep_expand_geometry_altitude).
  pose proof (same_shape_trans _ _ _ S3 S4) as S5.
  split_and!.
  - by eapply same_shape_buffers_ok.
  - by eapply same_shape_room.
  - intros g1 f1 Ho. eapply same_shape_owns; [exact S5|]. apply Hown2.
    by eapply same_shape_owns.
Qed.

Lemma push_all_buffers this crsIn feature (coordinates : list Position) σ u σ' :
  buffers_ok σ → room σ feature (length coordinates) → owns σ this feature →
  for_of coordinates (λ pair, pushCoordinates this (setFromValues crsIn pair) feature) σ
  = Some (u, σ') →
  buffers_ok σ' ∧ owns σ' this feature.
Proof.
  revert σ. induction coordinates as [|pair coordinates IH]; simpl; intros σ Hok Hroom Hown Hrun.
  - apply ret_Some in Hrun. by simplify_eq.
  - apply bind_Some in Hrun as (u1 & σ1 & Hp & Hrun).
    destruct (pushCoordinates_buffers _ _ _ _ _ _ _ Hok Hroom Hp) as (Hok1 & Hroom1 & Hown1).
    eapply IH; eauto.
Qed.

Lemma populateGeometry_buffers crsIn coordinates geometry feature σ u σ' :
  buffers_ok σ → owns σ geometry feature →
  populateGeometry crsIn coordinates geometry feature σ = Some (u, σ') →
  buffers_ok σ' ∧ owns σ' geometry feature.
Proof.
  intros Hok Hown Hrun. unfold populateGeometry in Hrun.
  apply bind_Some in Hrun as (u1 & σ1 & Hs & Hrun).
  apply bind_Some in Hrun as (u2 & σ2 & Hp & Hrun).
  destruct (startSubGeometry_buffers _ _ _ _ _ _ Hok Hown Hs) as (Hok1 & Hown1 & Hroom1).
  destruct (push_all_buffers _ _ _ _ _ _ _ Hok1 Hroom1 Hown1 Hp) as (Hok2 & Hown2).
  pose proof (sstep_FeatureGeometry_updateExtent _ _ _ _ Hrun) as S3.
  split; [by eapply same_shape_buffers_ok | by eapply same_shape_owns].
Qed.

Lemma bstep_sstep {A} (m : M A) : sstep m → bstep m.
Proof. intros Hm σ a σ' Hok Hrun. eapply same_shape_buffers_ok; [by eapply Hm | done]. Qed.

Lemma bstep_bind {A B} (m : M A) (k : A → M B) :
  bstep m → (∀ a, bstep (k a)) → bstep (m ≫= k).
Proof.
  intros Hm Hk σ b σ' Hok (a & σ1 & Hm1 & Hk1)%bind_Some.
  eapply Hk; [|done]. by eapply Hm.
Qed.

Lemma bstep_for_of {A} (xs : list A) (body : A → M unit) :
  (∀ x, bstep (body x)) → bstep (for_of xs body).
Proof.
  intros Hbody. induction xs as [|x xs IH]; simpl.
  - apply bstep_sstep, sstep_ret.
  - by apply bstep_bind.
Qed.

Section BuffersOfToFeature.
Variable filterExtent : option (Coordinates → bool).

Lemma bstep_toFeature_default feature crsIn coordsIn p :
  bstep (toFeature_default filterExtent feature crsIn coordsIn p).
Proof.
  intros σ u σ' Hok Hrun. unfold toFeature_default in Hrun.
  apply bind_Some in Hrun as (out & σ1 & Hout & Hrun).
  pose proof (sstep_firstPtIsOut _ _ _ _ _ _ Hout) as S1.
  pose proof (same_shape_buffers_ok _ _ S1 Hok) as Hok1.
  destruct out; [apply ret_Some in Hrun; by simplify_eq|].
  apply bind_Some in Hrun as (geometry & σ2 & Hb & Hrun).
  apply bindNewGeometry_spec in Hb as [S2 Hown].
  apply bind_Some in Hrun as (u3 & σ3 & Hsp & Hrun).
  pose proof (sstep_set_properties _ _ _ _ _ _ Hsp) as S3.
  apply bind_Some in Hrun as (u4 & σ4 & Hpop & Hrun).
  apply populateGeometry_buffers in Hpop as [Hok4 _];
    [ | by eapply same_shape_buffers_ok, same_shape_buffers_ok
      | by eapply same_shape_owns ].
  eapply same_shape_buffers_ok; [by eapply sstep_Feature_updateExtent | done].
Qed.

Lemma populate_rings_buffers crsIn (coordsIn : list (list Position)) geometry feature σ u σ' :
  buffers_ok σ → owns σ geometry feature →
  for_of coordsIn (λ ring, populateGeometry crsIn ring geometry feature) σ = Some (u, σ') →
  buffers_ok σ'.
Proof.
  revert σ. induction coordsIn as [|ring coordsIn IH]; simpl; intros σ Hok Hown Hrun.
  - apply ret_Some in Hrun. by simplify_eq.
  - apply bind_Some in Hrun as (u1 & σ1 & Hp & Hrun).
    apply populateGeometry_buffers in Hp as [Hok1 Hown1]; [|done..].
    by eapply IH.
Qed.

Lemma bstep_toFeature_polygon feature crsIn coordsIn p :
  bstep (toFeature_polygon filterExtent feature crsIn coordsIn p).
Proof.
  intros σ u σ' Hok Hrun. unfold toFeature_polygon in Hrun.
  apply bind_Some in Hrun as (out & σ1 & Hout & Hrun).
  assert (same_shape σ σ1) as S1.
  { destruct filterExtent, coordsIn; try done; by eapply sstep_firstPtIsOut. }
  pose proof (same_shape_buffers_ok _ _ S1 Hok) as Hok1.
  destruct out; [apply ret_Some in Hrun; by simplify_eq|].
  apply bind_Some in Hrun as (geometry & σ2 & Hb & Hrun).
  apply bindNewGeometry_spec in Hb as [S2 Hown].
  apply bind_Some in Hrun as (u3 & σ3 & Hsp & Hrun).
  pose proof (sstep_set_properties _ _ _ _ _ _ Hsp) as S3.
  apply bind_Some in Hrun as (u4 & σ4 & Hpop & Hrun).
  apply populate_rings_buffers in Hpop;
    [ | by eapply same_shape_buffers_ok, same_shape_buffers_ok
      | by eapply same_shape_owns ].
  eapply same_shape_buffers_ok; [by eapply sstep_Feature_updateExtent | done].
Qed.

Lemma bstep_coordinatesToFeature geometry feature crsIn p :
  bstep (coordinatesToFeature filterExtent geometry feature crsIn p).
Proof.
  unfold coordinatesToFeature, toFeature_multi, toFeature_point.
  destruct geometry as [c|cs|cs|cs|cs|cs|]; try destruct cs.
  all: first
    [ apply bstep_sstep, sstep_ret
    | apply bstep_sstep, sstep_throw
    | apply bstep_toFeature_default
    | apply bstep_toFeature_polygon
    | apply bstep_for_of; intros;
      first [apply bstep_toFeature_default | apply bstep_toFeature_polygon] ].
Qed.

Lemma bstep_jsonFeatureToFeature crsIn json :
  bstep (jsonFeatureToFeature filterExtent crsIn json).
Proof.
  unfold jsonFeatureToFeature. destruct (toFeatureType _); [|apply bstep_sstep, sstep_throw].
  apply bstep_bind.
  - intros σ a σ' Hok Hrun. by eapply requestFeature_buffers.
  - intros fl. apply bstep_bind; [apply bstep_coordinatesToFeature|].
    intros _. apply bstep_sstep, sstep_ret.
Qed.
End BuffersOfToFeature.

Lemma bstep_ignore {A} (m : M A) : bstep m → bstep (ignore m).
Proof. intros Hm. apply bstep_bind; [done|]. intros _. apply bstep_sstep, sstep_ret. Qed.

Lemma bstep_exec c : populating c = true → bstep (exec c).
Proof.
  destruct c; simpl; try done; intros _.
  - apply bstep_ignore. intros σ a σ' Hok Hrun.
    by apply Feature_new_buffers in Hrun as (? & _).
  - apply bstep_ignore, bstep_sstep. intros σ a σ' Hrun.
    by apply bindNewGeometry_spec in Hrun as [? _].
  - apply bstep_sstep, sstep_Feature_updateExtent.
  - apply bstep_sstep, sstep_FeatureGeometry_updateExtent.
  - apply bstep_sstep, sstep_set_properties.
  - apply bstep_sstep, sstep_FeatureCollection_updateExtent.
  - apply bstep_sstep, sstep_removeEmptyFeature.
  - apply bstep_sstep, sstep_pushFeature.
  - apply bstep_ignore. intros σ a σ' Hok Hrun.
    by eapply requestFeature_buffers.
  - apply bstep_ignore. intros σ a σ' Hok Hrun.
    by eapply requestFeature_buffers.
  - apply bstep_ignore. intros σ a σ' Hok Hrun.
    by eapply newFeatureByReference_buffers.
  - apply bstep_sstep, sstep_setParentStyle.
  - apply bstep_ignore, bstep_jsonFeatureToFeature.
Qed.

Lemma bstep_run calls : forallb populating calls = true → bstep (run calls).
Proof.
  unfold run. induction calls as [|c calls IH]; simpl.
  - intros _. apply bstep_sstep, sstep_ret.
  - intros [Hc Hcalls]%andb_prop. apply bstep_bind; [by apply bstep_exec|].
    intros _. by apply IH.
Qed.

(** A new collection holds no feature. *)
Lemma buffers_ok_new_collection options : buffers_ok (FeatureCollection_new options).
Proof.
  split.
  - simpl. case_decide; eauto.
  - intros fl v g n s p pos Hfl. exfalso. revert Hfl.
    unfold sh, FeatureCollection_new. simpl. intros (o & Hl & Ho)%fmap_Some.
    assert (kind o ≠ KFeature) as Hk; [|by destruct o].
    destruct (opt_buildExtent options), (opt_style options); simpl in Hl.
    all: repeat match type of Hl with
         | <[_ := _]> _ !! _ = Some _ =>
             apply lookup_insert_Some in Hl as [[_ <-]|[_ Hl]]; [done|]
         | {[ _ := _ ]} !! _ = Some _ =>
             apply lookup_singleton_Some in Hl as [_ <-]; done
         | ∅ !! _ = Some _ => by rewrite lookup_empty in Hl
         end.
Qed.

Lemma populated_buffers_ok σ : populated σ → buffers_ok σ.
Proof.
  intros (options & calls & Hcalls & Hrun).
  eapply bstep_run; [done | apply buffers_ok_new_collection | done].
Qed.

(** C1.  For every feature of a populated collection,
    [vertices.length = size * sum(geometry.indices[*].count)], and [normals]
    is defined if and only if [size = 3], in which case
    [normals.length = vertices.length]. *)
Theorem buffers_bookkeeping σ fl f :
  populated σ → heap σ !! fl = Some (OFeature f) →
  ∃ vs gs,
    heap σ !! vertices f = Some (ONumbers vs) ∧
    heap σ !! geometries f = Some (OGeometries gs) ∧
    Z.of_nat (length vs) = (size f * total_count gs)%Z ∧
    (is_Some (normals f) ↔ size f = 3%Z) ∧
    (∀ nl, normals f = Some nl →
       ∃ ns, heap σ !! nl = Some (ONumbers ns) ∧ length ns = length vs).
Proof.
  intros [Hsize Hok]%populated_buffers_ok Hfl%sh_feature.
  destruct (Hok _ _ _ _ _ _ _ Hfl)
    as [(Hs & Hst & len & k & tot & Hv & Hg & Hlen & Hpos & Hnl) _].
  destruct (sh_numbers_inv _ _ _ Hv) as (vs & Hvs & <-).
  destruct (sh_geometries_inv _ _ _ _ Hg) as (gs & Hgs & _ & <-).
  exists vs, gs. split_and!; [done | done | done | |].
  - destruct (normals f) as [nl|].
    + destruct Hnl as (? & _). split; [done | by eauto].
    + split; [by intros [? ?] | lia].
  - intros nl Hn. rewrite Hn in Hnl. destruct Hnl as (_ & Hns & _).
    destruct (sh_numbers_inv _ _ _ Hns) as (ns & ? & ?). eauto.
Qed.
End BuffersOfPipeline.

(** ** Facts about the tessellation *)

Section TypedArraysFacts.
Context {A : Type}.

Lemma length_ta_set (i : Z) (v : A) a : length (ta_set i v a) = length a.
Proof. unfold ta_set. case_decide; [by rewrite length_insert | done]. Qed.

(** A typed array of capacity [cap] that holds the values [w] in order,
    when written at the position that follows them. *)
Lemma ta_set_resize (d v : A) (w : list A) (cap : nat) :
  ta_set (Z.of_nat (length w)) v (resize cap d w) = resize cap d (w ++ [v]).
Proof.
  unfold ta_set. rewrite length_resize. case_decide as Hi.
  - rewrite Nat2Z.id. rewrite resize_ge by lia.
    rewrite insert_app_r_alt by lia. rewrite Nat.sub_diag.
    rewrite resize_ge by (rewrite length_app; simpl; lia).
    rewrite <- app_assoc. f_equal. rewrite length_app. simpl.
    destruct (cap - length w) as [|k] eqn:Hk; [lia|]. simpl.
    do 2 f_equal. lia.
  - rewrite !resize_le by (rewrite ?length_app; lia).
    rewrite take_app_le by lia. done.
Qed.
End TypedArraysFacts.

Section LineFacts.
Context `{MeshEnv}.

Lemma length_flat_map_pairs (l : list Z) :
  length (flat_map (λ j, [j; j + 1]%Z) l) = 2 * length l.
Proof. induction l as [|x l IH]; simpl; lia. Qed.

Lemma length_line_edges start end_ :
  length (line_edges start end_) = 2 * Z.to_nat (Z.min (end_ - 1) 65535 - start).
Proof. unfold line_edges. by rewrite length_flat_map_pairs, length_seqZ. Qed.


Lemma Uint16_small v : (0 ≤ v ≤ 65535)%Z → Uint16 v = v.
Proof. intros Hv. unfold Uint16. apply Z.mod_small. lia. Qed.

Lemma map_Uint16_bound l : Forall (λ v, 0 ≤ v ≤ 65535)%Z l → map Uint16 l = l.
Proof.
  induction 1 as [|v l Hv Hl IH]; simpl; [done|]. by rewrite Uint16_small, IH.
Qed.

(** The inner loop appends the edges of the range to the values written. *)
Lemma featureToLine_edges_spec (n : nat) (j : Z) (w : list Z) (cap : nat) :
  (0 ≤ j)%Z →
  featureToLine_edges n j (resize cap 0%Z w) (Z.of_nat (length w))
  = (resize cap 0%Z (w ++ line_edges j (j + Z.of_nat n + 1)),
     Z.of_nat (length (w ++ line_edges j (j + Z.of_nat n + 1)))).
Proof.
  revert j w. induction n as [|n IH]; intros j w Hj; simpl.
  - unfold line_edges. rewrite seqZ_nil by lia. simpl. by rewrite app_nil_r.
  - case_decide as Hlim.
    + rewrite ta_set_resize.
      replace (Z.of_nat (length w) + 1)%Z with (Z.of_nat (length (w ++ [Uint16 j])))
        by (rewrite length_app; simpl; lia).
      rewrite ta_set_resize.
      replace (Z.of_nat (length w) + 2)%Z
        with (Z.of_nat (length ((w ++ [Uint16 j]) ++ [Uint16 (j + 1)])))
        by (rewrite !length_app; simpl; lia).
      rewrite IH by lia. rewrite !Uint16_small by lia.
      assert (line_edges j (j + Z.of_nat (S n) + 1)
              = [j; (j + 1)%Z] ++ line_edges (j + 1) (j + 1 + Z.of_nat n + 1)) as ->.
      { unfold line_edges.
        replace (Z.min (j + Z.of_nat (S n) + 1 - 1) 65535 - j)%Z
          with (Z.succ (Z.min (j + 1 + Z.of_nat n + 1 - 1) 65535 - (j + 1)))%Z by lia.
        rewrite seqZ_cons by lia. rewrite Z.pred_succ.
        replace (Z.succ j) with (j + 1)%Z by lia. done. }
      by rewrite <- !app_assoc.
    + unfold line_edges. rewrite seqZ_nil by lia. simpl. by rewrite app_nil_r.
Qed.

Lemma line_edges_to_nat start end_ :
  line_edges start (start + Z.of_nat (Z.to_nat (end_ - 1 - start)) + 1) = line_edges start end_.
Proof.
  unfold line_edges. destruct (decide (0 ≤ end_ - 1 - start)%Z).
  - rewrite Z2Nat.id by done. f_equal. f_equal. lia.
  - rewrite !seqZ_nil by lia. done.
Qed.

Lemma featureToLine_loop_spec gs feature options zoom st w cap :
  Forall (line_ready feature zoom) gs →
  loop_indices st = resize cap 0%Z w → loop_i st = Z.of_nat (length w) →
  ∃ st',
    featureToLine_loop gs feature options zoom st
    = Some (st', if overflows feature zoom gs then [line_warning] else []) ∧
    loop_indices st' = resize cap 0%Z (w ++ emitted_edges feature zoom gs).
Proof.
  intros Hgs. revert st w. induction Hgs as [|g gs (Hhead & Hstart & Hstroke) Hgs IH];
    intros st w Hix Hi.
  - exists st. split; [done|]. unfold emitted_edges. simpl. by rewrite app_nil_r.
  - simpl. unfold emitted_edges, overflows, styled in *. rewrite filter_cons.
    destruct (contextStyle_of feature zoom g) as [cs|] eqn:Hcs.
    + rewrite decide_True by eauto.
      destruct (Hstroke cs eq_refl) as [stroke ->]. simpl.
      unfold first_offset, first_count in *.
      destruct Hhead as [first Hfirst]. rewrite Hfirst in *. simpl in *.
      case_decide as Hover.
      * eexists. split.
        -- simpl. by rewrite bool_decide_true.
        -- simpl. by rewrite app_nil_r.
      * rewrite Hix, Hi, featureToLine_edges_spec by done.
        rewrite line_edges_to_nat.
        destruct (fill_batchIds options g (loop_batchIds st) (loop_featureId st) _)
          as [batchIds featureId].
        edestruct (IH (mkLineLoop
                         (fillColorArray (loop_colors st) (count first)
                            (THREE_Color (stroke_color stroke)) (offset first))
                         (resize cap 0%Z
                            (w ++ line_edges (offset first) (offset first + count first)))
                         (Z.of_nat
                            (length (w ++ line_edges (offset first)
                                            (offset first + count first))))
                         batchIds featureId (Some (stroke_width stroke)))
                     (w ++ line_edges (offset first) (offset first + count first)))
          as (st' & Hrun & Hst'); [done | done |].
        exists st'. split.
        -- rewrite Hrun. simpl. by rewrite bool_decide_false.
        -- rewrite Hst'. simpl. rewrite Hfirst. simpl. by rewrite <- app_assoc.
    + rewrite decide_False by (by intros [? ?]). by apply IH.
Qed.

(** [featureToLine] on a feature of several geometries. *)
Lemma featureToLine_multi feature options zoom :
  let gs := view_geometries feature in
  let count := (Z.of_nat (length (view_vertices feature)) / 3)%Z in
  1 < length gs → (Z.of_nat (length gs) ≤ count)%Z →
  positions_ready feature → Forall (line_ready feature zoom) gs →
  ∃ mesh,
    featureToLine feature options zoom
    = Some (Some mesh, if overflows feature zoom gs then [line_warning] else []) ∧
    primitive mesh = LineSegments ∧
    geom_index (geometry mesh)
    = Some (resize (Z.to_nat ((count - Z.of_nat (length gs)) * 2)) 0%Z
              (emitted_edges feature zoom gs)).
Proof.
  intros gs count Hn Hcap Hpos Hgs. unfold featureToLine.
  assert (∃ vertices,
            (if negb (num_eqb (view_altitude_min feature) Infinity)
             then coordinatesToVertices (view_vertices feature) (view_normals feature)
                    (replicate (length (view_vertices feature)) (of_Z 0))
                    (view_altitude_min feature) (of_Z 0) 0 count 0
             else Some (Float32Array_from (view_vertices feature))) = Some vertices)
    as [vertices Hv].
  { destruct (num_eqb _ _) eqn:Heq; simpl; [eauto|].
    destruct Hpos as [?|[ns Hns]]; [congruence|]. unfold coordinatesToVertices.
    case_decide; [eauto|]. rewrite Hns. simpl. eauto. }
  fold count. rewrite Hv. simpl. fold gs.
  rewrite decide_True by done. rewrite decide_False by lia.
  edestruct (featureToLine_loop_spec gs feature options zoom
               (mkLineLoop (replicate (length (view_vertices feature)) 0%Z)
                  (replicate (Z.to_nat ((count - Z.of_nat (length gs)) * 2)) 0%Z) 0
                  (new_batchIds options count) 0 None) [])
    as (st' & Hrun & Hst'); [done | by rewrite resize_nil | done |].
  rewrite Hrun. simpl. eexists. split_and!; [done | done |]. simpl. by rewrite Hst'.
Qed.

Lemma line_drawn_edges feature zoom gs :
  Forall (line_drawn feature zoom) gs →
  styled feature zoom gs = gs ∧ before_overflow gs = gs ∧
  overflows feature zoom gs = false ∧
  emitted_edges feature zoom gs = flat_map range_edges gs ∧
  Z.of_nat (length (flat_map range_edges gs))
  = ((total_first_count gs - Z.of_nat (length gs)) * 2)%Z.
Proof.
  unfold emitted_edges, overflows, styled.
  induction 1 as [|g gs (Hready & Hstyle & Hcount & Hend) Hgs (IH1 & IH2 & IH3 & IH4 & IH5)];
    [done|].
  rewrite filter_cons, decide_True by done. simpl. rewrite IH1 in *.
  rewrite decide_False by lia. rewrite bool_decide_false by lia. rewrite IH2 in *.
  simpl. split_and!; [done | done | done | |].
  - rewrite IH4. f_equal. unfold line_edges, range_edges. do 2 f_equal. lia.
  - rewrite length_app, Nat2Z.inj_add, IH5. unfold range_edges.
    rewrite length_flat_map_pairs, length_seqZ. lia.
Qed.
End LineFacts.

Section SideFaces.
Context `{MeshEnv}.

Lemma length_side_face cw len i : length (side_face cw len i) = 6.
Proof. by destruct cw. Qed.


Lemma js_set_app_r {A} (pre rest : js_array A) j k v :
  j = length pre + k → k < length rest →
  js_set j v (pre ++ rest) = pre ++ js_set k v rest.
Proof.
  intros -> Hk. unfold js_set, js_array in *.
  rewrite !decide_True by (rewrite ?length_app; lia). by rewrite insert_app_r.
Qed.

Lemma addExtrudedPolygonSideFaces_loop_spec n i len cw (pre : js_array Z) :
  addExtrudedPolygonSideFaces_loop n i (length pre) len cw (pre ++ replicate (n * 6) None)
  = pre ++ map Some (flat_map (side_face cw len) (seqZ i (Z.of_nat n))).
Proof.
  revert i pre. induction n as [|n IH]; intros i pre.
  - simpl. by rewrite !app_nil_r.
  - rewrite Nat2Z.inj_succ.
    rewrite seqZ_cons by lia. rewrite Z.pred_succ.
    cbn [addExtrudedPolygonSideFaces_loop Nat.mul Nat.add replicate flat_map].
    rewrite map_app, app_assoc.
    replace (Z.succ i) with (i + 1)%Z by lia.
    rewrite <- IH. rewrite length_app, length_map, length_side_face.
    f_equal. destruct cw; unfold side_face.
    all: rewrite (js_set_app_r pre _ _ 0) by (simpl; lia).
    all: rewrite (js_set_app_r pre _ _ 1) by (simpl; lia).
    all: rewrite (js_set_app_r pre _ _ 2) by (simpl; lia).
    all: rewrite (js_set_app_r pre _ _ 3) by (simpl; lia).
    all: rewrite (js_set_app_r pre _ _ 4) by (simpl; lia).
    all: rewrite (js_set_app_r pre _ _ 5) by (simpl; lia).
    all: unfold js_set; simpl; by rewrite <- app_assoc.
Qed.

Lemma addExtrudedPolygonSideFaces_spec (ixs : js_array Z) len offset_ count_ cw :
  (1 ≤ count_)%Z →
  addExtrudedPolygonSideFaces ixs len offset_ count_ cw
  = Some (ixs ++ map Some (flat_map (side_face cw len) (seqZ offset_ (count_ - 1)))).
Proof.
  intros Hc. unfold addExtrudedPolygonSideFaces. rewrite decide_False by lia.
  unfold set_length. rewrite resize_ge by lia.
  replace (Z.to_nat (Z.of_nat (length ixs) + (count_ - 1) * 6) - length ixs)
    with (Z.to_nat (count_ - 1) * 6) by lia.
  rewrite addExtrudedPolygonSideFaces_loop_spec. by rewrite Z2Nat.id by lia.
Qed.

Lemma side_faces_of_rings_spec rings totalVertices cw (ixs : js_array Z) :
  Forall (λ ring, 1 ≤ count ring)%Z rings →
  side_faces_of_rings rings totalVertices cw ixs
  = Some (ixs ++ map Some (flat_map (ring_side_faces cw totalVertices) rings)).
Proof.
  intros Hrings. revert ixs. induction Hrings as [|ring rings Hc Hrings IH]; intros ixs; simpl.
  - by rewrite app_nil_r.
  - rewrite addExtrudedPolygonSideFaces_spec by done. simpl. rewrite IH.
    by rewrite map_app, app_assoc.
Qed.

Lemma length_coordinatesToVertices_loop n i j ptsIn ns d target :
  length (coordinatesToVertices_loop n i j ptsIn ns d target) = length target.
Proof.
  revert i j target. induction n as [|n IH]; intros i j target; simpl; [done|].
  by rewrite IH, !length_ta_set.
Qed.

Lemma length_coordinatesToVertices ptsIn normals target altitude extrude a b c vs :
  coordinatesToVertices ptsIn normals target altitude extrude a b c = Some vs →
  length vs = length target.
Proof.
  unfold coordinatesToVertices. case_decide; [by intros [= <-]|].
  destruct normals as [ns|]; simpl; [|done]. intros [= <-].
  apply length_coordinatesToVertices_loop.
Qed.

Lemma featureToExtrudedPolygon_loop_length gs feature options total delta cw st st' :
  featureToExtrudedPolygon_loop gs feature options total delta cw st = Some st' →
  length (polygon_vertices st') = length (polygon_vertices st).
Proof.
  revert st. induction gs as [|g gs IH]; intros st; simpl; [by intros [= <-]|].
  intros Hrun.
  repeat match type of Hrun with
  | _ ≫= _ = Some _ => apply option.bind_Some in Hrun as (? & ? & Hrun)
  end.
  destruct (fill_batchIds _ _ _ _ _) as [batchIds featureId].
  apply IH in Hrun. simpl in Hrun. rewrite Hrun.
  repeat match goal with
  | Hc : coordinatesToVertices _ _ _ _ _ _ _ _ = Some _ |- _ =>
      apply length_coordinatesToVertices in Hc; rewrite Hc; clear Hc
  end.
  done.
Qed.

(** The extruded mesh has the vertices of the feature twice. *)
Lemma featureToExtrudedPolygon_positions feature options mesh :
  featureToExtrudedPolygon feature options = Some mesh →
  ∃ vs, attributes_position (geometry mesh) = Some vs ∧
        length vs = length (view_vertices feature) * 2.
Proof.
  unfold featureToExtrudedPolygon. intros Hrun.
  repeat match type of Hrun with
  | _ ≫= _ = Some _ => apply option.bind_Some in Hrun as (? & ? & Hrun)
  end.
  injection Hrun as <-. simpl. eexists. split; [done|].
  match goal with
  | Hl : featureToExtrudedPolygon_loop _ _ _ _ _ _ _ = Some _ |- _ =>
      apply featureToExtrudedPolygon_loop_length in Hl; rewrite Hl
  end.
  simpl. by rewrite length_replicate.
Qed.
End SideFaces.

Section LineClaims.
Context `{MeshEnv}.

Lemma pairs_lookup (l : list Z) k :
  flat_map (λ j, [j; j + 1]%Z) l !! (2 * k) = l !! k ∧
  flat_map (λ j, [j; j + 1]%Z) l !! (2 * k + 1) = (λ j, (j + 1)%Z) <$> l !! k.
Proof.
  revert k. induction l as [|x l IH]; intros [|k]; simpl; try done.
  replace (k + S (k + 0)) with (S (2 * k)) by lia. simpl.
  replace (k + S (k + 0) + 1) with (S (2 * k + 1)) by lia. simpl. apply IH.
Qed.

Lemma range_edges_flat gs :
  flat_map range_edges gs
  = flat_map (λ j, [j; j + 1]%Z)
      (flat_map (λ g, seqZ (first_offset g) (first_count g - 1)) gs).
Proof.
  induction gs as [|g gs IH]; simpl; [done|].
  rewrite IH. unfold range_edges. by rewrite flat_map_app.
Qed.

(** Every edge of [flat_map range_edges gs] joins two consecutive vertices
    of the first range of one geometry. *)
Lemma range_edges_within gs k a b :
  flat_map range_edges gs !! (2 * k) = Some a →
  flat_map range_edges gs !! (2 * k + 1) = Some b →
  ∃ g, g ∈ gs ∧ (first_offset g ≤ a)%Z ∧ b = (a + 1)%Z ∧
       (b < first_offset g + first_count g)%Z.
Proof.
  rewrite range_edges_flat. destruct (pairs_lookup
    (flat_map (λ g, seqZ (first_offset g) (first_count g - 1)) gs) k) as [-> ->].
  intros Ha Hb. rewrite Ha in Hb. simpl in Hb. injection Hb as <-.
  apply list_elem_of_lookup_2 in Ha. apply list_elem_of_In, in_flat_map in Ha.
  destruct Ha as (g & Hg%list_elem_of_In & Ha%list_elem_of_In).
  apply elem_of_seqZ in Ha. exists g. split_and!; [done | lia | done | lia].
Qed.



(** C2 (amended).  For a feature of two or more geometries, each with a
    drawing style and a first range of at least one vertex that ends at a
    vertex a 16-bit index can name, the first ranges covering the vertices of
    the feature, [featureToLine] returns line segments whose index holds, for
    each geometry in turn, exactly the edges [(i, i + 1)] for [i] from the
    start of the first range and below its last vertex: every edge joins
    two consecutive vertices of one geometry. *)
Theorem featureToLine_edges_of_geometries feature options zoom :
  let gs := view_geometries feature in
  vertices_are_triples feature →
  1 < length gs → positions_ready feature →
  Forall (line_drawn feature zoom) gs →
  total_first_count gs = (Z.of_nat (length (view_vertices feature)) / 3)%Z →
  ∃ mesh,
    featureToLine feature options zoom = Some (Some mesh, []) ∧
    primitive mesh = LineSegments ∧
    geom_index (geometry mesh) = Some (flat_map range_edges gs) ∧
    ∀ k a b,
      flat_map range_edges gs !! (2 * k) = Some a →
      flat_map range_edges gs !! (2 * k + 1) = Some b →
      ∃ g, g ∈ gs ∧ (first_offset g ≤ a)%Z ∧ b = (a + 1)%Z ∧
           (b < first_offset g + first_count g)%Z.
Proof.
  intros gs _ Hn Hpos Hgs Htotal.
  destruct (line_drawn_edges feature zoom gs Hgs) as (_ & _ & Hover & Hedges & Hlen).
  destruct (featureToLine_multi feature options zoom) as (mesh & Hrun & Hprim & Hix).
  - done.
  - fold gs. lia.
  - done.
  - eapply Forall_impl; [exact Hgs|]. by intros g (? & _).
  - fold gs in Hrun, Hix. rewrite Hover in Hrun. rewrite Hedges in Hix.
    exists mesh. split_and!; [done | done | | apply range_edges_within].
    rewrite Hix. f_equal. rewrite <- Htotal, <- Hlen, Nat2Z.id. apply resize_all.
Qed.

End LineClaims.

Section PolygonClaims.
Context `{MeshEnv}.

Lemma coordinatesToVertices_Some ptsIn ns target altitude extrude a b c :
  ∃ vs, coordinatesToVertices ptsIn (Some ns) target altitude extrude a b c = Some vs ∧
        length vs = length target.
Proof.
  unfold coordinatesToVertices. case_decide; simpl; [eauto|].
  eexists. split; [done|]. apply length_coordinatesToVertices_loop.
Qed.

Lemma Uint16Array_from_Some l : Uint16Array_from (map Some l) = map Uint16 l.
Proof. unfold Uint16Array_from. by rewrite map_map. Qed.

Lemma featureToExtrudedPolygon_loop_spec gs feature options total delta cw st :
  extrusion_ready feature → Forall rings_ready gs →
  ∃ st' roofs,
    featureToExtrudedPolygon_loop gs feature options total delta cw st = Some st' ∧
    length roofs = length gs ∧
    polygon_indices st'
    = polygon_indices st ++ map Some (extruded_indices cw total (zip gs roofs)) ∧
    length (polygon_vertices st') = length (polygon_vertices st).
Proof.
  intros ([ns Hns] & [f Hf] & [fc Hfc]) Hgs. revert st.
  induction Hgs as [|g gs [Hne Hrings] Hgs IH]; intros st.
  - exists st, []. cbn. by rewrite app_nil_r.
  - cbn [featureToExtrudedPolygon_loop]. rewrite Hf, Hfc, Hns.
    cbn [mbind option_bind].
    destruct (head (indices g)) as [first|] eqn:Hfirst;
      [|by destruct (indices g)].
    destruct (last (indices g)) as [lastIndice|] eqn:Hlast;
      [|by apply last_None in Hlast].
    cbn [mbind option_bind].
    edestruct (coordinatesToVertices_Some (view_vertices feature) ns (polygon_vertices st))
      as (vs1 & -> & Hl1).
    cbn [mbind option_bind].
    edestruct (coordinatesToVertices_Some (view_vertices feature) ns vs1)
      as (vs2 & -> & Hl2).
    cbn [mbind option_bind]. rewrite side_faces_of_rings_spec by done.
    cbn [mbind option_bind].
    destruct (fill_batchIds _ _ _ _ _) as [batchIds featureId].
    edestruct IH as (st' & roofs & -> & Hlen & Hix & Hvs).
    exists st',
      (map (λ t, (t + (offset first + total))%Z)
         (Earcut
            (slice ((offset first + total) * 3)
               ((offset lastIndice + count lastIndice + total) * 3) vs2)
            (holesOffsets g (offset first))) :: roofs).
    split_and!; [done | by cbn; rewrite Hlen | |].
    + rewrite Hix. cbn [polygon_indices zip zip_with]. unfold extruded_indices.
      cbn [flat_map fst snd]. rewrite !map_app, map_map, <- !app_assoc. done.
    + rewrite Hvs. cbn [polygon_vertices]. congruence.
Qed.

End PolygonClaims.

Section ConvertClaims.
Context `{MeshEnv}.

Lemma featureToLine_primitive feature options zoom lines warnings :
  featureToLine feature options zoom = Some (Some lines, warnings) →
  (primitive lines = Line ∨ primitive lines = LineSegments) ∧
  is_Some (attributes_position (geometry lines)).
Proof.
  unfold featureToLine. intros Hrun.
  apply option.bind_Some in Hrun as (vertices & _ & Hrun).
  repeat case_decide; try done.
  - apply option.bind_Some in Hrun as ([st w] & _ & Hrun).
    injection Hrun as <- <-. split; [by right | by eexists].
  - apply option.bind_Some in Hrun as (g & _ & Hrun).
    destruct (contextStyle_of feature zoom g); [|done].
    apply option.bind_Some in Hrun as (stroke & _ & Hrun).
    injection Hrun as <- <-. split; [by left | by eexists].
Qed.

Lemma featureToPolygon_primitive feature options zoom mesh warnings :
  featureToPolygon feature options zoom = Some (mesh, warnings) →
  primitive mesh = Mesh ∧ is_Some (attributes_position (geometry mesh)).
Proof.
  unfold featureToPolygon. intros Hrun.
  apply option.bind_Some in Hrun as ([st w] & _ & Hrun).
  injection Hrun as <- <-. split; [done | by eexists].
Qed.

Lemma featureToExtrudedPolygon_primitive feature options mesh :
  featureToExtrudedPolygon feature options = Some mesh →
  primitive mesh = Mesh ∧ is_Some (attributes_position (geometry mesh)).
Proof.
  unfold featureToExtrudedPolygon. intros Hrun.
  repeat match type of Hrun with
  | _ ≫= _ = Some _ => apply option.bind_Some in Hrun as (? & _ & Hrun)
  end.
  injection Hrun as <-. split; [done | by eexists].
Qed.

(** C7 (amended).  [featureToMesh] returns, for a feature of type POINT, a
    mesh without any attribute (the call of [featureToPoint] is disabled);
    for a feature of type LINE, the line or the line segments of
    [featureToLine], or a mesh without attribute when [featureToLine]
    returns nothing; for a feature of type POLYGON, the mesh of
    [featureToExtrudedPolygon] when the style of the feature has a truthy
    fill extrusion height, and the mesh of [featureToPolygon] otherwise. *)
Theorem featureToMesh_dispatch feature options zoom random_state :
  (view_type feature = POINT →
   featureToMesh feature options zoom random_state
   = Some (finish_mesh Mesh_new feature, random_state, []) ∧
   primitive Mesh_new = Mesh ∧ geometry Mesh_new = BufferGeometry_new) ∧
  (view_type feature = LINE →
   featureToMesh feature options zoom random_state
   = ('(lines, warnings) ← featureToLine feature options zoom;
      Some (finish_mesh (default Mesh_new lines) feature, random_state, warnings)) ∧
   ∀ lines warnings,
     featureToLine feature options zoom = Some (Some lines, warnings) →
     (primitive lines = Line ∨ primitive lines = LineSegments) ∧
     is_Some (attributes_position (geometry lines))) ∧
  (view_type feature = POLYGON →
   (has_extrusion_height feature = true →
    featureToMesh feature options zoom random_state
    = (mesh ← featureToExtrudedPolygon feature options;
       Some (finish_mesh mesh feature, random_state, [])) ∧
    ∀ mesh, featureToExtrudedPolygon feature options = Some mesh →
      primitive mesh = Mesh ∧ is_Some (attributes_position (geometry mesh))) ∧
   (has_extrusion_height feature = false →
    featureToMesh feature options zoom random_state
    = ('(mesh, warnings) ← featureToPolygon feature options zoom;
       Some (finish_mesh mesh feature, random_state, warnings)) ∧
    ∀ mesh warnings, featureToPolygon feature options zoom = Some (mesh, warnings) →
      primitive mesh = Mesh ∧ is_Some (attributes_position (geometry mesh)))).
Proof.
  unfold featureToMesh, finish_mesh. split_and!.
  - intros Hty. by rewrite decide_True.
  - intros Hty. rewrite decide_False by (rewrite Hty; done). rewrite decide_True by done.
    split; [|apply featureToLine_primitive].
    destruct (featureToLine feature options zoom) as [[lines warnings]|]; done.
  - intros Hty. rewrite !decide_False by (rewrite Hty; done). rewrite decide_True by done.
    split; intros ->; (split; [|first [apply featureToExtrudedPolygon_primitive
                                       | apply featureToPolygon_primitive]]).
    + destruct (featureToExtrudedPolygon feature options); done.
    + destruct (featureToPolygon feature options zoom) as [[mesh warnings]|]; done.
Qed.

(** The features of a populated collection in three dimensions have
    triples for vertices. *)
Lemma view_triples σ fl feature :
  populated σ → collection_size (collection σ) = 3%Z →
  view σ fl = Some feature → vertices_are_triples feature.
Proof.
  intros [_ Hok]%populated_buffers_ok Hsize. unfold view.
  destruct (heap σ !! fl) as [[| | | |f]|] eqn:Hfl; try done.
  destruct (Hok _ _ _ _ _ _ _ (sh_feature _ _ _ Hfl))
    as [(Hs & _ & len & k & tot & Hv & _ & Hlen & _) _].
  destruct (sh_numbers_inv _ _ _ Hv) as (vs & Hvs & <-). rewrite Hvs.
  intros Hview. assert (view_vertices feature = vs) as Hvertices.
  { repeat case_match; simplify_eq; done. }
  unfold vertices_are_triples. rewrite Hvertices, Hlen, Hs, Hsize.
  rewrite Z.mul_comm. apply Z.mod_mul. done.
Qed.

Lemma featureToMesh_random feature options zoom rs mesh rs' warnings :
  featureToMesh feature options zoom rs = Some (mesh, rs', warnings) →
  rs' = rs ∧ ∀ rs2, featureToMesh feature options zoom rs2 = Some (mesh, rs2, warnings).
Proof.
  unfold featureToMesh. intros Hrun.
  apply option.bind_Some in Hrun as ([m w] & Hm & Hrun). injection Hrun as <- <- <-.
  split; [done|]. intros rs2. by rewrite Hm.
Qed.

Lemma featureToMesh_None feature options zoom rs rs2 :
  featureToMesh feature options zoom rs = None →
  featureToMesh feature options zoom rs2 = None.
Proof.
  unfold featureToMesh. intros Hrun. apply option.bind_None in Hrun as [Hm|([m w] & _ & ?)]; [|done].
  by rewrite Hm.
Qed.

Lemma featuresToThree_random features options zoom rs :
  (∀ meshes rs' warnings,
     featuresToThree features options zoom rs = Some (meshes, rs', warnings) → rs' = rs) ∧
  ∀ rs2, outputs (featuresToThree features options zoom rs)
         = outputs (featuresToThree features options zoom rs2).
Proof.
  revert rs. induction features as [|feature features IH]; intros rs; simpl.
  - split; [by intros ??? [= <- <- <-] | done].
  - destruct (featureToMesh feature options zoom rs) as [[[mesh rs1] w]|] eqn:Hmesh.
    + apply featureToMesh_random in Hmesh as [-> Hmesh]. simpl.
      destruct (IH rs) as [IHrs IHout]. split.
      * intros meshes rs' warnings.
        destruct (featuresToThree features options zoom rs) as [[[ms rs3] ws]|] eqn:Hrest;
          [|done].
        simpl. intros [= <- <- <-]. by eapply IHrs.
      * intros rs2. rewrite (Hmesh rs2). simpl. specialize (IHout rs2).
        destruct (featuresToThree features options zoom rs) as [[[ms rs3] ws]|],
          (featuresToThree features options zoom rs2) as [[[ms2 rs4] ws2]|];
          simpl in *; by simplify_eq.
    + split; [done|]. intros rs2. simpl.
      by rewrite (featureToMesh_None _ _ _ _ rs2 Hmesh).
Qed.

(** The meshes that the population of a collection followed by its
    tessellation produces, with their positions, colours, batch ids and
    indices, and the log, are the same whatever the state of the random
    generator: no step of it calls [Math.random]. *)
Theorem parse_and_convert_deterministic crsIn jsonFeatures buildOptions filterExtent filter
    options zoom rs1 rs2 :
  outputs (parse_and_convert crsIn jsonFeatures buildOptions filterExtent filter options
             zoom rs1)
  = outputs (parse_and_convert crsIn jsonFeatures buildOptions filterExtent filter options
               zoom rs2) ∧
  ∀ meshes rs' warnings,
    parse_and_convert crsIn jsonFeatures buildOptions filterExtent filter options zoom rs1
    = Some (meshes, rs', warnings) → rs' = rs1.
Proof.
  unfold parse_and_convert, convert.
  destruct (jsonFeaturesToFeatures _ _ _ _ _) as [σ|]; simpl; [|done].
  destruct (mapM (view σ) (features (collection σ))) as [fs|]; simpl; [|done].
  destruct (featuresToThree_random fs options zoom rs1) as [Hrs Hout]. split; [apply Hout|].
  apply Hrs.
Qed.
End ConvertClaims.

(** ** The feature model: contiguity, requests and aliases *)

Section ModelClaims.
Context `{FeatureEnv}.

(** C5.  In every state a client program can reach, the sub geometry entries
    of every geometry are contiguous and ordered: for every [i],
    [indices[i].offset + indices[i].count = indices[i+1].offset]. *)
Theorem subgeometry_indices_contiguous σ l gs g i a b :
  reachable σ →
  heap σ !! l = Some (OGeometries gs) → g ∈ gs →
  indices g !! i = Some a → indices g !! S i = Some b →
  (offset a + count a = offset b)%Z.
Proof.
  intros Hreach Hl Hg Ha Hb.
  apply reachable_heap_ok in Hreach. specialize (Hreach l _ Hl). simpl in Hreach.
  rewrite Forall_forall in Hreach. by eapply (Hreach g Hg).
Qed.

Lemma collection_ok_valid σ :
  collection_ok σ →
  ∀ fl, fl ∈ features (collection σ) → ∃ f, heap σ !! fl = Some (OFeature f).
Proof. intros [Hfs _] fl Hfl. by apply kind_at_feature, Hfs. Qed.

(** C6.  With [mergeFeatures = true], two successive
    [requestFeatureByType(POLYGON)] calls return the identical feature;
    with [mergeFeatures = false], every call allocates a new feature,
    distinct from those of the collection, and appends it. *)
Theorem requestFeatureByType_merge_policy σ :
  reachable σ →
  (mergeFeatures (collection σ) = true →
   ∃ fl σ1 σ2,
     requestFeatureByType POLYGON σ = Some (fl, σ1) ∧
     requestFeatureByType POLYGON σ1 = Some (fl, σ2)) ∧
  (mergeFeatures (collection σ) = false →
   ∀ ty, is_feature_type ty = true →
   ∃ fl f σ',
     requestFeatureByType ty σ = Some (fl, σ') ∧
     heap σ !! fl = None ∧ (fl ∉ features (collection σ)) ∧
     heap σ' !! fl = Some (OFeature f) ∧ type f = ty ∧
     features (collection σ') = features (collection σ) ++ [fl]).
Proof.
  intros (_ & _ & Hok)%reachable_inv. split.
  - intros Hmerge. unfold requestFeatureByType.
    set (cb := λ feature : Feature, bool_decide (type feature = POLYGON)).
    destruct (find_in (heap σ) cb (features (collection σ))) as [fl|] eqn:Hfind.
    + exists fl, σ, σ. split; by apply requestFeature_found.
    + destruct (requestFeature_new POLYGON cb σ eq_refl Hok (or_introl Hfind))
        as (fl & σ1 & Hrun & (f & Hfl & Hfl' & Hty & _ & _ & Hsub & _) & Hc).
      exists fl, σ1, σ1. split; [done|].
      assert (∀ fl', fl' ∈ features (collection σ) →
                ∃ f', heap σ1 !! fl' = Some (OFeature f')) as Hvalid.
      { intros fl' [f' Hf']%(collection_ok_valid _ Hok). exists f'.
        by eapply lookup_weaken. }
      apply requestFeature_found.
      * split.
        -- rewrite Hc. simpl. intros fl' [Hin|Hin%list_elem_of_singleton]%elem_of_app.
           ++ destruct (Hvalid _ Hin) as [f' Hf']. unfold kind_at. by rewrite Hf'.
           ++ subst. unfold kind_at. by rewrite Hfl'.
        -- rewrite Hc. simpl. intros e He. destruct Hok as [_ Hext].
           specialize (Hext e He). unfold kind_at in *.
           destruct (heap σ !! e) as [o|] eqn:Ho; [|done].
           by rewrite (lookup_weaken _ _ _ _ Ho Hsub).
      * rewrite Hc. simpl. eapply find_in_all_false; [|done|done|].
        -- intros fl' f' Hin Hf'.
           destruct (collection_ok_valid _ Hok _ Hin) as [f0 Hf0].
           rewrite (lookup_weaken _ _ _ _ Hf0 Hsub) in Hf'. injection Hf' as <-.
           eapply find_in_None; [by apply collection_ok_valid|done..].
        -- unfold cb. by apply bool_decide_eq_true.
      * by rewrite Hc.
  - intros Hmerge ty Hty.
    destruct (requestFeature_new ty (λ feature, bool_decide (type feature = ty)) σ
                Hty Hok (or_intror Hmerge))
      as (fl & σ1 & Hrun & (f & Hfl & Hfl' & Hty' & _) & Hc).
    exists fl, f, σ1. split_and!; try done.
    + intros [f' Hf']%(collection_ok_valid _ Hok). by rewrite Hfl in Hf'.
    + by rewrite Hc.
Qed.

(** C10.  Whatever [mergeFeatures] is, a request by an id that is not
    [undefined] never returns a feature of the collection: no feature has
    an [id], so the request allocates a new feature of the given type and
    appends it. *)
Theorem requestFeatureById_always_new σ (id : string) ty :
  reachable σ → is_feature_type ty = true →
  ∃ fl f σ',
    requestFeatureById (Some id) ty σ = Some (fl, σ') ∧
    heap σ !! fl = None ∧ (fl ∉ features (collection σ)) ∧
    heap σ' !! fl = Some (OFeature f) ∧ type f = ty ∧
    features (collection σ') = features (collection σ) ++ [fl].
Proof.
  intros (Hheap & _ & Hok)%reachable_inv Hty.
  set (cb := λ feature : Feature, bool_decide (feature_id feature = Some id)).
  assert (find_in (heap σ) cb (features (collection σ)) = None) as Hfind.
  { pose proof (collection_ok_valid _ Hok) as Hvalid. revert Hvalid.
    generalize (features (collection σ)). intros ls. induction ls as [|fl ls IH]; [done|].
    intros Hvalid. simpl. destruct (Hvalid fl) as [f Hf]; [left|]. rewrite Hf.
    destruct (Hheap fl _ Hf) as [Hid _]. unfold cb at 1. rewrite Hid.
    rewrite bool_decide_eq_false_2 by done. apply IH. intros ??. apply Hvalid. by right. }
  destruct (requestFeature_new ty cb σ Hty Hok (or_introl Hfind))
    as (fl & σ1 & Hrun & (f & Hfl & Hfl' & Hty' & _) & Hc).
  exists fl, f, σ1. split_and!; try done.
  - intros [f' Hf']%(collection_ok_valid _ Hok). by rewrite Hfl in Hf'.
  - by rewrite Hc.
Qed.
(** C8 (amended).  [newFeatureByReference] returns a new feature whose
    vertices, normals, geometries and extent are the very objects of the
    source feature, and whose style is a new object: an assignment to the
    style of the alias leaves the style and the fields of the source as they
    are, while an assignment to the extent of the alias is one to the extent
    of the source. *)
Theorem newFeatureByReference_aliases σ feature src :
  reachable σ → heap σ !! feature = Some (OFeature src) →
  ∃ ref r σ',
    newFeatureByReference feature σ = Some (ref, σ') ∧
    heap σ !! ref = None ∧ heap σ' !! ref = Some (OFeature r) ∧
    heap σ' !! feature = Some (OFeature src) ∧
    features (collection σ') = features (collection σ) ++ [ref] ∧
    vertices r = vertices src ∧ normals r = normals src ∧
    geometries r = geometries src ∧ feature_extent r = feature_extent src ∧
    heap σ !! style r = None ∧ style r ≠ style src ∧
    (∀ s u σ'', store (style r) (OStyle s) σ' = Some (u, σ'') →
       heap σ'' !! style src = heap σ' !! style src ∧
       heap σ'' !! feature = Some (OFeature src)) ∧
    (∀ e x u σ'', feature_extent r = Some e → store e (OExtent x) σ' = Some (u, σ'') →
       feature_extent src = Some e ∧ heap σ'' !! e = Some (OExtent x)).
Proof.
  intros Hreach Hsrc. destruct (reachable_inv _ Hreach) as (Hheap & Hrefs & Hok).
  destruct (Hheap _ _ Hsrc) as [_ Hty].
  assert (is_Some (heap σ !! style src)) as [so Hso].
  { pose proof (Hrefs feature src (style src) KStyle Hsrc) as Hk.
    unfold kind_at in Hk. destruct (heap σ !! style src); [eauto|].
    exfalso. assert ((style src, KStyle) ∈ refs_list src) as Hin
      by (apply elem_of_refs_list; tauto). by specialize (Hk Hin). }
  destruct (Feature_new_total (type src) σ Hty Hok)
    as (ref & σ1 & Hnew & (r & Href & Href' & _ & _ & _ & Hsub & Hst & _) & Hc).
  destruct σ1 as [h1 c1]. simpl in *. subst c1.
  set (r' := mkFeature (type r) (geometries src) (vertices src) (feature_crs r) (size src)
                (normals src) (feature_extent src) (useCrsOut r) (_pos src) (_pushValues r)
                (style r) (altitude_min r) (altitude_max r) (feature_id r)).
  assert (ref ≠ feature) as Hne by (intros ->; by rewrite Hsrc in Href).
  assert (style r ≠ style src) as Hstyle by (intros Heq; by rewrite Heq, Hso in Hst).
  exists ref, r',
    (mkState (<[ref := OFeature r']> h1)
       (with_features (collection σ) (features (collection σ) ++ [ref]))).
  split_and!; try done.
  - unfold newFeatureByReference.
    apply bind_Some. exists src, σ. split; [apply load_feature_Some; eauto|].
    apply bind_Some. eexists _, _. split; [exact Hnew|].
    apply bind_Some. exists r, (mkState h1 (collection σ)).
    split; [apply load_feature_Some; eauto|].
    apply bind_Some. eexists _, _. split; [apply store_Some; eauto|].
    done.
  - simpl. by rewrite lookup_insert_eq.
  - simpl. rewrite lookup_insert_ne by done. by eapply lookup_weaken.
  - intros s u σ'' (o' & Ho' & _ & ?)%store_Some. simplify_eq. simpl in *.
    assert (style r ≠ feature) as Hne'.
    { intros Heq. rewrite Heq in Hst. by rewrite Hsrc in Hst. }
    rewrite !(lookup_insert_ne _ (style r)) by done. split; [done|].
    rewrite lookup_insert_ne by done. by eapply lookup_weaken.
  - intros e x u σ'' He (o' & Ho' & _ & ?)%store_Some. simplify_eq. simpl in *.
    split; [done|]. by rewrite lookup_insert_eq.
Qed.
End ModelClaims.

Section DemoFacts.
#[local] Existing Instance demo_number.
#[local] Existing Instance demo_env.

Lemma completes_final r σ0 : completes r = true → r = Some ((), final_state r σ0).
Proof. destruct r as [[[] σ]|]; [done|]. intros [? [=]]%bool_decide_eq_true. Qed.

Lemma state_after_reachable options calls :
  completes (run calls (FeatureCollection_new options)) = true →
  reachable (state_after options calls).
Proof. intros Hc. exists options, calls. by apply completes_final. Qed.

Lemma demo_reachable : reachable demo_state.
Proof. apply state_after_reachable. vm_compute. reflexivity. Qed.

Lemma subgeometry_indices_contiguous_witness :
  Z.add (offset (mkSubGeometryIndex 0 5 (Some 9))) (count (mkSubGeometryIndex 0 5 (Some 9)))
  = offset (mkSubGeometryIndex 5 4 (Some 10)).
Proof.
  apply (subgeometry_indices_contiguous demo_state 1 [demo_polygon_geometry]
           demo_polygon_geometry 0 _ _ demo_reachable).
  - reflexivity.
  - apply list_elem_of_here.
  - reflexivity.
  - reflexivity.
Defined.

Lemma requestFeatureByType_merge_policy_witness :
  (mergeFeatures (collection demo_state) = true →
   ∃ fl σ1 σ2,
     requestFeatureByType POLYGON demo_state = Some (fl, σ1) ∧
     requestFeatureByType POLYGON σ1 = Some (fl, σ2)) ∧
  (mergeFeatures (collection demo_state) = false →
   ∀ ty, is_feature_type ty = true →
   ∃ fl f σ',
     requestFeatureByType ty demo_state = Some (fl, σ') ∧
     heap demo_state !! fl = None ∧ (fl ∉ features (collection demo_state)) ∧
     heap σ' !! fl = Some (OFeature f) ∧ type f = ty ∧
     features (collection σ') = features (collection demo_state) ++ [fl]).
Proof. apply requestFeatureByType_merge_policy, demo_reachable. Defined.

Lemma requestFeatureById_always_new_witness :
  ∃ fl f σ',
    requestFeatureById (Some "building-1") POLYGON demo_state = Some (fl, σ') ∧
    heap demo_state !! fl = None ∧ (fl ∉ features (collection demo_state)) ∧
    heap σ' !! fl = Some (OFeature f) ∧ type f = POLYGON ∧
    features (collection σ') = features (collection demo_state) ++ [fl].
Proof.
  apply (requestFeatureById_always_new demo_state "building-1" POLYGON demo_reachable).
  reflexivity.
Defined.

Lemma newFeatureByReference_aliases_witness :
  ∃ ref r σ',
    newFeatureByReference 6 demo_state = Some (ref, σ') ∧
    heap demo_state !! ref = None ∧ heap σ' !! ref = Some (OFeature r) ∧
    heap σ' !! 6 = Some (OFeature demo_polygon_feature) ∧
    features (collection σ') = features (collection demo_state) ++ [ref] ∧
    vertices r = vertices demo_polygon_feature ∧ normals r = normals demo_polygon_feature ∧
    geometries r = geometries demo_polygon_feature ∧
    feature_extent r = feature_extent demo_polygon_feature ∧
    heap demo_state !! style r = None ∧ style r ≠ style demo_polygon_feature ∧
    (∀ s u σ'', store (style r) (OStyle s) σ' = Some (u, σ'') →
       heap σ'' !! style demo_polygon_feature = heap σ' !! style demo_polygon_feature ∧
       heap σ'' !! 6 = Some (OFeature demo_polygon_feature)) ∧
    (∀ e x u σ'', feature_extent r = Some e → store e (OExtent x) σ' = Some (u, σ'') →
       feature_extent demo_polygon_feature = Some e ∧ heap σ'' !! e = Some (OExtent x)).
Proof.
  apply (newFeatureByReference_aliases demo_state 6 demo_polygon_feature demo_reachable).
  reflexivity.
Defined.

Lemma demo_populated : populated demo_state.
Proof.
  exists demo_options, demo_calls. split; [reflexivity|].
  apply completes_final. vm_compute. reflexivity.
Qed.

Lemma buffers_bookkeeping_witness :
  ∃ vs gs,
    heap demo_state !! vertices demo_polygon_feature = Some (ONumbers vs) ∧
    heap demo_state !! geometries demo_polygon_feature = Some (OGeometries gs) ∧
    Z.of_nat (length vs) = (size demo_polygon_feature * total_count gs)%Z ∧
    (is_Some (normals demo_polygon_feature) ↔ size demo_polygon_feature = 3%Z) ∧
    (∀ nl, normals demo_polygon_feature = Some nl →
       ∃ ns, heap demo_state !! nl = Some (ONumbers ns) ∧ length ns = length vs).
Proof.
  apply (buffers_bookkeeping demo_state 6 demo_polygon_feature demo_populated).
  reflexivity.
Defined.

(** C8, as stated, fails: after [alias.updateExtent(geometry)] on the alias
    [28] of the feature [6], the extent of the source feature [6] is another
    box than before. *)
Lemma newFeatureByReference_extent_shared :
  features (collection alias_state) = [6; 16; 28] ∧
  extent_of alias_state 6
    = Some (mkExtent "EPSG:4326" (XFin 0) (XFin 4000) (XFin 0) (XFin 4000)) ∧
  extent_of alias_mutated 6
    = Some (mkExtent "EPSG:4326" (XFin 0) (XFin 7000) (XFin 0) (XFin 5000)).
Proof. repeat split. Qed.
End DemoFacts.

(** ** The tessellation of the concrete features *)

Section MeshDemoFacts.
#[local] Existing Instance demo_number.
#[local] Existing Instance demo_env.
#[local] Existing Instance demo_mesh_env.

Ltac demo_line_ready :=
  split_and!;
  [ by eexists
  | done
  | intros cs [= <-]; by eexists ].

Lemma featureToLine_edges_of_geometries_witness :
  ∃ mesh,
    featureToLine demo_line demo_convert demo_zoom = Some (Some mesh, []) ∧
    primitive mesh = LineSegments ∧
    geom_index (geometry mesh) = Some [0; 1; 1; 2; 3; 4; 4; 5]%Z ∧
    ∀ k a b,
      [0; 1; 1; 2; 3; 4; 4; 5]%Z !! (2 * k) = Some a →
      [0; 1; 1; 2; 3; 4; 4; 5]%Z !! (2 * k + 1) = Some b →
      ∃ g, g ∈ view_geometries demo_line ∧ (first_offset g ≤ a)%Z ∧ b = (a + 1)%Z ∧
           (b < first_offset g + first_count g)%Z.
Proof.
  apply (featureToLine_edges_of_geometries demo_line demo_convert demo_zoom).
  - reflexivity.
  - simpl. lia.
  - right. by eexists.
  - repeat first [apply Forall_nil_2 | apply Forall_cons_2].
    all: split_and!; [demo_line_ready | by eexists | done | done].
  - reflexivity.
Defined.

(** C2, as stated, fails: of two lines of three points, the first one
    without drawing style, only the second one gets its edges. *)
Lemma featureToLine_skips_unstyled_geometry :
  view_type hidden_line = LINE ∧
  map (λ g, (properties g, first_offset g, first_count g)) (view_geometries hidden_line)
  = [("hidden", 0, 3); ("path", 3, 3)]%Z ∧
  line_index hidden_line = Some [3; 4; 4; 5; 0; 0; 0; 0]%Z.
Proof. repeat split. Qed.

(** The index has [(vertices - geometries) * 2] slots: with a line without
    any point, the last edge of the other line has no slot. *)
Lemma featureToLine_empty_line_truncates :
  map (λ g, (first_offset g, first_count g)) (view_geometries short_line)
  = [(0, 3); (3, 0)]%Z ∧
  line_index short_line = Some [0; 1]%Z.
Proof. repeat split. Qed.




(** The unit square, extruded: the two triangles of the roof, then 24
    indices for the four side faces; 30 positions for 15. *)
Lemma unit_square_extruded :
  extruded_index unit_square
  = Some ([5; 6; 7; 5; 7; 8]
          ++ [5; 0; 6; 6; 0; 1] ++ [6; 1; 7; 7; 1; 2] ++ [7; 2; 8; 8; 2; 3]
          ++ [8; 3; 9; 9; 3; 4])%Z ∧
  length (view_vertices unit_square) = 15 ∧
  extruded_positions unit_square = Some 30.
Proof. repeat split. Qed.

(** C7, as stated, fails: for a feature of type POINT, [featureToMesh]
    returns a mesh without any attribute, and not the points that
    [featureToPoint] makes of the feature. *)
Lemma featureToMesh_point_is_empty_mesh :
  view_type demo_point = POINT ∧
  (primitive ∘ fst ∘ fst <$> featureToMesh demo_point demo_convert demo_zoom 0) = Some Mesh ∧
  (geometry ∘ fst ∘ fst <$> featureToMesh demo_point demo_convert demo_zoom 0)
  = Some BufferGeometry_new ∧
  (primitive ∘ fst <$> featureToPoint demo_point demo_convert 0) = Some Points.
Proof. repeat split. Qed.

(** [featureToPoint], which [featureToMesh] does not call, draws the colour
    of a geometry from the random generator when the options give none. *)
Lemma featureToPoint_random :
  (attributes_color ∘ geometry ∘ fst <$> featureToPoint demo_point demo_convert 0)
  = Some (Some [132; 132; 132]%Z) ∧
  (attributes_color ∘ geometry ∘ fst <$> featureToPoint demo_point demo_convert 2)
  = Some (Some [133; 133; 133]%Z) ∧
  (snd <$> featureToPoint demo_point demo_convert 0) = Some 1.
Proof. repeat split. Qed.

Lemma featureToMesh_dispatch_witness :
  featureToMesh demo_line demo_convert demo_zoom 0
  = ('(lines, warnings) ← featureToLine demo_line demo_convert demo_zoom;
     Some (finish_mesh (default Mesh_new lines) demo_line, 0, warnings)) ∧
  ∀ lines warnings,
    featureToLine demo_line demo_convert demo_zoom = Some (Some lines, warnings) →
    (primitive lines = Line ∨ primitive lines = LineSegments) ∧
    is_Some (attributes_position (geometry lines)).
Proof.
  apply (featureToMesh_dispatch demo_line demo_convert demo_zoom 0). reflexivity.
Defined.

Lemma emitted_edges_cons feature zoom g gs :
  is_Some (contextStyle_of feature zoom g) → (first_offset g ≤ 65535)%Z →
  emitted_edges feature zoom (g :: gs)
  = line_edges (first_offset g) (first_offset g + first_count g)
    ++ emitted_edges feature zoom gs.
Proof.
  intros Hs Ho. unfold emitted_edges, styled. rewrite filter_cons, decide_True by done.
  simpl. by rewrite decide_False by lia.
Qed.

Lemma overflows_cons feature zoom g gs :
  is_Some (contextStyle_of feature zoom g) → (first_offset g ≤ 65535)%Z →
  overflows feature zoom (g :: gs) = overflows feature zoom gs.
Proof.
  intros Hs Ho. unfold overflows, styled. rewrite filter_cons, decide_True by done.
  simpl. by rewrite bool_decide_false by lia.
Qed.

(** C3: the engine does not log what it leaves out when the limit is
    reached inside a geometry.  The second line crosses the vertex [0xffff]:
    of the 139996 index values that its edges and those of the first line
    take, 131068 are written, and nothing is logged, whereas a geometry that
    starts above [0xffff] is reported by a warning. *)
Lemma featureToLine_overflow_without_warning :
  ∃ mesh,
    featureToLine overflow_line demo_convert demo_zoom = Some (Some mesh, []) ∧
    geom_index (geometry mesh)
    = Some (resize (Z.to_nat 139996) 0%Z (line_edges 0 3 ++ line_edges 3 70000)) ∧
    length (line_edges 0 3 ++ line_edges 3 70000) = Z.to_nat 131068.
Proof.
  assert (Z.of_nat (length (view_vertices overflow_line)) = 210000%Z) as Hlen.
  { unfold overflow_line. cbn [view_vertices]. unfold overflow_vertices.
    rewrite length_replicate. by rewrite Z2Nat.id. }
  assert (∀ a b, line_ready overflow_line demo_zoom (overflow_geometry a b) ↔ (0 ≤ a)%Z)
    as Hready.
  { intros a b. split; [by intros (_ & ? & _)|]. intros Ha.
    split_and!; [by eexists | done | intros cs [= <-]; by eexists]. }
  destruct (featureToLine_multi overflow_line demo_convert demo_zoom)
    as (mesh & Hrun & _ & Hix).
  - cbn [view_geometries overflow_line length]. lia.
  - rewrite Hlen. cbn [view_geometries overflow_line length]. by vm_compute.
  - right. by eexists.
  - cbn [view_geometries overflow_line].
    repeat first [apply Forall_nil_2 | apply Forall_cons_2]; by apply Hready.
  - cbn [view_geometries overflow_line length] in Hrun, Hix. rewrite Hlen in Hix.
    rewrite !overflows_cons in Hrun by (by eexists || done).
    rewrite !emitted_edges_cons in Hix by (by eexists || done).
    exists mesh. split_and!; [done | |].
    + rewrite Hix. unfold emitted_edges, styled. rewrite filter_nil.
      cbn [before_overflow flat_map]. rewrite app_nil_r.
      change (first_offset (overflow_geometry 0 3)) with 0%Z.
      change (first_count (overflow_geometry 0 3)) with 3%Z.
      change (first_offset (overflow_geometry 3 69997)) with 3%Z.
      change (first_count (overflow_geometry 3 69997)) with 69997%Z.
      change (0 + 3)%Z with 3%Z. change (3 + 69997)%Z with 70000%Z.
      change ((210000 `div` 3 - Z.of_nat 2) * 2)%Z with 139996%Z. reflexivity.
    + rewrite length_app, !length_line_edges. lia.
Qed.
End MeshDemoFacts.

(** * Further properties *)

(** ** The arrays that the tessellation fills *)

Section TypedArraysLookup.
Context {A : Type}.

Lemma lookup_ta_set (i : Z) (v : A) a (k : nat) :
  ta_set i v a !! k = if decide (Z.of_nat k = i ∧ k < length a) then Some v else a !! k.
Proof.
  unfold ta_set. case_decide as Hi.
  - rewrite list_lookup_insert. repeat case_decide; try done; lia.
  - case_decide as Hk; [|done]. lia.
Qed.

Lemma lookup_ta_set_Some (i : Z) (v : A) a (k : nat) x :
  a !! k = Some x →
  ta_set i v a !! k = Some (if decide (Z.of_nat k = i) then v else x).
Proof.
  intros Hk. rewrite lookup_ta_set. apply lookup_lt_Some in Hk as Hlt.
  repeat case_decide; try done; tauto.
Qed.
End TypedArraysLookup.

Section FillFacts.
Context `{MeshEnv}.

Lemma length_fillColorArray_loop n i c colors :
  length (fillColorArray_loop n i c colors) = length colors.
Proof.
  revert i colors. induction n as [|n IH]; intros i colors; simpl; [done|].
  by rewrite IH, !length_ta_set.
Qed.

Lemma fillColorArray_loop_lookup n i c colors (k : nat) x :
  colors !! k = Some x →
  fillColorArray_loop n i c colors !! k
  = Some (if decide (i ≤ Z.of_nat k < i + 3 * Z.of_nat n)%Z
          then channel c ((Z.of_nat k - i) mod 3) else x).
Proof.
  revert i colors x. induction n as [|n IH]; intros i colors x Hk; simpl.
  - rewrite Hk. by rewrite decide_False by lia.
  - pose proof (lookup_ta_set_Some i (to_uint8 (num_mul (color_r c) (of_Z 255))) _ _ _ Hk)
      as Hw1.
    pose proof (lookup_ta_set_Some (i + 1) (to_uint8 (num_mul (color_g c) (of_Z 255)))
                  _ _ _ Hw1) as Hw2.
    pose proof (lookup_ta_set_Some (i + 2) (to_uint8 (num_mul (color_b c) (of_Z 255)))
                  _ _ _ Hw2) as Hw3.
    rewrite (IH _ _ _ Hw3). clear Hw1 Hw2 Hw3.
    f_equal.
    destruct (decide (i + 3 ≤ Z.of_nat k < i + 3 + 3 * Z.of_nat n)%Z) as [Hin|Hout].
    + rewrite decide_True by lia.
      replace (Z.of_nat k - (i + 3))%Z with (Z.of_nat k - i + (-1) * 3)%Z by lia.
      by rewrite Z.mod_add by lia.
    + destruct (decide (Z.of_nat k = i + 2)%Z) as [Hk2|].
      { rewrite decide_True by lia. rewrite Hk2.
        replace (i + 2 - i)%Z with 2%Z by lia. done. }
      destruct (decide (Z.of_nat k = i + 1)%Z) as [Hk1|].
      { rewrite decide_True by lia. rewrite Hk1.
        replace (i + 1 - i)%Z with 1%Z by lia. done. }
      destruct (decide (Z.of_nat k = i)%Z) as [Hk0|].
      { rewrite decide_True by lia. rewrite Hk0.
        replace (i - i)%Z with 0%Z by lia. done. }
      by rewrite decide_False by lia.
Qed.

(** X13: [fillColorArray] keeps the length of the array, gives the three
    channels of the colour to the entries of the vertices [offset, offset +
    length), and leaves every other entry as it is. *)
Theorem fillColorArray_range colors len c off :
  length (fillColorArray colors len c off) = length colors ∧
  ∀ (k : nat) x, colors !! k = Some x →
    fillColorArray colors len c off !! k
    = Some (if decide (off * 3 ≤ Z.of_nat k < (off + len) * 3)%Z
            then channel c (Z.of_nat k mod 3) else x).
Proof.
  unfold fillColorArray. split; [apply length_fillColorArray_loop|].
  intros k x Hk. erewrite fillColorArray_loop_lookup by done. f_equal.
  destruct (decide (0 ≤ len)%Z).
  - rewrite Z2Nat.id by done.
    destruct (decide (off * 3 ≤ Z.of_nat k < (off + len) * 3)%Z).
    + rewrite decide_True by lia.
      replace (Z.of_nat k - off * 3)%Z with (Z.of_nat k + (- off) * 3)%Z by lia.
      by rewrite Z.mod_add by lia.
    + by rewrite decide_False by lia.
  - rewrite Z2Nat.nonpos by lia. by rewrite !decide_False by lia.
Qed.

Lemma length_fillBatchIdArray_loop n i batchId arr :
  length (fillBatchIdArray_loop n i batchId arr) = length arr.
Proof.
  revert i arr. induction n as [|n IH]; intros i arr; simpl; [done|].
  by rewrite IH, length_ta_set.
Qed.

Lemma fillBatchIdArray_loop_lookup n i batchId arr (k : nat) x :
  arr !! k = Some x →
  fillBatchIdArray_loop n i batchId arr !! k
  = Some (if decide (i ≤ Z.of_nat k < i + Z.of_nat n)%Z then to_uint32 batchId else x).
Proof.
  revert i arr x. induction n as [|n IH]; intros i arr x Hk; simpl.
  - rewrite Hk. by rewrite decide_False by lia.
  - erewrite IH; last by (erewrite lookup_ta_set_Some; [|done]).
    f_equal. repeat case_decide; try done; lia.
Qed.

(** X14: [fillBatchIdArray] keeps the length of the array, gives the batch id
    to the entries [start, end), and leaves every other entry as it is. *)
Theorem fillBatchIdArray_range batchId arr start end_ :
  length (fillBatchIdArray batchId arr start end_) = length arr ∧
  ∀ (k : nat) x, arr !! k = Some x →
    fillBatchIdArray batchId arr start end_ !! k
    = Some (if decide (start ≤ Z.of_nat k < end_)%Z then to_uint32 batchId else x).
Proof.
  unfold fillBatchIdArray. split; [apply length_fillBatchIdArray_loop|].
  intros k x Hk. erewrite fillBatchIdArray_loop_lookup by done. f_equal.
  destruct (decide (0 ≤ end_ - start)%Z).
  - rewrite Z2Nat.id by done. repeat case_decide; try done; lia.
  - rewrite Z2Nat.nonpos by lia. repeat case_decide; try done; lia.
Qed.

Lemma coordinatesToVertices_loop_lookup n i j ptsIn ns d target (k : nat) x :
  target !! k = Some x →
  coordinatesToVertices_loop n i j ptsIn ns d target !! k
  = Some (if decide (j ≤ Z.of_nat k < j + 3 * Z.of_nat n)%Z
          then fround (num_add (js_get ptsIn (i + (Z.of_nat k - j)))
                         (num_mul (js_get ns (i + (Z.of_nat k - j))) d))
          else x).
Proof.
  revert i j target x. induction n as [|n IH]; intros i j target x Hk; simpl.
  - rewrite Hk. by rewrite decide_False by lia.
  - set (at_ := λ c : Z, fround (num_add (js_get ptsIn (i + c))
                                    (num_mul (js_get ns (i + c)) d))).
    pose proof (lookup_ta_set_Some j (at_ 0%Z) _ _ _ Hk) as Hw1.
    pose proof (lookup_ta_set_Some (j + 1) (at_ 1%Z) _ _ _ Hw1) as Hw2.
    pose proof (lookup_ta_set_Some (j + 2) (at_ 2%Z) _ _ _ Hw2) as Hw3.
    rewrite (IH _ _ _ _ Hw3). clear Hw1 Hw2 Hw3. unfold at_.
    f_equal.
    destruct (decide (j + 3 ≤ Z.of_nat k < j + 3 + 3 * Z.of_nat n)%Z) as [Hin|Hout].
    + rewrite decide_True by lia.
      by replace (i + 3 + (Z.of_nat k - (j + 3)))%Z with (i + (Z.of_nat k - j))%Z by lia.
    + destruct (decide (Z.of_nat k = j + 2)%Z) as [Hk2|].
      { rewrite decide_True by lia.
        by replace (i + (Z.of_nat k - j))%Z with (i + 2)%Z by lia. }
      destruct (decide (Z.of_nat k = j + 1)%Z) as [Hk1|].
      { rewrite decide_True by lia.
        by replace (i + (Z.of_nat k - j))%Z with (i + 1)%Z by lia. }
      destruct (decide (Z.of_nat k = j)%Z) as [Hk0|].
      { rewrite decide_True by lia.
        by replace (i + (Z.of_nat k - j))%Z with (i + 0)%Z by lia. }
      by rewrite decide_False by lia.
Qed.

(** X15: [coordinatesToVertices] throws when it has vertices to move and the
    normals are undefined; otherwise it keeps the length of the target, and
    stores, for the vertices [offsetOut, offsetOut + countIn) of the target,
    the coordinates of the vertices from [startIn] of the input, moved along
    their normals by [extrude - altitude]; every other entry stays as it
    is. *)
Theorem coordinatesToVertices_moves ptsIn normals target altitude extrude
    offsetOut countIn startIn :
  match normals with
  | None =>
      coordinatesToVertices ptsIn normals target altitude extrude offsetOut countIn startIn
      = if decide (countIn ≤ 0)%Z then Some target else None
  | Some ns =>
      ∃ out,
        coordinatesToVertices ptsIn normals target altitude extrude offsetOut countIn startIn
        = Some out ∧
        length out = length target ∧
        ∀ (k : nat) x, target !! k = Some x →
          out !! k
          = Some (if decide (offsetOut * 3 ≤ Z.of_nat k < (offsetOut + countIn) * 3)%Z
                  then moved ptsIn ns altitude extrude
                         (startIn * 3 + (Z.of_nat k - offsetOut * 3))
                  else x)
  end.
Proof.
  unfold coordinatesToVertices. destruct normals as [ns|]; [|by case_decide].
  case_decide as Hc.
  - exists target. split_and!; [done..|]. intros k x Hk. rewrite Hk.
    by rewrite decide_False by lia.
  - simpl. eexists. split_and!; [done| |].
    + clear. generalize (Z.to_nat countIn), (startIn * 3)%Z, (offsetOut * 3)%Z.
      intros n. revert target. induction n as [|n IH]; intros target i j; simpl; [done|].
      by rewrite IH, !length_ta_set.
    + intros k x Hk. erewrite coordinatesToVertices_loop_lookup by done.
      rewrite Z2Nat.id by lia. unfold moved. f_equal. repeat case_decide; try done; lia.
Qed.
End FillFacts.

(** ** Points, lines, polygons and their dispatch *)

Section MoreTessellation.
Context `{MeshEnv}.

Lemma fillColorArray_lookup colors len c off (k : nat) x :
  colors !! k = Some x →
  fillColorArray colors len c off !! k
  = Some (if decide (off * 3 ≤ Z.of_nat k < (off + len) * 3)%Z
          then channel c (Z.of_nat k mod 3) else x).
Proof.
  unfold fillColorArray. intros Hk. erewrite fillColorArray_loop_lookup by done. f_equal.
  destruct (decide (0 ≤ len)%Z).
  - rewrite Z2Nat.id by done.
    destruct (decide (off * 3 ≤ Z.of_nat k < (off + len) * 3)%Z).
    + rewrite decide_True by lia.
      replace (Z.of_nat k - off * 3)%Z with (Z.of_nat k + (- off) * 3)%Z by lia.
      by rewrite Z.mod_add by lia.
    + by rewrite decide_False by lia.
  - rewrite Z2Nat.nonpos by lia. by rewrite !decide_False by lia.
Qed.

Lemma length_fillColorArray colors len c off :
  length (fillColorArray colors len c off) = length colors.
Proof. apply length_fillColorArray_loop. Qed.

Lemma fillBatchIdArray_all batchId (n : Z) :
  fillBatchIdArray batchId (replicate (Z.to_nat n) 0%Z) 0 n
  = replicate (Z.to_nat n) (to_uint32 batchId).
Proof.
  apply list_eq. intros k. unfold fillBatchIdArray.
  destruct (decide (k < Z.to_nat n)) as [Hk|Hk].
  - erewrite fillBatchIdArray_loop_lookup by (by apply lookup_replicate_2).
    rewrite lookup_replicate_2 by done. f_equal. rewrite decide_True; [done|lia].
  - rewrite (proj1 (lookup_replicate_None _ _ _)) by lia.
    apply lookup_ge_None. rewrite length_fillBatchIdArray_loop, length_replicate. lia.
Qed.

Lemma line_positions feature :
  positions_ready feature →
  ∃ vertices,
    (if negb (num_eqb (view_altitude_min feature) Infinity)
     then coordinatesToVertices (view_vertices feature) (view_normals feature)
            (replicate (length (view_vertices feature)) (of_Z 0))
            (view_altitude_min feature) (of_Z 0) 0
            (Z.of_nat (length (view_vertices feature)) / 3) 0
     else Some (Float32Array_from (view_vertices feature))) = Some vertices ∧
    length vertices = length (view_vertices feature).
Proof.
  intros Hpos. destruct (num_eqb _ _) eqn:Heq; simpl.
  - eexists. split; [done|]. unfold Float32Array_from. by rewrite length_map.
  - destruct Hpos as [?|[ns Hns]]; [congruence|]. rewrite Hns.
    destruct (coordinatesToVertices_Some (view_vertices feature) ns
                (replicate (length (view_vertices feature)) (of_Z 0))
                (view_altitude_min feature) (of_Z 0) 0
                (Z.of_nat (length (view_vertices feature)) / 3) 0) as (out & -> & Hlen).
    exists out. split; [done|]. by rewrite Hlen, length_replicate.
Qed.

(** X17: on a feature with exactly one geometry, [featureToLine] returns
    nothing when the geometry has no drawing style, and throws when the
    drawing style has no stroke; otherwise it returns a [THREE.Line]
    without index, the strip through all the vertices of the feature,
    whatever the ranges of the geometry: every vertex has the colour of the
    stroke and the batch id of the geometry, and nothing is logged. *)
Theorem featureToLine_single_geometry feature options zoom g :
  view_geometries feature = [g] → positions_ready feature →
  let count := (Z.of_nat (length (view_vertices feature)) / 3)%Z in
  match contextStyle_of feature zoom g with
  | None => featureToLine feature options zoom = Some (None, [])
  | Some cs =>
      match context_stroke cs with
      | None => featureToLine feature options zoom = None
      | Some stroke =>
          ∃ mesh vs colors,
            featureToLine feature options zoom = Some (Some mesh, []) ∧
            primitive mesh = Line ∧ geom_index (geometry mesh) = None ∧
            attributes_position (geometry mesh) = Some vs ∧
            length vs = length (view_vertices feature) ∧
            attributes_color (geometry mesh) = Some colors ∧
            length colors = length (view_vertices feature) ∧
            (∀ k : nat, (Z.of_nat k < 3 * count)%Z →
               colors !! k = Some (channel (stroke_color stroke) (Z.of_nat k mod 3))) ∧
            attributes_batchId (geometry mesh)
            = (λ fn, replicate (Z.to_nat count) (to_uint32 (fn (properties g) 0%Z)))
                <$> options_batchId options
      end
  end.
Proof.
  intros Hgs Hpos count. unfold featureToLine.
  destruct (line_positions feature Hpos) as (vertices & Hv & Hlen).
  fold count in Hv. fold count. rewrite Hv. simpl. rewrite Hgs. simpl.
  destruct (contextStyle_of feature zoom g) as [cs|]; [|done].
  destruct (context_stroke cs) as [stroke|]; [|done]. simpl.
  eexists _, _, _. split_and!; [done..| | | ]; simpl.
  - by rewrite length_fillColorArray, length_replicate.
  - intros k Hk.
    assert (k < length (view_vertices feature)) as Hlt.
    { pose proof (Z.mul_div_le (Z.of_nat (length (view_vertices feature))) 3).
      unfold count in Hk. lia. }
    erewrite fillColorArray_lookup by (by apply lookup_replicate_2).
    rewrite decide_True; [done|lia].
  - unfold fill_batchIds, new_batchIds.
    destruct (options_batchId options) as [fn|]; [|done]. simpl.
    by rewrite fillBatchIdArray_all.
Qed.

(** X18: on a feature in three dimensions (its vertices are triples),
    [featureToLine] throws when the feature has several geometries and fewer
    vertices than geometries: the index array would have a negative integer
    length. *)
Theorem featureToLine_more_geometries_than_vertices feature options zoom :
  vertices_are_triples feature →
  1 < length (view_geometries feature) →
  (Z.of_nat (length (view_vertices feature)) / 3
   < Z.of_nat (length (view_geometries feature)))%Z →
  featureToLine feature options zoom = None.
Proof.
  intros _ Hn Hlt. unfold featureToLine.
  destruct (if negb _ then _ else _) as [vertices|]; [|done]. simpl.
  rewrite decide_True by done. by rewrite decide_True by lia.
Qed.

Lemma featureToPolygon_loop_spec gs feature options zoom st :
  Forall (polygon_ready feature zoom) gs →
  ∃ st',
    featureToPolygon_loop gs feature options zoom st
    = Some (st', if polygon_overflows gs then [polygon_warning] else []) ∧
    polygon_vertices st' = polygon_vertices st ∧
    polygon_indices st'
    = polygon_indices st
      ++ map Some (flat_map (polygon_triangles (polygon_vertices st)) (before_overflow gs)).
Proof.
  intros Hgs. revert st. induction Hgs as [|g gs [Hix [cs Hcs]] Hgs IH]; intros st.
  - exists st. simpl. by rewrite app_nil_r.
  - simpl. unfold polygon_overflows in *. simpl.
    destruct (indices g) as [|first rest] eqn:Hindices; [done|]. simpl.
    assert (first_offset g = offset first) as Hfirst
      by (unfold first_offset; by rewrite Hindices).
    rewrite Hfirst. case_decide as Hover.
    + rewrite bool_decide_true by done. simpl.
      exists st. by rewrite app_nil_r.
    + rewrite bool_decide_false by done. simpl. rewrite Hcs. simpl.
      assert (is_Some (last (first :: rest))) as [lastIndice Hlast].
      { rewrite last_is_Some. done. }
      rewrite Hlast. simpl.
      destruct (fill_batchIds options g (polygon_batchIds st) (polygon_featureId st) _)
        as [batchIds featureId].
      edestruct IH as (st' & Hrun & Hv & Hi). rewrite Hrun. simpl in *.
      exists st'. split_and!; [done | done |].
      rewrite Hi. rewrite <- app_assoc. f_equal. rewrite map_app. f_equal.
      unfold polygon_triangles, last_end, next_offset. rewrite Hfirst, Hindices, Hlast. simpl.
      by rewrite map_map.
Qed.

(** X19: on a feature whose geometries have ranges and drawing styles,
    [featureToPolygon] returns a mesh with the positions of the feature as
    they are, indexed by the triangles that [Earcut] makes of each
    geometry up to the first one that starts above [0xffff], each index
    moved by the start of its geometry and kept modulo [0x10000]; it logs a
    warning exactly when a geometry starts above [0xffff]. *)
Theorem featureToPolygon_triangles feature options zoom :
  let gs := view_geometries feature in
  let positions := Float32Array_from (view_vertices feature) in
  Forall (polygon_ready feature zoom) gs →
  ∃ mesh,
    featureToPolygon feature options zoom
    = Some (mesh, if polygon_overflows gs then [polygon_warning] else []) ∧
    primitive mesh = Mesh ∧
    attributes_position (geometry mesh) = Some positions ∧
    geom_index (geometry mesh)
    = Some (map Uint16 (flat_map (polygon_triangles positions) (before_overflow gs))).
Proof.
  intros gs positions Hgs. unfold featureToPolygon.
  edestruct (featureToPolygon_loop_spec gs feature options zoom) as (st' & Hrun & Hv & Hi);
    [done|].
  fold gs. rewrite Hrun. simpl. eexists. split_and!; [done | done | |]; simpl.
  - by rewrite Hv.
  - rewrite Hi. simpl. by rewrite Uint16Array_from_Some.
Qed.

(** X20: [featureToPolygon] throws when a geometry that it reaches (none
    before it starts above [0xffff]) has no drawing style, that is, when
    [drawingStylefromContext] returns [undefined] for it, whereas
    [featureToLine] skips such a geometry. *)
Theorem featureToPolygon_unstyled_geometry feature options zoom g :
  Forall (λ g, indices g ≠ []) (view_geometries feature) →
  g ∈ before_overflow (view_geometries feature) →
  contextStyle_of feature zoom g = None →
  featureToPolygon feature options zoom = None.
Proof.
  intros Hgs Hin Hstyle. unfold featureToPolygon.
  generalize (mkPolygonLoop (Float32Array_from (view_vertices feature))
                (replicate (length (view_vertices feature)) 0%Z) []
                (new_batchIds options
                   (Z.of_nat (length (Float32Array_from (view_vertices feature))) / 3)) 0).
  intros st.
  assert (featureToPolygon_loop (view_geometries feature) feature options zoom st = None)
    as ->; [|done].
  revert st Hin. induction Hgs as [|g0 gs Hix Hgs IH]; intros st Hin; simpl in *.
  - by apply elem_of_nil in Hin.
  - destruct (indices g0) as [|first rest] eqn:Hindices; [done|]. simpl.
    assert (first_offset g0 = offset first) as Hfirst
      by (unfold first_offset; by rewrite Hindices).
    rewrite Hfirst in Hin. case_decide as Hover; [by apply elem_of_nil in Hin|].
    apply elem_of_cons in Hin as [->|Hin].
    + by rewrite Hstyle.
    + destruct (contextStyle_of feature zoom g0) as [cs|]; [|done]. simpl.
      destruct (last (first :: rest)) as [lastIndice|]; [|done]. simpl.
      destruct (fill_batchIds options g0 (polygon_batchIds st) (polygon_featureId st) _)
        as [batchIds featureId].
      by rewrite IH.
Qed.

(** X21: when the fill extrusion height of the style is a number (and
    truthy), and not a function of the properties, [featureToMesh] throws
    on every feature of type POLYGON. *)
Theorem featureToMesh_numeric_extrusion_height feature options zoom random_state v :
  view_type feature = POLYGON →
  fill_extrusion_height (view_style feature) = Some (StyleNumber v) →
  num_truthy v = true →
  featureToMesh feature options zoom random_state = None.
Proof.
  intros Hty Hheight Hv. unfold featureToMesh.
  rewrite !decide_False by (rewrite Hty; done). rewrite decide_True by done.
  unfold has_extrusion_height. rewrite Hheight, Hv.
  assert (featureToExtrudedPolygon feature options = None) as ->; [|done].
  unfold featureToExtrudedPolygon.
  destruct (view_geometries feature) as [|g0 gs]; [done|]. simpl.
  destruct (head (indices g0)); [|done]. simpl. by rewrite Hheight.
Qed.

(** X22: on a feature without geometry, [featureToMesh] throws when the
    feature is a line, or a polygon whose style has a fill extrusion height;
    for a polygon without extrusion it returns a mesh with the positions of
    the feature and an empty index. *)
Theorem featureToMesh_no_geometry feature options zoom random_state :
  view_geometries feature = [] →
  (view_type feature = LINE → featureToMesh feature options zoom random_state = None) ∧
  (view_type feature = POLYGON → has_extrusion_height feature = true →
   featureToMesh feature options zoom random_state = None) ∧
  (view_type feature = POLYGON → has_extrusion_height feature = false →
   ∃ mesh,
     featureToMesh feature options zoom random_state = Some (mesh, random_state, []) ∧
     primitive mesh = Mesh ∧ geom_index (geometry mesh) = Some [] ∧
     attributes_position (geometry mesh) = Some (Float32Array_from (view_vertices feature))).
Proof.
  intros Hgs. unfold featureToMesh. split_and!.
  - intros Hty. rewrite decide_False by (rewrite Hty; done). rewrite decide_True by done.
    assert (featureToLine feature options zoom = None) as ->; [|done].
    unfold featureToLine. destruct (if negb _ then _ else _); [|done]. simpl.
    by rewrite Hgs.
  - intros Hty ->. rewrite !decide_False by (rewrite Hty; done). rewrite decide_True by done.
    unfold featureToExtrudedPolygon. by rewrite Hgs.
  - intros Hty ->. rewrite !decide_False by (rewrite Hty; done). rewrite decide_True by done.
    unfold featureToPolygon. rewrite Hgs. simpl. by eexists.
Qed.

Lemma featureToMesh_tagged feature options zoom rs mesh rs' warnings :
  featureToMesh feature options zoom rs = Some (mesh, rs', warnings) →
  mesh_feature mesh = Some feature ∧ vertexColors mesh = true ∧
  material_color mesh = Some 16777215%Z.
Proof.
  unfold featureToMesh. intros Hrun.
  apply option.bind_Some in Hrun as ([m w] & _ & Hrun). by injection Hrun as <- <- <-.
Qed.

(** X23: [featuresToThree] returns exactly when [featureToMesh] returns for
    each of the features; it then gives one mesh per feature, in the order of
    the features, each with its feature, vertex colours and the colour
    white. *)
Theorem featuresToThree_one_mesh_per_feature features options zoom rs :
  (is_Some (featuresToThree features options zoom rs)
   ↔ Forall (λ feature, is_Some (featureToMesh feature options zoom rs)) features) ∧
  ∀ meshes rs' warnings,
    featuresToThree features options zoom rs = Some (meshes, rs', warnings) →
    Forall2 (λ mesh feature,
               mesh_feature mesh = Some feature ∧ vertexColors mesh = true ∧
               material_color mesh = Some 16777215%Z) meshes features.
Proof.
  induction features as [|feature features [IH1 IH2]]; simpl.
  - split; [by split|]. intros ??? [= <- <- <-]. constructor.
  - destruct (featureToMesh feature options zoom rs) as [[[mesh rs1] w]|] eqn:Hmesh; simpl.
    + apply featureToMesh_random in Hmesh as Hrs. destruct Hrs as [-> _].
      apply featureToMesh_tagged in Hmesh as Htag.
      destruct (featuresToThree features options zoom rs) as [[[ms rs2] ws]|] eqn:Hrest;
        simpl.
      * split.
        -- split; [|by eexists]. intros _. constructor; [by eexists|]. by apply IH1.
        -- intros ??? [= <- <- <-]. constructor; [done|]. by eapply IH2.
      * split; [|done]. split; [by intros [? ?]|].
        intros Hall. apply Forall_cons in Hall as [_ Hall]. by apply IH1 in Hall.
    + split; [|done]. split; [by intros [? ?]|].
      intros Hall. apply Forall_cons in Hall as [[? ?] _]. congruence.
Qed.

Lemma featureToPoint_loop_constant gs options c colors batchIds featureId rs :
  options_color options = ColorConstant c →
  Forall (λ g, indices g ≠ []) gs →
  ∃ colors' batchIds',
    featureToPoint_loop gs options colors batchIds featureId rs
    = Some (colors', batchIds', rs) ∧
    length colors' = length colors ∧
    (is_Some batchIds' ↔ is_Some batchIds) ∧
    (∀ b b', batchIds = Some b → batchIds' = Some b' → length b' = length b) ∧
    ∀ (k : nat) x, colors !! k = Some x →
      colors' !! k
      = Some (if existsb (λ g, in_first_range g (Z.of_nat k)) gs
              then channel c (Z.of_nat k mod 3) else x).
Proof.
  intros Hc Hgs. revert colors batchIds featureId.
  induction Hgs as [|g gs Hix Hgs IH]; intros colors batchIds featureId.
  - exists colors, batchIds. by split_and!; [..|intros ?? ->; congruence|].
  - simpl. unfold getProperty_color. rewrite Hc.
    destruct (indices g) as [|first rest] eqn:Hindices; [done|]. simpl.
    assert (first_offset g = offset first ∧ first_count g = count first) as [Ho Hn]
      by (unfold first_offset, first_count; by rewrite Hindices).
    destruct (fill_batchIds options g batchIds featureId _) as [batchIds1 featureId1]
      eqn:Hfill.
    assert ((is_Some batchIds1 ↔ is_Some batchIds) ∧
            ∀ b b1, batchIds = Some b → batchIds1 = Some b1 → length b1 = length b)
      as [Hb1 Hb2].
    { unfold fill_batchIds in Hfill.
      destruct batchIds as [b|], (options_batchId options) as [fn|]; simplify_eq.
      all: split; [first [done | split; by eexists]|].
      all: intros b0 b1 ??; simplify_eq; simpl; try done.
      unfold fillBatchIdArray. by rewrite length_fillBatchIdArray_loop. }
    destruct (IH (fillColorArray colors (count first) c (offset first)) batchIds1 featureId1)
      as (colors' & batchIds' & -> & Hlen & Hb & Hblen & Hk).
    exists colors', batchIds'. split_and!; [done | | | |].
    + by rewrite Hlen, length_fillColorArray.
    + by rewrite Hb, Hb1.
    + intros b b' Hbs Hbs'. destruct Hb1 as [_ Hb1]. destruct Hb1 as [b1 Hbs1]; [by eexists|].
      rewrite (Hblen _ _ Hbs1 Hbs'). by eapply Hb2.
    + intros k x Hx. erewrite Hk by (by apply fillColorArray_lookup).
      f_equal. unfold in_first_range at 2. rewrite Ho, Hn.
      destruct (decide (offset first * 3 ≤ Z.of_nat k < (offset first + count first) * 3)%Z).
      * rewrite bool_decide_true by done. simpl. by destruct (existsb _ _).
      * by rewrite bool_decide_false by done.
Qed.

(** X16: with a constant [options.color], and on a feature whose geometries
    have ranges, [featureToPoint] returns [THREE.Points] without index, with
    as many positions and colour values as the feature has coordinates: the
    vertices of the first range of a geometry have that colour, the others
    are black; the batch ids are set exactly when [options.batchId] is; no
    random number is drawn. *)
Theorem featureToPoint_constant_color feature options random_state c :
  options_color options = ColorConstant c →
  point_positions_ready feature options →
  Forall (λ g, indices g ≠ []) (view_geometries feature) →
  ∃ mesh vs colors,
    featureToPoint feature options random_state = Some (mesh, random_state) ∧
    primitive mesh = Points ∧ geom_index (geometry mesh) = None ∧
    attributes_position (geometry mesh) = Some vs ∧
    length vs = length (view_vertices feature) ∧
    attributes_color (geometry mesh) = Some colors ∧
    length colors = length (view_vertices feature) ∧
    (∀ k : nat, k < length (view_vertices feature) →
       colors !! k
       = Some (if existsb (λ g, in_first_range g (Z.of_nat k)) (view_geometries feature)
               then channel c (Z.of_nat k mod 3) else 0%Z)) ∧
    (is_Some (attributes_batchId (geometry mesh)) ↔ is_Some (options_batchId options)).
Proof.
  intros Hc Hpos Hgs. unfold featureToPoint.
  set (L := length (view_vertices feature)).
  assert (∃ vertices,
            (if match options_altitude options with
                | Some a => negb (num_eqb a (of_Z 0))
                | None => true
                end
             then coordinatesToVertices (view_vertices feature) (view_normals feature)
                    (replicate L (of_Z 0))
                    (default (of_Z 0) (options_fnAltitude options)) (of_Z 0) 0
                    (Z.of_nat L / 3) 0
             else Some (Float32Array_from (view_vertices feature))) = Some vertices ∧
            length vertices = L) as (vertices & Hv & Hlen).
  { assert (∀ ns, view_normals feature = Some ns →
              ∃ vertices,
                coordinatesToVertices (view_vertices feature) (view_normals feature)
                  (replicate L (of_Z 0))
                  (default (of_Z 0) (options_fnAltitude options)) (of_Z 0) 0
                  (Z.of_nat L / 3) 0 = Some vertices ∧ length vertices = L) as Hns.
    { intros ns Hns. rewrite Hns.
      destruct (coordinatesToVertices_Some (view_vertices feature) ns
                  (replicate L (of_Z 0))
                  (default (of_Z 0) (options_fnAltitude options)) (of_Z 0) 0
                  (Z.of_nat L / 3) 0) as (out & -> & Hout).
      exists out. split; [done|]. by rewrite Hout, length_replicate. }
    assert (∃ vertices, Some (Float32Array_from (view_vertices feature)) = Some vertices ∧
                        length vertices = L) as Hflat.
    { eexists. split; [done|]. unfold Float32Array_from. by rewrite length_map. }
    destruct Hpos as [(a & -> & ->)|[ns Hnormals]]; [done|].
    destruct (options_altitude options) as [a|]; [destruct (num_eqb a (of_Z 0))|]; simpl;
      eauto. }
  rewrite Hv. simpl.
  destruct (featureToPoint_loop_constant (view_geometries feature) options c
              (replicate L 0%Z) (new_batchIds options (Z.of_nat L / 3)) 0 random_state Hc Hgs)
    as (colors' & batchIds' & -> & Hclen & Hb & _ & Hk).
  simpl. eexists _, _, _. split_and!; [done..| | |]; simpl.
  - by rewrite Hclen, length_replicate.
  - intros k Hlt. by apply Hk, lookup_replicate_2.
  - rewrite Hb. unfold new_batchIds. destruct (options_batchId options); [|done].
    split; by eexists.
Qed.
End MoreTessellation.

(** ** Requests, and the removal of empty features *)

Section RequestsMore.
Context `{FeatureEnv}.

(** X5: when features are merged, a request by the id [undefined] returns
    the first feature of a collection that has one, whatever the type that
    is requested, and changes nothing: no feature has an id. *)
Theorem requestFeatureById_undefined_returns_first σ ty fl rest :
  reachable σ → mergeFeatures (collection σ) = true →
  features (collection σ) = fl :: rest →
  requestFeatureById None ty σ = Some (fl, σ).
Proof.
  intros (Hheap & _ & Hok)%reachable_inv Hmerge Hfs.
  apply requestFeature_found; [done| |done].
  rewrite Hfs. simpl.
  destruct (collection_ok_valid _ Hok fl) as [f Hf]; [rewrite Hfs; left|].
  rewrite Hf. destruct (Hheap fl _ Hf) as [-> _]. by rewrite bool_decide_eq_true_2.
Qed.

Lemma find_in_none_matches h callback ls :
  (∀ fl, fl ∈ ls → ∃ f, h !! fl = Some (OFeature f) ∧ callback f = false) →
  find_in h callback ls = None.
Proof.
  induction ls as [|fl ls IH]; intros Hls; [done|]. simpl.
  destruct (Hls fl) as (f & -> & ->); [left|]. apply IH. intros ??. apply Hls. by right.
Qed.

Lemma requestFeature_unsupported ty callback σ :
  collection_ok σ → is_feature_type ty = false →
  find_in (heap σ) callback (features (collection σ)) = None →
  requestFeature ty callback σ = None.
Proof.
  intros Hok Hty Hfind. unfold requestFeature.
  unfold mbind at 1, M_bind. simpl.
  unfold mbind at 1, M_bind. rewrite find_feature_total by apply Hok. rewrite Hfind.
  unfold Feature_new. unfold mbind at 1, M_bind.
  unfold mbind at 1, M_bind. simpl. by rewrite Hty.
Qed.

(** X4: a type that is none of [FEATURE_TYPES] makes the constructor of
    [Feature] throw, and with it a request by that type, or by an id, on
    every collection: no feature of the collection can have the type. *)
Theorem unsupported_type_throws σ ty (id : string) :
  reachable σ → is_feature_type ty = false →
  Feature_new ty σ = None ∧
  requestFeatureByType ty σ = None ∧
  requestFeatureById (Some id) ty σ = None.
Proof.
  intros (Hheap & _ & Hok)%reachable_inv Hty. split_and!.
  - unfold Feature_new. unfold mbind, M_bind. simpl. by rewrite Hty.
  - apply requestFeature_unsupported; [done..|].
    apply find_in_none_matches. intros fl Hfl.
    destruct (collection_ok_valid _ Hok fl Hfl) as [f Hf]. exists f. split; [done|].
    destruct (Hheap fl _ Hf) as [_ Hf']. apply bool_decide_eq_false_2. congruence.
  - apply requestFeature_unsupported; [done..|].
    apply find_in_none_matches. intros fl Hfl.
    destruct (collection_ok_valid _ Hok fl Hfl) as [f Hf]. exists f. split; [done|].
    destruct (Hheap fl _ Hf) as [Hid _]. apply bool_decide_eq_false_2. congruence.
Qed.

Lemma non_empty_features_total σ ls :
  refs_ok σ → (∀ fl, fl ∈ ls → kind_at σ fl = Some KFeature) →
  non_empty_features ls σ
  = Some (filter (λ fl, has_geometries σ fl = true) ls, σ).
Proof.
  intros Hrefs. induction ls as [|fl ls IH]; intros Hls; [done|]. simpl.
  destruct (kind_at_feature σ fl) as [f Hf]; [apply Hls; left|].
  assert (∃ gs, heap σ !! geometries f = Some (OGeometries gs)) as [gs Hgs].
  { pose proof (Hrefs fl f (geometries f) KGeometries Hf) as Hk.
    unfold kind_at in Hk. destruct (heap σ !! geometries f) as [[]|] eqn:Hg.
    all: try (exfalso; assert ((geometries f, KGeometries) ∈ refs_list f) as Hin
                by (apply elem_of_refs_list; tauto); by specialize (Hk Hin)).
    eauto. }
  apply bind_Some. exists f, σ. split; [apply load_feature_Some; eauto|].
  apply bind_Some. exists gs, σ. split; [apply load_geometries_Some; eauto|].
  apply bind_Some. eexists _, σ. split; [apply IH; intros ??; apply Hls; by right|].
  apply ret_Some. f_equal. rewrite filter_cons.
  assert (has_geometries σ fl = match gs with [] => false | _ => true end) as Hhas.
  { unfold has_geometries. rewrite Hf, Hgs. by destruct gs. }
  destruct gs; simpl.
  - by rewrite decide_False by (by rewrite Hhas).
  - by rewrite decide_True by (by rewrite Hhas).
Qed.

(** X6: on a collection that a client program reached, [removeEmptyFeature]
    does not throw; it keeps exactly the features that have a geometry, in
    their order, and changes nothing else; removing again changes
    nothing. *)
Theorem removeEmptyFeature_keeps_non_empty σ :
  reachable σ →
  removeEmptyFeature σ = Some ((), without_empty_features σ) ∧
  (∀ fl, fl ∈ features (collection (without_empty_features σ)) ↔
         fl ∈ features (collection σ) ∧ has_geometries σ fl = true) ∧
  removeEmptyFeature (without_empty_features σ) = Some ((), without_empty_features σ).
Proof.
  intros (_ & Hrefs & Hok)%reachable_inv.
  assert (∀ σ0, refs_ok σ0 → collection_ok σ0 →
            removeEmptyFeature σ0 = Some ((), without_empty_features σ0)) as Hrun.
  { intros σ0 Hrefs0 [Hfs0 _]. unfold removeEmptyFeature.
    apply bind_Some. exists (collection σ0), σ0. split; [done|].
    apply bind_Some. eexists _, σ0. split; [by apply non_empty_features_total|]. done. }
  split_and!.
  - by apply Hrun.
  - intros fl. simpl. by rewrite list_elem_of_filter, (comm and).
  - rewrite Hrun.
    + do 2 f_equal. unfold without_empty_features. simpl. f_equal.
      destruct (collection σ) as [crs fs merge ext size st force lo hi]. simpl. f_equal.
      apply list_filter_filter_l. done.
    + intros fl f l k Hfl Hin. apply (Hrefs fl f l k Hfl Hin).
    + destruct Hok as [Hfs Hext]. split; [|done].
      intros fl [_ Hin]%list_elem_of_filter. by apply Hfs.
Qed.
End RequestsMore.

Section ParserFacts.
Context `{FeatureEnv}.

Lemma for_of_filter {A} (keep : A → bool) (body : A → M unit) xs σ :
  for_of xs (λ x, if keep x then body x else mret ()) σ
  = for_of (List.filter keep xs) body σ.
Proof.
  revert σ. induction xs as [|x xs IH]; intros σ; [done|]. simpl.
  destruct (keep x); simpl.
  - unfold mbind, M_bind. destruct (body x σ) as [[[] σ1]|]; [apply IH | done].
  - unfold mbind at 1, M_bind. simpl. apply IH.
Qed.

(** X8: [options.filter] only removes features from the input: parsing
    with a filter is parsing the features that pass it without filter. *)
Theorem jsonFeaturesToFeatures_filter crsIn jsonFeatures options filterExtent filter :
  jsonFeaturesToFeatures crsIn jsonFeatures options filterExtent filter
  = jsonFeaturesToFeatures crsIn (List.filter filter jsonFeatures) options filterExtent
      (λ _, true).
Proof.
  unfold jsonFeaturesToFeatures, populate_collection. f_equal.
  generalize (FeatureCollection_new options). intros σ.
  assert (∀ (m m' : M unit) (k : unit → M unit), m σ = m' σ → (m ≫= k) σ = (m' ≫= k) σ)
    as Hbind.
  { intros m m' k Hm. unfold mbind, M_bind. by rewrite Hm. }
  apply Hbind.
  rewrite (for_of_filter filter
             (λ jsonFeature, _ ← jsonFeatureToFeature filterExtent crsIn jsonFeature; mret ())).
  rewrite (for_of_filter (λ _, true)
             (λ jsonFeature, _ ← jsonFeatureToFeature filterExtent crsIn jsonFeature; mret ())).
  by rewrite (forallb_filter_id (λ _, true)) by (by apply forallb_forall).
Qed.

Lemma for_of_throws {A} (body : A → M unit) xs x σ :
  x ∈ xs → (∀ σ', body x σ' = None) → for_of xs body σ = None.
Proof.
  intros Hin Hx. revert σ. induction xs as [|y xs IH]; intros σ.
  - by apply elem_of_nil in Hin.
  - simpl. unfold mbind, M_bind. apply elem_of_cons in Hin as [<-|Hin].
    + by rewrite Hx.
    + destruct (body y σ) as [[[] σ1]|]; [by apply IH | done].
Qed.

(** X9: a feature whose geometry is a geometry collection, and which passes
    the filter, makes the parser throw: there is no collection for the other
    features of the input. *)
Theorem jsonFeaturesToFeatures_geometry_collection crsIn jsonFeatures options filterExtent
    filter json :
  json ∈ jsonFeatures → json_geometry json = GeometryCollection → filter json = true →
  jsonFeaturesToFeatures crsIn jsonFeatures options filterExtent filter = None.
Proof.
  intros Hin Hgeometry Hfilter. unfold jsonFeaturesToFeatures, populate_collection.
  generalize (FeatureCollection_new options). intros σ.
  assert (∀ (m : M unit) (k : unit → M unit), m σ = None → (m ≫= k) σ = None) as Hbind.
  { intros m k Hm. unfold mbind, M_bind. by rewrite Hm. }
  rewrite Hbind; [done|].
  apply (for_of_throws _ _ json); [done|].
  intros σ'. rewrite Hfilter. unfold jsonFeatureToFeature. by rewrite Hgeometry.
Qed.
End ParserFacts.

(** ** The layout of the geometries is kept or extended *)

Section FrameSteps.
Context `{FeatureEnv}.

Lemma same_frame_refl σ : same_frame σ σ.
Proof. by split_and!. Qed.

Lemma same_frame_trans σ1 σ2 σ3 : same_frame σ1 σ2 → same_frame σ2 σ3 → same_frame σ1 σ3.
Proof.
  intros (Hf1 & ? & ? & ?) (Hf2 & ? & ? & ?). split_and!; [|congruence..].
  intros l. by rewrite Hf2, Hf1.
Qed.

Lemma fstep_ret {A} (a : A) : fstep (mret a).
Proof. intros σ a' σ' Hrun. apply ret_Some in Hrun. simplify_eq. apply same_frame_refl. Qed.

Lemma fstep_bind {A B} (m : M A) (k : A → M B) :
  fstep m → (∀ a, fstep (k a)) → fstep (m ≫= k).
Proof.
  intros Hm Hk σ b σ' (a & σ1 & Hm1 & Hk1)%bind_Some.
  eapply same_frame_trans; [by eapply Hm | by eapply Hk].
Qed.

Lemma fstep_throw {A} : fstep (@throw _ _ A).
Proof. by intros σ a σ' Hrun. Qed.

Lemma fstep_get_collection : fstep get_collection.
Proof.
  intros σ a σ' Hrun. apply get_collection_Some in Hrun. simplify_eq.
  apply same_frame_refl.
Qed.

Lemma fstep_set_altitude (lo hi : FeatureCollection → num) :
  fstep (c ← get_collection; set_collection (with_collection_altitude c (lo c) (hi c))).
Proof. intros σ a σ' Hrun. run_inv. by split_and!. Qed.

Lemma fstep_load l : fstep (load l).
Proof. intros σ a σ' (o & _ & ?)%load_Some. simplify_eq. apply same_frame_refl. Qed.

Lemma frame_insert σ l o l' :
  frame (mkState (<[l := o]> (heap σ)) (collection σ)) l'
  = if decide (l = l') then frame_of o else frame σ l'.
Proof.
  unfold frame. simpl. case_decide as Heq.
  - subst. by rewrite lookup_insert_eq.
  - by rewrite lookup_insert_ne.
Qed.

Lemma frame_mk_insert h c l o l' :
  frame (mkState (<[l := o]> h) c) l'
  = if decide (l = l') then frame_of o else frame (mkState h c) l'.
Proof. apply (frame_insert (mkState h c)). Qed.

(** An update that keeps the frame of the object, or a new object without
    frame. *)
Lemma same_frame_insert σ l o :
  frame σ l = frame_of o →
  same_frame σ (mkState (<[l := o]> (heap σ)) (collection σ)).
Proof.
  intros Hl. split_and!; [|done..]. intros l'. rewrite frame_insert.
  case_decide; [|done]. by subst.
Qed.

Lemma fstep_alloc o : frame_of o = None → fstep (alloc o).
Proof.
  intros Ho σ a σ' (l & Hl & _ & ?)%alloc_Some. simplify_eq.
  apply same_frame_insert. unfold frame. by rewrite Hl, Ho.
Qed.

Lemma fstep_store l o : frame_of o = None → fstep (store l o).
Proof.
  intros Ho σ a σ' (o' & Hl & Hk & ?)%store_Some. simplify_eq.
  apply same_frame_insert. unfold frame. rewrite Hl, Ho. simpl.
  destruct o, o'; done.
Qed.

Lemma fstep_for_of {A} (xs : list A) (body : A → M unit) :
  (∀ x, fstep (body x)) → fstep (for_of xs body).
Proof.
  intros Hbody. induction xs as [|x xs IH]; simpl; [apply fstep_ret|].
  by apply fstep_bind.
Qed.

Lemma fstep_when_some {A} (o : option A) (body : A → M unit) :
  (∀ a, fstep (body a)) → fstep (when_some o body).
Proof. intros Hbody. destruct o; simpl; [apply Hbody | apply fstep_ret]. Qed.

Lemma layout_insert gs i g g' :
  gs !! i = Some g → ranges g' = ranges g → geometry_size g' = geometry_size g →
  layout (<[i := g']> gs) = layout gs.
Proof.
  intros Hi Hr Hs. unfold layout. rewrite list_fmap_insert.
  apply list_insert_id. rewrite list_lookup_fmap, Hi. simpl. by rewrite Hr, Hs.
Qed.

(** Replacing a geometry by one with the same ranges. *)
Lemma fstep_update_geometry this (upd : FeatureGeometry → FeatureGeometry) :
  (∀ g, indices (upd g) = indices g ∧ geometry_size (upd g) = geometry_size g) →
  fstep (g ← load_geometry this; store_geometry this (upd g)).
Proof.
  intros Hupd σ a σ' Hrun. run_inv. simpl in *. simplify_eq.
  apply same_frame_insert. unfold frame.
  match goal with Hl : heap _ !! geometry_list this = Some _ |- _ => rewrite Hl end.
  simpl. do 2 f_equal. symmetry. eapply layout_insert; [done| |by apply Hupd].
  unfold ranges. by rewrite (proj1 (Hupd _)).
Qed.
End FrameSteps.

Create HintDb fstep discriminated.

Ltac fstep_step :=
  first
  [ solve [auto with fstep]
  | lazymatch goal with
    | |- fstep (mret _) => apply fstep_ret
    | |- fstep throw => apply fstep_throw
    | |- fstep get_collection => apply fstep_get_collection
    | |- fstep (get_collection ≫= λ c, set_collection (with_collection_altitude c _ _)) =>
        apply fstep_set_altitude
    | |- fstep (load_geometry ?g ≫= λ x, store_geometry ?g _) =>
        apply fstep_update_geometry; done
    | |- fstep (alloc _) => apply fstep_alloc; done
    | |- fstep (load _) => apply fstep_load
    | |- fstep (store _ _) => apply fstep_store; done
    | |- fstep (let _ := _ in _) => cbv zeta
    | |- fstep (for_of _ _) => apply fstep_for_of; intros
    | |- fstep (when_some _ _) => apply fstep_when_some; intros
    | |- fstep (_ ≫= _) => apply fstep_bind; [ | intros ]
    | |- fstep (match ?x with _ => _ end) => destruct x
    end ].

Ltac fstep_go := repeat fstep_step.

(** The frames of a state that updates of the heap led to. *)
Ltac frame_solve :=
  let l := fresh "l" in
  intros l; rewrite !frame_mk_insert; repeat case_decide; subst; try done;
  unfold frame; simpl;
  repeat match goal with
  | H : ?h !! ?l = Some _ |- context [?h !! ?l] => rewrite H
  | H : ?h !! ?l = None |- context [?h !! ?l] => rewrite H
  end; simpl; try done.

Section FrameStepsOfCalls.
Context `{FeatureEnv}.

Lemma fstep_load_feature l : fstep (load_feature l).
Proof. unfold load_feature. fstep_go. Qed.
Lemma fstep_load_geometries l : fstep (load_geometries l).
Proof. unfold load_geometries. fstep_go. Qed.
Lemma fstep_load_numbers l : fstep (load_numbers l).
Proof. unfold load_numbers. fstep_go. Qed.
Lemma fstep_load_extent l : fstep (load_extent l).
Proof. unfold load_extent. fstep_go. Qed.
Lemma fstep_load_style l : fstep (load_style l).
Proof. unfold load_style. fstep_go. Qed.

#[local] Hint Resolve fstep_load_feature fstep_load_geometries fstep_load_numbers
  fstep_load_extent fstep_load_style : fstep.

Lemma fstep_load_geometry g : fstep (load_geometry g).
Proof. unfold load_geometry. fstep_go. Qed.

#[local] Hint Resolve fstep_load_geometry : fstep.

Lemma fstep_new_defaultExtent_like e : fstep (new_defaultExtent_like e).
Proof. unfold new_defaultExtent_like. fstep_go. Qed.

Lemma fstep_union_into t o : fstep (union_into t o).
Proof. unfold union_into. fstep_go. Qed.

Lemma fstep_extendBuffer feature n : fstep (_extendBuffer feature n).
Proof. unfold _extendBuffer. fstep_go. Qed.

Lemma fstep_write_normal feature normal : fstep (write_normal feature normal).
Proof. unfold write_normal. fstep_go. Qed.

#[local] Hint Resolve fstep_new_defaultExtent_like fstep_union_into fstep_extendBuffer
  fstep_write_normal : fstep.

Lemma fstep_set_properties geometry p feature : fstep (set_properties geometry p feature).
Proof. unfold set_properties. fstep_go. Qed.

Lemma fstep_expand_geometry_altitude this alt : fstep (expand_geometry_altitude this alt).
Proof.
  intros σ a σ' Hrun. unfold expand_geometry_altitude in Hrun.
  apply bind_Some in Hrun as (g & σ1 & Hg & Hrun). case_decide.
  - eapply (fstep_update_geometry this
              (λ g, with_geometry_altitude g (Math_min (geometry_altitude_min g) alt)
                      (Math_max (geometry_altitude_max g) alt))); [done|].
    apply bind_Some. eauto.
  - apply ret_Some in Hrun. simplify_eq. by eapply fstep_load_geometry.
Qed.

Lemma fstep_call_pushValues feature v0 v1 v2 : fstep (call_pushValues feature v0 v1 v2).
Proof.
  intros [h c] a σ' Hrun. unfold call_pushValues in Hrun. run_inv.
  all: simpl in *; split_and!; [frame_solve|done..].
Qed.

Lemma fstep_Feature_updateExtent this geometry : fstep (Feature_updateExtent this geometry).
Proof.
  intros σ a σ' Hrun. unfold Feature_updateExtent in Hrun.
  apply bind_Some in Hrun as (f0 & σ1 & Hf & Hrun).
  apply load_feature_Some in Hf as (f & Hf & [= -> ->]).
  apply bind_Some in Hrun as (g0 & σ2 & Hg & Hrun).
  apply load_geometry_Some in Hg as (gs & g & Hgs & Hg & [= -> ->]).
  apply bind_Some in Hrun as (u & σ3 & Hu & Hrun).
  assert (same_frame σ σ3) as Hstep.
  { match type of Hu with ?m _ = _ => assert (fstep m) as Hs by fstep_go end.
    by eapply Hs. }
  case_decide; [|apply ret_Some in Hrun; by simplify_eq].
  apply store_Some in Hrun as (o' & Hl & Hk & ?). simplify_eq.
  eapply same_frame_trans; [done|]. apply same_frame_insert.
  destruct Hstep as [Hfr _]. rewrite Hfr. unfold frame. by rewrite Hf.
Qed.

#[local] Hint Resolve fstep_set_properties fstep_expand_geometry_altitude
  fstep_call_pushValues fstep_Feature_updateExtent : fstep.

Lemma fstep_pushCoordinates this coordIn feature :
  fstep (pushCoordinates this coordIn feature).
Proof. unfold pushCoordinates. fstep_go. Qed.

Lemma fstep_pushCoordinatesValues this feature long lat alt normal :
  fstep (pushCoordinatesValues this feature long lat alt normal).
Proof. unfold pushCoordinatesValues. fstep_go. Qed.

Lemma fstep_FeatureGeometry_updateExtent this : fstep (FeatureGeometry_updateExtent this).
Proof. unfold FeatureGeometry_updateExtent. fstep_go. Qed.

Lemma fstep_FeatureCollection_updateExtent e : fstep (FeatureCollection_updateExtent e).
Proof. unfold FeatureCollection_updateExtent. fstep_go. Qed.

Lemma fstep_non_empty_features ls : fstep (non_empty_features ls).
Proof. induction ls as [|fl ls IH]; simpl; fstep_go. Qed.

Lemma fstep_find_feature callback ls : fstep (find_feature callback ls).
Proof. induction ls as [|fl ls IH]; simpl; fstep_go. Qed.

Lemma fstep_setParentStyle s : fstep (setParentStyle s).
Proof. unfold setParentStyle. fstep_go. Qed.

Lemma fstep_firstPtIsOut filterExtent aCoords crs :
  fstep (firstPtIsOut filterExtent aCoords crs).
Proof. unfold firstPtIsOut. fstep_go. Qed.

Lemma fstep_getLastSubGeometry this : fstep (getLastSubGeometry this).
Proof. unfold getLastSubGeometry. fstep_go. Qed.
End FrameStepsOfCalls.

Section FrameEffects.
Context `{FeatureEnv}.

Lemma frame_feature σ l f :
  heap σ !! l = Some (OFeature f) →
  frame σ l = Some (FFeature (type f) (vertices f) (geometries f) (normals f) (size f)).
Proof. unfold frame. by intros ->. Qed.

Lemma frame_geometries σ l gs :
  heap σ !! l = Some (OGeometries gs) → frame σ l = Some (FGeometries (layout gs)).
Proof. unfold frame. by intros ->. Qed.

Lemma frame_feature_inv σ l ty v g n s :
  frame σ l = Some (FFeature ty v g n s) →
  ∃ f, heap σ !! l = Some (OFeature f) ∧ type f = ty ∧ vertices f = v ∧
       geometries f = g ∧ normals f = n ∧ size f = s.
Proof.
  unfold frame. destruct (heap σ !! l) as [[]|]; simpl; intros ?; simplify_eq.
  eexists. by split_and!.
Qed.

Lemma frame_geometries_inv σ l lay :
  frame σ l = Some (FGeometries lay) →
  ∃ gs, heap σ !! l = Some (OGeometries gs) ∧ layout gs = lay.
Proof.
  unfold frame. destruct (heap σ !! l) as [[]|]; simpl; intros ?; simplify_eq. eauto.
Qed.

Lemma frame_None σ l : heap σ !! l = None → frame σ l = None.
Proof. unfold frame. by intros ->. Qed.

(** What [new Feature] does to the structure: a feature of the type, on a
    new list without geometry. *)
Lemma Feature_new_frame ty σ fl σ' :
  Feature_new ty σ = Some (fl, σ') →
  ∃ v g n,
    frame σ' fl = Some (FFeature ty v g n (collection_size (collection σ))) ∧
    frame σ' g = Some (FGeometries []) ∧
    heap σ !! fl = None ∧ heap σ !! g = None ∧ fl ≠ g ∧
    (∀ l, l ≠ fl → l ≠ g → frame σ' l = frame σ l) ∧
    collection σ' = collection σ.
Proof.
  destruct σ as [h c]. intros Hrun.
  unfold Feature_new, new_defaultExtent_like in Hrun. run_inv.
  all: simpl in *; fresh_neq.
  all: eexists _, _, _; split_and!;
    [ rewrite frame_mk_insert, decide_True by done; simpl; reflexivity
    | rewrite !frame_mk_insert; repeat (case_decide; simpl in *; try congruence);
      reflexivity
    | done | done | congruence | | done ].
  all: intros l0 ? ?; rewrite !frame_mk_insert;
    repeat (case_decide; simpl in *; try congruence).
  all: subst; unfold frame; simpl;
    repeat match goal with
    | Hn : ?h !! ?l = None |- context [?h !! ?l] => rewrite Hn
    end; done.
Qed.


(** [bindNewGeometry] appends a geometry without range to the list of the
    feature. *)
Lemma bindNewGeometry_frame this σ gref σ' :
  bindNewGeometry this σ = Some (gref, σ') →
  ∃ f gs,
    heap σ !! this = Some (OFeature f) ∧
    heap σ !! geometries f = Some (OGeometries gs) ∧
    gref = mkGeometryRef (geometries f) (length gs) ∧
    frame σ' (geometries f) = Some (FGeometries (layout gs ++ [(size f, [])])) ∧
    (∀ l, l ≠ geometries f → frame σ' l = frame σ l) ∧
    features (collection σ') = features (collection σ) ∧
    mergeFeatures (collection σ') = mergeFeatures (collection σ) ∧
    collection_size (collection σ') = collection_size (collection σ).
Proof.
  intros Hrun. unfold bindNewGeometry in Hrun.
  apply bind_Some in Hrun as (geometry & σ1 & Hg & Hrun).
  assert (same_frame σ σ1 ∧ indices geometry = [] ∧
          (∀ f, heap σ !! this = Some (OFeature f) → geometry_size geometry = size f))
    as ((Hfr1 & Hc1 & Hm1 & Hs1) & Hix & Hsize).
  { assert (fstep (FeatureGeometry_new this)) as Hs.
    { unfold FeatureGeometry_new.
      pose proof fstep_load_feature. pose proof fstep_new_defaultExtent_like. fstep_go. }
    split; [by eapply Hs|]. clear Hs.
    unfold FeatureGeometry_new, new_defaultExtent_like in Hg. run_inv.
    all: split; [done|]; intros f0 Hf0; simplify_eq; done. }
  apply bind_Some in Hrun as (f0 & σ2 & Hf & Hrun).
  apply load_feature_Some in Hf as (f & Hf & ?). simplify_eq.
  apply bind_Some in Hrun as (gs0 & σ2 & Hgs & Hrun).
  apply load_geometries_Some in Hgs as (gs & Hgs & ?). simplify_eq.
  apply bind_Some in Hrun as (u & σ2 & Hst & Hrun).
  apply store_Some in Hst as (o & _ & _ & ?). simplify_eq.
  apply ret_Some in Hrun. simplify_eq.
  pose proof (Hfr1 this) as Hthis. rewrite (frame_feature _ _ _ Hf) in Hthis.
  symmetry in Hthis.
  destruct (frame_feature_inv _ _ _ _ _ _ _ Hthis) as (f0 & Hf0 & Hty & Hv & Hgl & Hn & Hsz).
  pose proof (Hfr1 (geometries f)) as Hlist. rewrite (frame_geometries _ _ _ Hgs) in Hlist.
  symmetry in Hlist. destruct (frame_geometries_inv _ _ _ Hlist) as (gs0 & Hgs0 & Hlay).
  exists f0, gs0. rewrite Hgl. split_and!; try done.
  - f_equal. rewrite <- (length_map (λ g, (geometry_size g, ranges g)) gs0).
    fold (layout gs0). rewrite Hlay. unfold layout. by rewrite length_map.
  - destruct σ1 as [h1 c1]. rewrite frame_mk_insert, decide_True by done. simpl.
    unfold layout at 1. rewrite map_app. simpl. fold (layout gs). rewrite Hlay.
    do 3 f_equal. unfold ranges. rewrite Hix. simpl. f_equal.
    rewrite (Hsize _ Hf0). congruence.
  - intros l Hl. destruct σ1 as [h1 c1]. rewrite frame_mk_insert, decide_False by done.
    apply Hfr1.
Qed.

(** [startSubGeometry] appends a range to the geometry. *)
Lemma startSubGeometry_frame this n feature σ u σ' :
  startSubGeometry this n feature σ = Some (u, σ') →
  ∃ gs g f vs,
    heap σ !! geometry_list this = Some (OGeometries gs) ∧
    gs !! geometry_index this = Some g ∧
    heap σ !! feature = Some (OFeature f) ∧
    heap σ !! vertices f = Some (ONumbers vs) ∧
    frame σ' (geometry_list this)
    = Some (FGeometries
              (<[geometry_index this :=
                   (geometry_size g,
                    ranges g ++ [(default (Z.of_nat (length vs) `div` geometry_size g)%Z
                                    (next_offset g), Z.of_nat n)])]> (layout gs))) ∧
    (∀ l, l ≠ geometry_list this → frame σ' l = frame σ l) ∧
    features (collection σ') = features (collection σ) ∧
    mergeFeatures (collection σ') = mergeFeatures (collection σ) ∧
    collection_size (collection σ') = collection_size (collection σ).
Proof.
  intros Hrun. unfold startSubGeometry in Hrun.
  apply bind_Some in Hrun as (g0 & σ0 & Hg & Hrun).
  apply load_geometry_Some in Hg as (gs & g & Hgs & Hg & ?). simplify_eq.
  apply bind_Some in Hrun as (extent & σ1 & He & Hrun).
  assert (same_frame σ σ1 ∧ (∀ l o, heap σ1 !! l = Some o → kind o ≠ KExtent →
                                    heap σ !! l = Some o))
    as ((Hfr1 & Hc1 & Hm1 & Hs1) & Hold).
  { destruct (geometry_extent g) as [e|].
    - apply bind_Some in He as (l & σ2 & Hl & He). apply ret_Some in He. simplify_eq.
      split; [by eapply fstep_new_defaultExtent_like|].
      unfold new_defaultExtent_like in Hl. run_inv. simpl.
      intros l0 o Hl0 Hk. by eapply lookup_insert_other_kind.
    - apply ret_Some in He. simplify_eq. split; [apply same_frame_refl | done]. }
  apply bind_Some in Hrun as (f0 & σ2 & Hf & Hrun).
  apply load_feature_Some in Hf as (f & Hf & ?). simplify_eq.
  apply bind_Some in Hrun as (vs0 & σ2 & Hvs & Hrun).
  apply load_numbers_Some in Hvs as (vs & Hvs & ?). simplify_eq.
  cbv zeta in Hrun.
  apply bind_Some in Hrun as (u1 & σ2 & Hst & Hrun).
  apply store_geometry_Some in Hst as (gs1 & Hgs1 & ?). simplify_eq.
  destruct (fstep_extendBuffer _ _ _ _ _ Hrun) as (Hfr2 & Hc2 & Hm2 & Hs2). simpl in *.
  assert (gs1 = gs) as ->.
  { apply Hold in Hgs1; [|done]. congruence. }
  exists gs, g, f, vs. split_and!; try done; try congruence.
  - by apply Hold in Hf.
  - by apply Hold in Hvs.
  - rewrite Hfr2. destruct σ1 as [h1 c1]. rewrite frame_mk_insert, decide_True by done.
    simpl. unfold layout. rewrite list_fmap_insert. simpl. do 3 f_equal.
    unfold ranges. simpl. by rewrite map_app.
  - intros l Hl. rewrite Hfr2. destruct σ1 as [h1 c1].
    rewrite frame_mk_insert, decide_False by done. apply Hfr1.
Qed.

Lemma find_feature_spec callback ls σ r σ' :
  find_feature callback ls σ = Some (r, σ') →
  σ' = σ ∧
  match r with
  | Some fl => fl ∈ ls ∧ ∃ f, heap σ !! fl = Some (OFeature f) ∧ callback f = true
  | None => ∀ fl f, fl ∈ ls → heap σ !! fl = Some (OFeature f) → callback f = false
  end.
Proof.
  revert r. induction ls as [|l ls IH]; simpl; intros r Hrun.
  - apply ret_Some in Hrun. simplify_eq. split; [done|]. intros ?? Hin.
    by apply elem_of_nil in Hin.
  - apply bind_Some in Hrun as (f0 & σ0 & Hf & Hrun).
    apply load_feature_Some in Hf as (f & Hf & ?). simplify_eq.
    destruct (callback f) eqn:Hcb.
    + apply ret_Some in Hrun. simplify_eq. split; [done|]. split; [left|eauto].
    + apply IH in Hrun as [-> Hr]. split; [done|]. destruct r as [fl|].
      * destruct Hr as [Hin Hfl]. split; [by right | done].
      * intros fl f' [->|Hin]%elem_of_cons Hfl; [|by eapply Hr]. congruence.
Qed.

(** [requestFeature] returns a feature of the collection that the callback
    accepts, or a new feature, which it appends to the collection. *)
Lemma requestFeature_cases ty callback σ fl σ' :
  requestFeature ty callback σ = Some (fl, σ') →
  (σ' = σ ∧ fl ∈ features (collection σ) ∧ mergeFeatures (collection σ) = true ∧
   ∃ f, heap σ !! fl = Some (OFeature f) ∧ callback f = true) ∨
  (∃ σ1, Feature_new ty σ = Some (fl, σ1) ∧
     σ' = mkState (heap σ1)
            (with_features (collection σ1) (features (collection σ1) ++ [fl])) ∧
     (mergeFeatures (collection σ) = true →
      ∀ fl0 f0, fl0 ∈ features (collection σ) → heap σ !! fl0 = Some (OFeature f0) →
        callback f0 = false)).
Proof.
  intros Hrun. unfold requestFeature in Hrun.
  apply bind_Some in Hrun as (c & σ0 & Hc & Hrun).
  apply get_collection_Some in Hc. simplify_eq.
  apply bind_Some in Hrun as (found & σ1 & Hfind & Hrun).
  apply find_feature_spec in Hfind as [-> Hfound].
  assert (∀ r σ'',
            (newFeature ← Feature_new ty; _ ← push_feature_ref newFeature; mret newFeature) σ
            = Some (r, σ'') →
            ∃ σ1, Feature_new ty σ = Some (r, σ1) ∧
              σ'' = mkState (heap σ1)
                      (with_features (collection σ1) (features (collection σ1) ++ [r])))
    as Hnew.
  { clear Hrun Hfound. intros r σ'' Hn. apply bind_Some in Hn as (l & σ2 & Hn & Hp).
    apply bind_Some in Hp as (u & σ3 & Hp & Hr). apply ret_Some in Hr. simplify_eq.
    unfold push_feature_ref in Hp. run_inv. by exists σ2. }
  destruct found as [l|]; [destruct (mergeFeatures (collection σ)) eqn:Hmerge|].
  - apply ret_Some in Hrun. simplify_eq. left. destruct Hfound. by split_and!.
  - right. destruct (Hnew _ _ Hrun) as (σ1 & ? & ?). exists σ1. by split_and!.
  - right. destruct (Hnew _ _ Hrun) as (σ1 & ? & ?). exists σ1. by split_and!.
Qed.

(** [newFeatureByReference] makes a feature of the type, the buffers and the
    size of its argument. *)
Lemma newFeatureByReference_frame feature σ ref σ' :
  newFeatureByReference feature σ = Some (ref, σ') →
  ∃ src g0,
    heap σ !! feature = Some (OFeature src) ∧
    frame σ' ref = Some (FFeature (type src) (vertices src) (geometries src) (normals src)
                           (size src)) ∧
    heap σ !! ref = None ∧
    frame σ' g0 = Some (FGeometries []) ∧ heap σ !! g0 = None ∧ g0 ≠ ref ∧
    (∀ l, l ≠ ref → l ≠ g0 → frame σ' l = frame σ l) ∧
    features (collection σ') = features (collection σ) ++ [ref] ∧
    mergeFeatures (collection σ') = mergeFeatures (collection σ) ∧
    collection_size (collection σ') = collection_size (collection σ).
Proof.
  intros Hrun. unfold newFeatureByReference in Hrun.
  apply bind_Some in Hrun as (src0 & σ0 & Hsrc & Hrun).
  apply load_feature_Some in Hsrc as (src & Hsrc & ?). simplify_eq.
  apply bind_Some in Hrun as (r0 & [h1 c1] & Hnew & Hrun).
  apply Feature_new_frame in Hnew as (v & g & n & Hr & Hg & Hfresh & Hgfresh & Hne & Hkept & Hc).
  apply bind_Some in Hrun as (r1 & σ0 & Hr1 & Hrun).
  apply load_feature_Some in Hr1 as (r & Hr1 & ?). simplify_eq.
  apply bind_Some in Hrun as (u & σ2 & Hst & Hrun).
  apply store_Some in Hst as (o & _ & _ & ?). simplify_eq.
  apply bind_Some in Hrun as (u' & σ3 & Hpush & Hrun).
  apply ret_Some in Hrun. simplify_eq.
  unfold push_feature_ref in Hpush. run_inv. simpl in *.
  pose proof (frame_feature (mkState h1 c1) _ _ Hr1) as Hr'.
  rewrite Hr in Hr'. injection Hr' as Hty Hv Hg' Hn Hs.
  exists src, g. split_and!; try done.
  - rewrite frame_mk_insert. rewrite decide_True by done. simpl. by rewrite Hty.
  - rewrite frame_mk_insert. by rewrite decide_False by done.
  - intros l Hl1 Hl2. rewrite frame_mk_insert. rewrite decide_False by done.
    by apply Hkept.
  - by rewrite Hc.
  - by rewrite Hc.
  - by rewrite Hc.
Qed.
End FrameEffects.

(** ** The ranges of a feature follow each other *)

Section PackingFacts.
Context `{FeatureEnv}.

Lemma range_sum_app rs rs' : range_sum (rs ++ rs') = (range_sum rs + range_sum rs')%Z.
Proof. induction rs as [|r rs IH]; simpl; [done|]. rewrite IH. lia. Qed.

Lemma packed_from_app start rs rs' :
  packed_from start (rs ++ rs')
  ↔ packed_from start rs ∧ packed_from (start + range_sum rs) rs'.
Proof.
  revert start. induction rs as [|r rs IH]; intros start; simpl.
  - rewrite Z.add_0_r. tauto.
  - rewrite IH. replace (start + r.2 + range_sum rs)%Z with (start + (r.2 + range_sum rs))%Z
      by lia. tauto.
Qed.

Lemma packed_from_last start rs r :
  packed_from start rs → last rs = Some r → (r.1 + r.2 = start + range_sum rs)%Z.
Proof.
  intros Hp Hlast. apply last_Some in Hlast as [rs' ->].
  apply packed_from_app in Hp as [_ [Hr _]]. rewrite range_sum_app. simpl in *. lia.
Qed.

Lemma all_ranges_snoc lay x : all_ranges (lay ++ [x]) = all_ranges lay ++ x.2.
Proof. unfold all_ranges. rewrite flat_map_app. simpl. by rewrite app_nil_r. Qed.

Lemma geometry_count_ranges g : geometry_count g = range_sum (ranges g).
Proof.
  unfold geometry_count, ranges. induction (indices g) as [|ix ixs IH]; simpl; [done|].
  by rewrite IH.
Qed.

Lemma total_count_layout gs : total_count gs = range_sum (all_ranges (layout gs)).
Proof.
  unfold all_ranges, layout. induction gs as [|g gs IH]; simpl; [done|].
  by rewrite range_sum_app, IH, geometry_count_ranges.
Qed.

Lemma insert_snoc {A} (l : list A) (x y : A) : <[length l := y]> (l ++ [x]) = l ++ [y].
Proof. rewrite insert_app_r_alt by lia. by rewrite Nat.sub_diag. Qed.

Lemma last_ranges g :
  last (ranges g) = (λ ix, (offset ix, count ix)) <$> last (indices g).
Proof. unfold ranges. by rewrite fmap_last. Qed.

(** The state keeps the buffers and the ranges when its shapes and its
    frames are kept. *)
Lemma well_packed_kept σ σ' :
  same_shape σ σ' → frames_kept σ σ' → well_packed σ → well_packed σ'.
Proof.
  intros Hs Hfr [Hok Hp]. split; [by eapply same_shape_buffers_ok|].
  intros l lay Hl. rewrite Hfr in Hl. destruct Hs as [-> _]. by apply (Hp l lay).
Qed.

Lemma pstep_steps {A} (m : M A) : sstep m → fstep m → pstep m.
Proof.
  intros Hs Hf σ a σ' Hok Hrun. eapply well_packed_kept; [by eapply Hs| |done].
  by destruct (Hf _ _ _ Hrun).
Qed.

Lemma pstep_bind {A B} (m : M A) (k : A → M B) :
  pstep m → (∀ a, pstep (k a)) → pstep (m ≫= k).
Proof.
  intros Hm Hk σ b σ' Hok (a & σ1 & Hm1 & Hk1)%bind_Some.
  eapply Hk; [|done]. by eapply Hm.
Qed.

Lemma pstep_ret {A} (a : A) : pstep (mret a).
Proof. apply pstep_steps; [apply sstep_ret | apply fstep_ret]. Qed.

Lemma pstep_throw {A} : pstep (@throw _ _ A).
Proof. by intros σ a σ' _ Hrun. Qed.

Lemma pstep_for_of {A} (xs : list A) (body : A → M unit) :
  (∀ x, pstep (body x)) → pstep (for_of xs body).
Proof.
  intros Hbody. induction xs as [|x xs IH]; simpl; [apply pstep_ret|].
  by apply pstep_bind.
Qed.

Lemma pstep_ignore {A} (m : M A) : pstep m → pstep (ignore m).
Proof. intros Hm. apply pstep_bind; [done|]. intros _. apply pstep_ret. Qed.

(** The size of a feature is the size of the collection. *)
Lemma feature_size σ fl f :
  buffers_ok σ → heap σ !! fl = Some (OFeature f) →
  size f = collection_size (collection σ) ∧
  (collection_size (collection σ) = 2%Z ∨ collection_size (collection σ) = 3%Z).
Proof.
  intros [Hsize Hok] Hfl%sh_feature. by destruct (Hok _ _ _ _ _ _ _ Hfl) as [(-> & _) _].
Qed.

(** A new list of geometries, or one more geometry without range, keeps the
    ranges in order. *)
Lemma packed_ok_new σ σ' g :
  packed_ok σ → collection_size (collection σ') = collection_size (collection σ) →
  (∀ l, l ≠ g → frame σ' l = frame σ l ∨ frame σ' l = Some (FGeometries []) ∨
                (∃ ty v g' n s, frame σ' l = Some (FFeature ty v g' n s))) →
  (frame σ' g = Some (FGeometries []) ∨
   ∃ lay, frame σ g = Some (FGeometries lay) ∧
          frame σ' g = Some (FGeometries (lay ++ [(collection_size (collection σ), [])]))) →
  packed_ok σ'.
Proof.
  intros Hp Hsz Hkept Hg l lay Hl. rewrite Hsz.
  destruct (decide (l = g)) as [->|Hne].
  - destruct Hg as [Hg|(lay0 & Hg & Hg')].
    + rewrite Hg in Hl. by simplify_eq.
    + rewrite Hg' in Hl. simplify_eq. destruct (Hp _ _ Hg) as [Hpk Hsizes]. split.
      * rewrite all_ranges_snoc. simpl. by rewrite app_nil_r.
      * apply Forall_app_2; [done|]. by apply Forall_singleton.
  - destruct (Hkept l Hne) as [Heq|[Heq|(? & ? & ? & ? & ? & Heq)]].
    + rewrite Heq in Hl. by apply (Hp l lay).
    + rewrite Heq in Hl. by simplify_eq.
    + rewrite Heq in Hl. by simplify_eq.
Qed.

Lemma pstep_Feature_new ty : pstep (Feature_new ty).
Proof.
  intros σ fl σ' [Hok Hp] Hrun.
  destruct (Feature_new_buffers _ _ _ _ Hok Hrun) as (Hok' & _ & Hsz). split; [done|].
  apply Feature_new_frame in Hrun as (v & g & n & Hfl & Hg & _ & _ & Hne & Hkept & Hc).
  apply (packed_ok_new σ σ' g Hp Hsz); [|by left].
  intros l Hl. destruct (decide (l = fl)) as [->|Hne'].
  - right. right. eauto 10.
  - left. by apply Hkept.
Qed.

Lemma pstep_bindNewGeometry this : pstep (bindNewGeometry this).
Proof.
  intros σ gref σ' [Hok Hp] Hrun.
  destruct (bindNewGeometry_spec _ _ _ _ Hrun) as [Hs _].
  split; [by eapply same_shape_buffers_ok|].
  apply bindNewGeometry_frame in Hrun
    as (f & gs & Hf & Hgs & -> & Hg & Hkept & _ & _ & Hsz).
  destruct (feature_size _ _ _ Hok Hf) as [Hsize _].
  apply (packed_ok_new σ σ' (geometries f) Hp Hsz); [|right].
  - intros l Hl. left. by apply Hkept.
  - exists (layout gs). split; [by apply frame_geometries|]. by rewrite <- Hsize.
Qed.

(** [populateGeometry] appends to the last geometry of the feature a range
    that starts where the ranges of the feature end. *)
Lemma populateGeometry_layout crsIn coordinates geometry feature σ u σ' lay s rs :
  well_packed σ → owns σ geometry feature →
  frame σ (geometry_list geometry) = Some (FGeometries (lay ++ [(s, rs)])) →
  geometry_index geometry = length lay →
  populateGeometry crsIn coordinates geometry feature σ = Some (u, σ') →
  well_packed σ' ∧ owns σ' geometry feature ∧
  frame σ' (geometry_list geometry)
  = Some (FGeometries
            (lay ++ [(s, rs ++ [(range_sum (all_ranges lay ++ rs),
                                 Z.of_nat (length coordinates))])])) ∧
  (∀ l, l ≠ geometry_list geometry → frame σ' l = frame σ l) ∧
  features (collection σ') = features (collection σ) ∧
  mergeFeatures (collection σ') = mergeFeatures (collection σ) ∧
  collection_size (collection σ') = collection_size (collection σ).
Proof.
  intros [Hok Hp] Hown Hlay Hi Hrun. unfold populateGeometry in Hrun.
  apply bind_Some in Hrun as (u1 & σ1 & Hs & Hrun).
  apply bind_Some in Hrun as (u2 & σ2 & Hpush & Hrun).
  destruct (startSubGeometry_buffers _ _ _ _ _ _ Hok Hown Hs) as (Hok1 & Hown1 & Hroom1).
  destruct (push_all_buffers _ _ _ _ _ _ _ Hok1 Hroom1 Hown1 Hpush) as (Hok2 & Hown2).
  pose proof (sstep_FeatureGeometry_updateExtent _ _ _ _ Hrun) as S3.
  assert (same_frame σ1 σ') as (Hfr & Hc & Hm & Hsz).
  { eapply same_frame_trans; [|by eapply fstep_FeatureGeometry_updateExtent].
    eapply (fstep_for_of coordinates); [|done]. intros pair. apply fstep_pushCoordinates. }
  apply startSubGeometry_frame in Hs
    as (gs & g & f & vs & Hgs & Hg & Hf & Hvs & Hfr1 & Hkept1 & Hc1 & Hm1 & Hsz1).
  rewrite (frame_geometries _ _ _ Hgs) in Hlay. injection Hlay as Hlay.
  assert (geometry_size g = s ∧ ranges g = rs) as [Hgs_size Hgs_ranges].
  { assert (layout gs !! geometry_index geometry = Some (geometry_size g, ranges g)) as Hx.
    { unfold layout. by rewrite list_lookup_fmap, Hg. }
    rewrite Hlay, Hi, lookup_app_r, Nat.sub_diag in Hx by lia. by simplify_eq/=. }
  destruct (Hp _ _ (frame_geometries _ _ _ Hgs)) as [Hpk Hsizes].
  rewrite Hlay in Hpk, Hsizes. rewrite all_ranges_snoc in Hpk. simpl in Hpk.
  assert (s = collection_size (collection σ)) as Hs_size.
  { apply Forall_app in Hsizes as [_ Hlast]. rewrite Forall_singleton in Hlast. done. }
  assert (default (Z.of_nat (length vs) `div` geometry_size g)%Z (next_offset g)
          = range_sum (all_ranges lay ++ rs)) as Hoff.
  { unfold next_offset. destruct (last (indices g)) as [ix|] eqn:Hlast; simpl.
    - pose proof (packed_from_last 0 (all_ranges lay ++ rs) (offset ix, count ix) Hpk) as Hl.
      simpl in Hl. rewrite Z.add_0_l in Hl. apply Hl.
      rewrite <- Hgs_ranges. rewrite last_app. rewrite last_ranges, Hlast. done.
    - destruct Hown as (v & n & s' & p & pos & k & tot & Hsf & Hsg & _).
      destruct Hok as [Hcs Hfok].
      destruct (Hfok _ _ _ _ _ _ _ Hsf)
        as [(Hs' & _ & len & k0 & tot0 & Hv & Hg0 & Hlen & _) _].
      rewrite (sh_feature _ _ _ Hf) in Hsf. injection Hsf as <- Hgl <- <- <- <-.
      rewrite (sh_numbers _ _ _ Hvs) in Hv. injection Hv as <-.
      rewrite (sh_geometries _ _ _ Hgs) in Hg0.
      injection Hg0 as _ <-. rewrite Hlen, Hgs_size, Hs_size, <- Hs'.
      rewrite total_count_layout, Hlay, all_ranges_snoc. simpl.
      rewrite Z.mul_comm, Z.div_mul; [done|]. rewrite Hs'. destruct Hcs as [->| ->]; lia. }
  assert (frame σ' (geometry_list geometry)
          = Some (FGeometries
                    (lay ++ [(s, rs ++ [(range_sum (all_ranges lay ++ rs),
                                         Z.of_nat (length coordinates))])]))) as Hnew.
  { rewrite Hfr, Hfr1, Hoff, Hlay, Hi, insert_snoc, Hgs_size, Hgs_ranges. done. }
  assert (∀ l, l ≠ geometry_list geometry → frame σ' l = frame σ l) as Hkept.
  { intros l Hl. rewrite Hfr. by apply Hkept1. }
  split_and!; try done; try congruence.
  - split; [by eapply same_shape_buffers_ok|].
    intros l lay' Hl. rewrite Hsz, Hsz1. destruct (decide (l = geometry_list geometry)) as [->|Hne].
    + rewrite Hnew in Hl. simplify_eq. split.
      * rewrite all_ranges_snoc. simpl. rewrite app_assoc.
        apply packed_from_app. split; [done|]. simpl. split; [lia | done].
      * apply Forall_app in Hsizes as [Hsizes _]. apply Forall_app_2; [done|].
        by apply Forall_singleton.
    + rewrite Hkept in Hl by done. by apply (Hp l lay').
  - by eapply same_shape_owns.
Qed.
End PackingFacts.

Section PackingOfPipeline.
Context `{FeatureEnv}.

Lemma same_collection_refl σ : same_collection σ σ.
Proof. by split_and!. Qed.

Lemma same_collection_trans σ1 σ2 σ3 :
  same_collection σ1 σ2 → same_collection σ2 σ3 → same_collection σ1 σ3.
Proof. intros (? & ? & ?) (? & ? & ?). split_and!; congruence. Qed.

Lemma same_frame_collection σ σ' : same_frame σ σ' → same_collection σ σ'.
Proof. by intros (_ & ? & ? & ?). Qed.

Lemma same_frame_kept σ σ' : same_frame σ σ' → frames_kept σ σ'.
Proof. by intros (? & _). Qed.

Lemma populate_rings_layout crsIn (rings : list (list Position)) geometry feature
    σ u σ' lay s rs :
  well_packed σ → owns σ geometry feature →
  frame σ (geometry_list geometry) = Some (FGeometries (lay ++ [(s, rs)])) →
  geometry_index geometry = length lay →
  for_of rings (λ ring, populateGeometry crsIn ring geometry feature) σ = Some (u, σ') →
  well_packed σ' ∧
  frame σ' (geometry_list geometry)
  = Some (FGeometries
            (lay ++ [(s, rs ++ rings_from (range_sum (all_ranges lay ++ rs))
                                 (map (λ ring, Z.of_nat (length ring)) rings))])) ∧
  (∀ l, l ≠ geometry_list geometry → frame σ' l = frame σ l) ∧
  same_collection σ σ'.
Proof.
  revert σ rs. induction rings as [|ring rings IH]; simpl; intros σ rs Hok Hown Hlay Hi Hrun.
  - apply ret_Some in Hrun. simplify_eq. rewrite app_nil_r.
    split_and!; [done | done | done | apply same_collection_refl].
  - apply bind_Some in Hrun as (u1 & σ1 & Hp & Hrun).
    destruct (populateGeometry_layout _ _ _ _ _ _ _ _ _ _ Hok Hown Hlay Hi Hp)
      as (Hok1 & Hown1 & Hlay1 & Hkept1 & Hc1).
    destruct (IH _ _ Hok1 Hown1 Hlay1 Hi Hrun) as (Hok2 & Hlay2 & Hkept2 & Hc2).
    split_and!; [done | | |].
    + rewrite Hlay2.
      assert (range_sum (all_ranges lay ++ rs
                         ++ [(range_sum (all_ranges lay ++ rs), Z.of_nat (length ring))])
              = (range_sum (all_ranges lay ++ rs) + Z.of_nat (length ring))%Z) as ->.
      { rewrite app_assoc, range_sum_app. simpl. lia. }
      by rewrite <- app_assoc.
    + intros l Hl. rewrite Hkept2 by done. by apply Hkept1.
    + eapply same_collection_trans; [|done]. done.
Qed.

(** After [bindNewGeometry] and [set_properties], the geometry is the last
    one of the feature. *)
Lemma bound_geometry feature p σ geometry σ1 u σ2 :
  well_packed σ →
  bindNewGeometry feature σ = Some (geometry, σ1) →
  set_properties geometry p feature σ1 = Some (u, σ2) →
  ∃ f lay,
    heap σ !! feature = Some (OFeature f) ∧
    frame σ (geometries f) = Some (FGeometries lay) ∧
    geometry = mkGeometryRef (geometries f) (length lay) ∧
    well_packed σ2 ∧ owns σ2 geometry feature ∧
    frame σ2 (geometries f) = Some (FGeometries (lay ++ [(size f, [])])) ∧
    (∀ l, l ≠ geometries f → frame σ2 l = frame σ l) ∧
    same_collection σ σ2.
Proof.
  intros Hok Hb Hsp.
  pose proof (pstep_bindNewGeometry _ _ _ _ Hok Hb) as Hok1.
  destruct (bindNewGeometry_spec _ _ _ _ Hb) as [_ Hown1].
  apply bindNewGeometry_frame in Hb as (f & gs & Hf & Hgs & -> & Hg & Hkept & Hc1).
  pose proof (sstep_set_properties _ _ _ _ _ _ Hsp) as S2.
  pose proof (fstep_set_properties _ _ _ _ _ _ Hsp) as F2.
  exists f, (layout gs). split_and!; try done.
  - by apply frame_geometries.
  - unfold layout. by rewrite length_map.
  - eapply well_packed_kept; [done | by apply same_frame_kept | done].
  - by eapply same_shape_owns.
  - destruct F2 as [-> _]. done.
  - intros l Hl. destruct F2 as [-> _]. by apply Hkept.
  - eapply same_collection_trans; [exact Hc1 | by apply same_frame_collection].
Qed.

Lemma pstep_push_feature_ref fl : pstep (push_feature_ref fl).
Proof.
  intros σ u σ' Hok Hrun. eapply well_packed_kept; [by eapply sstep_push_feature_ref| |done].
  unfold push_feature_ref in Hrun. run_inv. by intros l.
Qed.

Lemma pstep_requestFeature ty callback : pstep (requestFeature ty callback).
Proof.
  intros σ fl σ' Hok Hrun.
  apply requestFeature_cases in Hrun as [(-> & _)|(σ1 & Hnew & -> & _)]; [done|].
  apply pstep_Feature_new in Hnew; [|done].
  eapply well_packed_kept; [| |exact Hnew].
  - split; [done|]. intros l. by left.
  - by intros l.
Qed.

Section PackingOfToFeature.
Variable filterExtent : option (Coordinates → bool).

(** [toFeature.default] adds nothing, or one geometry of one range. *)
Lemma toFeature_default_layout feature crsIn coordsIn p σ u σ' :
  well_packed σ →
  toFeature_default filterExtent feature crsIn coordsIn p σ = Some (u, σ') →
  well_packed σ' ∧ same_collection σ σ' ∧
  (frames_kept σ σ' ∨ added σ σ' feature [coordsIn]).
Proof.
  intros Hok Hrun. unfold toFeature_default in Hrun.
  apply bind_Some in Hrun as (out & σ1 & Hout & Hrun).
  assert (σ1 = σ) as ->.
  { unfold firstPtIsOut in Hout. destruct filterExtent; [destruct coordsIn|];
      try done; apply ret_Some in Hout; by simplify_eq. }
  destruct out.
  { apply ret_Some in Hrun. simplify_eq.
    split_and!; [done | apply same_collection_refl | by left]. }
  apply bind_Some in Hrun as (geometry & σ2 & Hb & Hrun).
  apply bind_Some in Hrun as (u3 & σ3 & Hsp & Hrun).
  destruct (bound_geometry _ _ _ _ _ _ _ Hok Hb Hsp)
    as (f & lay & Hf & Hlay & -> & Hok3 & Hown3 & Hlay3 & Hkept3 & Hc3).
  apply bind_Some in Hrun as (u4 & σ4 & Hpop & Hrun).
  destruct (populateGeometry_layout _ _ _ _ _ _ _ _ _ _ Hok3 Hown3 Hlay3 eq_refl Hpop)
    as (Hok4 & _ & Hlay4 & Hkept4 & Hc4).
  pose proof (sstep_Feature_updateExtent _ _ _ _ _ Hrun) as S5.
  pose proof (fstep_Feature_updateExtent _ _ _ _ _ Hrun) as F5.
  split_and!.
  - eapply well_packed_kept; [done | by apply same_frame_kept | done].
  - eapply same_collection_trans; [exact Hc3|].
    eapply same_collection_trans; [exact Hc4 | by apply same_frame_collection].
  - right. exists f, lay. split_and!; [done | done | |].
    + destruct F5 as [-> _]. simpl in *. rewrite Hlay4. rewrite app_nil_r. done.
    + intros l Hl. destruct F5 as [-> _]. simpl in *. rewrite Hkept4 by done.
      by apply Hkept3.
Qed.

(** [toFeature.polygon] adds nothing, or one geometry with one range for
    each ring. *)
Lemma toFeature_polygon_layout feature crsIn (coordsIn : list (list Position)) p σ u σ' :
  well_packed σ →
  toFeature_polygon filterExtent feature crsIn coordsIn p σ = Some (u, σ') →
  well_packed σ' ∧ same_collection σ σ' ∧
  (frames_kept σ σ' ∨ added σ σ' feature coordsIn).
Proof.
  intros Hok Hrun. unfold toFeature_polygon in Hrun.
  apply bind_Some in Hrun as (out & σ1 & Hout & Hrun).
  assert (σ1 = σ) as ->.
  { unfold firstPtIsOut in Hout.
    destruct filterExtent, coordsIn as [|[|first ring] rings]; simpl in Hout;
      try done; apply ret_Some in Hout; by simplify_eq. }
  destruct out.
  { apply ret_Some in Hrun. simplify_eq.
    split_and!; [done | apply same_collection_refl | by left]. }
  apply bind_Some in Hrun as (geometry & σ2 & Hb & Hrun).
  apply bind_Some in Hrun as (u3 & σ3 & Hsp & Hrun).
  destruct (bound_geometry _ _ _ _ _ _ _ Hok Hb Hsp)
    as (f & lay & Hf & Hlay & -> & Hok3 & Hown3 & Hlay3 & Hkept3 & Hc3).
  apply bind_Some in Hrun as (u4 & σ4 & Hpop & Hrun).
  destruct (populate_rings_layout _ _ _ _ _ _ _ _ _ _ Hok3 Hown3 Hlay3 eq_refl Hpop)
    as (Hok4 & Hlay4 & Hkept4 & Hc4).
  pose proof (sstep_Feature_updateExtent _ _ _ _ _ Hrun) as S5.
  pose proof (fstep_Feature_updateExtent _ _ _ _ _ Hrun) as F5.
  split_and!.
  - eapply well_packed_kept; [done | by apply same_frame_kept | done].
  - eapply same_collection_trans; [exact Hc3|].
    eapply same_collection_trans; [exact Hc4 | by apply same_frame_collection].
  - right. exists f, lay. split_and!; [done | done | |].
    + destruct F5 as [-> _]. simpl in *. rewrite Hlay4. rewrite app_nil_r. done.
    + intros l Hl. destruct F5 as [-> _]. simpl in *. rewrite Hkept4 by done.
      by apply Hkept3.
Qed.

Lemma pstep_toFeature_default feature crsIn coordsIn p :
  pstep (toFeature_default filterExtent feature crsIn coordsIn p).
Proof. intros σ u σ' Hok Hrun. by apply toFeature_default_layout in Hrun as [? _]. Qed.

Lemma pstep_toFeature_polygon feature crsIn coordsIn p :
  pstep (toFeature_polygon filterExtent feature crsIn coordsIn p).
Proof. intros σ u σ' Hok Hrun. by apply toFeature_polygon_layout in Hrun as [? _]. Qed.

Lemma pstep_coordinatesToFeature geometry feature crsIn p :
  pstep (coordinatesToFeature filterExtent geometry feature crsIn p).
Proof.
  unfold coordinatesToFeature, toFeature_multi, toFeature_point.
  destruct geometry as [c|cs|cs|cs|cs|cs|]; try destruct cs.
  all: first
    [ apply pstep_ret
    | apply pstep_throw
    | apply pstep_toFeature_default
    | apply pstep_toFeature_polygon
    | apply pstep_for_of; intros;
      first [apply pstep_toFeature_default | apply pstep_toFeature_polygon] ].
Qed.

Lemma pstep_jsonFeatureToFeature crsIn json :
  pstep (jsonFeatureToFeature filterExtent crsIn json).
Proof.
  unfold jsonFeatureToFeature. destruct (toFeatureType _); [|apply pstep_throw].
  apply pstep_bind; [apply pstep_requestFeature|].
  intros fl. apply pstep_bind; [apply pstep_coordinatesToFeature|].
  intros _. apply pstep_ret.
Qed.
End PackingOfToFeature.

Lemma pstep_newFeatureByReference feature : pstep (newFeatureByReference feature).
Proof.
  intros σ ref σ' [Hok Hp] Hrun.
  split; [by eapply newFeatureByReference_buffers|].
  apply newFeatureByReference_frame in Hrun
    as (src & g0 & Hsrc & Href & _ & Hg0 & _ & Hne & Hkept & _ & _ & Hsz).
  apply (packed_ok_new σ σ' g0 Hp Hsz); [|by left].
  intros l Hl. destruct (decide (l = ref)) as [->|Hne'].
  - right. right. eauto 10.
  - left. by apply Hkept.
Qed.

Lemma pstep_removeEmptyFeature : pstep removeEmptyFeature.
Proof.
  intros σ u σ' Hok Hrun. eapply well_packed_kept; [by eapply sstep_removeEmptyFeature| |done].
  unfold removeEmptyFeature in Hrun.
  apply bind_Some in Hrun as (c & σ1 & Hc & Hrun).
  apply get_collection_Some in Hc. simplify_eq.
  apply bind_Some in Hrun as (kept & σ1 & Hkept & Hrun).
  apply non_empty_features_sub in Hkept as [-> _].
  apply set_collection_Some in Hrun. simplify_eq. by intros l.
Qed.

Lemma pstep_exec c : populating c = true → pstep (exec c).
Proof.
  destruct c; simpl; try done; intros _.
  - apply pstep_ignore, pstep_Feature_new.
  - apply pstep_ignore, pstep_bindNewGeometry.
  - apply pstep_steps; [apply sstep_Feature_updateExtent | apply fstep_Feature_updateExtent].
  - apply pstep_steps;
      [apply sstep_FeatureGeometry_updateExtent | apply fstep_FeatureGeometry_updateExtent].
  - apply pstep_steps; [apply sstep_set_properties | apply fstep_set_properties].
  - apply pstep_steps;
      [apply sstep_FeatureCollection_updateExtent | apply fstep_FeatureCollection_updateExtent].
  - apply pstep_removeEmptyFeature.
  - unfold pushFeature. apply pstep_bind; [apply pstep_push_feature_ref|]. intros _.
    apply pstep_steps.
    + apply sstep_bind; [apply sstep_load_feature|]. intros f.
      apply sstep_FeatureCollection_updateExtent.
    + apply fstep_bind; [apply fstep_load_feature|]. intros f.
      apply fstep_FeatureCollection_updateExtent.
  - apply pstep_ignore, pstep_requestFeature.
  - apply pstep_ignore, pstep_requestFeature.
  - apply pstep_ignore, pstep_newFeatureByReference.
  - apply pstep_steps; [apply sstep_setParentStyle | apply fstep_setParentStyle].
  - apply pstep_ignore, pstep_jsonFeatureToFeature.
Qed.

Lemma pstep_run calls : forallb populating calls = true → pstep (run calls).
Proof.
  unfold run. induction calls as [|c calls IH]; simpl.
  - intros _. apply pstep_ret.
  - intros [Hc Hcalls]%andb_prop. apply pstep_bind; [by apply pstep_exec|].
    intros _. by apply IH.
Qed.

Lemma well_packed_new_collection options : well_packed (FeatureCollection_new options).
Proof.
  split; [apply buffers_ok_new_collection|].
  intros l lay Hl. exfalso. revert Hl.
  unfold frame, FeatureCollection_new. simpl. intros (o & Hl & Ho)%option.bind_Some.
  assert (frame_of o = None) as Hk; [|congruence].
  destruct (opt_buildExtent options), (opt_style options); simpl in Hl.
  all: repeat match type of Hl with
       | <[_ := _]> _ !! _ = Some _ =>
           apply lookup_insert_Some in Hl as [[_ <-]|[_ Hl]]; [done|]
       | {[ _ := _ ]} !! _ = Some _ =>
           apply lookup_singleton_Some in Hl as [_ <-]; done
       | ∅ !! _ = Some _ => by rewrite lookup_empty in Hl
       end.
Qed.

Lemma populated_well_packed σ : populated σ → well_packed σ.
Proof.
  intros (options & calls & Hcalls & Hrun).
  eapply pstep_run; [done | apply well_packed_new_collection | done].
Qed.

(** X3: in a populated collection, the ranges of the sub geometries of all
    the geometries of a feature, in the order of the geometries, follow each
    other from the vertex [0] to the end of the vertices: each one starts
    where the one before it ends, also across geometries, and together they
    take [vertices.length / size] vertices. *)
Theorem geometries_packed σ fl f :
  populated σ → heap σ !! fl = Some (OFeature f) →
  ∃ vs gs,
    heap σ !! vertices f = Some (ONumbers vs) ∧
    heap σ !! geometries f = Some (OGeometries gs) ∧
    packed_from 0 (flat_map ranges gs) ∧
    Z.of_nat (length vs) = (size f * range_sum (flat_map ranges gs))%Z ∧
    Forall (λ g, geometry_size g = size f) gs.
Proof.
  intros [[Hsize Hok] Hp]%populated_well_packed Hfl.
  destruct (Hok _ _ _ _ _ _ _ (sh_feature _ _ _ Hfl))
    as [(Hs & _ & len & k & tot & Hv & Hg & Hlen & _) _].
  destruct (sh_numbers_inv _ _ _ Hv) as (vs & Hvs & <-).
  destruct (sh_geometries_inv _ _ _ _ Hg) as (gs & Hgs & _ & <-).
  destruct (Hp _ _ (frame_geometries _ _ _ Hgs)) as [Hpk Hsizes].
  assert (all_ranges (layout gs) = flat_map ranges gs) as Hall.
  { unfold all_ranges, layout. clear. induction gs as [|g gs IH]; simpl; [done|].
    by rewrite IH. }
  exists vs, gs. split_and!; [done | done | | |].
  - by rewrite <- Hall.
  - by rewrite Hlen, total_count_layout, Hall.
  - unfold layout in Hsizes. rewrite Forall_fmap in Hsizes.
    eapply Forall_impl; [exact Hsizes|]. simpl. intros g ->. done.
Qed.
End PackingOfPipeline.

(** ** The collections of the parser *)

Section ParsedFacts.
Context `{FeatureEnv}.

Lemma inv_exec c σ u σ' : inv σ → exec c σ = Some (u, σ') → inv σ'.
Proof.
  intros (Hh & Hr & Hc) Hrun.
  destruct (pres_exec c _ _ _ Hh Hrun) as (_ & ? & _).
  pose proof (gstep_exec c _ _ _ Hrun) as Hstep.
  split_and!; [done | by eapply good_step_refs_ok | by eapply good_step_collection_ok].
Qed.

Lemma rings_from_length start counts : length (rings_from start counts) = length counts.
Proof. revert start. induction counts as [|n counts IH]; intros start; simpl; [done|]. by rewrite IH. Qed.

(** A step of the pipeline that adds at most one geometry to a feature
    keeps the state neat. *)
Lemma neat_added σ σ' fl ty v g n s rings :
  neat σ → well_packed σ' → same_collection σ σ' →
  frame σ fl = Some (FFeature ty v g n s) →
  frames_kept σ σ' ∨ added σ σ' fl rings →
  (ty ≠ POLYGON → length rings = 1) →
  neat σ' ∧ frame σ' fl = Some (FFeature ty v g n s).
Proof.
  intros (Hok & Hun & Hsingle & Htyped) Hok' (Hc & Hm & Hsz) Hfl Hstep Hrings.
  destruct Hstep as [Hkept|(f & lay & Hf & Hlay & Hlay' & Hkept)].
  - unfold frames_kept in Hkept. split; [|by rewrite Hkept]. split_and!; [done | | |].
    + intros fl1 fl2 ????????? Hx1 Hx2. rewrite Hkept in Hx1, Hx2. by eapply Hun.
    + intros fl1 ?????? Hx1 ? Hx2. rewrite Hkept in Hx1, Hx2. by eapply Hsingle.
    + intros Hmerge. rewrite Hm in Hmerge. rewrite Hc. destruct (Htyped Hmerge) as [? Hty].
      split; [done|]. intros fl1 fl2 ????????? ? ? Hx1 Hx2. rewrite Hkept in Hx1, Hx2.
      by eapply Hty.
  - rewrite (frame_feature _ _ _ Hf) in Hfl. simplify_eq.
    assert (∀ l ty1 v1 g1 n1 s1, frame σ' l = Some (FFeature ty1 v1 g1 n1 s1) →
              frame σ l = Some (FFeature ty1 v1 g1 n1 s1)) as Hfeat.
    { intros l ty1 v1 g1 n1 s1 Hl. destruct (decide (l = geometries f)) as [->|Hne].
      - rewrite Hlay' in Hl. done.
      - by rewrite Hkept in Hl. }
    assert (fl ≠ geometries f) as Hne.
    { intros Heq. rewrite <- Heq in Hlay. rewrite (frame_feature _ _ _ Hf) in Hlay. done. }
    split; [|rewrite Hkept by done; by apply frame_feature].
    split_and!; [done | | |].
    + intros fl1 fl2 ????????? Hx1%Hfeat Hx2%Hfeat. by eapply Hun.
    + intros fl1 ty1 v1 g1 n1 s1 lay1 Hx1%Hfeat Hty1 Hx2.
      destruct (decide (g1 = geometries f)) as [->|Hg1].
      * assert (fl1 = fl) as -> by (eapply Hun; [exact Hx1 | by apply frame_feature]).
        rewrite (frame_feature _ _ _ Hf) in Hx1. injection Hx1 as <- _ _ _.
        rewrite Hlay' in Hx2. injection Hx2 as <-.
        apply Forall_app_2; [by eapply Hsingle; [by apply frame_feature|..]|].
        apply Forall_singleton. simpl. rewrite rings_from_length, length_map.
        by apply Hrings.
      * rewrite Hkept in Hx2 by done. by eapply Hsingle.
    + intros Hmerge. rewrite Hm in Hmerge. rewrite Hc. destruct (Htyped Hmerge) as [? Hty].
      split; [done|]. intros fl1 fl2 ????????? ? ? Hx1%Hfeat Hx2%Hfeat. by eapply Hty.
Qed.

Lemma neat_loop {A} (body : A → M unit) (xs : list A) σ u σ' fl ty v g n s :
  (∀ x σ u σ', neat σ → frame σ fl = Some (FFeature ty v g n s) →
     body x σ = Some (u, σ') → neat σ' ∧ frame σ' fl = Some (FFeature ty v g n s)) →
  neat σ → frame σ fl = Some (FFeature ty v g n s) →
  for_of xs body σ = Some (u, σ') →
  neat σ' ∧ frame σ' fl = Some (FFeature ty v g n s).
Proof.
  intros Hbody. revert σ. induction xs as [|x xs IH]; simpl; intros σ Hneat Hfl Hrun.
  - apply ret_Some in Hrun. by simplify_eq.
  - apply bind_Some in Hrun as (u1 & σ1 & Hx & Hrun).
    destruct (Hbody _ _ _ _ Hneat Hfl Hx) as [Hneat1 Hfl1]. by eapply IH.
Qed.

Section NeatOfToFeature.
Variable filterExtent : option (Coordinates → bool).

Lemma neat_toFeature_default fl crsIn coordsIn p σ u σ' ty v g n s :
  neat σ → frame σ fl = Some (FFeature ty v g n s) →
  toFeature_default filterExtent fl crsIn coordsIn p σ = Some (u, σ') →
  neat σ' ∧ frame σ' fl = Some (FFeature ty v g n s).
Proof.
  intros Hneat Hfl Hrun. pose proof Hneat as (Hok & _).
  apply toFeature_default_layout in Hrun as (Hok' & Hc & Hstep); [|done].
  by eapply neat_added.
Qed.

Lemma neat_toFeature_polygon fl crsIn coordsIn p σ u σ' v g n s :
  neat σ → frame σ fl = Some (FFeature POLYGON v g n s) →
  toFeature_polygon filterExtent fl crsIn coordsIn p σ = Some (u, σ') →
  neat σ' ∧ frame σ' fl = Some (FFeature POLYGON v g n s).
Proof.
  intros Hneat Hfl Hrun. pose proof Hneat as (Hok & _).
  apply toFeature_polygon_layout in Hrun as (Hok' & Hc & Hstep); [|done].
  by eapply neat_added.
Qed.

Lemma neat_coordinatesToFeature geometry fl crsIn p σ u σ' ty v g n s :
  neat σ → toFeatureType geometry = Some ty →
  frame σ fl = Some (FFeature ty v g n s) →
  coordinatesToFeature filterExtent geometry fl crsIn p σ = Some (u, σ') →
  neat σ'.
Proof.
  intros Hneat Hty Hfl Hrun.
  assert (neat σ' ∧ frame σ' fl = Some (FFeature ty v g n s)) as [? _]; [|done].
  unfold coordinatesToFeature, toFeature_multi, toFeature_point in Hrun.
  destruct geometry as [c|cs|cs|cs|cs|cs|]; simpl in Hty; simplify_eq.
  - by eapply neat_toFeature_default.
  - destruct cs; [apply ret_Some in Hrun; by simplify_eq|].
    by eapply neat_toFeature_default.
  - destruct cs; [apply ret_Some in Hrun; by simplify_eq|].
    eapply neat_loop; [|done|done|exact Hrun]. intros x σ0 u0 σ0' ? ? Hx. simpl in Hx.
    by eapply neat_toFeature_default.
  - destruct cs; [apply ret_Some in Hrun; by simplify_eq|].
    eapply neat_loop; [|done|done|exact Hrun]. intros x σ0 u0 σ0' ? ? Hx. simpl in Hx.
    by eapply neat_toFeature_default.
  - destruct cs; [apply ret_Some in Hrun; by simplify_eq|].
    by eapply neat_toFeature_polygon.
  - destruct cs; [apply ret_Some in Hrun; by simplify_eq|].
    eapply neat_loop; [|done|done|exact Hrun]. intros x σ0 u0 σ0' ? ? Hx. simpl in Hx.
    by eapply neat_toFeature_polygon.
Qed.

(** A request by type returns a feature of the type, and keeps the state
    neat. *)
Lemma neat_requestFeatureByType ty σ fl σ' :
  inv σ → neat σ → requestFeatureByType ty σ = Some (fl, σ') →
  neat σ' ∧ ∃ v g n s, frame σ' fl = Some (FFeature ty v g n s).
Proof.
  intros (Hheap & Hrefs & Hcok) Hneat Hrun. pose proof Hneat as (Hok & Hun & Hsingle & Htyped).
  pose proof (pstep_requestFeature _ _ _ _ _ Hok Hrun) as Hok'.
  unfold requestFeatureByType in Hrun.
  apply requestFeature_cases in Hrun
    as [(-> & _ & _ & f & Hf & Hcb)|(σ1 & Hnew & -> & Hnone)].
  - split; [done|]. apply bool_decide_eq_true in Hcb. subst ty.
    rewrite (frame_feature _ _ _ Hf). eauto.
  - apply Feature_new_frame in Hnew as (v & g & n & Hfl & Hg & Hfresh & Hgfresh & Hne & Hkept & Hc).
    assert (∀ l ty1 v1 g1 n1 s1, l ≠ fl → frame σ1 l = Some (FFeature ty1 v1 g1 n1 s1) →
              frame σ l = Some (FFeature ty1 v1 g1 n1 s1) ∧ g1 ≠ g) as Hold.
    { intros l ty1 v1 g1 n1 s1 Hl Hfr.
      assert (l ≠ g) as Hlg by (intros ->; congruence).
      rewrite Hkept in Hfr by done. split; [done|]. intros ->.
      destruct (frame_feature_inv _ _ _ _ _ _ _ Hfr) as (f1 & Hf1 & _ & _ & Hg1 & _).
      pose proof (Hrefs l f1 (geometries f1) KGeometries Hf1) as Hk.
      rewrite Hg1 in Hk. unfold kind_at in Hk. rewrite Hgfresh in Hk.
      assert ((g, KGeometries) ∈ refs_list f1) as Hin.
      { apply elem_of_refs_list. rewrite Hg1. tauto. }
      by specialize (Hk Hin). }
    assert (∀ l, frame (mkState (heap σ1)
                          (with_features (collection σ1) (features (collection σ1) ++ [fl]))) l
                 = frame σ1 l) as Hsame by done.
    split; [|rewrite Hsame; eauto]. split_and!; [done | | |].
    + intros fl1 fl2 ty1 v1 g1 n1 s1 ty2 v2 n2 s2 Hx1 Hx2. rewrite Hsame in Hx1, Hx2.
      destruct (decide (fl1 = fl)) as [->|Hn1], (decide (fl2 = fl)) as [->|Hn2]; [done|..].
      * rewrite Hfl in Hx1. simplify_eq. by destruct (Hold _ _ _ _ _ _ Hn2 Hx2).
      * rewrite Hfl in Hx2. simplify_eq. by destruct (Hold _ _ _ _ _ _ Hn1 Hx1).
      * destruct (Hold _ _ _ _ _ _ Hn1 Hx1), (Hold _ _ _ _ _ _ Hn2 Hx2). by eapply Hun.
    + intros fl1 ty1 v1 g1 n1 s1 lay1 Hx1 Hty1 Hx2. rewrite Hsame in Hx1, Hx2.
      destruct (decide (fl1 = fl)) as [->|Hn1].
      * rewrite Hfl in Hx1. simplify_eq. by apply Forall_nil.
      * destruct (Hold _ _ _ _ _ _ Hn1 Hx1) as [Hx1' Hg1].
        assert (g1 ≠ fl) as Hg1'.
        { intros ->. rewrite Hfl in Hx2. done. }
        rewrite Hkept in Hx2 by done. by eapply Hsingle.
    + intros Hmerge. simpl in *. rewrite Hc in *. destruct (Htyped Hmerge) as [Hnd Hty].
      assert (fl ∉ features (collection σ)) as Hnin.
      { intros Hin. destruct Hcok as [Hfs _]. specialize (Hfs _ Hin).
        unfold kind_at in Hfs. by rewrite Hfresh in Hfs. }
      split.
      * apply NoDup_app. split_and!; [done | | apply NoDup_singleton].
        intros x Hx Hx'%list_elem_of_singleton. by subst.
      * assert (∀ l ty1 v1 g1 n1 s1, l ∈ features (collection σ) →
                  frame σ1 l = Some (FFeature ty1 v1 g1 n1 s1) → ty1 ≠ ty) as Hother.
        { intros l ty1 v1 g1 n1 s1 Hin Hfr.
          assert (l ≠ fl) as Hl by (intros ->; done).
          destruct (Hold _ _ _ _ _ _ Hl Hfr) as [Hfr0 _].
          destruct (frame_feature_inv _ _ _ _ _ _ _ Hfr0) as (f1 & Hf1 & <- & _).
          specialize (Hnone Hmerge _ _ Hin Hf1). by apply bool_decide_eq_false in Hnone. }
        intros fl1 fl2 ty1 v1 g1 n1 s1 v2 g2 n2 s2
          [Hin1|Hin1%list_elem_of_singleton]%elem_of_app
          [Hin2|Hin2%list_elem_of_singleton]%elem_of_app Hx1 Hx2;
          rewrite Hsame in Hx1, Hx2; subst; [| | |done].
        -- assert (fl1 ≠ fl ∧ fl2 ≠ fl) as [Hn1 Hn2] by (split; intros ->; done).
           destruct (Hold _ _ _ _ _ _ Hn1 Hx1), (Hold _ _ _ _ _ _ Hn2 Hx2). by eapply Hty.
        -- rewrite Hfl in Hx2. simplify_eq. by destruct (Hother _ _ _ _ _ _ Hin1 Hx1).
        -- rewrite Hfl in Hx1. simplify_eq. by destruct (Hother _ _ _ _ _ _ Hin2 Hx2).
Qed.

Lemma neat_jsonFeatureToFeature crsIn json σ fl σ' :
  inv σ → neat σ → jsonFeatureToFeature filterExtent crsIn json σ = Some (fl, σ') →
  neat σ'.
Proof.
  intros Hinv Hneat Hrun. unfold jsonFeatureToFeature in Hrun.
  destruct (toFeatureType (json_geometry json)) as [ty|] eqn:Hty; [|done].
  apply bind_Some in Hrun as (fl0 & σ1 & Hreq & Hrun).
  apply bind_Some in Hrun as (u & σ2 & Hcoords & Hrun). apply ret_Some in Hrun. simplify_eq.
  destruct (neat_requestFeatureByType _ _ _ _ Hinv Hneat Hreq) as (Hneat1 & v & g & n & s & Hfl).
  by eapply neat_coordinatesToFeature.
Qed.
End NeatOfToFeature.

Lemma neat_exec c σ u σ' :
  parsing c = true → inv σ → neat σ → exec c σ = Some (u, σ') → neat σ'.
Proof.
  intros Hc Hinv Hneat Hrun. pose proof Hneat as (Hok & Hun & Hsingle & Htyped).
  destruct c as [| | | | | | | | |[e|]| | | | | | |fe crs json]; simpl in Hc; try done;
    simpl in Hrun.
  - (* updateExtent *)
    pose proof (pstep_steps _ (sstep_FeatureCollection_updateExtent None)
                  (fstep_FeatureCollection_updateExtent None) _ _ _ Hok Hrun) as Hok'.
    destruct (fstep_FeatureCollection_updateExtent _ _ _ _ Hrun) as (Hfr & Hfs & Hm & Hsz).
    split_and!; [done | | |].
    + intros fl1 fl2 ????????? Hx1 Hx2. rewrite Hfr in Hx1, Hx2. by eapply Hun.
    + intros fl1 ?????? Hx1 ? Hx2. rewrite Hfr in Hx1, Hx2. by eapply Hsingle.
    + intros Hmerge. rewrite Hm in Hmerge. rewrite Hfs. destruct (Htyped Hmerge) as [? Hty].
      split; [done|]. intros fl1 fl2 ????????? ? ? Hx1 Hx2. rewrite Hfr in Hx1, Hx2.
      by eapply Hty.
  - (* removeEmptyFeature *)
    pose proof (pstep_removeEmptyFeature _ _ _ Hok Hrun) as Hok'.
    destruct Hinv as (_ & Hrefs & Hcok).
    assert (removeEmptyFeature σ = Some ((), without_empty_features σ)) as Heq.
    { unfold removeEmptyFeature. apply bind_Some. exists (collection σ), σ. split; [done|].
      apply bind_Some. eexists _, σ.
      split; [apply non_empty_features_total; [done | apply Hcok]|]. done. }
    assert (σ' = without_empty_features σ) as -> by congruence.
    split_and!; [done | done | done |].
    intros Hmerge. simpl in *. destruct (Htyped Hmerge) as [Hnd Hty]. split.
    + by apply NoDup_filter.
    + intros fl1 fl2 ????????? [_ Hin1]%list_elem_of_filter [_ Hin2]%list_elem_of_filter.
      by eapply Hty.
  - (* jsonFeatureToFeature *)
    unfold ignore in Hrun. apply bind_Some in Hrun as (fl & σ1 & Hrun & Hret).
    apply ret_Some in Hret. simplify_eq. by eapply neat_jsonFeatureToFeature.
Qed.

Lemma neat_new_collection options : neat (FeatureCollection_new options).
Proof.
  assert (∀ l ty v g n s,
            frame (FeatureCollection_new options) l ≠ Some (FFeature ty v g n s)) as Hnone.
  { intros l ty v g n s. unfold frame, FeatureCollection_new. simpl.
    intros (o & Hl & Ho)%option.bind_Some.
    assert (frame_of o = None) as Hk; [|congruence].
    destruct (opt_buildExtent options), (opt_style options); simpl in Hl.
    all: repeat match type of Hl with
         | <[_ := _]> _ !! _ = Some _ =>
             apply lookup_insert_Some in Hl as [[_ <-]|[_ Hl]]; [done|]
         | {[ _ := _ ]} !! _ = Some _ =>
             apply lookup_singleton_Some in Hl as [_ <-]; done
         | ∅ !! _ = Some _ => by rewrite lookup_empty in Hl
         end. }
  split_and!; [apply well_packed_new_collection | | |].
  - intros fl ?????????? Hfl. by apply Hnone in Hfl.
  - intros fl ?????? Hfl. by apply Hnone in Hfl.
  - intros _. simpl. split; [apply NoDup_nil_2|]. intros ??????????? Hin.
    by apply elem_of_nil in Hin.
Qed.

Lemma parsed_neat σ : parsed σ → inv σ ∧ neat σ.
Proof.
  intros (options & calls & Hcalls & Hrun).
  pose proof (inv_new options) as Hinv. pose proof (neat_new_collection options) as Hneat.
  revert Hinv Hneat Hrun. generalize (FeatureCollection_new options). unfold run.
  induction calls as [|c calls IH]; simpl in *; intros σ0 Hinv Hneat Hrun.
  - apply ret_Some in Hrun. by simplify_eq.
  - apply andb_prop in Hcalls as [Hc Hcalls].
    apply bind_Some in Hrun as (u & σ1 & Hexec & Hrun).
    eapply IH; [done | by eapply inv_exec | by eapply neat_exec | done].
Qed.

Lemma parsed_populated σ : parsed σ → populated σ.
Proof.
  intros (options & calls & Hcalls & Hrun). exists options, calls. split; [|done].
  apply forallb_forall. intros c Hc. rewrite forallb_forall in Hcalls.
  specialize (Hcalls c Hc). by destruct c.
Qed.

Lemma parsing_parser_calls filterExtent crsIn jsonFeatures filter :
  forallb parsing (parser_calls filterExtent crsIn jsonFeatures filter) = true.
Proof.
  unfold parser_calls. rewrite forallb_app. apply andb_true_intro. split; [|done].
  apply forallb_forall. intros c (j & <- & _)%in_map_iff. done.
Qed.

(** [jsonFeaturesToFeatures] runs the calls of the parser on a new
    collection. *)
Lemma jsonFeaturesToFeatures_calls crsIn jsonFeatures options filterExtent filter σ :
  jsonFeaturesToFeatures crsIn jsonFeatures options filterExtent filter = Some σ →
  run (parser_calls filterExtent crsIn jsonFeatures filter) (FeatureCollection_new options)
  = Some ((), σ).
Proof.
  unfold jsonFeaturesToFeatures. intros Hrun.
  apply fmap_Some in Hrun as ([[] σ'] & Hrun & ->). simpl.
  rewrite <- Hrun. unfold populate_collection, run, parser_calls.
    generalize (FeatureCollection_new options). intros σ0.
    assert (∀ (m m' : M unit) (k : unit → M unit) σ, m σ = m' σ → (m ≫= k) σ = (m' ≫= k) σ)
      as Hbind.
    { intros m m' k σ1 Hm. unfold mbind, M_bind. by rewrite Hm. }
    symmetry. etrans.
    { apply Hbind.
      apply (for_of_filter filter
               (λ jsonFeature, _ ← jsonFeatureToFeature filterExtent crsIn jsonFeature; mret ())). }
    revert σ0. induction (List.filter filter jsonFeatures) as [|j js IH]; intros σ0; simpl.
    + unfold mbind, M_bind. simpl.
      destruct (removeEmptyFeature σ0) as [[[] σ1]|]; [|done].
      by destruct (FeatureCollection_updateExtent None σ1) as [[[] σ2]|].
    + unfold ignore, mbind, M_bind in IH |- *.
      destruct (jsonFeatureToFeature filterExtent crsIn j σ0) as [[fl σ1]|]; [|done].
      simpl. apply IH.
Qed.

Lemma jsonFeaturesToFeatures_parsed crsIn jsonFeatures options filterExtent filter σ :
  jsonFeaturesToFeatures crsIn jsonFeatures options filterExtent filter = Some σ →
  parsed σ.
Proof.
  intros Hrun%jsonFeaturesToFeatures_calls. eexists options, _.
  split; [apply parsing_parser_calls | done].
Qed.
End ParsedFacts.

Section ParserResults.
Context `{FeatureEnv}.

Lemma policy_loop {A} (body : A → M unit) (xs : list A) σ u σ' :
  (∀ x σ u σ', well_packed σ → body x σ = Some (u, σ') →
     well_packed σ' ∧ same_collection σ σ') →
  well_packed σ → for_of xs body σ = Some (u, σ') →
  well_packed σ' ∧ same_collection σ σ'.
Proof.
  intros Hbody. revert σ. induction xs as [|x xs IH]; simpl; intros σ Hok Hrun.
  - apply ret_Some in Hrun. simplify_eq. split; [done | apply same_collection_refl].
  - apply bind_Some in Hrun as (u1 & σ1 & Hx & Hrun).
    destruct (Hbody _ _ _ _ Hok Hx) as [Hok1 Hc1].
    destruct (IH _ Hok1 Hrun) as [Hok' Hc']. split; [done|].
    by eapply same_collection_trans.
Qed.

Lemma policy_coordinatesToFeature filterExtent geometry fl crsIn p σ u σ' :
  well_packed σ →
  coordinatesToFeature filterExtent geometry fl crsIn p σ = Some (u, σ') →
  well_packed σ' ∧ same_collection σ σ'.
Proof.
  intros Hok Hrun.
  assert (∀ coordsIn σ u σ', well_packed σ →
            toFeature_default filterExtent fl crsIn coordsIn p σ = Some (u, σ') →
            well_packed σ' ∧ same_collection σ σ') as Hdefault.
  { intros coordsIn σ0 u0 σ0' Hok0 Hrun0.
    apply toFeature_default_layout in Hrun0 as (? & ? & _); done. }
  assert (∀ coordsIn σ u σ', well_packed σ →
            toFeature_polygon filterExtent fl crsIn coordsIn p σ = Some (u, σ') →
            well_packed σ' ∧ same_collection σ σ') as Hpolygon.
  { intros coordsIn σ0 u0 σ0' Hok0 Hrun0.
    apply toFeature_polygon_layout in Hrun0 as (? & ? & _); done. }
  unfold coordinatesToFeature, toFeature_multi, toFeature_point in Hrun.
  destruct geometry as [c|cs|cs|cs|cs|cs|]; [| | | | | |done].
  all: try (destruct cs;
            [apply ret_Some in Hrun; simplify_eq; split; [done | apply same_collection_refl]|]).
  all: first [ by eapply Hdefault | by eapply Hpolygon
             | eapply policy_loop; [|done|exact Hrun]; simpl; intros;
               first [by eapply Hdefault | by eapply Hpolygon] ].
Qed.

Lemma policy_exec c σ u σ' :
  parsing c = true → inv σ → well_packed σ → exec c σ = Some (u, σ') →
  mergeFeatures (collection σ') = mergeFeatures (collection σ).
Proof.
  intros Hc Hinv Hok Hrun.
  destruct c as [| | | | | | | | |[e|]| | | | | | |fe crs json]; simpl in Hc; try done;
    simpl in Hrun.
  - by destruct (fstep_FeatureCollection_updateExtent _ _ _ _ Hrun) as (_ & _ & ? & _).
  - destruct Hinv as (_ & Hrefs & Hcok).
    assert (removeEmptyFeature σ = Some ((), without_empty_features σ)) as Heq.
    { unfold removeEmptyFeature. apply bind_Some. exists (collection σ), σ. split; [done|].
      apply bind_Some. eexists _, σ.
      split; [apply non_empty_features_total; [done | apply Hcok]|]. done. }
    by assert (σ' = without_empty_features σ) as -> by congruence.
  - unfold ignore in Hrun. apply bind_Some in Hrun as (fl & σ1 & Hrun & Hret).
    apply ret_Some in Hret. simplify_eq. unfold jsonFeatureToFeature in Hrun.
    destruct (toFeatureType (json_geometry json)) as [ty|] eqn:Hty; [|done].
    apply bind_Some in Hrun as (fl0 & σ2 & Hreq & Hrun).
    apply bind_Some in Hrun as (u & σ3 & Hcoords & Hrun). apply ret_Some in Hrun. simplify_eq.
    pose proof (pstep_requestFeature _ _ _ _ _ Hok Hreq) as Hok2.
    destruct (policy_coordinatesToFeature _ _ _ _ _ _ _ _ Hok2 Hcoords) as (_ & _ & -> & _).
    unfold requestFeatureByType in Hreq.
    apply requestFeature_cases in Hreq as [(-> & _)|(σ1 & Hnew & -> & _)]; [done|].
    apply Feature_new_frame in Hnew as (? & ? & ? & _ & _ & _ & _ & _ & _ & Hcol).
    simpl. by rewrite Hcol.
Qed.

(** The merge policy of a parsed collection is that of the options. *)
Lemma parsed_policy options calls σ :
  forallb parsing calls = true →
  run calls (FeatureCollection_new options) = Some ((), σ) →
  mergeFeatures (collection σ) = default true (opt_mergeFeatures options).
Proof.
  intros Hcalls Hrun.
  assert (mergeFeatures (collection (FeatureCollection_new options))
          = default true (opt_mergeFeatures options)) as Hm by done.
  pose proof (inv_new options) as Hinv.
  pose proof (well_packed_new_collection options) as Hok.
  revert Hm Hinv Hok Hrun. generalize (FeatureCollection_new options). unfold run.
  induction calls as [|c calls IH]; simpl in *; intros σ0 Hm Hinv Hok Hrun.
  - apply ret_Some in Hrun. by simplify_eq.
  - apply andb_prop in Hcalls as [Hc Hcalls].
    apply bind_Some in Hrun as (u & σ1 & Hexec & Hrun).
    eapply IH; [done | | by eapply inv_exec | | done].
    + by rewrite (policy_exec _ _ _ _ Hc Hinv Hok Hexec).
    + eapply pstep_exec; [|done|done]. by destruct c.
Qed.

Lemma feature_types_bound (tys : list Z) :
  NoDup tys → Forall (λ ty, is_feature_type ty = true) tys → length tys ≤ 3.
Proof.
  intros Hnd Hall.
  assert (tys ⊆+ [POINT; LINE; POLYGON]) as Hsub.
  { apply NoDup_submseteq; [done|]. intros ty Hty.
    rewrite Forall_forall in Hall. specialize (Hall ty Hty).
    apply bool_decide_eq_true in Hall as [ -> | [ -> | -> ] ]; set_solver. }
  by apply submseteq_length in Hsub.
Qed.

Lemma merged_features_types σ :
  inv σ → typed_once σ → mergeFeatures (collection σ) = true →
  ∃ fs, Forall2 (λ fl f, heap σ !! fl = Some (OFeature f)) (features (collection σ)) fs ∧
        NoDup (map type fs) ∧ length (features (collection σ)) ≤ 3.
Proof.
  intros (Hheap & Hrefs & Hcok) Htyped Hm.
  destruct (Htyped Hm) as [Hnd Hty]. destruct Hcok as [Hfs _].
  assert (∃ fs, Forall2 (λ fl f, heap σ !! fl = Some (OFeature f))
                  (features (collection σ)) fs) as [fs Hfs2].
  { clear Hnd Hty. induction (features (collection σ)) as [|fl ls IH]; [by exists []|].
    destruct (kind_at_feature σ fl) as [f Hf]; [apply Hfs; left|].
    destruct IH as [fs ?]; [intros ??; apply Hfs; by right|].
    exists (f :: fs). by constructor. }
  exists fs. split; [done|].
  assert (NoDup (map type fs)) as Hnd'.
  { apply NoDup_alt. intros i j ty Hi Hj.
    rewrite list_lookup_fmap in Hi, Hj.
    apply fmap_Some in Hi as (f1 & Hi & ->). apply fmap_Some in Hj as (f2 & Hj & Heq).
    destruct (Forall2_lookup_r _ _ _ _ _ Hfs2 Hi) as (fl1 & Hl1 & Hf1).
    destruct (Forall2_lookup_r _ _ _ _ _ Hfs2 Hj) as (fl2 & Hl2 & Hf2).
    assert (fl1 = fl2) as <-.
    { eapply Hty; [by eapply list_elem_of_lookup_2 | by eapply list_elem_of_lookup_2
                  | by apply frame_feature | rewrite Heq; by apply frame_feature]. }
    by eapply NoDup_lookup. }
  split; [done|]. rewrite (Forall2_length _ _ _ Hfs2), <- (length_map type).
  apply feature_types_bound; [done|]. apply Forall_forall. intros ty (f & -> & Hf)%list_elem_of_fmap.
  apply list_elem_of_lookup in Hf as [i Hi].
  destruct (Forall2_lookup_r _ _ _ _ _ Hfs2 Hi) as (fl & _ & Hfl).
  by destruct (Hheap _ _ Hfl) as [_ ?].
Qed.

(** The collection that the parser returns merges features unless the
    options say not to, and is neat. *)
Lemma jsonFeaturesToFeatures_neat crsIn jsonFeatures options filterExtent filter σ :
  jsonFeaturesToFeatures crsIn jsonFeatures options filterExtent filter = Some σ →
  inv σ ∧ neat σ ∧
  (opt_mergeFeatures options ≠ Some false → mergeFeatures (collection σ) = true).
Proof.
  intros Hparse.
  pose proof (jsonFeaturesToFeatures_parsed _ _ _ _ _ _ Hparse) as Hparsed.
  destruct (parsed_neat _ Hparsed) as [Hinv Hneat]. split_and!; [done..|].
  intros Hmerge. apply jsonFeaturesToFeatures_calls in Hparse.
  rewrite (parsed_policy _ _ _ (parsing_parser_calls _ _ _ _) Hparse).
  by destruct (opt_mergeFeatures options) as [[]|].
Qed.

(** X11: when features are merged (the default), the collection that the
    parser returns has at most one feature of each type, hence at most
    three features. *)
Theorem jsonFeaturesToFeatures_merged_types crsIn jsonFeatures options filterExtent filter σ :
  jsonFeaturesToFeatures crsIn jsonFeatures options filterExtent filter = Some σ →
  opt_mergeFeatures options ≠ Some false →
  ∃ fs, Forall2 (λ fl f, heap σ !! fl = Some (OFeature f)) (features (collection σ)) fs ∧
        NoDup (map type fs) ∧ length (features (collection σ)) ≤ 3.
Proof.
  intros (Hinv & (_ & _ & _ & Htyped) & Hm)%jsonFeaturesToFeatures_neat Hmerge.
  apply merged_features_types; auto.
Qed.

Lemma for_of_app {A} (body : A → M unit) (xs ys : list A) σ u σ' :
  for_of (xs ++ ys) body σ = Some (u, σ') →
  ∃ σ1, for_of xs body σ = Some ((), σ1) ∧ for_of ys body σ1 = Some (u, σ').
Proof.
  revert σ. induction xs as [|x xs IH]; simpl; intros σ Hrun; [by exists σ|].
  apply bind_Some in Hrun as ([] & σ1 & Hx & Hrun).
  destruct (IH _ Hrun) as (σ2 & Hxs & Hys). exists σ2. split; [|done].
  apply bind_Some. by exists (), σ1.
Qed.

(** X10: every feature of the collection that the parser returns has at
    least one geometry: the features that got none, because all their
    geometries were empty or out of the filtering extent, are removed. *)
Theorem jsonFeaturesToFeatures_no_empty_feature
    crsIn jsonFeatures options filterExtent filter σ fl :
  jsonFeaturesToFeatures crsIn jsonFeatures options filterExtent filter = Some σ →
  fl ∈ features (collection σ) →
  ∃ f g gs, heap σ !! fl = Some (OFeature f) ∧
            heap σ !! geometries f = Some (OGeometries (g :: gs)).
Proof.
  intros Hrun%jsonFeaturesToFeatures_calls Hin. unfold run, parser_calls in Hrun.
  apply for_of_app in Hrun as (σ1 & Hloop & Hrun). simpl in Hrun.
  apply bind_Some in Hrun as ([] & σ2 & Hremove & Hrun).
  apply bind_Some in Hrun as ([] & σ3 & Hupdate & Hret). apply ret_Some in Hret.
  assert (σ3 = σ) as -> by congruence.
  assert (reachable σ1) as Hreach by (by eexists options, _).
  destruct (reachable_inv _ Hreach) as (_ & Hrefs & Hcok).
  assert (removeEmptyFeature σ1 = Some ((), without_empty_features σ1)) as Heq.
  { unfold removeEmptyFeature. apply bind_Some. exists (collection σ1), σ1. split; [done|].
    apply bind_Some. eexists _, σ1.
    split; [apply non_empty_features_total; [done | apply Hcok]|]. done. }
  assert (σ2 = without_empty_features σ1) as -> by congruence.
  destruct (fstep_FeatureCollection_updateExtent _ _ _ _ Hupdate) as (Hfr & Hfs & _).
  rewrite Hfs in Hin. simpl in Hin. apply list_elem_of_filter in Hin as [Hhas _].
  unfold has_geometries in Hhas.
  destruct (heap σ1 !! fl) as [[| | | |f]|] eqn:Hfl; try done.
  destruct (heap σ1 !! geometries f) as [[|[|g gs]| | |]|] eqn:Hg; try done.
  assert (frame σ fl = Some (FFeature (type f) (vertices f) (geometries f) (normals f) (size f)))
    as Hfl'.
  { rewrite Hfr. by apply (frame_feature (without_empty_features σ1)). }
  assert (frame σ (geometries f) = Some (FGeometries (layout (g :: gs)))) as Hg'.
  { rewrite Hfr. by apply (frame_geometries (without_empty_features σ1)). }
  apply frame_feature_inv in Hfl' as (f' & Hf' & _ & _ & Hgeo & _).
  apply frame_geometries_inv in Hg' as ([|g' gs'] & Hgs' & Hlay); [done|].
  exists f', g', gs'. by rewrite Hgeo.
Qed.

(** X12: in the collection that the parser returns, every geometry of a
    feature of points or of lines has exactly one range of vertices (only
    polygons have one range per ring). *)
Theorem jsonFeaturesToFeatures_single_range
    crsIn jsonFeatures options filterExtent filter σ fl f :
  jsonFeaturesToFeatures crsIn jsonFeatures options filterExtent filter = Some σ →
  heap σ !! fl = Some (OFeature f) → type f ≠ POLYGON →
  ∃ gs, heap σ !! geometries f = Some (OGeometries gs) ∧
        Forall (λ g, ∃ ix, indices g = [ix]) gs.
Proof.
  intros Hparsed%jsonFeaturesToFeatures_parsed Hfl Hty.
  destruct (parsed_neat _ Hparsed) as [(Hheap & Hrefs & Hcok) (Hok & Hun & Hsingle & Htyped)].
  assert (kind_at σ (geometries f) = Some KGeometries) as Hk.
  { apply (Hrefs fl f (geometries f) KGeometries Hfl), elem_of_refs_list. tauto. }
  unfold kind_at in Hk.
  destruct (heap σ !! geometries f) as [[|gs| | |]|] eqn:Hg; try done.
  exists gs. split; [done|].
  pose proof (Hsingle fl _ _ _ _ _ _ (frame_feature _ _ _ Hfl) Hty (frame_geometries _ _ _ Hg))
    as Hall.
  unfold layout in Hall. rewrite Forall_fmap in Hall.
  eapply Forall_impl; [exact Hall|]. intros g. simpl. unfold ranges. rewrite length_map.
  destruct (indices g) as [|ix [|??]]; try done. by exists ix.
Qed.
End ParserResults.

(** ** Geometries, sub geometries and parent styles *)

Section FeatureJsFacts.
Context `{FeatureEnv}.

(** X1: [bindNewGeometry] returns the geometry that it appends to the
    feature: its index is the former [geometryCount], the count is one more
    afterwards, and the new geometry has no sub geometry yet
    ([getLastSubGeometry] is undefined). *)
Theorem bindNewGeometry_appends_empty_geometry this σ geometry σ' :
  bindNewGeometry this σ = Some (geometry, σ') →
  ∃ n, geometryCount this σ = Some (n, σ) ∧
       geometry_index geometry = n ∧
       geometryCount this σ' = Some (S n, σ') ∧
       getLastSubGeometry geometry σ' = Some (None, σ').
Proof.
  intros (f & gs & Hf & Hgs & -> & Hlist & Hkept & _)%bindNewGeometry_frame.
  assert (this ≠ geometries f) as Hne by (intros ->; congruence).
  pose proof (frame_feature _ _ _ Hf) as Hfr. rewrite <- (Hkept _ Hne) in Hfr.
  apply frame_feature_inv in Hfr as (f' & Hf' & _ & _ & Hg' & _).
  apply frame_geometries_inv in Hlist as (gs' & Hgs' & Hlay).
  assert (length gs' = S (length gs)) as Hlen.
  { apply (f_equal length) in Hlay. unfold layout in Hlay.
    rewrite length_app, !length_map in Hlay. simpl in Hlay. lia. }
  exists (length gs). split_and!; [|done| |].
  - unfold geometryCount. apply bind_Some. exists f, σ.
    split; [apply load_feature_Some; eauto|].
    apply bind_Some. exists gs, σ. split; [apply load_geometries_Some; eauto | done].
  - unfold geometryCount. apply bind_Some. exists f', σ'.
    split; [apply load_feature_Some; eauto|].
    apply bind_Some. exists gs', σ'. rewrite Hg'.
    split; [apply load_geometries_Some; eauto|]. by rewrite <- Hlen.
  - destruct (lookup_lt_is_Some_2 gs' (length gs)) as [g Hg]; [lia|].
    assert (indices g = []) as Hix.
    { apply (f_equal (λ lay, snd <$> lay !! length gs)) in Hlay.
      unfold layout in Hlay. rewrite list_lookup_fmap, Hg in Hlay.
      rewrite lookup_app_r in Hlay by (by rewrite length_map).
      rewrite length_map, Nat.sub_diag in Hlay. simpl in Hlay.
      injection Hlay as Hr. unfold ranges in Hr. by destruct (indices g). }
    unfold getLastSubGeometry. apply bind_Some. exists g, σ'.
    split; [apply load_geometry_Some; eexists gs', g; by split_and! |].
    by rewrite Hix.
Qed.

Lemma last_map {A B} (f : A → B) (l : list A) : last (map f l) = f <$> last l.
Proof. induction l as [|x [|y l] IH]; [done..|]. exact IH. Qed.

(** X2: after [startSubGeometry(count, feature)], [getLastSubGeometry]
    returns the sub geometry just recorded: it has [count] vertices and starts
    where the last one before it ended, or at the end of the vertices of the
    feature when the geometry had none. *)
Theorem startSubGeometry_getLastSubGeometry this n feature σ u σ' f vs :
  startSubGeometry this n feature σ = Some (u, σ') →
  heap σ !! feature = Some (OFeature f) →
  heap σ !! vertices f = Some (ONumbers vs) →
  ∃ g before ix,
    load_geometry this σ = Some (g, σ) ∧
    getLastSubGeometry this σ = Some (before, σ) ∧
    getLastSubGeometry this σ' = Some (Some ix, σ') ∧
    count ix = Z.of_nat n ∧
    offset ix = match before with
                | Some l => (offset l + count l)%Z
                | None => (Z.of_nat (length vs) `div` geometry_size g)%Z
                end.
Proof.
  intros (gs & g & f0 & vs0 & Hgs & Hg & Hf0 & Hvs0 & Hlist & _)%startSubGeometry_frame Hf Hvs.
  assert (f0 = f) as -> by congruence. assert (vs0 = vs) as -> by congruence.
  assert (load_geometry this σ = Some (g, σ)) as Hload.
  { apply load_geometry_Some. eexists gs, g. by split_and!. }
  apply frame_geometries_inv in Hlist as (gs' & Hgs' & Hlay).
  assert (∃ g', gs' !! geometry_index this = Some g' ∧
                ranges g' = ranges g ++ [(default (Z.of_nat (length vs) `div` geometry_size g)%Z
                                            (next_offset g), Z.of_nat n)])
    as (g' & Hg' & Hranges).
  { apply (f_equal (λ lay, lay !! geometry_index this)) in Hlay.
    rewrite list_lookup_insert_eq in Hlay
      by (unfold layout; rewrite length_map; by eapply lookup_lt_Some).
    unfold layout in Hlay. rewrite list_lookup_fmap in Hlay.
    destruct (gs' !! geometry_index this) as [g'|]; [|done]. simpl in Hlay.
    exists g'. split; [done | congruence]. }
  assert (∃ ix, last (indices g') = Some ix ∧ count ix = Z.of_nat n ∧
                offset ix = default (Z.of_nat (length vs) `div` geometry_size g)%Z
                              (next_offset g)) as (ix & Hlast & Hcount & Hoffset).
  { unfold ranges in Hranges.
    apply (f_equal last) in Hranges. rewrite last_snoc, last_map in Hranges.
    destruct (last (indices g')) as [ix|]; [|done]. simpl in Hranges.
    exists ix. split; [done|]. split; congruence. }
  exists g, (last (indices g)), ix. split_and!; [done | | | done |].
  - unfold getLastSubGeometry. apply bind_Some. by exists g, σ.
  - unfold getLastSubGeometry. apply bind_Some. exists g', σ'.
    split; [apply load_geometry_Some; eexists gs', g'; by split_and! | by rewrite Hlast].
  - rewrite Hoffset. unfold next_offset. by destruct (last (indices g)).
Qed.

Lemma parent_step_refl s σ : parent_step s σ σ.
Proof.
  split; [done|]. intros l. destruct (heap σ !! l) as [[]|]; try done. eauto.
Qed.

Lemma parent_step_trans s σ1 σ2 σ3 :
  parent_step s σ1 σ2 → parent_step s σ2 σ3 → parent_step s σ1 σ3.
Proof.
  intros [Hc1 Hh1] [Hc2 Hh2]. split; [congruence|]. intros l.
  specialize (Hh1 l). specialize (Hh2 l).
  destruct (heap σ1 !! l) as [[| | |st|]|].
  1-3,5-6: by rewrite Hh1 in Hh2.
  destruct Hh1 as (st' & Hst' & Hp' & Hpar'). rewrite Hst' in Hh2.
  destruct Hh2 as (st'' & Hst'' & Hp'' & Hpar''). exists st''.
  split_and!; [done | congruence | auto].
Qed.

Lemma setParentStyle_loop s ls σ :
  (∀ fl, fl ∈ ls → ∃ f st, heap σ !! fl = Some (OFeature f) ∧
                           heap σ !! style f = Some (OStyle st)) →
  ∃ σ', for_of ls (λ fl,
          f ← load_feature fl;
          st ← load_style (style f);
          store (style f) (OStyle (mkStyle (Some s) (style_params st)))) σ = Some ((), σ') ∧
        parent_step s σ σ' ∧ parent_set s σ' ls.
Proof.
  revert σ. induction ls as [|fl ls IH]; intros σ Hls.
  - exists σ. split; [done|]. split; [apply parent_step_refl|].
    intros fl Hin. by apply elem_of_nil in Hin.
  - destruct (Hls fl) as (f & st & Hf & Hst); [left|].
    set (σ1 := mkState (<[style f := OStyle (mkStyle (Some s) (style_params st))]> (heap σ))
                 (collection σ)).
    assert (parent_step s σ σ1) as Hstep1.
    { split; [done|]. intros l. simpl. destruct (decide (l = style f)) as [->|Hl].
      - rewrite Hst, lookup_insert_eq. eauto.
      - rewrite lookup_insert_ne by done. destruct (heap σ !! l) as [[]|]; try done. eauto. }
    assert (∀ fl', (∃ f st, heap σ !! fl' = Some (OFeature f) ∧
                            heap σ !! style f = Some (OStyle st)) →
                   ∃ f st, heap σ1 !! fl' = Some (OFeature f) ∧
                           heap σ1 !! style f = Some (OStyle st)) as Hkeep.
    { intros fl' (f' & st' & Hf' & Hst'). destruct Hstep1 as [_ Hh].
      pose proof (Hh fl') as H1. rewrite Hf' in H1.
      pose proof (Hh (style f')) as H2. rewrite Hst' in H2. destruct H2 as (st'' & ? & _).
      eauto. }
    destruct (IH σ1) as (σ' & Hrun & Hstep & Hset).
    { intros fl' Hin. apply Hkeep, Hls. by right. }
    exists σ'. split_and!.
    + simpl. apply bind_Some. exists (), σ1. split; [|done].
      apply bind_Some. exists f, σ. split; [apply load_feature_Some; eauto|].
      apply bind_Some. exists st, σ. split; [apply load_style_Some; eauto|].
      apply store_Some. eexists. by split_and!.
    + by eapply parent_step_trans.
    + intros fl' [->|Hin]%elem_of_cons; [|by apply Hset].
      destruct Hstep as [_ Hh].
      assert (heap σ1 !! fl = Some (OFeature f)) as Hf1.
      { simpl. rewrite lookup_insert_ne; [done|]. intros Heq. congruence. }
      pose proof (Hh fl) as H1. rewrite Hf1 in H1.
      pose proof (Hh (style f)) as H2. simpl in H2. rewrite lookup_insert_eq in H2.
      destruct H2 as (st' & Hst' & _ & Hpar). exists f, st'. split_and!; [done..|].
      by apply Hpar.
Qed.

(** X7: on a collection reached by calls of Feature.js,
    [setParentStyle(style)] with a style sets the parent of the style of
    every feature of the collection, and changes nothing else: the features,
    the buffers and the parameters of the styles are those of before.
    Without style it does nothing. *)
Theorem setParentStyle_sets_every_parent σ s :
  reachable σ →
  setParentStyle None σ = Some ((), σ) ∧
  ∃ σ', setParentStyle (Some s) σ = Some ((), σ') ∧
        parent_set s σ' (features (collection σ')) ∧
        parent_step s σ σ'.
Proof.
  intros (_ & Hrefs & Hfs & _)%reachable_inv. split; [done|].
  destruct (setParentStyle_loop s (features (collection σ)) σ) as (σ' & Hrun & Hstep & Hset).
  { intros fl Hin. destruct (kind_at_feature σ fl) as [f Hf]; [by apply Hfs|].
    assert (kind_at σ (style f) = Some KStyle) as Hk.
    { apply (Hrefs fl f (style f) KStyle Hf), elem_of_refs_list. tauto. }
    unfold kind_at in Hk. destruct (heap σ !! style f) as [[]|] eqn:Hst; try done. eauto. }
  exists σ'. split_and!; [|by destruct Hstep as [-> _]|done].
  simpl. apply bind_Some. by exists (collection σ), σ.
Qed.
End FeatureJsFacts.

Section PipelineFacts.
Context `{MeshEnv}.

Lemma featuresToThree_length features options zoom rs meshes rs' warnings :
  featuresToThree features options zoom rs = Some (meshes, rs', warnings) →
  length meshes = length features.
Proof.
  revert rs meshes rs' warnings.
  induction features as [|feature features IH]; simpl; intros rs meshes rs' warnings Hrun.
  - by simplify_eq.
  - destruct (featureToMesh feature options zoom rs) as [[[mesh rs1] w]|]; [|done].
    simpl in Hrun.
    destruct (featuresToThree features options zoom rs1) as [[[ms rs2] ws]|] eqn:Hrest;
      [|done].
    simpl in Hrun. simplify_eq. simpl. f_equal. by eapply IH.
Qed.

(** X24: when features are merged (the default), parsing GeoJSON features
    and converting the collection gives at most three meshes, one for each
    type of feature at most, whatever the number of GeoJSON features. *)
Theorem parse_and_convert_merged_meshes
    crsIn jsonFeatures buildOptions filterExtent filter options zoom rs meshes rs' warnings :
  parse_and_convert crsIn jsonFeatures buildOptions filterExtent filter options zoom rs
  = Some (meshes, rs', warnings) →
  opt_mergeFeatures buildOptions ≠ Some false →
  length meshes ≤ 3.
Proof.
  unfold parse_and_convert, convert. intros Hrun Hmerge.
  apply option.bind_Some in Hrun as (σ & Hparse & Hrun).
  apply option.bind_Some in Hrun as (views & Hviews & Hrun).
  apply featuresToThree_length in Hrun. apply length_mapM in Hviews.
  apply jsonFeaturesToFeatures_neat in Hparse as (Hinv & (_ & _ & _ & Htyped) & Hm).
  destruct (merged_features_types σ) as (_ & _ & _ & Hlen); auto.
  by rewrite Hrun, <- Hviews.
Qed.
End PipelineFacts.

(** ** The concrete features, again *)

Section DemoFacts2.
#[local] Existing Instance demo_number.
#[local] Existing Instance demo_env.

Lemma completes_default {A} (r : option A) d : completes r = true → r = Some (default d r).
Proof. destruct r; [done|]. intros [? [=]]%bool_decide_eq_true. Qed.

Lemma demo_parsed_eq :
  jsonFeaturesToFeatures "EPSG:4326" demo_json demo_options None (λ _, true) = Some demo_parsed.
Proof. apply completes_default. vm_compute. reflexivity. Qed.

Lemma requestFeatureById_undefined_returns_first_witness :
  requestFeatureById None LINE demo_state = Some (6, demo_state).
Proof.
  apply (requestFeatureById_undefined_returns_first demo_state LINE 6 [16] demo_reachable);
    reflexivity.
Defined.

Lemma unsupported_type_throws_witness :
  Feature_new 3 demo_state = None ∧ requestFeatureByType 3 demo_state = None ∧
  requestFeatureById (Some "building-1") 3 demo_state = None.
Proof. apply (unsupported_type_throws demo_state 3 "building-1" demo_reachable). reflexivity. Defined.

Lemma removeEmptyFeature_keeps_non_empty_witness :
  removeEmptyFeature demo_state = Some ((), without_empty_features demo_state) ∧
  (∀ fl, fl ∈ features (collection (without_empty_features demo_state))
         ↔ fl ∈ features (collection demo_state) ∧ has_geometries demo_state fl = true) ∧
  removeEmptyFeature (without_empty_features demo_state)
  = Some ((), without_empty_features demo_state).
Proof. apply (removeEmptyFeature_keeps_non_empty demo_state demo_reachable). Defined.

Lemma jsonFeaturesToFeatures_geometry_collection_witness :
  jsonFeaturesToFeatures "EPSG:4326" (demo_json ++ [group_json]) demo_options None (λ _, true)
  = None.
Proof.
  apply (jsonFeaturesToFeatures_geometry_collection "EPSG:4326" (demo_json ++ [group_json])
           demo_options None (λ _, true) group_json).
  - apply elem_of_app. right. apply list_elem_of_here.
  - reflexivity.
  - reflexivity.
Defined.

Lemma geometries_packed_witness :
  ∃ vs gs,
    heap demo_state !! vertices demo_polygon_feature = Some (ONumbers vs) ∧
    heap demo_state !! geometries demo_polygon_feature = Some (OGeometries gs) ∧
    packed_from 0 (flat_map ranges gs) ∧
    Z.of_nat (length vs) = (size demo_polygon_feature * range_sum (flat_map ranges gs))%Z ∧
    Forall (λ g, geometry_size g = size demo_polygon_feature) gs.
Proof.
  apply (geometries_packed demo_state 6 demo_polygon_feature demo_populated). reflexivity.
Defined.

Lemma jsonFeaturesToFeatures_merged_types_witness :
  ∃ fs, Forall2 (λ fl f, heap demo_parsed !! fl = Some (OFeature f))
          (features (collection demo_parsed)) fs ∧
        NoDup (map type fs) ∧ length (features (collection demo_parsed)) ≤ 3.
Proof.
  apply (jsonFeaturesToFeatures_merged_types "EPSG:4326" demo_json demo_options None
           (λ _, true) demo_parsed demo_parsed_eq).
  discriminate.
Defined.

Lemma jsonFeaturesToFeatures_no_empty_feature_witness :
  ∃ f g gs, heap demo_parsed !! 6 = Some (OFeature f) ∧
            heap demo_parsed !! geometries f = Some (OGeometries (g :: gs)).
Proof.
  apply (jsonFeaturesToFeatures_no_empty_feature "EPSG:4326" demo_json demo_options None
           (λ _, true) demo_parsed 6 demo_parsed_eq).
  change (6 ∈ [6; 16]). apply list_elem_of_here.
Defined.

Lemma jsonFeaturesToFeatures_single_range_witness :
  ∃ gs, heap demo_parsed !! geometries demo_line_feature = Some (OGeometries gs) ∧
        Forall (λ g, ∃ ix, indices g = [ix]) gs.
Proof.
  apply (jsonFeaturesToFeatures_single_range "EPSG:4326" demo_json demo_options None
           (λ _, true) demo_parsed 16 demo_line_feature demo_parsed_eq).
  - reflexivity.
  - discriminate.
Defined.

Lemma demo_bound_eq : bindNewGeometry 6 demo_state = Some (demo_bound.1, demo_bound.2).
Proof.
  unfold demo_bound. rewrite <- surjective_pairing. apply completes_default.
  vm_compute. reflexivity.
Qed.

Lemma bindNewGeometry_appends_empty_geometry_witness :
  ∃ n, geometryCount 6 demo_state = Some (n, demo_state) ∧
       geometry_index demo_bound.1 = n ∧
       geometryCount 6 demo_bound.2 = Some (S n, demo_bound.2) ∧
       getLastSubGeometry demo_bound.1 demo_bound.2 = Some (None, demo_bound.2).
Proof.
  apply (bindNewGeometry_appends_empty_geometry 6 demo_state demo_bound.1 demo_bound.2
           demo_bound_eq).
Defined.

Lemma demo_started_eq :
  startSubGeometry (mkGeometryRef 11 1) 2 16 demo_state = Some ((), demo_started).
Proof. apply completes_final. vm_compute. reflexivity. Qed.

Lemma startSubGeometry_getLastSubGeometry_witness :
  ∃ g before ix,
    load_geometry (mkGeometryRef 11 1) demo_state = Some (g, demo_state) ∧
    getLastSubGeometry (mkGeometryRef 11 1) demo_state = Some (before, demo_state) ∧
    getLastSubGeometry (mkGeometryRef 11 1) demo_started = Some (Some ix, demo_started) ∧
    count ix = 2%Z ∧
    offset ix = match before with
                | Some l => (offset l + count l)%Z
                | None => (Z.of_nat (length demo_line_vertices) `div` geometry_size g)%Z
                end.
Proof.
  apply (startSubGeometry_getLastSubGeometry (mkGeometryRef 11 1) 2 16 demo_state ()
           demo_started demo_line_feature demo_line_vertices demo_started_eq).
  - reflexivity.
  - reflexivity.
Defined.

Lemma setParentStyle_sets_every_parent_witness :
  setParentStyle None demo_state = Some ((), demo_state) ∧
  ∃ σ', setParentStyle (Some 5) demo_state = Some ((), σ') ∧
        parent_set 5 σ' (features (collection σ')) ∧
        parent_step 5 demo_state σ'.
Proof. apply (setParentStyle_sets_every_parent demo_state 5 demo_reachable). Defined.
End DemoFacts2.

Section MeshDemoFacts2.
#[local] Existing Instance demo_number.
#[local] Existing Instance demo_env.
#[local] Existing Instance demo_mesh_env.

Lemma demo_meshes_eq :
  parse_and_convert "EPSG:4326" demo_json demo_options None (λ _, true)
    demo_convert demo_zoom 0
  = Some (demo_meshes.1.1, demo_meshes.1.2, demo_meshes.2).
Proof.
  unfold demo_meshes. rewrite <- !surjective_pairing. apply completes_default.
  vm_compute. reflexivity.
Qed.

Lemma parse_and_convert_merged_meshes_witness : length demo_meshes.1.1 ≤ 3.
Proof.
  apply (parse_and_convert_merged_meshes "EPSG:4326" demo_json demo_options None (λ _, true)
           demo_convert demo_zoom 0 demo_meshes.1.1 demo_meshes.1.2 demo_meshes.2
           demo_meshes_eq).
  discriminate.
Defined.

Lemma featureToLine_single_geometry_witness :
  ∃ mesh vs colors,
    featureToLine single_line demo_convert demo_zoom = Some (Some mesh, []) ∧
    primitive mesh = Line ∧
    geom_index (geometry mesh) = None ∧
    attributes_position (geometry mesh) = Some vs ∧ length vs = 9 ∧
    attributes_color (geometry mesh) = Some colors ∧ length colors = 9 ∧
    (∀ k : nat, (Z.of_nat k < 3 * 3)%Z →
       colors !! k = Some (channel (XFin 1000, XFin 0, XFin 0) (Z.of_nat k mod 3))) ∧
    attributes_batchId (geometry mesh) = Some [0; 0; 0]%Z.
Proof.
  exact (featureToLine_single_geometry single_line demo_convert demo_zoom
           (mkFeatureGeometry [mkSubGeometryIndex 0 3 (Some 9)] "road" 3 (Some 7) (Some 9)
              (XFin 0) (XFin 0))
           eq_refl (or_intror (ex_intro _ _ eq_refl))).
Defined.

Lemma featureToLine_more_geometries_than_vertices_witness :
  featureToLine crowded_line demo_convert demo_zoom = None.
Proof.
  apply (featureToLine_more_geometries_than_vertices crowded_line demo_convert demo_zoom).
  - reflexivity.
  - simpl. lia.
  - vm_compute. reflexivity.
Defined.

Lemma featureToPolygon_triangles_witness :
  ∃ mesh,
    featureToPolygon flat_square demo_convert demo_zoom = Some (mesh, []) ∧
    primitive mesh = Mesh ∧
    attributes_position (geometry mesh)
    = Some (Float32Array_from (view_vertices flat_square)) ∧
    geom_index (geometry mesh) = Some [0; 1; 2; 0; 2; 3]%Z.
Proof.
  apply (featureToPolygon_triangles flat_square demo_convert demo_zoom).
  repeat first [apply Forall_nil_2 | apply Forall_cons_2]. split; [done | by eexists].
Defined.

Lemma featureToPolygon_unstyled_geometry_witness :
  featureToPolygon hidden_square demo_convert demo_zoom = None.
Proof.
  eapply (featureToPolygon_unstyled_geometry hidden_square demo_convert demo_zoom).
  - repeat first [apply Forall_nil_2 | apply Forall_cons_2]. done.
  - apply list_elem_of_here.
  - reflexivity.
Defined.

Lemma featureToMesh_no_geometry_witness :
  (view_type empty_polygon = LINE →
   featureToMesh empty_polygon demo_convert demo_zoom 0 = None) ∧
  (view_type empty_polygon = POLYGON → has_extrusion_height empty_polygon = true →
   featureToMesh empty_polygon demo_convert demo_zoom 0 = None) ∧
  (view_type empty_polygon = POLYGON → has_extrusion_height empty_polygon = false →
   ∃ mesh, featureToMesh empty_polygon demo_convert demo_zoom 0 = Some (mesh, 0, []) ∧
           primitive mesh = Mesh ∧ geom_index (geometry mesh) = Some [] ∧
           attributes_position (geometry mesh)
           = Some (Float32Array_from (view_vertices empty_polygon))).
Proof.
  apply (featureToMesh_no_geometry empty_polygon demo_convert demo_zoom 0). reflexivity.
Defined.

Lemma featureToPoint_constant_color_witness :
  ∃ mesh vs colors,
    featureToPoint demo_point blue_convert 0 = Some (mesh, 0) ∧
    primitive mesh = Points ∧
    geom_index (geometry mesh) = None ∧
    attributes_position (geometry mesh) = Some vs ∧
    length vs = length (view_vertices demo_point) ∧
    attributes_color (geometry mesh) = Some colors ∧
    length colors = length (view_vertices demo_point) ∧
    (∀ k, k < length (view_vertices demo_point) →
       colors !! k
       = Some (if existsb (λ g, in_first_range g (Z.of_nat k)) (view_geometries demo_point)
               then channel (XFin 0, XFin 0, XFin 1000) (Z.of_nat k mod 3) else 0%Z)) ∧
    (is_Some (attributes_batchId (geometry mesh)) ↔ is_Some (options_batchId blue_convert)).
Proof.
  apply (featureToPoint_constant_color demo_point blue_convert 0 (XFin 0, XFin 0, XFin 1000)).
  - reflexivity.
  - right. by eexists.
  - repeat first [apply Forall_nil_2 | apply Forall_cons_2]. done.
Defined.
End MeshDemoFacts2.

Lemma featureToMesh_numeric_extrusion_height_witness :
  @featureToMesh demo_number demo_env numeric_mesh_env unit_square numeric_convert
    demo_zoom 0 = None.
Proof.
  apply (@featureToMesh_numeric_extrusion_height demo_number demo_env numeric_mesh_env
           unit_square numeric_convert demo_zoom 0 (XFin 10000)).
  - reflexivity.
  - reflexivity.
  - reflexivity.
Defined.

(** ** Extrusion above the limit of the index *)

Section BlockFacts.
Context {A B : Type}.

(** The block of the element [i] in a [flat_map] of blocks of [n]
    elements. *)
Lemma flat_map_block (f : A → list B) (n : nat) (l : list A) (i : nat) (x : A) :
  (∀ y, length (f y) = n) → l !! i = Some x →
  take n (drop (i * n) (flat_map f l)) = f x.
Proof.
  intros Hn. revert i. induction l as [|y l IH]; intros i Hi; [done|].
  destruct i as [|i]; simpl in *.
  - simplify_eq. rewrite drop_0. by rewrite take_app_length' by done.
  - rewrite drop_app_ge by (rewrite Hn; lia).
    replace (n + i * n - length (f y)) with (i * n) by (rewrite Hn; lia). by apply IH.
Qed.
End BlockFacts.

Section SingleRing.
Context `{MeshEnv}.

Lemma extruded_indices_single cw total g roof ring :
  indices g = [ring] →
  extruded_indices cw total (zip [g] [roof]) = roof ++ ring_side_faces cw total ring.
Proof. intros Hg. unfold extruded_indices. simpl. rewrite Hg. simpl. by rewrite !app_nil_r. Qed.

(** The index of the extrusion of a feature of one geometry of one ring. *)
Lemma featureToExtrudedPolygon_single_ring feature options g ring :
  view_geometries feature = [g] → indices g = [ring] →
  extrusion_ready feature → (1 ≤ count ring)%Z →
  ∃ mesh roof,
    featureToExtrudedPolygon feature options = Some mesh ∧
    geom_index (geometry mesh)
    = Some (map Uint16
              (roof ++ ring_side_faces
                         (num_lt (area (view_vertices feature) (offset ring) (count ring))
                            (of_Z 0))
                         (Z.of_nat (length (view_vertices feature)) / 3) ring)).
Proof.
  intros Hgs Hg Hready Hcount. unfold featureToExtrudedPolygon. rewrite Hgs.
  cbn [head mbind option_bind]. rewrite Hg. cbn [head mbind option_bind].
  edestruct (featureToExtrudedPolygon_loop_spec [g] feature options)
    as (st' & roofs & -> & Hlen & Hix & _); [done | |].
  { apply Forall_singleton. split; [by rewrite Hg|]. rewrite Hg. by apply Forall_singleton. }
  destruct roofs as [|roof [|??]]; try done.
  rewrite (extruded_indices_single _ _ g roof ring Hg) in Hix.
  cbn [mbind option_bind]. eexists _, roof. split; [done|].
  cbn [geometry geom_index]. rewrite Hix. cbn [polygon_indices app].
  by rewrite Uint16Array_from_Some.
Qed.
End SingleRing.

Section LargeDemoFacts.
#[local] Existing Instance demo_number.
#[local] Existing Instance demo_env.
#[local] Existing Instance demo_mesh_env.

(** The unit square with a ring without vertex: the last wall of the
    square is taken out of the index again ([indices.length += -6]), which
    holds 24 values for 30. *)
Lemma featureToExtrudedPolygon_empty_ring_deletes_wall :
  map indices (view_geometries hollow_square)
  = [[mkSubGeometryIndex 0 5 (Some 9); mkSubGeometryIndex 5 0 (Some 10)]] ∧
  extruded_index unit_square
  = Some ([5; 6; 7; 5; 7; 8]
          ++ [5; 0; 6; 6; 0; 1] ++ [6; 1; 7; 7; 1; 2] ++ [7; 2; 8; 8; 2; 3]
          ++ [8; 3; 9; 9; 3; 4])%Z ∧
  extruded_index hollow_square
  = Some ([5; 6; 7; 5; 7; 8]
          ++ [5; 0; 6; 6; 0; 1] ++ [6; 1; 7; 7; 1; 2] ++ [7; 2; 8; 8; 2; 3])%Z.
Proof. repeat split. Qed.

Lemma big_polygon_run :
  ∃ mesh roof,
    featureToExtrudedPolygon big_polygon demo_convert = Some mesh ∧
    geom_index (geometry mesh)
    = Some (map Uint16
              (roof ++ flat_map
                         (side_face
                            (num_lt (area (view_vertices big_polygon) 0 40000) (of_Z 0)) 40000)
                         (seqZ 0 39999))).
Proof.
  assert (Z.of_nat (length (view_vertices big_polygon)) = 120000%Z) as Hlen.
  { unfold big_polygon. cbn [view_vertices]. unfold big_vertices.
    rewrite length_replicate. by rewrite Z2Nat.id. }
  destruct (featureToExtrudedPolygon_single_ring big_polygon demo_convert big_ring
              (mkSubGeometryIndex 0 40000 None) eq_refl eq_refl)
    as (mesh & roof & Hrun & Hix).
  { split_and!; by eexists. }
  { cbn [count]. lia. }
  exists mesh, roof. split; [exact Hrun|]. rewrite Hix, Hlen. reflexivity.
Qed.

(** C4: a ring of 40000 vertices.  In the index, the roof is followed by
    the walls of the ring, six values for each vertex: the wall between the
    vertices 39990 and 39991 and the vertices 79990 and 79991 above them, at
    [39990 * 6 = 239940] after the roof, is stored with 14454 and 14455 for
    the latter, and no value of the index is 79990: the index is a
    [Uint16Array], and [featureToExtrudedPolygon] has no test of the
    limit. *)
Lemma featureToExtrudedPolygon_wraps_roof_vertices :
  ∃ mesh index isClockWise roof,
    featureToExtrudedPolygon big_polygon demo_convert = Some mesh ∧
    geom_index (geometry mesh) = Some index ∧
    side_face isClockWise 40000 39990
    = (if isClockWise then [39990; 79990; 39991; 39991; 79990; 79991]
       else [79990; 39990; 79991; 79991; 39990; 39991])%Z ∧
    take (length roof) index = map Uint16 roof ∧
    take 6 (drop (length roof + Z.to_nat 239940) index)
    = (if isClockWise then [39990; 14454; 39991; 39991; 14454; 14455]
       else [14454; 39990; 14455; 14455; 39990; 39991])%Z ∧
    79990%Z ∉ index.
Proof.
  destruct big_polygon_run as (mesh & roof & Hrun & Hix).
  set (cw := num_lt _ _) in Hix.
  eexists mesh, _, cw, roof. split_and!; [exact Hrun | exact Hix | by destruct cw | | |].
  - rewrite map_app. rewrite take_app_length'; [done|]. by rewrite length_map.
  - rewrite map_app, drop_app_ge by (rewrite length_map; lia).
    rewrite length_map.
    replace (length roof + Z.to_nat 239940 - length roof) with (Z.to_nat 39990 * 6) by lia.
    rewrite skipn_map, firstn_map.
    rewrite (flat_map_block (side_face cw 40000) 6 (seqZ 0 39999) (Z.to_nat 39990) 39990%Z);
      [by destruct cw | apply length_side_face | apply lookup_seqZ; lia].
  - intros Hin. apply list_elem_of_fmap in Hin as (v & Hv & _).
    unfold Uint16 in Hv. pose proof (Z.mod_pos_bound v 65536). lia.
Qed.
End LargeDemoFacts.
